(** * Railgun: a shallow embedding of the core and its checked properties

    The development follows the layout of the repository:
    - [Js]       the JavaScript primitives the sources rely on (32-bit
                 integer operators, UTF-16 strings, typed-array stores);
    - [Sha256]   the digest of [@noble/hashes] (FIPS 180-4);
    - [Utils]    [src/core/utils.js];
    - the later modules follow the files of [src/core] and [src/index.js]. *)

From Stdlib Require Import ZArith Lia List Bool String Ascii.
From stdpp Require Import base option list sorting gmap.

Import ListNotations.
Local Open Scope Z_scope.

(* ===================================================================== *)
(** ** JavaScript primitives *)
(* ===================================================================== *)

Module Js.

(** A JavaScript string is a sequence of UTF-16 code units. *)
Abbreviation jsstring := (list Z) (only parsing).

(** A [Uint8Array] is a sequence of numbers in [0, 256). *)
Abbreviation bytes := (list Z) (only parsing).

(** Literals: an ASCII Rocq string read as a JavaScript string. *)
Definition js (s : string) : jsstring :=
  map (fun a => Z.of_N (N_of_ascii a)) (list_ascii_of_string s).

(** [ToInt32]: reduction modulo 2^32 into [-2^31, 2^31). *)
Definition toInt32 (z : Z) : Z := (z + 2147483648) mod 4294967296 - 2147483648.

(** [ToUint32]: reduction modulo 2^32. *)
Definition toUint32 (z : Z) : Z := z mod 4294967296.

(** [a << b], [a >> b], [a >>> b], [a | b], [a & b] on numbers that hold
    integers. *)
Definition shl (a b : Z) : Z := toInt32 (Z.shiftl (toInt32 a) (b mod 32)).
Definition sar (a b : Z) : Z := Z.shiftr (toInt32 a) (b mod 32).
Definition shr (a b : Z) : Z := Z.shiftr (toUint32 a) (b mod 32).
Definition bor (a b : Z) : Z := toInt32 (Z.lor (toInt32 a) (toInt32 b)).
Definition band (a b : Z) : Z := toInt32 (Z.land (toInt32 a) (toInt32 b)).

(** Storing a number into a [Uint8Array] element keeps its low byte. *)
Definition toUint8 (z : Z) : Z := z mod 256.

(** [a % b] on integers: the remainder takes the sign of the dividend. *)
Definition rem (a b : Z) : Z := Z.rem a b.

(** Decimal digits of a non-negative integer, as [Number.prototype.toString]
    prints them. *)
Fixpoint digits_fuel (fuel : nat) (z : Z) (acc : jsstring) : jsstring :=
  match fuel with
  | O => acc
  | S f =>
      let acc' := (48 + z mod 10) :: acc in
      if z <? 10 then acc' else digits_fuel f (z / 10) acc'
  end.

Definition digits (z : Z) : jsstring :=
  digits_fuel (S (Z.to_nat (Z.log2 z))) z [].

(** [n.toString()] for an integer [n]. *)
Definition Number_toString (z : Z) : jsstring :=
  if z <? 0 then 45 :: digits (- z) else digits z.

(** [s.padStart(n, '0')]. *)
Definition padStart0 (s : jsstring) (n : nat) : jsstring :=
  repeat 48 (n - length s) ++ s.

(** [s.startsWith(p)]. *)
Fixpoint startsWith (s p : jsstring) : bool :=
  match p, s with
  | [], _ => true
  | _ :: _, [] => false
  | c :: p', d :: s' => (c =? d) && startsWith s' p'
  end.

(** String equality [a === b]. *)
Definition str_eqb (a b : jsstring) : bool := bool_decide (a = b).

(** The characters a [for (const ch of s)] loop yields: a high surrogate
    followed by a low surrogate is one character of two code units, every
    other code unit is a character of its own. *)
Definition is_high (c : Z) : bool := (55296 <=? c) && (c <=? 56319).
Definition is_low (c : Z) : bool := (56320 <=? c) && (c <=? 57343).

Fixpoint chars_of (s : jsstring) : list jsstring :=
  match s with
  | [] => []
  | c :: rest =>
      match rest with
      | d :: rest' =>
          if is_high c && is_low d
          then [c; d] :: chars_of rest'
          else [c] :: chars_of rest
      | [] => [[c]]
      end
  end.


(** The outcome of a call: a value, or the exception it throws. *)
Inductive error : Type :=
  | Error (msg : string)        (* [new Error(msg)] *)
  | TypeError                   (* a property of [undefined] or [null], a non-function call *)
  | RangeError                  (* a typed-array or [DataView] access out of range *)
  | Unmodelled.                 (* the call leaves the fragment of JavaScript embedded here *)

Inductive res (A : Type) : Type :=
  | Ok (a : A)
  | Throw (e : error).
Arguments Ok {A} a.
Arguments Throw {A} e.

Definition res_bind {A B} (r : res A) (k : A -> res B) : res B :=
  match r with
  | Ok a => k a
  | Throw e => Throw e
  end.

(** Insertion sort; the order of [Array.prototype.sort] on distinct keys
    does not depend on the algorithm. *)
Fixpoint insert_by {A} (leb : A -> A -> bool) (x : A) (l : list A) : list A :=
  match l with
  | [] => [x]
  | y :: l' => if leb x y then x :: l else y :: insert_by leb x l'
  end.

Definition sort_by {A} (leb : A -> A -> bool) (l : list A) : list A :=
  fold_right (insert_by leb) [] l.

(** Strings compared as sequences of code units (the default [sort]). *)
Fixpoint str_leb (a b : jsstring) : bool :=
  match a, b with
  | [], _ => true
  | _ :: _, [] => false
  | x :: a', y :: b' => (x <? y) || ((x =? y) && str_leb a' b')
  end.

(** *** Objects

    An object is its own properties in creation order. *)
Abbreviation Obj V := (list (list Z * V)) (only parsing).

(** [o[k]] for an own property. *)
Fixpoint obj_get {V} (o : Obj V) (k : jsstring) : option V :=
  match o with
  | [] => None
  | (k', v) :: o' => if str_eqb k' k then Some v else obj_get o' k
  end.

(** [o[k] = v]: an existing property keeps its place. *)
Fixpoint obj_set {V} (o : Obj V) (k : jsstring) (v : V) : Obj V :=
  match o with
  | [] => [(k, v)]
  | (k', v') :: o' => if str_eqb k' k then (k, v) :: o' else (k', v') :: obj_set o' k v
  end.

(** A canonical array index: ["0"], or digits without a leading zero, below
    [2^32 - 1]. *)
Definition is_digit (c : Z) : bool := (48 <=? c) && (c <=? 57).

Definition array_index (k : jsstring) : option Z :=
  match k with
  | [] => None
  | c :: r =>
      if forallb is_digit k && ((negb (c =? 48)) || match r with [] => true | _ => false end)
      then
        let v := fold_left (fun acc d => acc * 10 + (d - 48)) k 0 in
        if v <? 4294967295 then Some v else None
      else None
  end.

(** [Object.keys(o)]: the array indices in ascending order, then the other
    keys in creation order. *)
Definition Object_keys {V} (o : Obj V) : list jsstring :=
  let ks := map fst o in
  let idx := filter (fun k => is_Some (array_index k)) ks in
  let others := filter (fun k => ~ is_Some (array_index k)) ks in
  sort_by (fun a b => default 0 (array_index a) <=? default 0 (array_index b)) idx ++ others.

(** *** UTF-8 ([TextEncoder], [TextDecoder])

    Both are functions of the platform; they follow the WHATWG Encoding
    Standard. *)

(** The scalar values of a string: a surrogate pair is one code point, a
    lone surrogate becomes U+FFFD. *)
Fixpoint code_points (s : jsstring) : list Z :=
  match s with
  | [] => []
  | c :: rest =>
      match rest with
      | d :: rest' =>
          if is_high c && is_low d
          then (65536 + (c - 55296) * 1024 + (d - 56320)) :: code_points rest'
          else (if is_high c || is_low c then 65533 else c) :: code_points rest
      | [] => [if is_high c || is_low c then 65533 else c]
      end
  end.

Definition utf8_of_code_point (cp : Z) : bytes :=
  if cp <? 128 then [cp]
  else if cp <? 2048 then [192 + cp / 64; 128 + cp mod 64]
  else if cp <? 65536 then [224 + cp / 4096; 128 + (cp / 64) mod 64; 128 + cp mod 64]
  else [240 + cp / 262144; 128 + (cp / 4096) mod 64; 128 + (cp / 64) mod 64; 128 + cp mod 64].

(** [new TextEncoder().encode(s)]. *)
Definition TextEncoder_encode (s : jsstring) : bytes :=
  flat_map utf8_of_code_point (code_points s).

(** The decoder state between two bytes of a sequence. *)
Record utf8_state := Utf8
  { u_cp : Z; u_needed : nat; u_lower : Z; u_upper : Z }.

(** A byte met outside a sequence: a code point, the start of a sequence,
    or an error. *)
Definition utf8_lead (b : Z) : list Z * option utf8_state :=
  if b <=? 127 then ([b], None)
  else if (194 <=? b) && (b <=? 223) then ([], Some (Utf8 (Z.land b 31) 1 128 191))
  else if (224 <=? b) && (b <=? 239) then
    ([], Some (Utf8 (Z.land b 15) 2 (if b =? 224 then 160 else 128)
                    (if b =? 237 then 159 else 191)))
  else if (240 <=? b) && (b <=? 244) then
    ([], Some (Utf8 (Z.land b 7) 3 (if b =? 240 then 144 else 128)
                    (if b =? 244 then 143 else 191)))
  else ([65533], None).

Fixpoint utf8_decode (st : option utf8_state) (bs : bytes) : list Z :=
  match bs with
  | [] => match st with Some _ => [65533] | None => [] end
  | b :: bs' =>
      match st with
      | None =>
          let '(out, st') := utf8_lead b in out ++ utf8_decode st' bs'
      | Some u =>
          if (u_lower u <=? b) && (b <=? u_upper u) then
            let cp := Z.lor (Z.shiftl (u_cp u) 6) (Z.land b 63) in
            match u_needed u with
            | 1%nat => cp :: utf8_decode None bs'
            | n => utf8_decode (Some (Utf8 cp (pred n) 128 191)) bs'
            end
          else
            (* the sequence is broken: U+FFFD, and the byte is read again *)
            let '(out, st') := utf8_lead b in
            65533 :: out ++ utf8_decode st' bs'
      end
  end.

Definition utf16_of_code_point (cp : Z) : jsstring :=
  if cp <? 65536 then [cp]
  else [55296 + (cp - 65536) / 1024; 56320 + (cp - 65536) mod 1024].

(** [new TextDecoder().decode(bytes)]: malformed input is replaced, a
    leading byte order mark is dropped. *)
Definition TextDecoder_decode (bs : bytes) : jsstring :=
  let cps := utf8_decode None bs in
  let cps' := match cps with 65279 :: r => r | _ => cps end in
  flat_map utf16_of_code_point cps'.

End Js.

(* ===================================================================== *)
(** ** SHA-256 *)
(* ===================================================================== *)

(** [sha256] of [@noble/hashes/sha2.js] is an external dependency of the
    repository; it is written here after FIPS 180-4 so that digests can be
    evaluated. A message and a digest are byte sequences. *)
Module Sha256.

(** The low thirty-two bits of a number. *)
Definition w32 (z : Z) : Z := Z.land z 4294967295.
Definition rotr (n x : Z) : Z := w32 (Z.lor (Z.shiftr x n) (Z.shiftl x (32 - n))).

Definition Ch (x y z : Z) : Z := Z.lxor (Z.land x y) (Z.land (w32 (Z.lnot x)) z).
Definition Maj (x y z : Z) : Z :=
  Z.lxor (Z.lxor (Z.land x y) (Z.land x z)) (Z.land y z).
Definition Sigma0 (x : Z) : Z := Z.lxor (Z.lxor (rotr 2 x) (rotr 13 x)) (rotr 22 x).
Definition Sigma1 (x : Z) : Z := Z.lxor (Z.lxor (rotr 6 x) (rotr 11 x)) (rotr 25 x).
Definition sigma0 (x : Z) : Z := Z.lxor (Z.lxor (rotr 7 x) (rotr 18 x)) (Z.shiftr x 3).
Definition sigma1 (x : Z) : Z := Z.lxor (Z.lxor (rotr 17 x) (rotr 19 x)) (Z.shiftr x 10).

(** The round constants: the first thirty-two bits of the fractional parts
    of the cube roots of the first sixty-four primes. *)
Definition K : list Z :=
  [
    1116352408; 1899447441; 3049323471; 3921009573;
    961987163; 1508970993; 2453635748; 2870763221;
    3624381080; 310598401; 607225278; 1426881987;
    1925078388; 2162078206; 2614888103; 3248222580;
    3835390401; 4022224774; 264347078; 604807628;
    770255983; 1249150122; 1555081692; 1996064986;
    2554220882; 2821834349; 2952996808; 3210313671;
    3336571891; 3584528711; 113926993; 338241895;
    666307205; 773529912; 1294757372; 1396182291;
    1695183700; 1986661051; 2177026350; 2456956037;
    2730485921; 2820302411; 3259730800; 3345764771;
    3516065817; 3600352804; 4094571909; 275423344;
    430227734; 506948616; 659060556; 883997877;
    958139571; 1322822218; 1537002063; 1747873779;
    1955562222; 2024104815; 2227730452; 2361852424;
    2428436474; 2756734187; 3204031479; 3329325298 ].

Record state := St
  { ha : Z; hb : Z; hc : Z; hd : Z; he : Z; hf : Z; hg : Z; hh : Z }.

(** The initial hash value: the fractional parts of the square roots of
    the first eight primes. *)
Definition H0 : state :=
  St 1779033703 3144134277 1013904242 2773480762
     1359893119 2600822924 528734635 1541459225.

(** Padding: a [0x80] byte, zero bytes up to 56 modulo 64, and the length
    in bits over eight bytes, most significant first. *)
Definition be_bytes (n : nat) (z : Z) : list Z :=
  map (fun i => Z.land (Z.shiftr z (8 * Z.of_nat i)) 255) (rev (seq 0 n)).

Definition pad (msg : list Z) : list Z :=
  let len := Z.of_nat (length msg) in
  let zeros := Z.to_nat ((55 - len) mod 64) in
  msg ++ [128] ++ repeat 0 zeros ++ be_bytes 8 (8 * len).

Definition be32 (b : list Z) : Z :=
  fold_left (fun acc x => acc * 256 + x) b 0.

(** The sixteen words of a 64-byte block. *)
Fixpoint words (n : nat) (b : list Z) : list Z :=
  match n with
  | O => []
  | S n' => be32 (firstn 4 b) :: words n' (skipn 4 b)
  end.

(** The message schedule, newest word first. *)
Fixpoint schedule (n : nat) (w : list Z) : list Z :=
  match n with
  | O => w
  | S n' =>
      let x := w32 (sigma1 (nth 1 w 0) + nth 6 w 0 + sigma0 (nth 14 w 0) + nth 15 w 0) in
      schedule n' (x :: w)
  end.

Definition round (s : state) (kw : Z * Z) : state :=
  let '(k, w) := kw in
  let t1 := w32 (hh s + Sigma1 (he s) + Ch (he s) (hf s) (hg s) + k + w) in
  let t2 := w32 (Sigma0 (ha s) + Maj (ha s) (hb s) (hc s)) in
  St (w32 (t1 + t2)) (ha s) (hb s) (hc s) (w32 (hd s + t1)) (he s) (hf s) (hg s).

Definition compress (h : state) (block : list Z) : state :=
  let w := rev (schedule 48 (rev (words 16 block))) in
  let s := fold_left round (combine K w) h in
  St (w32 (ha h + ha s)) (w32 (hb h + hb s)) (w32 (hc h + hc s)) (w32 (hd h + hd s))
     (w32 (he h + he s)) (w32 (hf h + hf s)) (w32 (hg h + hg s)) (w32 (hh h + hh s)).

Fixpoint blocks (n : nat) (h : state) (b : list Z) : state :=
  match n with
  | O => h
  | S n' => blocks n' (compress h (firstn 64 b)) (skipn 64 b)
  end.

Definition digest_bytes (s : state) : list Z :=
  be_bytes 4 (ha s) ++ be_bytes 4 (hb s) ++ be_bytes 4 (hc s) ++ be_bytes 4 (hd s) ++
  be_bytes 4 (he s) ++ be_bytes 4 (hf s) ++ be_bytes 4 (hg s) ++ be_bytes 4 (hh s).

Definition sha256 (msg : list Z) : list Z :=
  let p := pad msg in
  digest_bytes (blocks (length p / 64)%nat H0 p).

End Sha256.

(* ===================================================================== *)
(** ** [src/core/utils.js] *)
(* ===================================================================== *)

Module Utils.
Import Js.

(** *** Hexadecimal *)

Definition hex_digit (d : Z) : Z := if d <? 10 then 48 + d else 87 + d.

(** [hexTable[b]]: two lower-case digits. *)
Definition hexTable (b : Z) : jsstring := [hex_digit (b / 16); hex_digit (b mod 16)].

Definition toHex (uint8arr : bytes) : jsstring := flat_map hexTable uint8arr.

(** The value of a code unit as a digit in radix 16. *)
Definition hex_value (c : Z) : option Z :=
  if (48 <=? c) && (c <=? 57) then Some (c - 48)
  else if (97 <=? c) && (c <=? 102) then Some (c - 87)
  else if (65 <=? c) && (c <=? 70) then Some (c - 55)
  else None.

(** White space and line terminators that [parseInt] skips. *)
Definition is_space (c : Z) : bool :=
  (c =? 9) || (c =? 10) || (c =? 11) || (c =? 12) || (c =? 13) || (c =? 32) ||
  (c =? 160) || (c =? 5760) || ((8192 <=? c) && (c <=? 8202)) ||
  (c =? 8232) || (c =? 8233) || (c =? 8239) || (c =? 8287) || (c =? 12288) ||
  (c =? 65279).

Fixpoint skip_space (s : jsstring) : jsstring :=
  match s with
  | c :: s' => if is_space c then skip_space s' else s
  | [] => []
  end.

(** The longest prefix of radix-16 digits, read as a number; [None] when
    there is no digit. *)
Fixpoint hex_prefix (s : jsstring) (acc : option Z) : option Z :=
  match s with
  | c :: s' =>
      match hex_value c with
      | Some d => hex_prefix s' (Some (match acc with Some a => a * 16 + d | None => d end))
      | None => acc
      end
  | [] => acc
  end.

(** [parseInt(s, 16)]; [None] is [NaN]. *)
Definition parseInt16 (s : jsstring) : option Z :=
  let s1 := skip_space s in
  let '(sign, s2) :=
    match s1 with
    | 45 :: r => (-1, r)
    | 43 :: r => (1, r)
    | _ => (1, s1)
    end in
  let s3 :=
    match s2 with
    | 48 :: 120 :: r => r
    | 48 :: 88 :: r => r
    | _ => s2
    end in
  match hex_prefix s3 None with
  | Some v => Some (sign * v)
  | None => None
  end.

(** [u8[i] = parseInt(hexStr.substr(i * 2, 2), 16)] for every pair. *)
Fixpoint hex_pairs (s : jsstring) : bytes :=
  match s with
  | a :: b :: s' =>
      match parseInt16 [a; b] with
      | Some v => toUint8 v
      | None => 0
      end :: hex_pairs s'
  | _ => []
  end.

(** [fromHex]; [None] when it throws ['Invalid hex string']. *)
Definition fromHex (hexStr : jsstring) : option bytes :=
  if negb (Z.of_nat (length hexStr) mod 2 =? 0) then None
  else Some (hex_pairs hexStr).

(** [normalizeKey] is [key.normalize('NFKC').toLowerCase()], two functions
    of the platform.  It is a parameter of the sections that use it; this
    instance is the function on ASCII keys, on which NFKC is the identity. *)
Definition ascii_lower (c : Z) : Z :=
  if (65 <=? c) && (c <=? 90) then c + 32 else c.
Definition normalizeKey_ascii (key : jsstring) : jsstring := map ascii_lower key.

(** *** [computeSuffix] *)

(** [None] when [fromHex] throws. *)
Definition computeSuffix (pubKeyHex : jsstring) (length : nat) : option jsstring :=
  match fromHex pubKeyHex with
  | None => None
  | Some input =>
      let hashBytes := Sha256.sha256 input in
      let num :=
        bor (bor (bor (shl (nth 0 hashBytes 0) 24) (shl (nth 1 hashBytes 0) 16))
                 (shl (nth 2 hashBytes 0) 8))
            (nth 3 hashBytes 0) in
      let suffix :=
        padStart0 (Number_toString (Z.abs (rem num (10 ^ Z.of_nat length)))) length in
      Some suffix
  end.

(** The suffix as the specification words it: the first four digest bytes
    read as a big-endian unsigned 32-bit integer, modulo [10^n], padded. *)
Definition unsigned_be32 (b : bytes) : Z :=
  nth 0 b 0 * 2 ^ 24 + nth 1 b 0 * 2 ^ 16 + nth 2 b 0 * 2 ^ 8 + nth 3 b 0.

Definition deterministic_suffix (pk_bytes : bytes) (n : nat) : jsstring :=
  padStart0 (Number_toString (unsigned_be32 (Sha256.sha256 pk_bytes) mod 10 ^ Z.of_nat n)) n.

(** The same bytes read as a two's-complement integer. *)
Definition signed_be32 (b : bytes) : Z :=
  let u := unsigned_be32 b in if u <? 2 ^ 31 then u else u - 2 ^ 32.


(** *** Base64, URL-safe and without padding *)

(** The character of a six-bit value after the three [replace]s. *)
Definition b64_char (v : Z) : Z :=
  if v <? 26 then 65 + v
  else if v <? 52 then 71 + v
  else if v <? 62 then v - 4
  else if v =? 62 then 45
  else 95.

Fixpoint b64_chunks (bs : bytes) : jsstring :=
  match bs with
  | a :: b :: c :: r =>
      b64_char (a / 4) :: b64_char (a mod 4 * 16 + b / 16) ::
      b64_char (b mod 16 * 4 + c / 64) :: b64_char (c mod 64) :: b64_chunks r
  | [a; b] =>
      [b64_char (a / 4); b64_char (a mod 4 * 16 + b / 16); b64_char (b mod 16 * 4)]
  | [a] => [b64_char (a / 4); b64_char (a mod 4 * 16)]
  | [] => []
  end.

(** [toBase64]. *)
Definition toBase64 (bs : bytes) : jsstring := b64_chunks bs.

(** The six-bit value of a character, in the standard or in the URL-safe
    alphabet. *)
Definition b64_value (c : Z) : option Z :=
  if (65 <=? c) && (c <=? 90) then Some (c - 65)
  else if (97 <=? c) && (c <=? 122) then Some (c - 71)
  else if (48 <=? c) && (c <=? 57) then Some (c + 4)
  else if (c =? 45) || (c =? 43) then Some 62
  else if (c =? 95) || (c =? 47) then Some 63
  else None.

Fixpoint b64_bytes (vs : list Z) : res bytes :=
  match vs with
  | a :: b :: c :: d :: r =>
      res_bind (b64_bytes r) (fun rest =>
      Ok ((a * 4 + b / 16) :: (b mod 16 * 16 + c / 4) :: (c mod 4 * 64 + d) :: rest))
  | [a; b; c] => Ok [a * 4 + b / 16; b mod 16 * 16 + c / 4]
  | [a; b] => Ok [a * 4 + b / 16]
  | [_] => Throw Unmodelled
  | [] => Ok []
  end.

Fixpoint b64_values (s : jsstring) : res (list Z) :=
  match s with
  | [] => Ok []
  | c :: s' =>
      match b64_value c with
      | Some v => res_bind (b64_values s') (fun vs => Ok (v :: vs))
      | None => Throw Unmodelled
      end
  end.

(** [fromBase64] on strings of the two alphabets.  What the platform
    decoder does with another character, or with a single left-over
    character, depends on the platform ([Buffer] skips, [atob] throws). *)
Definition fromBase64 (base64Str : jsstring) : res bytes :=
  res_bind (b64_values base64Str) b64_bytes.

(** *** [LRUCache]

    The [Map] of the cache in insertion order, oldest entry first. *)
Section LRUCache.
Context {V : Type}.

Definition Map_get (cache : list (jsstring * V)) (key : jsstring) : option V :=
  obj_get cache key.

Definition Map_delete (cache : list (jsstring * V)) (key : jsstring) : list (jsstring * V) :=
  List.filter (fun e => negb (str_eqb (fst e) key)) cache.

(** [cache.set(key, value)] after [cache.delete(key)], then the eviction
    of the first key when the size exceeds [maxSize]. *)
Definition put_newest (maxSize : nat) (cache : list (jsstring * V)) (key : jsstring)
                      (value : V) : list (jsstring * V) :=
  let cache := Map_delete cache key ++ [(key, value)] in
  if (maxSize <? length cache)%nat then tl cache else cache.

(** [LRUCache.get]: a hit moves the entry to the newest position. *)
Definition lru_get (cache : list (jsstring * V)) (key : jsstring)
  : option V * list (jsstring * V) :=
  match Map_get cache key with
  | None => (None, cache)
  | Some value => (Some value, Map_delete cache key ++ [(key, value)])
  end.

(** [LRUCache.set]. *)
Definition lru_set (maxSize : nat) (cache : list (jsstring * V)) (key : jsstring) (value : V)
  : list (jsstring * V) :=
  put_newest maxSize cache key value.

End LRUCache.

End Utils.


(* ===================================================================== *)
(** ** Values *)
(* ===================================================================== *)

(** The values the codec, the store and the envelopes carry.  A number is
    either an integer (held exactly by the double) or a double that is not
    an integer, kept as its eight IEEE 754 bytes, most significant first. *)
Module Value.
Import Js.

#[warnings="-register-all"] Inductive JSValue : Type :=
  | JUndefined
  | JNull
  | JBool (b : bool)
  | JNum (z : Z)
  | JFloat (ieee : bytes)
  | JString (s : jsstring)
  | JBytes (b : bytes)                       (* [Uint8Array] *)
  | JArray (l : list JSValue)
  | JObject (o : list (jsstring * JSValue)).

(** Truthiness ([if (v)], [!v], [a && b]). *)
Definition truthy (v : JSValue) : bool :=
  match v with
  | JUndefined | JNull => false
  | JBool b => b
  | JNum z => negb (z =? 0)
  | JFloat ieee =>
      (* NaN is the only falsy double that is not an integer *)
      negb ((Z.land (nth 0 ieee 0) 127 =? 127) && (240 <=? nth 1 ieee 0) &&
            negb (forallb (Z.eqb 0) (Z.land (nth 1 ieee 0) 15 :: skipn 2 ieee)))
  | JString s => match s with [] => false | _ => true end
  | JBytes _ | JArray _ | JObject _ => true
  end.

(** [v.k] and [v[k]] for a string [k]: own properties of objects only
    (arrays, strings and typed arrays have no own property of the names
    read by the sources); reading a property of [undefined] or [null]
    throws. *)
Definition prop (v : JSValue) (k : jsstring) : res JSValue :=
  match v with
  | JUndefined | JNull => Throw TypeError
  | JObject o => Ok (default JUndefined (obj_get o k))
  | _ => Ok JUndefined
  end.

(** *** Doubles *)

Definition be_bytes (n : nat) (z : Z) : bytes :=
  map (fun i => (z / 2 ^ (8 * Z.of_nat i)) mod 256) (rev (seq 0 n)).

Definition be_value (b : bytes) : Z := fold_left (fun acc x => acc * 256 + x) b 0.

(** [view.setFloat64(0, z, false)] for an integer held by a double. *)
Definition float64_of_Z (z : Z) : bytes :=
  if z =? 0 then repeat 0 8
  else
    let sign := if z <? 0 then 1 else 0 in
    let a := Z.abs z in
    let e := Z.log2 a in
    let m := if e <=? 52 then a * 2 ^ (52 - e) - 2 ^ 52 else a / 2 ^ (e - 52) - 2 ^ 52 in
    be_bytes 8 (sign * 2 ^ 63 + (e + 1023) * 2 ^ 52 + m).

(** [view.getFloat64(0, false)]. *)
Definition number_of_float64 (b : bytes) : JSValue :=
  let u := be_value b in
  let sign := u / 2 ^ 63 in
  let e := (u / 2 ^ 52) mod 2 ^ 11 in
  let m := u mod 2 ^ 52 in
  let signed (v : Z) := if sign =? 1 then - v else v in
  if e =? 0 then (if m =? 0 then JNum 0 else JFloat b)
  else if e =? 2047 then JFloat b
  else
    let sig := 2 ^ 52 + m in
    if 1075 <=? e then JNum (signed (sig * 2 ^ (e - 1075)))
    else if sig mod 2 ^ (1075 - e) =? 0 then JNum (signed (sig / 2 ^ (1075 - e)))
    else JFloat b.

End Value.

(* ===================================================================== *)
(** ** [src/core/msgpack.js] *)
(* ===================================================================== *)

Module Msgpack.
Import Js Value.

(** The four bytes [(len >> 24) & 0xff, ..., len & 0xff]. *)
Definition be32_parts (len : Z) : list Z :=
  [band (sar len 24) 255; band (sar len 16) 255; band (sar len 8) 255; band len 255].

Definition encodeFloat64 (ieee : bytes) : list Z := 203 :: ieee.

Definition encodeNumber (val : Z) : list Z :=
  if 0 <=? val then
    if val <? 128 then [val]
    else if val <? 256 then [204; val]
    else if val <? 65536 then [205; sar val 8; band val 255]
    else if val <? 4294967296 then 206 :: be32_parts val
    else encodeFloat64 (float64_of_Z val)
  else
    if -32 <=? val then [band val 255]
    else if -128 <=? val then [208; band val 255]
    else if -32768 <=? val then [209; band (sar val 8) 255; band val 255]
    else 210 :: be32_parts val.

Definition encodeString (val : jsstring) : list Z :=
  let utf8 := TextEncoder_encode val in
  let len := Z.of_nat (length utf8) in
  (if len <? 32 then [bor 160 len]
   else if len <? 256 then [217; len]
   else if len <? 65536 then [218; sar len 8; band len 255]
   else 219 :: be32_parts len) ++ utf8.

Definition arrayHeader (len : Z) : list Z :=
  if len <? 16 then [bor 144 len]
  else if len <? 65536 then [220; sar len 8; band len 255]
  else 221 :: be32_parts len.

Definition binaryHeader (len : Z) : list Z :=
  if len <? 256 then [196; len]
  else if len <? 65536 then [197; sar len 8; band len 255]
  else 198 :: be32_parts len.

Definition mapHeader (len : Z) : list Z :=
  if len <? 16 then [bor 128 len]
  else if len <? 65536 then [222; sar len 8; band len 255]
  else 223 :: be32_parts len.

(** [encodeValue]: the numbers pushed on [parts].  The members of an
    object are encoded where they stand and emitted in the order of
    [Object.keys]. *)
Fixpoint encodeValue (val : JSValue) : list Z :=
  match val with
  | JNull | JUndefined => [192]
  | JBool false => [194]
  | JBool true => [195]
  | JNum z => encodeNumber z
  | JFloat ieee => encodeFloat64 ieee
  | JString s => encodeString s
  | JArray l =>
      arrayHeader (Z.of_nat (length l)) ++
      (fix each (l : list JSValue) : list Z :=
         match l with
         | [] => []
         | x :: l' => encodeValue x ++ each l'
         end) l
  | JBytes b => binaryHeader (Z.of_nat (length b)) ++ b
  | JObject o =>
      let members : Obj (list Z) :=
        (fix each (o : list (jsstring * JSValue)) : Obj (list Z) :=
           match o with
           | [] => []
           | (k, v) :: o' => (k, encodeValue v) :: each o'
           end) o in
      let keys := Object_keys o in
      mapHeader (Z.of_nat (length keys)) ++
      flat_map (fun key => encodeString key ++ default [] (obj_get members key)) keys
  end.

(** [encode]: [new Uint8Array(parts)] keeps the low byte of every part. *)
Definition encode (value : JSValue) : bytes := map toUint8 (encodeValue value).

(** [buffer[offset]] inside a bit operation: [undefined] counts as 0. *)
Definition rd (buffer : bytes) (offset : nat) : Z := default 0 (buffer !! offset).

Definition rd16 (buffer : bytes) (offset : nat) : Z :=
  bor (shl (rd buffer offset) 8) (rd buffer (offset + 1)).

(** The four-byte big-endian read before [>>> 0]. *)
Definition rd32 (buffer : bytes) (offset : nat) : Z :=
  bor (bor (bor (shl (rd buffer offset) 24) (shl (rd buffer (offset + 1)) 16))
           (shl (rd buffer (offset + 2)) 8))
      (rd buffer (offset + 3)).

(** [buffer.slice(offset, offset + len)]. *)
Definition slice (buffer : bytes) (offset : nat) (len : Z) : bytes :=
  take (Z.to_nat len) (drop offset buffer).

(** The property key a decoded map key denotes ([obj[key]]). *)
Fixpoint key_string (v : JSValue) : res jsstring :=
  match v with
  | JString s => Ok s
  | JUndefined => Ok (js "undefined")
  | JNull => Ok (js "null")
  | JBool true => Ok (js "true")
  | JBool false => Ok (js "false")
  | JNum z => Ok (Number_toString z)
  | JFloat _ => Throw Unmodelled
  | JBytes b =>
      Ok (match b with
          | [] => []
          | x :: b' => Number_toString x ++ flat_map (fun y => 44 :: Number_toString y) b'
          end)
  | JArray l =>
      (fix join (l : list JSValue) (first : bool) : res jsstring :=
         match l with
         | [] => Ok []
         | x :: l' =>
             res_bind (match x with
                       | JUndefined | JNull => Ok []
                       | _ => key_string x
                       end) (fun sx =>
             res_bind (join l' false) (fun r =>
             Ok ((if first then [] else [44]) ++ sx ++ r)))
         end) l true
  | JObject _ => Ok (js "[object Object]")
  end.

(** [obj[key] = val] on the object under construction.  Assigning to
    ["__proto__"] creates no own property (it sets the prototype when the
    value is an object). *)
Definition assign_member (obj : Obj JSValue) (key : jsstring) (val : JSValue) : Obj JSValue :=
  if str_eqb key (js "__proto__") then obj else obj_set obj key val.

(** [decodeValue], [decodeArray] and [decodeMap], reading [buffer] from
    [offset]; they return the value and the offset after it.  Every call
    and every loop iteration uses one unit of [fuel]. *)
Fixpoint decodeValue (fuel : nat) (buffer : bytes) (offset : nat)
  : res (JSValue * nat) :=
  match fuel with
  | O => Throw Unmodelled
  | S fuel =>
      let decodeString (len : Z) (offset : nat) : res (JSValue * nat) :=
        Ok (JString (TextDecoder_decode (slice buffer offset len)), (offset + Z.to_nat len)%nat) in
      let decodeBinary (len : Z) (offset : nat) : res (JSValue * nat) :=
        Ok (JBytes (slice buffer offset len), (offset + Z.to_nat len)%nat) in
      let decodeArray (len : Z) (offset : nat) : res (JSValue * nat) :=
        res_bind (decodeItems fuel buffer len offset [])
                 (fun r => Ok (JArray (fst r), snd r)) in
      let decodeMap (len : Z) (offset : nat) : res (JSValue * nat) :=
        res_bind (decodeMembers fuel buffer len offset [])
                 (fun r => Ok (JObject (fst r), snd r)) in
      match buffer !! offset with
      | None => Throw TypeError
      | Some byte =>
          let offset := S offset in
          if byte <? 128 then Ok (JNum byte, offset)
          else if band byte 240 =? 128 then decodeMap (band byte 15) offset
          else if band byte 240 =? 144 then decodeArray (band byte 15) offset
          else if band byte 224 =? 160 then decodeString (band byte 31) offset
          else if 224 <=? byte then Ok (JNum (byte - 256), offset)
          else if byte =? 192 then Ok (JNull, offset)
          else if byte =? 194 then Ok (JBool false, offset)
          else if byte =? 195 then Ok (JBool true, offset)
          else if byte =? 204 then
            Ok (match buffer !! offset with Some b => JNum b | None => JUndefined end, S offset)
          else if byte =? 205 then Ok (JNum (rd16 buffer offset), (offset + 2)%nat)
          else if byte =? 206 then Ok (JNum (toUint32 (rd32 buffer offset)), (offset + 4)%nat)
          else if byte =? 208 then Ok (JNum (sar (shl (rd buffer offset) 24) 24), S offset)
          else if byte =? 209 then Ok (JNum (rd16 buffer offset), (offset + 2)%nat)
          else if byte =? 210 then Ok (JNum (rd32 buffer offset), (offset + 4)%nat)
          else if byte =? 203 then
            if (length buffer <? offset + 8)%nat then Throw RangeError
            else Ok (number_of_float64 (slice buffer offset 8), (offset + 8)%nat)
          else if byte =? 217 then decodeString (rd buffer offset) (S offset)
          else if byte =? 218 then decodeString (rd16 buffer offset) (offset + 2)%nat
          else if byte =? 219 then decodeString (toUint32 (rd32 buffer offset)) (offset + 4)%nat
          else if byte =? 196 then decodeBinary (rd buffer offset) (S offset)
          else if byte =? 197 then decodeBinary (rd16 buffer offset) (offset + 2)%nat
          else if byte =? 198 then decodeBinary (toUint32 (rd32 buffer offset)) (offset + 4)%nat
          else if byte =? 220 then decodeArray (rd16 buffer offset) (offset + 2)%nat
          else if byte =? 221 then decodeArray (toUint32 (rd32 buffer offset)) (offset + 4)%nat
          else if byte =? 222 then decodeMap (rd16 buffer offset) (offset + 2)%nat
          else if byte =? 223 then decodeMap (toUint32 (rd32 buffer offset)) (offset + 4)%nat
          else Throw (Error "Unknown MessagePack type")
      end
  end
with decodeItems (fuel : nat) (buffer : bytes) (len : Z) (offset : nat)
                 (arr : list JSValue) : res (list JSValue * nat) :=
  match fuel with
  | O => Throw Unmodelled
  | S fuel =>
      if len <=? 0 then Ok (arr, offset)
      else
        res_bind (decodeValue fuel buffer offset) (fun r =>
        decodeItems fuel buffer (len - 1) (snd r) (arr ++ [fst r]))
  end
with decodeMembers (fuel : nat) (buffer : bytes) (len : Z) (offset : nat)
                   (obj : Obj JSValue) : res (Obj JSValue * nat) :=
  match fuel with
  | O => Throw Unmodelled
  | S fuel =>
      if len <=? 0 then Ok (obj, offset)
      else
        res_bind (decodeValue fuel buffer offset) (fun rk =>
        res_bind (decodeValue fuel buffer (snd rk)) (fun rv =>
        res_bind (key_string (fst rk)) (fun key =>
        decodeMembers fuel buffer (len - 1) (snd rv) (assign_member obj key (fst rv)))))
  end.

(** [decode]: a value that decodes consumes a byte, so [2 * length + 2]
    units of fuel are never used up. *)
Definition decode (buffer : bytes) : res JSValue :=
  res_bind (decodeValue (2 * length buffer + 2) buffer 0) (fun r => Ok (fst r)).

End Msgpack.

(* ===================================================================== *)
(** ** The platform *)
(* ===================================================================== *)

(** What the sources take from the JavaScript runtime and from their
    dependencies, and what the embedding therefore leaves open:
    [String.prototype.normalize] and [toLowerCase], [JSON],
    [fast-json-stable-stringify], Ed25519 of [@noble/ed25519] and AES-GCM of
    [crypto.subtle].  Keys, messages and signatures are byte sequences. *)
Module Platform.
Import Js Value.

Class Platform : Type :=
  { String_normalize_NFKC : jsstring -> jsstring;
    String_toLowerCase : jsstring -> jsstring;
    (** [JSON.stringify(v)]; [None] is [undefined]. *)
    JSON_stringify : JSValue -> option jsstring;
    JSON_parse : jsstring -> res JSValue;
    (** [stringify(v)] of [fast-json-stable-stringify]. *)
    stable_stringify : JSValue -> jsstring;
    (** [ed.signAsync(message, privateKey)]. *)
    ed_signAsync : bytes -> bytes -> res bytes;
    (** [ed.verifyAsync(signature, message, publicKey)]. *)
    ed_verifyAsync : bytes -> bytes -> bytes -> res bool;
    (** [crypto.subtle.encrypt({name: 'AES-GCM', iv}, key, data)] with the
        raw key imported by [importKey]. *)
    aes_gcm_encrypt : bytes -> bytes -> bytes -> res bytes;
    aes_gcm_decrypt : bytes -> bytes -> bytes -> res bytes }.

End Platform.

(* ===================================================================== *)
(** ** [src/core/crypto.js] and the rest of [src/core/utils.js] *)
(* ===================================================================== *)

Module Crypto.
Import Js Value Utils Platform.

Section WithPlatform.
Context {P : Platform}.

(** [canonicalize]. *)
Definition canonicalize (value : JSValue) : jsstring := stable_stringify value.

(** [normalizeKey]. *)
Definition normalizeKey (key : jsstring) : jsstring :=
  String_toLowerCase (String_normalize_NFKC key).

Definition fromHex_or_throw (hexStr : jsstring) : res bytes :=
  match fromHex hexStr with
  | Some b => Ok b
  | None => Throw (Error "Invalid hex string")
  end.

(** [sign(message, privateKeyHex)] for a string [message]. *)
Definition sign (message privateKeyHex : jsstring) : res jsstring :=
  let msgBytes := TextEncoder_encode message in
  res_bind (fromHex_or_throw privateKeyHex) (fun key =>
  res_bind (ed_signAsync msgBytes key) (fun sig =>
  Ok (toHex sig))).

(** [verify(signatureHex, message, publicKeyHex)]. *)
Definition verify (signatureHex message publicKeyHex : jsstring) : res bool :=
  let msgBytes := TextEncoder_encode message in
  res_bind (fromHex_or_throw signatureHex) (fun sig =>
  res_bind (fromHex_or_throw publicKeyHex) (fun pk =>
  ed_verifyAsync sig msgBytes pk)).

Definition IV_LEN : nat := 12.

(** [encryptData(data, keyRawHex)] for a string key; [iv] is the outcome of
    [crypto.getRandomValues].  [data] is [None] when the caller passes
    [undefined]. *)
Definition encryptData (data : option jsstring) (keyRawHex : jsstring) (iv : bytes)
  : res jsstring :=
  res_bind (fromHex_or_throw keyRawHex) (fun key =>
  match data with
  | None => Throw TypeError
  | Some data =>
      let encodedData := TextEncoder_encode data in
      res_bind (aes_gcm_encrypt key iv encodedData) (fun encrypted =>
      Ok (toHex (iv ++ encrypted)))
  end).

(** [decryptData(encryptedHex, keyRawHex)]. *)
Definition decryptData (encryptedHex keyRawHex : jsstring) : res jsstring :=
  res_bind (fromHex_or_throw keyRawHex) (fun key =>
  res_bind (fromHex_or_throw encryptedHex) (fun raw =>
  let iv := take IV_LEN raw in
  let ciphertext := drop IV_LEN raw in
  res_bind (aes_gcm_decrypt key iv ciphertext) (fun decrypted =>
  Ok (TextDecoder_decode decrypted)))).

End WithPlatform.

End Crypto.

(* ===================================================================== *)
(** ** [src/core/claims.js] *)
(* ===================================================================== *)

Module ClaimManager.
Import Js Value Utils Platform Crypto.

(** A username claim. *)
Record Claim : Type := MkClaim
  { username : jsstring;
    pubKey : jsstring;
    createdAt : Z;
    revoked : bool;
    signature : jsstring }.

Section WithPlatform.
Context {P : Platform}.

(** The object that is signed:
    [{username, pubKey, createdAt, revoked}]. *)
Definition claim_payload (username pubKey : jsstring) (createdAt : Z) (revoked : bool)
  : JSValue :=
  JObject [ (js "username", JString username); (js "pubKey", JString pubKey);
            (js "createdAt", JNum createdAt); (js "revoked", JBool revoked) ].

(** [createClaim(username, publicKey, privateKey)] at time [now]. *)
Definition createClaim (username publicKey privateKey : jsstring) (now : Z) : res Claim :=
  let payloadStr := canonicalize (claim_payload username publicKey now false) in
  res_bind (sign payloadStr privateKey) (fun sig =>
  Ok (MkClaim username publicKey now false sig)).

(** The signature check of [resolveWinner], exceptions caught. *)
Definition claim_isValid (claim : Claim) : bool :=
  let payloadStr :=
    canonicalize (claim_payload (username claim) (pubKey claim) (createdAt claim)
                                (revoked claim || false)) in
  match verify (signature claim) payloadStr (pubKey claim) with
  | Ok isValid => isValid
  | Throw _ => false
  end.

(** [resolveWinner(claims)]; [None] is [null]. *)
Definition resolveWinner (claims : list Claim) : option Claim :=
  match claims with
  | [] => None
  | _ =>
      let activeClaims := List.filter (fun c => negb (revoked c)) claims in
      match activeClaims with
      | [] => None
      | _ =>
          let validClaims := List.filter claim_isValid activeClaims in
          match validClaims with
          | [] => None
          | first :: others =>
              Some (fold_left
                      (fun earliest current =>
                         if createdAt current <? createdAt earliest then current else earliest)
                      others first)
          end
      end
  end.

End WithPlatform.

(** A claim that takes part in the resolution: not revoked and validly
    signed. *)
Definition eligible `{Platform} (c : Claim) : bool := negb (revoked c) && claim_isValid c.

(** The result as the specification words it: among the claims that are
    not revoked and validly signed, the one with the smallest [createdAt],
    ties broken by the signature bytes. *)
Definition earlier_or_smaller_signature (a b : Claim) : bool :=
  (createdAt a <? createdAt b) ||
  ((createdAt a =? createdAt b) && str_leb (signature a) (signature b)).

Definition resolve_winner_spec `{Platform} (claims : list Claim) : option Claim :=
  match List.filter eligible claims with
  | [] => None
  | first :: others =>
      Some (fold_left
              (fun best c => if earlier_or_smaller_signature c best then c else best)
              others first)
  end.

End ClaimManager.


(* ===================================================================== *)
(** ** [src/core/binary-node.js] *)
(* ===================================================================== *)

Module BinaryNode.
Import Js Utils.

(** A node: [value] is the reference key of its value or [null],
    [children] maps a character to the digest of a node.  [_hasValue] is
    the flag that [BinaryTrie.put] sets on the node it writes. *)
Record node : Type := Node
  { value : option jsstring;
    children : Obj jsstring;
    _hasValue : bool }.

(** [new BinaryNode()] and [new BinaryNode(value, children)]. *)
Definition empty : node := Node None [] false.
Definition make (value : option jsstring) (children : Obj jsstring) : node :=
  Node value children false.

(** [buffer.set(array, offset)]. *)
Definition set_at (buffer array : bytes) (offset : nat) : res bytes :=
  if (length buffer <? offset + length array)%nat then Throw RangeError
  else Ok (take offset buffer ++ array ++ drop (offset + length array) buffer).

(** [char.charCodeAt(0)] stored in a byte: [NaN] is stored as 0. *)
Definition charCode_byte (char : jsstring) : Z :=
  match char with
  | c :: _ => toUint8 c
  | [] => 0
  end.

(** The loop over [childKeys]: the buffer and the offset after it. *)
Fixpoint write_children (children : Obj jsstring) (childKeys : list jsstring)
                        (buffer : bytes) (offset : nat) : res bytes :=
  match childKeys with
  | [] => Ok buffer
  | char :: rest =>
      let buffer := <[offset := charCode_byte char]> buffer in
      let offset := S offset in
      match obj_get children char with
      | None => Throw TypeError
      | Some hashB64 =>
          res_bind (fromBase64 hashB64) (fun hashBytes =>
          res_bind (set_at buffer hashBytes offset) (fun buffer =>
          write_children children rest buffer (offset + 32)))
      end
  end.

(** [serialize]. *)
Definition serialize (n : node) : res bytes :=
  let childKeys := sort_by str_leb (Object_keys (children n)) in
  let numChildren := Z.of_nat (length childKeys) in
  let hasValue := match value n with Some _ => true | None => false end in
  let isExtendedCount := 127 <=? numChildren in
  let valueBytes := option_map TextEncoder_encode (value n) in
  let size :=
    (1 + (if isExtendedCount then 2 else 0)
       + match valueBytes with Some vb => 2 + length vb | None => 0 end
       + length childKeys * 33)%nat in
  let buffer := repeat 0 size in
  let flags := if hasValue then 1 else 0 in
  let flags := bor flags (shl (if isExtendedCount then 127 else numChildren) 1) in
  let buffer := <[0%nat := toUint8 flags]> buffer in
  let offset := 1%nat in
  let '(buffer, offset) :=
    if isExtendedCount
    then (<[S offset := toUint8 (band numChildren 255)]>
            (<[offset := toUint8 (band (sar numChildren 8) 255)]> buffer), (offset + 2)%nat)
    else (buffer, offset) in
  res_bind
    match valueBytes with
    | Some vb =>
        let len := Z.of_nat (length vb) in
        let buffer := <[offset := toUint8 (band (sar len 8) 255)]> buffer in
        let buffer := <[S offset := toUint8 (band len 255)]> buffer in
        res_bind (set_at buffer vb (offset + 2)) (fun buffer =>
        Ok (buffer, (offset + 2 + length vb)%nat))
    | None => Ok (buffer, offset)
    end (fun bo =>
  write_children (children n) childKeys (fst bo) (snd bo)).

(** [buffer[i]] where the bounds were checked. *)
Definition at_ (buffer : bytes) (i : nat) : Z := default 0 (buffer !! i).

(** The loop of [deserialize] over the children. *)
Fixpoint read_children (numChildren : nat) (buffer : bytes) (offset : nat)
                       (children : Obj jsstring) : res (Obj jsstring) :=
  match numChildren with
  | O => Ok children
  | S rest =>
      if (length buffer <=? offset)%nat
      then Throw (Error "Invalid binary node: truncated children")
      else
        let char := [at_ buffer offset] in
        let offset := S offset in
        if (length buffer <? offset + 32)%nat
        then Throw (Error "Invalid binary node: truncated hash")
        else
          let hashBytes := take 32 (drop offset buffer) in
          let hashB64 := toBase64 hashBytes in
          read_children rest buffer (offset + 32) (obj_set children char hashB64)
  end.

(** [BinaryNode.deserialize]. *)
Definition deserialize (buffer : bytes) : res node :=
  if (length buffer <? 1)%nat then Throw (Error "Invalid binary node: too short")
  else
    let flags := at_ buffer 0 in
    let hasValue := negb (band flags 1 =? 0) in
    let numChildren := band (sar flags 1) 127 in
    let offset := 1%nat in
    res_bind
      (if numChildren =? 127 then
         if (length buffer <? offset + 2)%nat
         then Throw (Error "Invalid binary node: truncated extended count")
         else Ok (bor (shl (at_ buffer offset) 8) (at_ buffer (S offset)), (offset + 2)%nat)
       else Ok (numChildren, offset)) (fun co =>
    let numChildren := fst co in
    let offset := snd co in
    res_bind
      (if hasValue then
         if (length buffer <? offset + 2)%nat
         then Throw (Error "Invalid binary node: truncated value length")
         else
           let len := Z.to_nat (bor (shl (at_ buffer offset) 8) (at_ buffer (S offset))) in
           let offset := (offset + 2)%nat in
           if (length buffer <? offset + len)%nat
           then Throw (Error "Invalid binary node: truncated value")
           else
             let valueBytes := take len (drop offset buffer) in
             Ok (Some (TextDecoder_decode valueBytes), (offset + len)%nat)
       else Ok (None, offset)) (fun vo =>
    res_bind (read_children (Z.to_nat numChildren) buffer (snd vo) []) (fun children =>
    Ok (make (fst vo) children)))).


(** [hasValue]. *)
Definition hasValue (n : node) : bool :=
  match value n with Some _ => true | None => _hasValue n end.


(** *** The serialized form, as the format comment of the file lays it out

    [[1 byte flags][optional ext. count][optional value data]
     [N * (1 byte char + 32 byte hash)]]. *)

Definition sorted_keys (n : node) : list jsstring :=
  sort_by str_leb (Object_keys (children n)).

(** The bytes of the digest stored under a key. *)
Definition digest_bytes (children : Obj jsstring) (k : jsstring) : bytes :=
  match obj_get children k with
  | Some h => match fromBase64 h with Ok bs => bs | Throw _ => [] end
  | None => []
  end.

Definition entry (children : Obj jsstring) (k : jsstring) : bytes :=
  charCode_byte k :: digest_bytes children k.

(** A length in two bytes, most significant first. *)
Definition u16 (x : Z) : bytes :=
  [toUint8 (band (sar x 8) 255); toUint8 (band x 255)].

Definition flags_byte (hasValue : bool) (count : Z) : Z :=
  toUint8 (bor (if hasValue then 1 else 0) (shl (if 127 <=? count then 127 else count) 1)).

Definition layout (n : node) : bytes :=
  let count := Z.of_nat (length (sorted_keys n)) in
  [flags_byte (match value n with Some _ => true | None => false end) count] ++
  (if 127 <=? count then u16 count else []) ++
  match value n with
  | Some s => u16 (Z.of_nat (length (TextEncoder_encode s))) ++ TextEncoder_encode s
  | None => []
  end ++
  flat_map (entry (children n)) (sorted_keys n).

(** The children that [deserialize] rebuilds from the serialized form:
    every key comes back as the character of its low byte. *)
Definition low_byte_children (n : node) : Obj jsstring :=
  fold_left
    (fun o k => obj_set o [charCode_byte k] (toBase64 (digest_bytes (children n) k)))
    (sorted_keys n) [].

(** Two nodes with the same value reference and the same children,
    whatever the order in which the children were added. *)
Definition same_node (a b : node) : Prop :=
  value a = value b /\ forall char, obj_get (children a) char = obj_get (children b) char.

(** A digest as text: the base64 form of thirty-two bytes. *)
Definition is_digest (h : jsstring) : Prop :=
  exists bs, length bs = 32%nat /\ Forall (fun b => 0 <= b < 256) bs /\ h = toBase64 bs.

(** A value reference that survives the UTF-8 round trip and whose length
    fits the two-byte field. *)
Definition value_ok (v : option jsstring) : Prop :=
  match v with
  | None => True
  | Some s =>
      TextDecoder_decode (TextEncoder_encode s) = s /\
      Z.of_nat (length (TextEncoder_encode s)) < 65536
  end.

(** The nodes of the data model: distinct children, each under a single
    code unit, each a digest; fewer than 65536 of them. *)
Record well_formed (n : node) : Prop :=
  { wf_keys : NoDup (map fst (children n));
    wf_units : forall k h, In (k, h) (children n) -> exists c, k = [c] /\ 0 <= c < 65536;
    wf_digests : forall k h, In (k, h) (children n) -> is_digest h;
    wf_count : Z.of_nat (length (children n)) < 65536;
    wf_value : value_ok (value n) }.

(** The nodes whose characters fit the one byte of the format. *)
Definition byte_keys (n : node) : Prop :=
  forall k h, In (k, h) (children n) -> exists c, k = [c] /\ 0 <= c < 256.

End BinaryNode.

(* ===================================================================== *)
(** ** State and exceptions *)
(* ===================================================================== *)

(** A method that reads and updates the fields of an object and may throw:
    a function from the state to an outcome and the state after it (the
    effects before a [throw] stay). *)
Module Monad.
Import Js.

Definition M (S A : Type) : Type := S -> res A * S.

Definition ret {S A} (a : A) : M S A := fun s => (Ok a, s).

Definition throw {S A} (e : error) : M S A := fun s => (Throw e, s).

Definition bind {S A B} (m : M S A) (k : A -> M S B) : M S B :=
  fun s =>
    match m s with
    | (Ok a, s') => k a s'
    | (Throw e, s') => (Throw e, s')
    end.

(** A computation without effect on the state. *)
Definition lift {S A} (r : res A) : M S A := fun s => (r, s).

Definition gets {S A} (f : S -> A) : M S A := fun s => (Ok (f s), s).

Definition modify {S} (f : S -> S) : M S unit := fun s => (Ok tt, f s).

Declare Scope monad_scope.
Delimit Scope monad_scope with monad.
Notation "x <- m ;; k" := (bind m (fun x => k))
  (at level 100, m at next level, right associativity) : monad_scope.
Notation "m ;;; k" := (bind m (fun _ => k))
  (at level 100, right associativity) : monad_scope.

End Monad.

(* ===================================================================== *)
(** ** [src/storage/memory.js], [src/core/value-store.js] and
       [src/core/binary-trie.js] *)
(* ===================================================================== *)

Module BinaryTrie.
Import Js Utils Value Platform Crypto BinaryNode Monad.
Local Open Scope monad_scope.

(** What the byte store holds under a key: the bytes of a node or of a
    value, or a string (the head pointer, the identity record). *)
Inductive stored : Type :=
  | Bytes (b : bytes)
  | Text (s : jsstring).

(** The trie with its value store and the [MemoryStorage] both share.
    [rootHash] and the [hash] of [rootCache] are [None] for [null]. *)
Record trie : Type := Trie
  { storage : list (jsstring * stored);
    rootHash : option jsstring;
    nodeCache : list (jsstring * node);
    rootCache : option (option jsstring * node);
    valueCache : list (jsstring * JSValue);
    (** the [nodesToSave] array that the last [put] handed to the store *)
    lastBatch : list (jsstring * bytes) }.

Definition nodeCache_maxSize : nat := 1000.
Definition valueCache_maxSize : nat := 500.

(** [new BinaryTrie(new MemoryStorage())]. *)
Definition new_trie : trie := Trie [] None [] None [] [].

Definition with_storage (f : list (jsstring * stored) -> list (jsstring * stored))
                        (t : trie) : trie :=
  Trie (f (storage t)) (rootHash t) (nodeCache t) (rootCache t) (valueCache t) (lastBatch t).
Definition with_rootHash (h : option jsstring) (t : trie) : trie :=
  Trie (storage t) h (nodeCache t) (rootCache t) (valueCache t) (lastBatch t).
Definition with_nodeCache (f : list (jsstring * node) -> list (jsstring * node))
                          (t : trie) : trie :=
  Trie (storage t) (rootHash t) (f (nodeCache t)) (rootCache t) (valueCache t) (lastBatch t).
Definition with_rootCache (c : option (option jsstring * node)) (t : trie) : trie :=
  Trie (storage t) (rootHash t) (nodeCache t) c (valueCache t) (lastBatch t).
Definition with_valueCache (f : list (jsstring * JSValue) -> list (jsstring * JSValue))
                           (t : trie) : trie :=
  Trie (storage t) (rootHash t) (nodeCache t) (rootCache t) (f (valueCache t)) (lastBatch t).
Definition with_lastBatch (b : list (jsstring * bytes)) (t : trie) : trie :=
  Trie (storage t) (rootHash t) (nodeCache t) (rootCache t) (valueCache t) b.

(** [MemoryStorage.get]: [this.store.get(hash) || null]. *)
Definition storage_get (hash : jsstring) : M trie (option stored) :=
  gets (fun t =>
    match obj_get (storage t) hash with
    | Some (Text []) => None
    | r => r
    end).

(** [MemoryStorage.put]. *)
Definition storage_put (hash : jsstring) (data : stored) : M trie unit :=
  modify (with_storage (fun st => obj_set st hash data)).

(** [this.nodeCache.get(key)] and [this.nodeCache.set(key, node)]. *)
Definition nodeCache_get (key : jsstring) : M trie (option node) :=
  fun t =>
    let '(r, c) := lru_get (nodeCache t) key in
    (Ok r, with_nodeCache (fun _ => c) t).

Definition nodeCache_set (key : jsstring) (n : node) : M trie unit :=
  modify (with_nodeCache (fun c => lru_set nodeCache_maxSize c key n)).

(** [hash(data)] of [crypto.js] on bytes. *)
Definition hash (data : bytes) : jsstring := toBase64 (Sha256.sha256 data).

(** *** [ValueStore] *)

Definition valuePrefix : jsstring := js "v:".

Definition addToCache (key : jsstring) (value : JSValue) : M trie unit :=
  modify (with_valueCache (fun c => put_newest valueCache_maxSize c key value)).

(** [ValueStore.put]; [None] is the [null] returned for [null] and
    [undefined]. *)
Definition valueStore_put (value : JSValue) : M trie (option jsstring) :=
  match value with
  | JNull | JUndefined => ret None
  | _ =>
      let encoded := Msgpack.encode value in
      let valueHash := hash encoded in
      let key := valuePrefix ++ valueHash in
      existing <- storage_get key ;;
      match existing with
      | None => storage_put key (Bytes encoded)
      | Some _ => ret tt
      end ;;;
      addToCache key value ;;;
      ret (Some key)
  end.

(** [ValueStore.get]. *)
Definition valueStore_get (key : option jsstring) : M trie JSValue :=
  match key with
  | None | Some [] => ret JNull
  | Some key =>
      cached <- gets (fun t => Map_get (valueCache t) key) ;;
      match cached with
      | Some value => ret value
      | None =>
          encoded <- storage_get key ;;
          match encoded with
          | None => ret JNull
          | Some (Text _) => throw Unmodelled
          | Some (Bytes encoded) =>
              value <- lift (Msgpack.decode encoded) ;;
              addToCache key value ;;;
              ret value
          end
      end
  end.

(** *** [BinaryTrie] *)

(** [BinaryNode.deserialize(buffer)] on what the store returned. *)
Definition deserialize_stored (buffer : stored) : M trie node :=
  match buffer with
  | Bytes b => lift (deserialize b)
  | Text _ => throw Unmodelled
  end.

(** The part of [getRoot] after a cache miss. *)
Definition loadRoot : M trie node :=
  fun t =>
    match rootHash t with
    | None | Some [] => (Ok empty, with_rootCache (Some (None, empty)) t)
    | Some rh =>
        (buffer <- storage_get rh ;;
         match buffer with
         | None => modify (with_rootCache (Some (None, empty))) ;;; ret empty
         | Some buffer =>
             n <- deserialize_stored buffer ;;
             modify (with_rootCache (Some (Some rh, n))) ;;; ret n
         end) t
    end.

(** [getRoot]. *)
Definition getRoot : M trie node :=
  fun t =>
    match rootCache t with
    | Some (h, n) => if bool_decide (h = rootHash t) then (Ok n, t) else loadRoot t
    | None => loadRoot t
    end.

(** The loop of [get] over the characters of the path; [None] is the
    early [return null]. *)
Fixpoint walk (chars : list jsstring) (currentNode : node) : M trie (option node) :=
  match chars with
  | [] => ret (Some currentNode)
  | char :: rest =>
      match obj_get (children currentNode) char with
      | None | Some [] => ret None
      | Some childHash =>
          cached <- nodeCache_get childHash ;;
          match cached with
          | Some n => walk rest n
          | None =>
              childBuffer <- storage_get childHash ;;
              match childBuffer with
              | None => ret None
              | Some childBuffer =>
                  n <- deserialize_stored childBuffer ;;
                  nodeCache_set childHash n ;;;
                  walk rest n
              end
          end
      end
  end.

Section WithPlatform.
Context {P : Platform}.

(** [get(key)]; the result is [JNull] when nothing is found. *)
Definition get (key : jsstring) : M trie JSValue :=
  let path := normalizeKey key in
  root <- getRoot ;;
  found <- walk (chars_of path) root ;;
  match found with
  | None => ret JNull
  | Some currentNode =>
      if hasValue currentNode then valueStore_get (value currentNode) else ret JNull
  end.

(** The first loop of [put]: the copies of the nodes along the path,
    pushed on the stack. *)
Fixpoint descend (chars : list jsstring) (currentNode : node) (stack : list node)
  : M trie (list node) :=
  match chars with
  | [] => ret stack
  | char :: rest =>
      childNode <-
        match obj_get (children currentNode) char with
        | None | Some [] => ret empty
        | Some childHash =>
            cached <- nodeCache_get childHash ;;
            childNode <-
              match cached with
              | Some n => ret n
              | None =>
                  childBuffer <- storage_get childHash ;;
                  match childBuffer with
                  | None => ret empty
                  | Some childBuffer =>
                      n <- deserialize_stored childBuffer ;;
                      nodeCache_set childHash n ;;;
                      ret n
                  end
              end ;;
            ret (make (value childNode) (children childNode))
        end ;;
      descend rest childNode (stack ++ [childNode])
  end.

(** The object of the leaf is shared by the stack and by the cache entry
    made for it: a later assignment to its [children] shows through the
    entry. *)
Definition alias_update (key : jsstring) (n : node) : M trie unit :=
  modify (with_nodeCache
            (map (fun e => if str_eqb (fst e) key then (fst e, n) else e))).

(** The second loop of [put], for [i] from [count - 1] down to 0:
    [stack[i]] is [undefined] when the path has more code units than
    characters. *)
Fixpoint ascend (count : nat) (path : jsstring) (stack : list node)
                (childHash leafHash : jsstring) (nodesToSave : list (jsstring * bytes))
  : M trie (list node * jsstring * list (jsstring * bytes)) :=
  match count with
  | O => ret (stack, childHash, nodesToSave)
  | S i =>
      match stack !! i with
      | None => throw TypeError
      | Some parent =>
          let char := [nth i path 0] in
          let parent := Node (value parent) (obj_set (children parent) char childHash)
                             (_hasValue parent) in
          let stack := <[i := parent]> stack in
          (if (S i =? length stack)%nat then alias_update leafHash parent else ret tt) ;;;
          serialized <- lift (serialize parent) ;;
          let childHash := hash serialized in
          nodeCache_set childHash parent ;;;
          ascend i path stack childHash leafHash (nodesToSave ++ [(childHash, serialized)])
      end
  end.

(** The writes of [nodesToSave] ([MemoryStorage] has no [putBatch]). *)
Fixpoint save_nodes (nodesToSave : list (jsstring * bytes)) : M trie unit :=
  match nodesToSave with
  | [] => ret tt
  | (h, data) :: rest => storage_put h (Bytes data) ;;; save_nodes rest
  end.

(** [put(key, value)]: the new root digest. *)
Definition put (key : jsstring) (val : JSValue) : M trie jsstring :=
  let path := normalizeKey key in
  oldRoot <- getRoot ;;
  let currentNode := make (value oldRoot) (children oldRoot) in
  stack <- descend (chars_of path) currentNode [currentNode] ;;
  valueKey <- valueStore_put val ;;
  match stack !! (length stack - 1)%nat with
  | None => throw TypeError
  | Some leaf =>
      let leaf := Node valueKey (children leaf) true in
      let stack := <[(length stack - 1)%nat := leaf]> stack in
      serialized <- lift (serialize leaf) ;;
      let childHash := hash serialized in
      nodeCache_set childHash leaf ;;;
      r <- ascend (length path) path stack childHash childHash [(childHash, serialized)] ;;
      let '(stack, childHash, nodesToSave) := r in
      modify (with_lastBatch nodesToSave) ;;;
      save_nodes nodesToSave ;;;
      modify (with_rootHash (Some childHash)) ;;;
      match stack !! 0%nat with
      | None => throw TypeError
      | Some root => modify (with_rootCache (Some (Some childHash, root)))
      end ;;;
      ret childHash
  end.

End WithPlatform.

End BinaryTrie.

(* ===================================================================== *)
(** ** [src/index.js] *)
(* ===================================================================== *)

(** The coordinator, without a network ([this.network] is [null]): a
    single instance over its own store. *)
Module Railgun.
Import Js Utils Value Platform Crypto BinaryNode Monad.
Local Open Scope monad_scope.

(** [this.identity] and [this.runtime]. *)
Record Identity : Type := MkIdentity
  { publicKey : jsstring;
    encryptedPrivateKey : jsstring;
    encryptedDataKey : jsstring;
    displayName : option jsstring }.

Record Runtime : Type := MkRuntime
  { privateKey : jsstring;
    dataKey : jsstring }.

(** What [events.emit] hands to the subscriptions. *)
Record Event : Type := MkEvent
  { ev_path : jsstring;
    ev_space : jsstring;
    ev_author : jsstring;
    ev_timestamp : Z;
    ev_remote : bool;
    ev_value : option JSValue }.

(** The instance.  [emitted] is the log of the events emitted so far. *)
Record db : Type := Db
  { trie : BinaryTrie.trie;
    identity : option Identity;
    runtime : option Runtime;
    pendingHead : option jsstring;
    headSaveCount : Z;
    headSaveTimer : bool;
    emitted : list Event }.

Definition headSaveBatchSize : Z := 5.

(** [new Railgun(new MemoryStorage())]. *)
Definition new_db : db := Db BinaryTrie.new_trie None None None 0 false [].

Definition with_trie (t : BinaryTrie.trie) (d : db) : db :=
  Db t (identity d) (runtime d) (pendingHead d) (headSaveCount d) (headSaveTimer d) (emitted d).
Definition with_head (p : option jsstring) (c : Z) (timer : bool) (d : db) : db :=
  Db (trie d) (identity d) (runtime d) p c timer (emitted d).
Definition with_login (i : option Identity) (r : option Runtime) (d : db) : db :=
  Db (trie d) i r (pendingHead d) (headSaveCount d) (headSaveTimer d) (emitted d).
Definition with_emitted (e : list Event) (d : db) : db :=
  Db (trie d) (identity d) (runtime d) (pendingHead d) (headSaveCount d) (headSaveTimer d) e.

(** A method of [this.trie] run on the trie of the instance. *)
Definition on_trie {A} (m : M BinaryTrie.trie A) : M db A :=
  fun d => let '(r, t) := m (trie d) in (r, with_trie t d).

(** [_flushHead]. *)
Definition _flushHead : M db unit :=
  modify (fun d => with_head (pendingHead d) (headSaveCount d) false d) ;;;
  pending <- gets pendingHead ;;
  match pending with
  | None | Some [] => ret tt
  | Some hash =>
      on_trie (BinaryTrie.storage_put (js "head") (BinaryTrie.Text hash)) ;;;
      modify (fun d => with_head None 0 (headSaveTimer d) d)
  end.

(** [_saveHead(hash)]; the timer it may start fires later, see
    [timer_fires]. *)
Definition _saveHead (hash : jsstring) : M db unit :=
  modify (fun d => with_head (Some hash) (headSaveCount d + 1) (headSaveTimer d) d) ;;;
  count <- gets headSaveCount ;;
  if headSaveBatchSize <=? count then _flushHead
  else modify (fun d => with_head (pendingHead d) (headSaveCount d) true d).

(** The callback of the timer of [_saveHead]. *)
Definition timer_fires : M db unit := _flushHead.

(** [this.events.emit(path, metadata)]. *)
Definition emit (e : Event) : M db unit :=
  modify (fun d => with_emitted (emitted d ++ [e]) d).

(** *** Envelopes *)

Record Payload : Type := MkPayload
  { p_key : jsstring;
    p_value : JSValue;
    p_timestamp : Z;
    p_author : jsstring;
    p_isEncrypted : bool;
    p_space : jsstring }.

Record Envelope : Type := MkEnvelope
  { e_payload : Payload;
    e_signature : jsstring }.

(** The objects [{key, value, timestamp, author, isEncrypted, space}] and
    [{payload, signature}]. *)
Definition payload_object (p : Payload) : JSValue :=
  JObject [ (js "key", JString (p_key p)); (js "value", p_value p);
            (js "timestamp", JNum (p_timestamp p)); (js "author", JString (p_author p));
            (js "isEncrypted", JBool (p_isEncrypted p)); (js "space", JString (p_space p)) ].

Definition envelope_object (e : Envelope) : JSValue :=
  JObject [ (js "payload", payload_object (e_payload e));
            (js "signature", JString (e_signature e)) ].

(** [{space, volatile, silent}]; [None] for a missing [space]. *)
Record PutOptions : Type := MkPutOptions
  { o_space : option jsstring;
    o_volatile : bool;
    o_silent : bool }.

(** [options.space || 'all']. *)
Definition space_or_all (space : option jsstring) : jsstring :=
  match space with
  | None | Some [] => js "all"
  | Some s => s
  end.

Section WithPlatform.
Context {P : Platform}.

Definition Immutable (key : jsstring) : error :=
  Error "Space 'frozen' implies immutable. Key is already set in frozen space.".

(** [put(key, value, options)] at time [now]; [iv] is the random vector
    that [encryptData] draws. *)
Definition put (key : jsstring) (value : JSValue) (options : PutOptions)
               (now : Z) (iv : bytes) : M db (option jsstring) :=
  rt <- gets runtime ;;
  match rt with
  | None => throw (Error "Must be logged in to write.")
  | Some rt =>
      match privateKey rt with
      | [] => throw (Error "Must be logged in to write.")
      | _ :: _ =>
          let space := space_or_all (o_space options) in
          id <- gets identity ;;
          r <-
            (if str_eqb space (js "all") then
               ret (js "all/" ++ key, value, false)
             else if str_eqb space (js "frozen") then
               let storageKey := js "frozen/" ++ key in
               existing <- on_trie (BinaryTrie.get storageKey) ;;
               if truthy existing then throw (Immutable key)
               else ret (storageKey, value, false)
             else if str_eqb space (js "user") then
               match id with
               | None => throw TypeError
               | Some id =>
                   let storageKey := js "user/" ++ publicKey id ++ js "/" ++ key in
                   finalValue <- lift (encryptData (JSON_stringify value) (dataKey rt) iv) ;;
                   ret (storageKey, JString finalValue, true)
               end
             else throw (Error "Unknown space")) ;;
          let '(storageKey, finalValue, isEncrypted) := r in
          let timestamp := now in
          match id with
          | None => throw TypeError
          | Some id =>
              let payload :=
                MkPayload storageKey finalValue timestamp (publicKey id) isEncrypted space in
              let payloadStr := canonicalize (payload_object payload) in
              signature <- lift (sign payloadStr (privateKey rt)) ;;
              let envelope := MkEnvelope payload signature in
              newRoot <-
                (if o_volatile options then ret None
                 else
                   newRoot <- on_trie (BinaryTrie.put storageKey (envelope_object envelope)) ;;
                   _saveHead newRoot ;;;
                   ret (Some newRoot)) ;;
              (if o_silent options then ret tt
               else emit (MkEvent storageKey space (publicKey id) timestamp false
                                  (Some finalValue))) ;;;
              ret newRoot
          end
      end
  end.

(** [get(key, {space})]; [JNull] is [null]. *)
Definition get (key : jsstring) (space : option jsstring) : M db JSValue :=
  let space := space_or_all space in
  storageKey <-
    (if str_eqb space (js "all") then ret (js "all/" ++ key)
     else if str_eqb space (js "frozen") then ret (js "frozen/" ++ key)
     else if str_eqb space (js "user") then
       id <- gets identity ;;
       match id with
       | None => throw (Error "Login required for user space")
       | Some id => ret (js "user/" ++ publicKey id ++ js "/" ++ key)
       end
     else ret key) ;;
  envelope <- on_trie (BinaryTrie.get storageKey) ;;
  if negb (truthy envelope) then ret JNull
  else
    payload <- lift (prop envelope (js "payload")) ;;
    val <- lift (prop payload (js "value")) ;;
    isEncrypted <- lift (prop payload (js "isEncrypted")) ;;
    if truthy isEncrypted && str_eqb space (js "user") then
      rt <- gets runtime ;;
      match rt with
      | None => throw (Error "Locked wallet. Cannot decrypt.")
      | Some rt =>
          match dataKey rt with
          | [] => throw (Error "Locked wallet. Cannot decrypt.")
          | _ :: _ =>
              match val with
              | JString val =>
                  decStr <- lift (decryptData val (dataKey rt)) ;;
                  lift (JSON_parse decStr)
              | _ => throw (Error "Invalid hex string")
              end
          end
      end
    else ret val.

(** [getEntry(key)]. *)
Definition getEntry (key : jsstring) : M db JSValue := on_trie (BinaryTrie.get key).

(** *** [merge] *)

Definition MAX_CLAIM_AGE : Z := 60 * 60 * 1000.

(** The part of a handle after its last ['#'], when it has one
    ([parts[parts.length - 1]] with [parts.length >= 2]). *)
Fixpoint after_last_hash (s : jsstring) (seen : option jsstring) : option jsstring :=
  match s with
  | [] => seen
  | c :: s' =>
      if c =? 35 then after_last_hash s' (Some [])
      else after_last_hash s' (option_map (fun part => part ++ [c]) seen)
  end.

(** [verifyHandleOwnership(handle, pubKey)]. *)
Definition verifyHandleOwnership (handle pubKey : jsstring) : res bool :=
  match after_last_hash handle None with
  | None => Ok false
  | Some claimedSuffix =>
      match computeSuffix pubKey (length claimedSuffix) with
      | None => Throw (Error "Invalid hex string")
      | Some actualSuffix => Ok (str_eqb actualSuffix claimedSuffix)
      end
  end.

(** [a >= b] where [b] is a number: [a] is converted to a number. *)
Definition ge_number (a : JSValue) (b : Z) : res bool :=
  match a with
  | JNum x => Ok (b <=? x)
  | JUndefined => Ok false
  | JNull => Ok (b <=? 0)
  | JBool t => Ok (b <=? (if t then 1 else 0))
  | _ => Throw Unmodelled
  end.

(** [Math.max(b, a)] where [b] is a number, when the result is an
    integer. *)
Definition max_number (b : Z) (a : JSValue) : res Z :=
  match a with
  | JNum x => Ok (Z.max b x)
  | JNull => Ok (Z.max b 0)
  | JBool t => Ok (Z.max b (if t then 1 else 0))
  | _ => Throw Unmodelled
  end.

(** [[...v]]: the members of an iterable value. *)
Definition spread (v : JSValue) : res (list JSValue) :=
  match v with
  | JArray l => Ok l
  | JString s => Ok (map JString (chars_of s))
  | JBytes b => Ok (map JNum b)
  | _ => Throw TypeError
  end.

(** [seen.has(x)] for the signature [x]: two objects are never the same
    member, two primitive values are when they are equal. *)
Definition same_value_zero (a b : JSValue) : bool :=
  match a, b with
  | JUndefined, JUndefined | JNull, JNull => true
  | JBool x, JBool y => Bool.eqb x y
  | JNum x, JNum y => x =? y
  | JFloat x, JFloat y => bool_decide (x = y)
  | JString x, JString y => str_eqb x y
  | _, _ => false
  end.

(** The loop that keeps the first claim of every signature. *)
Fixpoint unique_claims (mergedValue : list JSValue) (seen unique : list JSValue)
  : res (list JSValue) :=
  match mergedValue with
  | [] => Ok unique
  | c :: rest =>
      res_bind (prop c (js "signature")) (fun sig =>
      if existsb (same_value_zero sig) seen then unique_claims rest seen unique
      else unique_claims rest (seen ++ [sig]) (unique ++ [c]))
  end.

(** The handle-claim checks of the frozen branch; [Ok false] is a
    rejection. *)
Definition handle_claim_ok (payload : Payload) : res bool :=
  let handleData := p_value payload in
  if negb (truthy handleData) then Ok false
  else
    res_bind (prop handleData (js "pubKey")) (fun pubKey =>
    res_bind (prop handleData (js "handle")) (fun handle =>
    if negb (truthy pubKey) || negb (truthy handle) then Ok false
    else
      match pubKey with
      | JString pubKey =>
          if negb (str_eqb pubKey (p_author payload)) then Ok false
          else
            match handle with
            | JString handleStr =>
                res_bind (verifyHandleOwnership handleStr pubKey) (fun owned =>
                if negb owned then Ok false
                else
                  res_bind (prop handleData (js "proof")) (fun proof =>
                  if negb (truthy proof) then Ok false
                  else
                    res_bind (prop handleData (js "claimedAt")) (fun claimedAt =>
                    let claimData :=
                      JObject [ (js "handle", handle); (js "pubKey", JString pubKey);
                                (js "claimedAt", claimedAt) ] in
                    match proof with
                    | JString proof =>
                        match verify proof (canonicalize claimData) pubKey with
                        | Ok proofValid => Ok proofValid
                        | Throw _ => Ok false
                        end
                    | _ => Ok false
                    end)))
            | _ => Throw TypeError
            end
      | _ => Ok false
      end)).

(** [merge(envelope)] at time [now]. *)
Definition merge (envelope : Envelope) (now : Z) : M db bool :=
  let payload := e_payload envelope in
  let signature := e_signature envelope in
  match verify signature (canonicalize (payload_object payload)) (p_author payload) with
  | Throw _ => ret false
  | Ok false => ret false
  | Ok true =>
      allowed <-
        (if str_eqb (p_space payload) (js "user") then
           let expectedPrefix := js "user/" ++ p_author payload ++ js "/" in
           ret (startsWith (p_key payload) expectedPrefix)
         else if str_eqb (p_space payload) (js "frozen") then
           existing <- on_trie (BinaryTrie.get (p_key payload)) ;;
           if truthy existing then ret false
           else if MAX_CLAIM_AGE <? now - p_timestamp payload then ret false
           else
             match p_author payload with
             | [] => ret false
             | _ :: _ =>
                 if startsWith (p_key payload) (js "frozen/handles/")
                 then lift (handle_claim_ok payload)
                 else ret true
             end
         else ret true) ;;
      if negb allowed then ret false
      else
        existingEnvelope <- on_trie (BinaryTrie.get (p_key payload)) ;;
        existingPayload <-
          (if truthy existingEnvelope then lift (prop existingEnvelope (js "payload"))
           else ret JUndefined) ;;
        decision <-
          (if truthy existingEnvelope && truthy existingPayload then
             if startsWith (p_key payload) (js "all/claims/username/") then
               oldValue <- lift (prop existingPayload (js "value")) ;;
               oldClaims <- lift (spread oldValue) ;;
               newClaims <- lift (spread (p_value payload)) ;;
               unique <- lift (unique_claims (oldClaims ++ newClaims) [] []) ;;
               oldTimestamp <- lift (prop existingPayload (js "timestamp")) ;;
               timestamp <- lift (max_number (p_timestamp payload) oldTimestamp) ;;
               ret (Some (MkPayload (p_key payload) (JArray unique) timestamp
                                    (p_author payload) (p_isEncrypted payload)
                                    (p_space payload)))
             else
               oldTimestamp <- lift (prop existingPayload (js "timestamp")) ;;
               older <- lift (ge_number oldTimestamp (p_timestamp payload)) ;;
               if older then ret None else ret (Some payload)
           else ret (Some payload)) ;;
        match decision with
        | None => ret false
        | Some payload =>
            let envelope := MkEnvelope payload signature in
            newRoot <- on_trie (BinaryTrie.put (p_key payload) (envelope_object envelope)) ;;
            _saveHead newRoot ;;;
            emit (MkEvent (p_key payload) (p_space payload) (p_author payload)
                          (p_timestamp payload) true None) ;;;
            ret true
        end
  end.

End WithPlatform.

End Railgun.

(* ===================================================================== *)
(** ** Paths held by the caches, and runs of merges *)
(* ===================================================================== *)

Module Resolved.
Import Js Utils Value Platform Crypto BinaryNode Monad BinaryTrie Railgun.
Local Open Scope monad_scope.

(** The entry [(k, v)] of a cache that is found under [k] and has fewer
    than [m] entries after it: [m] more insertions do not evict it. *)
Definition recent {V} (m : nat) (cache : list (jsstring * V)) (k : jsstring) (v : V) : Prop :=
  exists c1 c2, cache = c1 ++ (k, v) :: c2 /\ (length c2 < m)%nat /\ Map_get c1 k = None.

(** The nodes from [cur] along [chars] down to [leaf] are all found in the
    cache under the digests their parents hold. *)
Fixpoint chain (cache : list (jsstring * node)) (chars : list jsstring) (cur leaf : node)
  : Prop :=
  match chars with
  | [] => cur = leaf
  | c :: rest =>
      exists (h : jsstring) (n : node),
        obj_get (children cur) c = Some h /\ h <> [] /\
        Map_get cache h = Some n /\ chain cache rest n leaf
  end.

(** The trie answers [get] for [path] with [v] from its caches alone. *)
Definition hot (path : jsstring) (v : JSValue) (t : BinaryTrie.trie) : Prop :=
  exists (root leaf : node) (vk : jsstring),
    rootCache t = Some (rootHash t, root) /\
    chain (nodeCache t) (chars_of path) root leaf /\
    value leaf = Some vk /\ vk <> [] /\
    Map_get (valueCache t) vk = Some v.

(** A path without a surrogate pair: its characters are its code units. *)
Definition units_are_chars (path : jsstring) : Prop :=
  chars_of path = map (fun c => [c]) path.

Section WithPlatform.
Context {P : Platform}.



(** The write at the end of [merge]. *)
Definition write_envelope (p : Payload) (sig : jsstring) : M db bool :=
  newRoot <- on_trie (BinaryTrie.put (p_key p) (envelope_object (MkEnvelope p sig))) ;;
  _saveHead newRoot ;;;
  emit (MkEvent (p_key p) (p_space p) (p_author p) (p_timestamp p) true None) ;;;
  ret true.

(** The part of [put] after the choice of the storage key. *)
Definition sign_and_store (rt : Runtime) (id : Identity) (storageKey : jsstring)
                          (finalValue : JSValue) (isEncrypted : bool) (space : jsstring)
                          (options : PutOptions) (now : Z) : M db (option jsstring) :=
  let payload := MkPayload storageKey finalValue now (publicKey id) isEncrypted space in
  let payloadStr := canonicalize (payload_object payload) in
  signature <- lift (sign payloadStr (privateKey rt)) ;;
  let envelope := MkEnvelope payload signature in
  newRoot <-
    (if o_volatile options then ret None
     else
       newRoot <- on_trie (BinaryTrie.put storageKey (envelope_object envelope)) ;;
       _saveHead newRoot ;;;
       ret (Some newRoot)) ;;
  (if o_silent options then ret tt
   else emit (MkEvent storageKey space (publicKey id) now false (Some finalValue))) ;;;
  ret newRoot.



End WithPlatform.

(** What [get] makes of the entry at the storage key, outside the space
    [user]. *)
Definition plain_value (envelope : JSValue) : res JSValue :=
  if negb (truthy envelope) then Ok JNull
  else
    res_bind (prop envelope (js "payload")) (fun payload =>
    res_bind (prop payload (js "value")) (fun val =>
    res_bind (prop payload (js "isEncrypted")) (fun _ => Ok val))).





End Resolved.

(* ===================================================================== *)
(** ** [src/core/events.js] *)
(* ===================================================================== *)

(** The subscriptions of an instance.  A callback is known by the id of
    its subscription: [emit] is modelled by the ids whose callbacks it
    calls, in the order of the calls.  Callbacks that subscribe or
    unsubscribe while [emit] runs are outside the model. *)
Module EventManager.
Import Js Utils Value Monad.
Local Open Scope monad_scope.

(** A pattern: a string, or a regular expression without the flags [g]
    and [y], given by its [test]. *)
Inductive Pattern : Type :=
  | Str (s : jsstring)
  | RegExp (test : jsstring -> bool).

(** [{pattern, callback, options, publicKey}] without the callback. *)
Record Subscription : Type := MkSubscription
  { pattern : Pattern;
    publicKey : option jsstring }.

(** [this.subscriptions], a [Map] in insertion order, and
    [this.subscriptionIdCounter]. *)
Record manager : Type := Manager
  { subscriptions : list (Z * Subscription);
    subscriptionIdCounter : Z }.

Definition new_manager : manager := Manager [] 0.

(** [Map.prototype.get], [set] and [delete] on numeric keys: [set] keeps
    the place of a key that is present. *)
Fixpoint subs_get (subs : list (Z * Subscription)) (id : Z) : option Subscription :=
  match subs with
  | [] => None
  | (k, s) :: rest => if k =? id then Some s else subs_get rest id
  end.

Fixpoint subs_set (subs : list (Z * Subscription)) (id : Z) (s : Subscription)
  : list (Z * Subscription) :=
  match subs with
  | [] => [(id, s)]
  | (k, s') :: rest => if k =? id then (k, s) :: rest else (k, s') :: subs_set rest id s
  end.

Definition subs_delete (subs : list (Z * Subscription)) (id : Z) : list (Z * Subscription) :=
  List.filter (fun e => negb (fst e =? id)) subs.

(** [options.publicKey || null]. *)
Definition publicKey_or_null (publicKey : option jsstring) : option jsstring :=
  match publicKey with
  | Some (c :: s) => Some (c :: s)
  | _ => None
  end.

(** [subscribe(pattern, callback, options)] for a callback that is a
    function. *)
Definition subscribe (pattern : Pattern) (publicKey : option jsstring) : M manager Z :=
  fun m =>
    let subscriptionId := subscriptionIdCounter m + 1 in
    (Ok subscriptionId,
     Manager (subs_set (subscriptions m) subscriptionId
                       (MkSubscription pattern (publicKey_or_null publicKey)))
             subscriptionId).

(** [unsubscribe(subscriptionId)]. *)
Definition unsubscribe (subscriptionId : Z) : M manager bool :=
  fun m =>
    (Ok (match subs_get (subscriptions m) subscriptionId with Some _ => true | None => false end),
     Manager (subs_delete (subscriptions m) subscriptionId) (subscriptionIdCounter m)).

(** [clear()]. *)
Definition clear : M manager unit :=
  modify (fun m => Manager [] (subscriptionIdCounter m)).

(** [pattern.includes('*')]. *)
Definition has_star (pattern : jsstring) : bool := existsb (Z.eqb 42) pattern.

(** The code units that [.] does not match. *)
Definition is_line_terminator (c : Z) : bool :=
  (c =? 10) || (c =? 13) || (c =? 8232) || (c =? 8233).

(** [new RegExp('^' + regexPattern + '$').test(path)], where
    [regexPattern] is the pattern with its special characters escaped and
    every ['*'] replaced by ['.*']: every other code unit stands for
    itself, and ['*'] for any run of code units that are not line
    terminators. *)
Fixpoint wildcard_test (pattern path : jsstring) : bool :=
  match pattern with
  | [] => match path with [] => true | _ :: _ => false end
  | c :: pattern' =>
      if c =? 42 then
        (fix star (path : jsstring) : bool :=
           wildcard_test pattern' path ||
           match path with
           | [] => false
           | d :: path' => negb (is_line_terminator d) && star path'
           end) path
      else
        match path with
        | [] => false
        | d :: path' => (c =? d) && wildcard_test pattern' path'
        end
  end.

(** [_matchPattern(path, pattern)]. *)
Definition _matchPattern (path : jsstring) (pattern : Pattern) : bool :=
  match pattern with
  | RegExp test => test path
  | Str pattern =>
      if negb (has_star pattern) then str_eqb path pattern
      else wildcard_test pattern path
  end.

(** [path.split('/')]: the parts between the slashes, at least one. *)
Fixpoint split_slash (path part : jsstring) : list jsstring :=
  match path with
  | [] => [part]
  | c :: path' =>
      if c =? 47 then part :: split_slash path' []
      else split_slash path' (part ++ [c])
  end.

(** [_checkAccess(path, space, author, subscriberPublicKey)]. *)
Definition _checkAccess (path space : jsstring) (subscriberPublicKey : option jsstring) : bool :=
  if str_eqb space (js "all") || str_eqb space (js "frozen") then true
  else if str_eqb space (js "user") then
    match subscriberPublicKey with
    | None | Some [] => false
    | Some subscriberPublicKey =>
        let pathParts := split_slash path [] in
        match pathParts with
        | first :: (c :: owner) :: _ =>
            if str_eqb first (js "user") then str_eqb (c :: owner) subscriberPublicKey
            else false
        | _ => false
        end
    end
  else false.

(** [emit(path, metadata)]: the ids of the subscriptions whose callbacks
    are called, in order.  [space] is [None] when [metadata.space] is
    [undefined]. *)
Definition emit (path : jsstring) (space : option jsstring) (m : manager) : list Z :=
  let space := match space with None => js "all" | Some s => s end in
  map fst
    (List.filter
       (fun e => _matchPattern path (pattern (snd e)) &&
                 _checkAccess path space (publicKey (snd e)))
       (subscriptions m)).

(** [getSubscriptions()]: the id and the key of every subscription. *)
Definition getSubscriptions (m : manager) : list (Z * option jsstring) :=
  map (fun e => (fst e, publicKey (snd e))) (subscriptions m).

(** The states that [new EventManager], [subscribe], [unsubscribe] and
    [clear] reach: every id is positive and at most the counter, and no
    two subscriptions have the same id. *)
Inductive reachable : manager -> Prop :=
  | reach_new : reachable new_manager
  | reach_subscribe m pattern publicKey :
      reachable m -> reachable (snd (subscribe pattern publicKey m))
  | reach_unsubscribe m id :
      reachable m -> reachable (snd (unsubscribe id m))
  | reach_clear m :
      reachable m -> reachable (snd (clear m)).

End EventManager.

(* ===================================================================== *)
(** ** More of [value-store.js], [binary-trie.js] and [index.js] *)
(* ===================================================================== *)

Module More.
Import Js Utils Value Platform Crypto BinaryNode Monad BinaryTrie Railgun.
Local Open Scope monad_scope.

(** Whether a call returned (it did not throw). *)
Definition returns {A} (r : res A) : bool :=
  match r with
  | Ok _ => true
  | Throw _ => false
  end.

(** [ValueStore.clearCache] and [ValueStore.getCacheStats]. *)
Definition clearCache : M BinaryTrie.trie unit := modify (with_valueCache (fun _ => [])).

Definition getCacheStats : M BinaryTrie.trie (nat * nat) :=
  gets (fun t => (length (valueCache t), valueCache_maxSize)).

(** The key of a value: the prefix and the digest of its encoding. *)
Definition valueKey (v : JSValue) : jsstring := valuePrefix ++ hash (Msgpack.encode v).

(** What [ValueStore.put] does to the trie for a value that is neither
    [null] nor [undefined]. *)
Definition stored_value (v : JSValue) (t : BinaryTrie.trie) : BinaryTrie.trie :=
  with_valueCache (fun c => put_newest valueCache_maxSize c (valueKey v) v)
    (match storage_get (valueKey v) t with
     | (Ok None, _) => with_storage (fun st => obj_set st (valueKey v) (Bytes (Msgpack.encode v))) t
     | _ => t
     end).

(** [getStats] of the trie: the sizes of the node cache and of the value
    cache with their bounds. *)
Definition getStats : M BinaryTrie.trie ((nat * nat) * (nat * nat)) :=
  node <- gets (fun t => (length (nodeCache t), nodeCache_maxSize)) ;;
  values <- getCacheStats ;;
  ret (node, values).

(** [claim.signature] of a claim other than [null] and [undefined]. *)
Definition signature_of (c : JSValue) : JSValue :=
  match prop c (js "signature") with
  | Ok sig => sig
  | Throw _ => JUndefined
  end.

(** The values that a [Set] finds again by their content; objects,
    arrays and typed arrays are found by identity only. *)
Definition primitive (v : JSValue) : bool :=
  match v with
  | JBytes _ | JArray _ | JObject _ => false
  | _ => true
  end.

(** The values without members that MessagePack is expected to give
    back: [null], the booleans, the integers from [-2^31] to [2^32 - 1]
    outside the range that the tag [0xd1] reads back wrongly, the strings
    that UTF-8 decoding gives back, and the byte arrays. *)
Definition scalar_round_trips (v : JSValue) : Prop :=
  match v with
  | JNull | JBool _ => True
  | JNum z => - 2 ^ 31 <= z < 2 ^ 32 /\ ~ (-32768 <= z < -128)
  | JString s =>
      TextDecoder_decode (TextEncoder_encode s) = s /\
      Forall (fun b => 0 <= b < 256) (TextEncoder_encode s) /\
      Z.of_nat (length (TextEncoder_encode s)) < 2 ^ 32
  | JBytes b => Forall (fun b => 0 <= b < 256) b /\ Z.of_nat (length b) < 2 ^ 32
  | _ => False
  end.

(** [new BinaryTrie(storage, rootHash)]. *)
Definition open_trie (store : list (jsstring * stored)) (rootHash : option jsstring)
  : BinaryTrie.trie :=
  Trie store rootHash [] None [] [].

(** The nodes of a trie whose keys are made of characters below 256. *)
Definition sound_node (n : node) : Prop := well_formed n /\ byte_keys n.

(** A trie of such nodes: the nodes in its caches are of this kind, its
    root digest is a digest, and what the store holds under a digest is
    the serialized form of a node of this kind. *)
Definition sound (t : BinaryTrie.trie) : Prop :=
  (forall h n, In (h, n) (nodeCache t) -> sound_node n) /\
  (forall h n, rootCache t = Some (h, n) -> sound_node n) /\
  (forall rh, rootHash t = Some rh -> rh = [] \/ is_digest rh) /\
  (forall h b, is_digest h -> obj_get (storage t) h = Some b ->
     exists n, sound_node n /\ b = Bytes (layout n)).

(** What the store holds under ["head"]. *)
Definition stored_head (d : db) : option stored :=
  obj_get (storage (Railgun.trie d)) (js "head").

(** [_loadHead]: the digest under ["head"] becomes the root digest. *)
Definition _loadHead : M db unit :=
  head <- on_trie (storage_get (js "head")) ;;
  match head with
  | None => ret tt
  | Some (Text h) => on_trie (modify (with_rootHash (Some h)))
  | Some (Bytes _) => throw Unmodelled
  end.

(** [new Railgun(storage)] over the store of [d] followed by
    [_loadHead()], the first two steps of [Railgun.create]: only what the
    store holds is left of [d]. *)
Definition reopened (d : db) : res unit * db :=
  _loadHead (Db (Trie (storage (Railgun.trie d)) None [] None [] []) None None None 0 false []).

Section WithPlatform.
Context {P : Platform}.

(** [getHandle]; [None] is [null]. *)
Definition getHandle : M db (option jsstring) :=
  id <- gets identity ;;
  match id with
  | None => ret None
  | Some id =>
      match computeSuffix (publicKey id) 4 with
      | None => throw (Error "Invalid hex string")
      | Some suffix =>
          match displayName id with
          | None | Some [] => ret (Some suffix)
          | Some name => ret (Some (name ++ js "#" ++ suffix))
          end
      end
  end.

End WithPlatform.

End More.

(* ===================================================================== *)
(** ** What an operation leaves alone *)
(* ===================================================================== *)

Module Frame.
Import Js Utils Value BinaryNode Monad.

(** [m] takes every state to a state related to it by [R], whatever it
    returns or throws. *)
Definition keeps {S A} (R : S -> S -> Prop) (m : M S A) : Prop :=
  forall s, R s (snd (m s)).

(** When [m] returns or throws [r], the states before and after are
    related by [R r]. *)
Definition ensures {S A} (R : res A -> S -> S -> Prop) (m : M S A) : Prop :=
  forall s, R (fst (m s)) s (snd (m s)).

(** The persistent part of a trie: the store, the root digest and the
    last batch.  The caches are the rest. *)
Definition same_store (t t' : BinaryTrie.trie) : Prop :=
  BinaryTrie.storage t' = BinaryTrie.storage t /\
  BinaryTrie.rootHash t' = BinaryTrie.rootHash t /\
  BinaryTrie.lastBatch t' = BinaryTrie.lastBatch t.

(** No key of the store is lost. *)
Definition store_grows (t t' : BinaryTrie.trie) : Prop :=
  forall k, In k (map fst (BinaryTrie.storage t)) -> In k (map fst (BinaryTrie.storage t')).

(** Everything of an instance but the caches of its trie and the log of
    the events emitted. *)
Definition same_but_events (d d' : Railgun.db) : Prop :=
  same_store (Railgun.trie d) (Railgun.trie d') /\
  Railgun.identity d' = Railgun.identity d /\
  Railgun.runtime d' = Railgun.runtime d /\
  Railgun.pendingHead d' = Railgun.pendingHead d /\
  Railgun.headSaveCount d' = Railgun.headSaveCount d /\
  Railgun.headSaveTimer d' = Railgun.headSaveTimer d.

(** Everything of an instance but the caches of its trie. *)
Definition same_instance (d d' : Railgun.db) : Prop :=
  same_store (Railgun.trie d) (Railgun.trie d') /\
  Railgun.identity d' = Railgun.identity d /\
  Railgun.runtime d' = Railgun.runtime d /\
  Railgun.pendingHead d' = Railgun.pendingHead d /\
  Railgun.headSaveCount d' = Railgun.headSaveCount d /\
  Railgun.headSaveTimer d' = Railgun.headSaveTimer d /\
  Railgun.emitted d' = Railgun.emitted d.

End Frame.

(* ===================================================================== *)
(** ** A platform for closed examples *)
(* ===================================================================== *)

(** The theorems hold for every platform.  To evaluate the embedding on
    concrete inputs this instance fills the open functions with small
    stand-ins: keys of ASCII letters and of characters without case or
    compatibility mapping, a keyed SHA-256 tag in place of Ed25519 (the
    public key of a private key is the key itself), a SHA-256 key stream in
    place of AES-GCM, and the byte codec in hexadecimal in place of JSON. *)
Module Toy.
Import Js Value Utils Platform.

Definition bytes_eqb (a b : bytes) : bool := bool_decide (a = b).

Definition tag (key msg : bytes) : bytes := Sha256.sha256 (key ++ msg).

Definition key_stream (key iv data : bytes) : bytes :=
  let ks := Sha256.sha256 (key ++ iv) in
  imap (fun i b => Z.lxor b (nth (i mod 32) ks 0)) data.

Definition hex_codec (v : JSValue) : jsstring := toHex (Msgpack.encode v).

Definition hex_decodec (s : jsstring) : res JSValue :=
  match fromHex s with
  | Some b => Msgpack.decode b
  | None => Throw (Error "Unexpected token")
  end.

#[export] Instance toy : Platform :=
  {| String_normalize_NFKC := fun s => s;
     String_toLowerCase := normalizeKey_ascii;
     JSON_stringify := fun v => match v with JUndefined => None | _ => Some (hex_codec v) end;
     JSON_parse := hex_decodec;
     stable_stringify := hex_codec;
     ed_signAsync := fun msg key => Ok (tag key msg);
     ed_verifyAsync := fun sig msg pk => Ok (bytes_eqb sig (tag pk msg));
     aes_gcm_encrypt := fun key iv data => Ok (key_stream key iv data);
     aes_gcm_decrypt := fun key iv data => Ok (key_stream key iv data) |}.

Definition pk_data : jsstring :=
  js "d0d1d2d3d4d5d6d7d8d9dadbdcdddedfd0d1d2d3d4d5d6d7d8d9dadbdcdddedf".

(** Two key pairs. *)
Definition alice_key : jsstring :=
  js "a11ce0a11ce0a11ce0a11ce0a11ce0a11ce0a11ce0a11ce0a11ce0a11ce0a11c".
Definition bob_key : jsstring :=
  js "b0b0b0b0b0b0b0b0b0b0b0b0b0b0b0b0b0b0b0b0b0b0b0b0b0b0b0b0b0b0b0b0".

(** Their claims to the name ["carol"], both made at time 10. *)
Definition claim_of (name key : jsstring) (now : Z) : ClaimManager.Claim :=
  match ClaimManager.createClaim name key key now with
  | Ok c => c
  | Throw _ => ClaimManager.MkClaim name key now false []
  end.

Definition alice_claim : ClaimManager.Claim := claim_of (js "carol") alice_key 10.
Definition bob_claim : ClaimManager.Claim := claim_of (js "carol") bob_key 10.

(** Instances where Alice, or Bob, is logged in (the toy private key is
    the public key; the data key is any thirty-two bytes). *)
Definition logged_in (key : jsstring) : Railgun.db :=
  Railgun.with_login (Some (Railgun.MkIdentity key [] [] None))
                     (Some (Railgun.MkRuntime key pk_data)) Railgun.new_db.

Definition alice_db : Railgun.db := logged_in alice_key.
Definition bob_db : Railgun.db := logged_in bob_key.

(** The key ["\u{1F600}"]: one character, two code units. *)
Definition grinning_face : jsstring := [55357; 56832].

Definition in_space (space : string) : Railgun.PutOptions :=
  Railgun.MkPutOptions (Some (js space)) false false.

(** The envelope that [author] signs for [value] at [path] in [space]. *)
Definition signed_envelope (author path space : jsstring) (value : Value.JSValue)
                           (timestamp : Z) : Railgun.Envelope :=
  let payload := Railgun.MkPayload path value timestamp author false space in
  Railgun.MkEnvelope payload
    (match Crypto.sign (Crypto.canonicalize (Railgun.payload_object payload)) author with
     | Ok sig => sig
     | Throw _ => []
     end).

(** Alice's instance after her writes at time 1000: ["hello"] under ["k"]
    in the space [all], ["block0"] under ["genesis"] in [frozen], ["cake"]
    under ["diary"] in [user]. *)
Definition twelve : bytes := [1; 2; 3; 4; 5; 6; 7; 8; 9; 10; 11; 12].

Definition after_put (key : jsstring) (value : Value.JSValue) (space : string)
                     (now : Z) (d : Railgun.db) : Railgun.db :=
  snd (Railgun.put key value (in_space space) now twelve d).

Definition alice_k : Railgun.db := after_put (js "k") (JString (js "hello")) "all" 1000 alice_db.
Definition alice_genesis : Railgun.db :=
  after_put (js "genesis") (JString (js "block0")) "frozen" 1000 alice_db.
Definition alice_diary : Railgun.db :=
  after_put (js "diary") (JString (js "cake")) "user" 1000 alice_db.

(** Bob's envelopes: for Alice's diary, marked with the space [all] or
    [user]; for ["all/k"] at three times; and one whose signature is of
    another payload. *)
Definition diary_path : jsstring := js "user/" ++ alice_key ++ js "/diary".

Definition forged_envelope : Railgun.Envelope :=
  signed_envelope bob_key diary_path (js "all") (JString (js "pwned")) 2000.
Definition mismatched_envelope : Railgun.Envelope :=
  signed_envelope bob_key diary_path (js "user") (JString (js "pwned")) 2000.

Definition older_envelope : Railgun.Envelope :=
  signed_envelope bob_key (js "all/k") (js "all") (JString (js "older")) 500.




(** The envelope of Alice's write under ["genesis"], and Bob's later
    envelope for the same key. *)
Definition genesis_envelope : Railgun.Envelope :=
  signed_envelope alice_key (js "frozen/genesis") (js "frozen") (JString (js "block0")) 1000.
Definition late_genesis : Railgun.Envelope :=
  signed_envelope bob_key (js "frozen/genesis") (js "frozen") (JString (js "mine")) 2000.

(** Alice's identity with the display name ["alice"]. *)
Definition alice_named : Railgun.db :=
  Railgun.with_login (Some (Railgun.MkIdentity alice_key [] [] (Some (js "alice"))))
                     (Some (Railgun.MkRuntime alice_key pk_data)) Railgun.new_db.

(** An instance with short keys, and three claims of which the last
    repeats the signature of the first. *)
Definition tiny_db : Railgun.db :=
  Railgun.with_login (Some (Railgun.MkIdentity (js "a1") [] [] None))
                     (Some (Railgun.MkRuntime (js "a1") (js "d0d1"))) Railgun.new_db.

Definition claim_value (name sig : string) : JSValue :=
  JObject [(js "username", JString (js name)); (js "signature", JString (js sig))].

Definition three_claims : list JSValue :=
  [claim_value "carol" "aa"; claim_value "carol" "bb"; claim_value "dave" "aa"].

(** The key of thirty-two [0x01] bytes: its digest starts with [0x72]. *)
Definition pk_low : jsstring :=
  js "0101010101010101010101010101010101010101010101010101010101010101".

(** The key of thirty-two [0x04] bytes: its digest starts with [0x9f]. *)
Definition pk_high : jsstring :=
  js "0404040404040404040404040404040404040404040404040404040404040404".

(** Two digests, and three nodes: children under ["a"] and ["e"] with a
    value reference; one child under U+4E2D; children under U+0100 and
    U+0001. *)
Definition digest1 : jsstring := toBase64 (Sha256.sha256 [1]).

Definition node_cjk : BinaryNode.node :=
  BinaryNode.make None [([20013], digest1)].

End Toy.


(* ===================================================================== *)
(** * Properties *)
(* ===================================================================== *)

(** ** SHA-256: test vectors and the shape of a digest *)

Module Sha256Facts.
Import Sha256.

(** The digest of the empty message and of ["abc"] (FIPS 180-4 vectors). *)
Example sha256_empty :
  sha256 [] =
  [0xe3; 0xb0; 0xc4; 0x42; 0x98; 0xfc; 0x1c; 0x14; 0x9a; 0xfb; 0xf4; 0xc8;
   0x99; 0x6f; 0xb9; 0x24; 0x27; 0xae; 0x41; 0xe4; 0x64; 0x9b; 0x93; 0x4c;
   0xa4; 0x95; 0x99; 0x1b; 0x78; 0x52; 0xb8; 0x55].
Proof. vm_compute. reflexivity. Qed.

Example sha256_abc :
  sha256 [97; 98; 99] =
  [0xba; 0x78; 0x16; 0xbf; 0x8f; 0x01; 0xcf; 0xea; 0x41; 0x41; 0x40; 0xde;
   0x5d; 0xae; 0x22; 0x23; 0xb0; 0x03; 0x61; 0xa3; 0x96; 0x17; 0x7a; 0x9c;
   0xb4; 0x10; 0xff; 0x61; 0xf2; 0x00; 0x15; 0xad].
Proof. vm_compute. reflexivity. Qed.

Lemma w32_mod (z : Z) : w32 z = z mod 2 ^ 32.
Proof. unfold w32. change 4294967295 with (Z.ones 32). apply Z.land_ones. lia. Qed.

Lemma sha256_length msg : length (sha256 msg) = 32%nat.
Proof. reflexivity. Qed.

Lemma be_bytes_range n z : Forall (fun b => 0 <= b < 256) (be_bytes n z).
Proof.
  unfold be_bytes. apply Forall_forall. intros b Hb.
  apply list_elem_of_In, in_map_iff in Hb. destruct Hb as (i & <- & _).
  change 255 with (Z.ones 8). rewrite Z.land_ones by lia.
  apply Z.mod_pos_bound. lia.
Qed.

Lemma sha256_range msg : Forall (fun b => 0 <= b < 256) (sha256 msg).
Proof.
  unfold sha256, digest_bytes.
  repeat (apply Forall_app; split); apply be_bytes_range.
Qed.

End Sha256Facts.

(* ===================================================================== *)
(** ** Handle suffix ([computeSuffix]) *)
(* ===================================================================== *)

Module SuffixFacts.
Import Js Utils Toy.

(** The powers of two of the 32-bit operators, as numerals for [lia]. *)
Ltac pow2 :=
  change (2 ^ 8) with 256 in *; change (2 ^ 16) with 65536 in *;
  change (2 ^ 24) with 16777216 in *; change (2 ^ 31) with 2147483648 in *;
  change (2 ^ 32) with 4294967296 in *.

(** A multiple of [2^m] and a number below [2^m] share no bit. *)
Lemma land_shifted (m k b : Z) :
  0 <= m -> 0 <= b < 2 ^ m -> Z.land (k * 2 ^ m) b = 0.
Proof.
  intros Hm Hb. apply Z.bits_inj'. intros n Hn.
  rewrite Z.land_spec, Z.bits_0.
  destruct (Z.lt_ge_cases n m) as [Hlt | Hge].
  - rewrite Z.mul_pow2_bits_low by lia. reflexivity.
  - rewrite andb_comm.
    destruct (Z.eq_dec b 0) as [-> | Hne].
    + rewrite Z.bits_0. reflexivity.
    + rewrite Z.bits_above_log2; [reflexivity | lia |].
      apply Z.log2_lt_pow2; [lia |].
      apply Z.lt_le_trans with (2 ^ m); [lia |].
      apply Z.pow_le_mono_r; lia.
Qed.

Lemma lor_shifted (m k b : Z) :
  0 <= m -> 0 <= b < 2 ^ m -> Z.lor (k * 2 ^ m) b = k * 2 ^ m + b.
Proof.
  intros Hm Hb. symmetry. apply Z.add_nocarry_lor. now apply land_shifted.
Qed.

Lemma toInt32_id (z : Z) : - 2 ^ 31 <= z < 2 ^ 31 -> toInt32 z = z.
Proof.
  intros Hz. unfold toInt32. pow2. rewrite Z.mod_small; lia.
Qed.

Lemma toInt32_high (z : Z) : 2 ^ 31 <= z < 2 ^ 32 -> toInt32 z = z - 2 ^ 32.
Proof.
  intros Hz. unfold toInt32. pow2.
  replace (z + 2147483648) with ((z - 2147483648) + 1 * 4294967296) by lia.
  rewrite Z.mod_add by lia. rewrite Z.mod_small; lia.
Qed.

Lemma shl_small (h m : Z) :
  0 <= h < 256 -> 0 <= m < 24 -> shl h m = h * 2 ^ m.
Proof.
  intros Hh Hm. unfold shl.
  rewrite (toInt32_id h) by (pow2; lia).
  rewrite (Z.mod_small m 32) by lia.
  rewrite Z.shiftl_mul_pow2 by lia.
  apply toInt32_id.
  assert (0 < 2 ^ m <= 2 ^ 23).
  { split; [apply Z.pow_pos_nonneg; lia | apply Z.pow_le_mono_r; lia]. }
  change (2 ^ 23) with 8388608 in *. pow2. nia.
Qed.

Lemma bor_shifted (a m b : Z) :
  0 <= m /\ 0 <= b < 2 ^ m /\ b < 2 ^ 31 /\ - 2 ^ 31 <= a * 2 ^ m /\ a * 2 ^ m + b < 2 ^ 31 ->
  bor (a * 2 ^ m) b = a * 2 ^ m + b.
Proof.
  intros (Hm & Hb & Hb' & Hlo & Hhi). unfold bor.
  rewrite (toInt32_id (a * 2 ^ m)) by lia.
  rewrite (toInt32_id b) by lia.
  rewrite lor_shifted by lia. apply toInt32_id. lia.
Qed.

(** The four shifts and ors of [computeSuffix] read the bytes as a signed
    big-endian integer. *)
Lemma num_signed (h0 h1 h2 h3 : Z) :
  0 <= h0 < 256 -> 0 <= h1 < 256 -> 0 <= h2 < 256 -> 0 <= h3 < 256 ->
  bor (bor (bor (shl h0 24) (shl h1 16)) (shl h2 8)) h3 =
  let u := h0 * 2 ^ 24 + h1 * 2 ^ 16 + h2 * 2 ^ 8 + h3 in
  if u <? 2 ^ 31 then u else u - 2 ^ 32.
Proof.
  intros H0 H1 H2 H3. cbv zeta.
  assert (E0 : exists k, shl h0 24 = k * 2 ^ 24 /\ -128 <= k < 128 /\
                         (k = h0 \/ k = h0 - 256) /\ (k = h0 <-> h0 < 128)).
  { unfold shl. rewrite (toInt32_id h0) by (pow2; lia).
    change (24 mod 32) with 24. rewrite Z.shiftl_mul_pow2 by lia.
    destruct (Z.lt_ge_cases h0 128).
    - exists h0. rewrite toInt32_id by (pow2; lia). lia.
    - exists (h0 - 256). rewrite toInt32_high by (pow2; lia). pow2. lia. }
  destruct E0 as (k & E0 & Hk & Hk' & Hk'').
  rewrite E0, !shl_small by lia.
  rewrite (bor_shifted k 24 (h1 * 2 ^ 16)) by (pow2; lia).
  replace (k * 2 ^ 24 + h1 * 2 ^ 16) with ((k * 2 ^ 8 + h1) * 2 ^ 16) by (pow2; lia).
  rewrite (bor_shifted _ 16 (h2 * 2 ^ 8)) by (pow2; lia).
  replace ((k * 2 ^ 8 + h1) * 2 ^ 16 + h2 * 2 ^ 8)
    with (((k * 2 ^ 8 + h1) * 2 ^ 8 + h2) * 2 ^ 8) by (pow2; lia).
  rewrite (bor_shifted _ 8 h3) by (pow2; lia).
  destruct (Z.ltb_spec (h0 * 2 ^ 24 + h1 * 2 ^ 16 + h2 * 2 ^ 8 + h3) (2 ^ 31)); pow2; lia.
Qed.

Lemma nth_digest_range (i : nat) (msg : bytes) :
  (i < 32)%nat -> 0 <= nth i (Sha256.sha256 msg) 0 < 256.
Proof.
  intros Hi.
  pose proof (Sha256Facts.sha256_range msg) as HF.
  rewrite Forall_forall in HF. apply HF.
  apply list_elem_of_In, nth_In. rewrite Sha256Facts.sha256_length. exact Hi.
Qed.

(** Decimal printing never exceeds the number of digits of the bound. *)
Lemma digits_fuel_length (fuel : nat) :
  forall (z : Z) (acc : jsstring) (k : nat),
    (1 <= k)%nat -> 0 <= z < 10 ^ Z.of_nat k ->
    (length (digits_fuel fuel z acc) <= length acc + k)%nat.
Proof.
  induction fuel as [| f IH]; intros z acc k Hk Hz; simpl.
  - lia.
  - destruct (Z.ltb_spec z 10) as [Hlt | Hge].
    + simpl. lia.
    + destruct k as [| [| k']]; [lia | simpl in Hz; lia |].
      specialize (IH (z / 10) ((48 + z mod 10) :: acc) (S k')).
      simpl length in IH.
      assert (Hq : 0 <= z / 10 < 10 ^ Z.of_nat (S k')).
      { split; [apply Z.div_pos; lia |].
        apply Z.div_lt_upper_bound; [lia |].
        replace (10 * 10 ^ Z.of_nat (S k')) with (10 ^ Z.of_nat (S (S k'))); [lia |].
        rewrite (Nat2Z.inj_succ (S k')), Z.pow_succ_r by lia. reflexivity. }
      specialize (IH ltac:(lia) Hq). lia.
Qed.

Lemma padded_length (z : Z) (n : nat) :
  (1 <= n)%nat -> 0 <= z < 10 ^ Z.of_nat n ->
  length (padStart0 (Number_toString z) n) = n.
Proof.
  intros Hn Hz. unfold padStart0, Number_toString.
  destruct (Z.ltb_spec z 0); [lia |].
  assert (HL : (length (digits z) <= n)%nat).
  { apply (digits_fuel_length (S (Z.to_nat (Z.log2 z))) z [] n Hn Hz). }
  rewrite length_app, repeat_length. lia.
Qed.

Lemma rem_abs_bound (a : Z) (n : nat) :
  0 <= Z.abs (Z.rem a (10 ^ Z.of_nat n)) < 10 ^ Z.of_nat n.
Proof.
  assert (Hp : 0 < 10 ^ Z.of_nat n) by (apply Z.pow_pos_nonneg; lia).
  pose proof (Z.rem_bound_abs a (10 ^ Z.of_nat n) ltac:(lia)). lia.
Qed.

(** C5 (as the code has it).  For every public key that [fromHex] accepts,
    the suffix is the decimal print, zero-padded to [n] digits, of the
    absolute value of the truncated remainder modulo [10^n] of the first
    four digest bytes read as a big-endian SIGNED 32-bit integer; it has
    exactly [n] digits for [n >= 1], and it is the unsigned reading of the
    specification whenever the first digest byte is below 128. *)
Theorem computeSuffix_signed_remainder (pubKeyHex : jsstring) (input : bytes) (n : nat) :
  fromHex pubKeyHex = Some input ->
  let h := Sha256.sha256 input in
  computeSuffix pubKeyHex n =
    Some (padStart0 (Number_toString (Z.abs (Z.rem (signed_be32 h) (10 ^ Z.of_nat n)))) n)
  /\ ((1 <= n)%nat ->
      forall s, computeSuffix pubKeyHex n = Some s -> length s = n)
  /\ (nth 0 h 0 < 128 ->
      computeSuffix pubKeyHex n = Some (deterministic_suffix input n)).
Proof.
  intros Hin h.
  assert (E : computeSuffix pubKeyHex n =
    Some (padStart0 (Number_toString (Z.abs (Z.rem (signed_be32 h) (10 ^ Z.of_nat n)))) n)).
  { unfold computeSuffix. rewrite Hin. fold h.
    rewrite num_signed by (apply nth_digest_range; lia).
    reflexivity. }
  split; [exact E |]. split.
  - intros Hn s Hs. rewrite E in Hs. injection Hs as <-.
    apply padded_length; [exact Hn | apply rem_abs_bound].
  - intros Hlow. rewrite E. unfold deterministic_suffix. fold h.
    do 3 f_equal.
    pose proof (nth_digest_range 0 input ltac:(lia)) as R0.
    pose proof (nth_digest_range 1 input ltac:(lia)) as R1.
    pose proof (nth_digest_range 2 input ltac:(lia)) as R2.
    pose proof (nth_digest_range 3 input ltac:(lia)) as R3.
    fold h in R0, R1, R2, R3.
    assert (Hu : 0 <= unsigned_be32 h < 2 ^ 31) by (unfold unsigned_be32; pow2; lia).
    unfold signed_be32.
    destruct (Z.ltb_spec (unsigned_be32 h) (2 ^ 31)); [| lia].
    assert (Hp : 0 < 10 ^ Z.of_nat n) by (apply Z.pow_pos_nonneg; lia).
    rewrite Z.rem_mod_nonneg by lia.
    apply Z.abs_eq. apply Z.mod_pos_bound. lia.
Qed.

Lemma computeSuffix_signed_remainder_witness :
  fromHex pk_low = Some (repeat 1 32) /\
  computeSuffix pk_low 4 = Some (js "5796") /\
  computeSuffix pk_low 4 = Some (deterministic_suffix (repeat 1 32) 4).
Proof.
  split; [vm_compute; reflexivity |].
  split; [vm_compute; reflexivity |].
  apply (computeSuffix_signed_remainder pk_low (repeat 1 32) 4).
  - vm_compute. reflexivity.
  - vm_compute. reflexivity.
Defined.

(** C5 (as stated) fails: for the key of thirty-two [0x04] bytes the first
    four digest bytes are [9f 4f b6 8f]; read unsigned they give 2672801423
    and the suffix ["1423"], the code reads them as -1622165873 and returns
    ["5873"]. *)
Lemma computeSuffix_not_unsigned :
  fromHex pk_high = Some (repeat 4 32) /\
  computeSuffix pk_high 4 = Some (js "5873") /\
  deterministic_suffix (repeat 4 32) 4 = js "1423" /\
  computeSuffix pk_high 4 <> Some (deterministic_suffix (repeat 4 32) 4).
Proof.
  split; [vm_compute; reflexivity |].
  split; [vm_compute; reflexivity |].
  split; [vm_compute; reflexivity |].
  vm_compute. discriminate.
Qed.

End SuffixFacts.


(* ===================================================================== *)
(** ** Username claims ([resolveWinner]) *)
(* ===================================================================== *)

Module ClaimFacts.
Import Js Value Utils Platform Crypto ClaimManager.

Section Resolve.
Context {P : Platform}.

Lemma filter_eligible (claims : list Claim) :
  List.filter claim_isValid (List.filter (fun c => negb (revoked c)) claims)
  = List.filter eligible claims.
Proof.
  induction claims as [| c cs IH]; simpl; [reflexivity |].
  unfold eligible at 1. destruct (revoked c); simpl.
  - exact IH.
  - destruct (claim_isValid c); simpl; now rewrite IH.
Qed.

Definition earliest (e c : Claim) : Claim :=
  if createdAt c <? createdAt e then c else e.

(** The [reduce] keeps the first of the claims with the least [createdAt]. *)
Lemma reduce_first_least (others : list Claim) :
  forall first : Claim,
  exists l1 l2,
    first :: others = l1 ++ fold_left earliest others first :: l2 /\
    (forall c, In c l1 -> createdAt (fold_left earliest others first) < createdAt c) /\
    (forall c, In c l2 -> createdAt (fold_left earliest others first) <= createdAt c).
Proof.
  induction others as [| x xs IH]; intros first; simpl.
  - exists [], []. simpl. repeat split; intros c [].
  - unfold earliest at 2 4 6.
    destruct (Z.ltb_spec (createdAt x) (createdAt first)) as [Hlt | Hge].
    + destruct (IH x) as (l1 & l2 & E & H1 & H2).
      remember (fold_left earliest xs x) as w eqn:Ew. clear Ew.
      assert (Hw : createdAt w <= createdAt x).
      { destruct l1 as [| y l1']; simpl in E; inversion E; subst.
        - lia.
        - specialize (H1 _ (or_introl eq_refl)). lia. }
      exists (first :: l1), l2. simpl. rewrite E. repeat split.
      * intros c [<- | Hc]; [lia | now apply H1].
      * exact H2.
    + destruct (IH first) as (l1 & l2 & E & H1 & H2).
      remember (fold_left earliest xs first) as w eqn:Ew. clear Ew.
      destruct l1 as [| y l1']; simpl in E; inversion E; subst.
      * exists [], (x :: l2). simpl. repeat split.
        -- intros c [].
        -- intros c [<- | Hc]; [lia |]. now apply H2.
      * exists (y :: x :: l1'), l2. simpl. repeat split.
        -- intros c [<- | [<- | Hc]].
           ++ apply H1. now left.
           ++ specialize (H1 _ (or_introl eq_refl)). lia.
           ++ apply H1. now right.
        -- exact H2.
Qed.

(** A split of a filtered list comes from a split of the list. *)
Lemma filter_split {A} (f : A -> bool) (l : list A) :
  forall l1 w l2,
    List.filter f l = l1 ++ w :: l2 ->
    exists L1 L2, l = L1 ++ w :: L2 /\ List.filter f L1 = l1 /\ List.filter f L2 = l2.
Proof.
  induction l as [| x xs IH]; intros l1 w l2 E; simpl in E.
  - destruct l1; discriminate.
  - destruct (f x) eqn:Fx.
    + destruct l1 as [| y l1'].
      * simpl in E. injection E as -> E.
        exists [], xs. simpl. auto.
      * simpl in E. injection E as -> E.
        destruct (IH _ _ _ E) as (L1 & L2 & -> & F1 & F2).
        exists (y :: L1), L2. simpl. rewrite Fx, F1. auto.
    + destruct (IH _ _ _ E) as (L1 & L2 & -> & F1 & F2).
      exists (x :: L1), L2. simpl. rewrite Fx. auto.
Qed.

Lemma resolveWinner_unfold (claims : list Claim) :
  resolveWinner claims =
  match List.filter eligible claims with
  | [] => None
  | first :: others => Some (fold_left earliest others first)
  end.
Proof.
  unfold resolveWinner. destruct claims as [| c cs]; [reflexivity |].
  rewrite <- filter_eligible.
  destruct (List.filter (fun c0 => negb (revoked c0)) (c :: cs)) eqn:E; reflexivity.
Qed.

(** C6 (as the code has it).  [resolveWinner] returns [null] exactly when
    no claim is both non-revoked and validly signed; otherwise it returns
    one of those claims, with the smallest [createdAt] among them, and
    among several with that smallest [createdAt] the one that comes FIRST
    in the input: every eligible claim before it is strictly later, every
    eligible claim after it is later or equal. *)
Theorem resolveWinner_first_earliest (claims : list Claim) :
  (resolveWinner claims = None <-> forall c, In c claims -> eligible c = false) /\
  (forall w, resolveWinner claims = Some w ->
     exists before after,
       claims = before ++ w :: after /\
       eligible w = true /\
       (forall c, In c before -> eligible c = true -> createdAt w < createdAt c) /\
       (forall c, In c after -> eligible c = true -> createdAt w <= createdAt c)).
Proof.
  rewrite resolveWinner_unfold. split.
  - destruct (List.filter eligible claims) as [| first others] eqn:E.
    + split; [| reflexivity]. intros _ c Hc.
      destruct (eligible c) eqn:Ec; [| reflexivity].
      assert (In c (List.filter eligible claims)) by (apply filter_In; auto).
      rewrite E in H. destruct H.
    + split; [discriminate |]. intros Hall. exfalso.
      assert (Hin : In first (List.filter eligible claims)) by (rewrite E; now left).
      apply filter_In in Hin. destruct Hin as [Hin Hel].
      rewrite (Hall _ Hin) in Hel. discriminate.
  - intros w Hw.
    destruct (List.filter eligible claims) as [| first others] eqn:E; [discriminate |].
    injection Hw as Hw.
    destruct (reduce_first_least others first) as (l1 & l2 & Es & H1 & H2).
    rewrite Hw in Es, H1, H2. rewrite Es in E.
    destruct (filter_split _ _ _ _ _ E) as (L1 & L2 & -> & F1 & F2).
    exists L1, L2. split; [reflexivity |]. split.
    + assert (Hin : In w (List.filter eligible (L1 ++ w :: L2))).
      { rewrite E. apply in_or_app. right. now left. }
      apply filter_In in Hin. tauto.
    + split; intros c Hc Hel.
      * apply H1. rewrite <- F1. apply filter_In. auto.
      * apply H2. rewrite <- F2. apply filter_In. auto.
Qed.

End Resolve.

Import Toy.

Lemma resolveWinner_first_earliest_witness :
  resolveWinner [bob_claim; alice_claim] = Some bob_claim /\
  exists before after,
    [bob_claim; alice_claim] = before ++ bob_claim :: after /\
    eligible bob_claim = true /\
    (forall c, In c before -> eligible c = true -> createdAt bob_claim < createdAt c) /\
    (forall c, In c after -> eligible c = true -> createdAt bob_claim <= createdAt c).
Proof.
  split; [vm_compute; reflexivity |].
  apply (proj2 (resolveWinner_first_earliest [bob_claim; alice_claim])).
  vm_compute. reflexivity.
Defined.

(** C6 (as stated) fails.  Alice and Bob both claim ["carol"] at time 10,
    both claims are validly signed and not revoked, and Alice's signature
    is the smaller one.  When Bob's claim comes first [resolveWinner]
    returns Bob's; a tie-break on the signature bytes returns Alice's, and
    so does [resolveWinner] on the same claims in the other order. *)
Lemma resolveWinner_no_tie_break :
  eligible alice_claim = true /\ eligible bob_claim = true /\
  createdAt alice_claim = createdAt bob_claim /\
  resolveWinner [bob_claim; alice_claim] = Some bob_claim /\
  resolve_winner_spec [bob_claim; alice_claim] = Some alice_claim /\
  resolveWinner [alice_claim; bob_claim] = Some alice_claim /\
  resolveWinner [bob_claim; alice_claim] <> resolveWinner [alice_claim; bob_claim].
Proof.
  split; [vm_compute; reflexivity |].
  split; [vm_compute; reflexivity |].
  split; [vm_compute; reflexivity |].
  split; [vm_compute; reflexivity |].
  split; [vm_compute; reflexivity |].
  split; [vm_compute; reflexivity |].
  vm_compute. discriminate.
Qed.

End ClaimFacts.

(* ===================================================================== *)
(** ** The byte codec ([msgpack.js]) *)
(* ===================================================================== *)

Module MsgpackFacts.
Import Js Value Msgpack.

Import SuffixFacts.

Lemma band_255 (x : Z) : - 2 ^ 31 <= x < 2 ^ 31 -> band x 255 = x mod 256.
Proof.
  intros Hx. unfold band.
  rewrite (toInt32_id x) by exact Hx.
  rewrite (toInt32_id 255) by (pow2; lia).
  change 255 with (Z.ones 8). rewrite Z.land_ones by lia.
  change (2 ^ 8) with 256.
  apply toInt32_id. pose proof (Z.mod_pos_bound x 256 ltac:(lia)). pow2. lia.
Qed.

Lemma sar_8 (x : Z) : - 2 ^ 31 <= x < 2 ^ 31 -> sar x 8 = x / 256.
Proof.
  intros Hx. unfold sar. rewrite (toInt32_id x) by exact Hx.
  change (8 mod 32) with 8. now rewrite Z.shiftr_div_pow2 by lia.
Qed.

(** What [decode] makes of a three-byte buffer with the tag [0xd1] and of
    a two-byte buffer with the tag [0xd0]. *)
Lemma decode_d1 (b0 b1 : Z) :
  decode [209; b0; b1] = Ok (JNum (bor (shl b0 8) b1)).
Proof. reflexivity. Qed.

Lemma decode_d0 (b : Z) :
  decode [208; b] = Ok (JNum (sar (shl b 24) 24)).
Proof. reflexivity. Qed.

Lemma encode_int16 (z : Z) :
  -32768 <= z < -128 ->
  encode (JNum z) = [209; (z / 256) mod 256; z mod 256].
Proof.
  intros Hz. unfold encode. simpl encodeValue. unfold encodeNumber.
  destruct (Z.leb_spec 0 z); [lia |].
  destruct (Z.leb_spec (-32) z); [lia |].
  destruct (Z.leb_spec (-128) z); [lia |].
  destruct (Z.leb_spec (-32768) z); [| lia].
  rewrite sar_8 by (pow2; lia).
  rewrite !band_255 by (pow2; Z.div_mod_to_equations; lia).
  simpl map. unfold toUint8. rewrite !Z.mod_mod by lia. reflexivity.
Qed.

Lemma encode_int8 (z : Z) :
  -128 <= z < -32 ->
  encode (JNum z) = [208; z mod 256].
Proof.
  intros Hz. unfold encode. simpl encodeValue. unfold encodeNumber.
  destruct (Z.leb_spec 0 z); [lia |].
  destruct (Z.leb_spec (-32) z); [lia |].
  destruct (Z.leb_spec (-128) z); [| lia].
  rewrite !band_255 by (pow2; lia).
  simpl map. unfold toUint8. rewrite !Z.mod_mod by lia. reflexivity.
Qed.

(** C7 (the defect).  Every integer from -32768 to -129 is written with
    the tag [0xd1] and two bytes, and [decode] reads the two bytes back
    without sign extension: the result is the integer plus 65536. *)
Theorem decode_encode_int16 (z : Z) :
  -32768 <= z < -128 ->
  decode (encode (JNum z)) = Ok (JNum (z + 65536)).
Proof.
  intros Hz. rewrite encode_int16, decode_d1 by exact Hz.
  do 2 f_equal.
  assert (H0 : 0 <= (z / 256) mod 256 < 256) by (apply Z.mod_pos_bound; lia).
  assert (H1 : 0 <= z mod 256 < 256) by (apply Z.mod_pos_bound; lia).
  rewrite shl_small by lia.
  rewrite bor_shifted by (pow2; lia).
  pow2. Z.div_mod_to_equations. lia.
Qed.

Lemma decode_encode_int16_witness :
  -32768 <= -200 < -128 /\ decode (encode (JNum (-200))) = Ok (JNum 65336).
Proof.
  split; [lia |]. apply (decode_encode_int16 (-200)). lia.
Defined.

(** The sibling tag [0xd0] sign-extends: the integers from -128 to -33
    come back unchanged. *)
Lemma decode_encode_int8 (z : Z) :
  -128 <= z < -32 -> decode (encode (JNum z)) = Ok (JNum z).
Proof.
  intros Hz. rewrite encode_int8, decode_d0 by exact Hz.
  do 2 f_equal.
  assert (Hm : z mod 256 = z + 256) by (Z.div_mod_to_equations; lia).
  rewrite Hm. unfold shl, sar.
  rewrite (toInt32_id (z + 256)) by (pow2; lia).
  change (24 mod 32) with 24.
  rewrite Z.shiftl_mul_pow2 by lia.
  rewrite (toInt32_high ((z + 256) * 2 ^ 24)) by (pow2; lia).
  replace ((z + 256) * 2 ^ 24 - 2 ^ 32) with (z * 2 ^ 24) by (pow2; lia).
  rewrite (toInt32_id (z * 2 ^ 24)) by (pow2; lia).
  rewrite Z.shiftr_div_pow2 by lia.
  apply Z.div_mul. pow2. lia.
Qed.

End MsgpackFacts.


(* ===================================================================== *)
(** ** Base64 *)
(* ===================================================================== *)

Module Base64Facts.
Import Js Utils.

Lemma b64_value_char (v : Z) : 0 <= v < 64 -> b64_value (b64_char v) = Some v.
Proof.
  intros Hv. unfold b64_char.
  assert (R : forall c lo hi, lo <= c <= hi -> (lo <=? c) && (c <=? hi) = true).
  { intros c lo hi Hc. apply andb_true_iff. split; apply Z.leb_le; lia. }
  assert (F : forall c lo hi, c < lo \/ hi < c -> (lo <=? c) && (c <=? hi) = false).
  { intros c lo hi Hc. apply andb_false_iff.
    destruct Hc; [left | right]; apply Z.leb_gt; lia. }
  destruct (Z.ltb_spec v 26).
  { unfold b64_value. rewrite R by lia. f_equal. lia. }
  destruct (Z.ltb_spec v 52).
  { unfold b64_value. rewrite F, R by lia. f_equal. lia. }
  destruct (Z.ltb_spec v 62).
  { unfold b64_value. rewrite F, F, R by lia. f_equal. lia. }
  destruct (Z.eqb_spec v 62).
  { subst. reflexivity. }
  assert (v = 63) by lia. subst. reflexivity.
Qed.

(** Induction on a list three elements at a time. *)
Lemma list_ind3 {A} (Q : list A -> Prop) :
  Q [] -> (forall a, Q [a]) -> (forall a b, Q [a; b]) ->
  (forall a b c r, Q r -> Q (a :: b :: c :: r)) ->
  forall l, Q l.
Proof.
  intros H0 H1 H2 H3.
  assert (H : forall l, Q l /\ (forall a, Q (a :: l)) /\ (forall a b, Q (a :: b :: l))).
  { induction l as [| x l (IH0 & IH1 & IH2)].
    - auto.
    - repeat split; auto. }
  intros l. apply H.
Qed.

Ltac byte_arith := Z.div_mod_to_equations; lia.

(** Decoding the encoding of bytes gives the bytes back. *)
Lemma fromBase64_toBase64 (bs : bytes) :
  Forall (fun b => 0 <= b < 256) bs -> fromBase64 (toBase64 bs) = Ok bs.
Proof.
  unfold fromBase64, toBase64.
  induction bs as [| a | a b | a b c r IH] using list_ind3; intros HF.
  - reflexivity.
  - inversion_clear HF as [| ? ? Ha _]. simpl.
    rewrite !b64_value_char by byte_arith. simpl. do 2 f_equal. byte_arith.
  - inversion_clear HF as [| ? ? Ha HF']. inversion_clear HF' as [| ? ? Hb _]. simpl.
    rewrite !b64_value_char by byte_arith. simpl. do 2 f_equal; [byte_arith |].
    f_equal. byte_arith.
  - inversion_clear HF as [| ? ? Ha HF']. inversion_clear HF' as [| ? ? Hb HF''].
    inversion_clear HF'' as [| ? ? Hc HF].
    specialize (IH HF). simpl.
    rewrite !b64_value_char by byte_arith. simpl.
    destruct (b64_values (b64_chunks r)) as [vs |]; [| discriminate]. simpl in *.
    rewrite IH. simpl. do 2 f_equal; [byte_arith |].
    f_equal; [byte_arith |]. f_equal. byte_arith.
Qed.

Lemma toBase64_nonempty (bs : bytes) : bs <> [] -> toBase64 bs <> [].
Proof.
  destruct bs as [| a [| b [| c r]]]; intros H; [congruence | | |]; discriminate.
Qed.

End Base64Facts.

(* ===================================================================== *)
(** ** Objects and sorted keys *)
(* ===================================================================== *)

Module ObjFacts.
Import Js.

Lemma str_eqb_eq (a b : jsstring) : str_eqb a b = true <-> a = b.
Proof. unfold str_eqb. apply bool_decide_eq_true. Qed.

Lemma str_eqb_refl (a : jsstring) : str_eqb a a = true.
Proof. now apply str_eqb_eq. Qed.

Lemma str_eqb_neq (a b : jsstring) : a <> b -> str_eqb a b = false.
Proof. intros H. unfold str_eqb. now apply bool_decide_eq_false. Qed.

Section Obj.
Context {V : Type}.
Implicit Types (o : Obj V) (k : jsstring) (v : V).

Lemma obj_get_set_eq o k v : obj_get (obj_set o k v) k = Some v.
Proof.
  induction o as [| [k' v'] o IH]; simpl.
  - now rewrite str_eqb_refl.
  - destruct (str_eqb k' k) eqn:E; simpl.
    + now rewrite str_eqb_refl.
    + now rewrite E.
Qed.

Lemma obj_get_set_ne o k k' v : k <> k' -> obj_get (obj_set o k v) k' = obj_get o k'.
Proof.
  intros Hne. induction o as [| [k0 v0] o IH]; simpl.
  - now rewrite str_eqb_neq.
  - destruct (str_eqb k0 k) eqn:E; simpl.
    + apply str_eqb_eq in E. subst k0. now rewrite !str_eqb_neq.
    + now rewrite IH.
Qed.

Lemma obj_get_None o k : obj_get o k = None <-> ~ In k (map fst o).
Proof.
  induction o as [| [k' v'] o IH]; simpl.
  - tauto.
  - destruct (str_eqb k' k) eqn:E.
    + apply str_eqb_eq in E. split; [discriminate | tauto].
    + assert (k' <> k) by (intros ->; now rewrite str_eqb_refl in E). tauto.
Qed.

Lemma obj_get_In o k v : obj_get o k = Some v -> In (k, v) o.
Proof.
  induction o as [| [k' v'] o IH]; simpl; [discriminate |].
  destruct (str_eqb k' k) eqn:E.
  - apply str_eqb_eq in E. intros [= ->]. left. now subst.
  - auto.
Qed.

Lemma In_obj_get o k v : NoDup (map fst o) -> In (k, v) o -> obj_get o k = Some v.
Proof.
  induction o as [| [k' v'] o IH]; simpl; [tauto |].
  intros Hnd [[= -> ->] | Hin].
  - now rewrite str_eqb_refl.
  - apply NoDup_cons in Hnd. destruct Hnd as [Hk Hnd].
    rewrite str_eqb_neq; [auto |].
    intros ->. apply Hk. apply list_elem_of_In, in_map_iff. now exists (k, v).
Qed.

Lemma obj_set_fresh o k v : ~ In k (map fst o) -> obj_set o k v = o ++ [(k, v)].
Proof.
  induction o as [| [k' v'] o IH]; simpl; [reflexivity |].
  intros Hk. rewrite str_eqb_neq by tauto. rewrite IH by tauto. reflexivity.
Qed.

Lemma obj_set_keys o k v :
  forall k', In k' (map fst (obj_set o k v)) <-> k' = k \/ In k' (map fst o).
Proof.
  intros k'. induction o as [| [k0 v0] o IH]; simpl.
  - intuition.
  - destruct (str_eqb k0 k) eqn:E; simpl.
    + apply str_eqb_eq in E. subst. intuition.
    + rewrite IH. intuition.
Qed.


End Obj.

(** *** Sorting *)

Section Sort.
Context {A : Type} (leb : A -> A -> bool).
Hypothesis leb_total : forall a b, leb a b = true \/ leb b a = true.
Hypothesis leb_trans : forall a b c, leb a b = true -> leb b c = true -> leb a c = true.
Hypothesis leb_antisym : forall a b, leb a b = true -> leb b a = true -> a = b.


Lemma insert_by_Permutation (x : A) (l : list A) : Permutation (insert_by leb x l) (x :: l).
Proof.
  induction l as [| y l IH]; simpl; [reflexivity |].
  destruct (leb x y); [reflexivity |].
  rewrite IH. apply perm_swap.
Qed.

Lemma sort_by_Permutation (l : list A) : Permutation (sort_by leb l) l.
Proof.
  induction l as [| x l IH]; simpl; [reflexivity |].
  rewrite insert_by_Permutation. now constructor.
Qed.





End Sort.




(** [Object.keys] lists every own key once. *)
Lemma Object_keys_Permutation {V} (o : Obj V) : Permutation (Object_keys o) (map fst o).
Proof.
  unfold Object_keys.
  rewrite sort_by_Permutation.
  apply filter_app_complement.
Qed.


End ObjFacts.

(* ===================================================================== *)
(** ** Trie nodes ([BinaryNode]) *)
(* ===================================================================== *)

Module NodeFacts.
Import Js Utils BinaryNode ObjFacts Base64Facts SuffixFacts MsgpackFacts.

(** *** Typed-array writes *)

Lemma insert_at_length (pre rest : bytes) (x y : Z) :
  <[length pre := x]> (pre ++ y :: rest) = pre ++ x :: rest.
Proof.
  rewrite insert_app_r_alt by lia.
  replace (length pre - length pre)%nat with 0%nat by lia. reflexivity.
Qed.

Lemma set_at_length (pre zs rest arr : bytes) :
  length zs = length arr ->
  set_at (pre ++ zs ++ rest) arr (length pre) = Ok (pre ++ arr ++ rest).
Proof.
  intros Hl. unfold set_at.
  destruct (Nat.ltb_spec (length (pre ++ zs ++ rest)) (length pre + length arr)) as [H | H].
  - rewrite !length_app in H. lia.
  - rewrite take_app_length. f_equal. f_equal. f_equal.
    rewrite drop_app_add'; [| reflexivity].
    rewrite <- Hl. now rewrite drop_app_length.
Qed.

Lemma at_middle (pre rest : bytes) (x : Z) : at_ (pre ++ x :: rest) (length pre) = x.
Proof. unfold at_. now rewrite list_lookup_middle. Qed.

(** *** The two-byte fields and the flags byte *)

Lemma u16_read (x : Z) :
  0 <= x < 65536 ->
  bor (shl (toUint8 (band (sar x 8) 255)) 8) (toUint8 (band x 255)) = x.
Proof.
  intros Hx.
  rewrite sar_8 by (pow2; lia).
  rewrite !band_255 by (pow2; Z.div_mod_to_equations; lia).
  unfold toUint8. rewrite !Z.mod_mod by lia.
  assert (H0 : 0 <= (x / 256) mod 256 < 256) by (apply Z.mod_pos_bound; lia).
  assert (H1 : 0 <= x mod 256 < 256) by (apply Z.mod_pos_bound; lia).
  rewrite shl_small by lia.
  rewrite bor_shifted by (pow2; lia).
  pow2. Z.div_mod_to_equations. lia.
Qed.

Fixpoint zrange (n : nat) (start : Z) : list Z :=
  match n with
  | O => []
  | S n' => start :: zrange n' (start + 1)
  end.

Lemma in_zrange (n : nat) :
  forall start z, start <= z < start + Z.of_nat n -> In z (zrange n start).
Proof.
  induction n as [| n IH]; intros start z Hz; [lia |].
  simpl. destruct (Z.eq_dec start z) as [-> | Hne]; [now left |].
  right. apply IH. lia.
Qed.

Definition flags_ok (hv : bool) (c : Z) : bool :=
  let f := toUint8 (bor (if hv then 1 else 0) (shl c 1)) in
  (band f 1 =? (if hv then 1 else 0)) && (band (sar f 1) 127 =? c).

Lemma flags_checked (hv : bool) :
  forallb (flags_ok hv) (zrange 128 0) = true.
Proof. destruct hv; vm_compute; reflexivity. Qed.

Lemma flags_read (hv : bool) (c : Z) :
  0 <= c <= 127 ->
  let f := toUint8 (bor (if hv then 1 else 0) (shl c 1)) in
  band f 1 = (if hv then 1 else 0) /\ band (sar f 1) 127 = c.
Proof.
  intros Hc.
  pose proof (proj1 (forallb_forall _ _) (flags_checked hv) c) as H.
  specialize (H (in_zrange 128 0 c ltac:(lia))).
  unfold flags_ok in H. apply andb_true_iff in H. destruct H as [H1 H2].
  apply Z.eqb_eq in H1, H2. auto.
Qed.

(** *** [serialize] produces the documented layout *)

Lemma write_children_cons (children : Obj jsstring) (char : jsstring)
      (rest : list jsstring) (buffer : bytes) (offset : nat) :
  write_children children (char :: rest) buffer offset =
  match obj_get children char with
  | None => Throw TypeError
  | Some hashB64 =>
      res_bind (fromBase64 hashB64) (fun hashBytes =>
      res_bind (set_at (<[offset := charCode_byte char]> buffer) hashBytes (S offset))
               (fun buffer => write_children children rest buffer (S offset + 32)))
  end.
Proof. reflexivity. Qed.

(** The loop overwrites the thirty-three bytes of every child, whatever
    the buffer held. *)
Lemma write_children_layout (children : Obj jsstring) (keys : list jsstring) :
  forall pre zs : bytes,
    length zs = (length keys * 33)%nat ->
    (forall k, In k keys ->
       exists h bs, obj_get children k = Some h /\ fromBase64 h = Ok bs /\ length bs = 32%nat) ->
    write_children children keys (pre ++ zs) (length pre)
    = Ok (pre ++ flat_map (entry children) keys).
Proof.
  induction keys as [| k rest IH]; intros pre zs Hzs Hk.
  - destruct zs; [| discriminate]. reflexivity.
  - destruct (Hk k (or_introl eq_refl)) as (h & bs & Hget & Hb & Hlen).
    rewrite write_children_cons, Hget, Hb. cbn [res_bind].
    destruct zs as [| z0 zs']; [discriminate |].
    cbn [length] in Hzs.
    rewrite insert_at_length.
    rewrite <- (take_drop 32 zs').
    replace (pre ++ charCode_byte k :: take 32 zs' ++ drop 32 zs')
      with ((pre ++ [charCode_byte k]) ++ take 32 zs' ++ drop 32 zs')
      by (now rewrite <- app_assoc).
    replace (S (length pre)) with (length (pre ++ [charCode_byte k]))
      by (rewrite length_app; cbn [length]; lia).
    rewrite set_at_length by (rewrite length_take; lia).
    cbn [res_bind].
    replace (length (pre ++ [charCode_byte k]) + 32)%nat
      with (length ((pre ++ [charCode_byte k]) ++ bs))
      by (rewrite !length_app; cbn [length]; lia).
    rewrite app_assoc.
    rewrite IH.
    + f_equal. cbn [flat_map]. unfold entry at 2, digest_bytes. rewrite Hget, Hb.
      rewrite <- !app_assoc. reflexivity.
    + rewrite length_drop. lia.
    + intros k' Hk'. apply Hk. now right.
Qed.

Lemma sorted_keys_In (n : node) (k : jsstring) :
  In k (sorted_keys n) <-> In k (map fst (children n)).
Proof.
  unfold sorted_keys.
  assert (Hp : Permutation (sort_by str_leb (Object_keys (children n))) (map fst (children n))).
  { rewrite sort_by_Permutation. apply Object_keys_Permutation. }
  split; intros H.
  - eapply Permutation_in; [exact Hp | exact H].
  - eapply Permutation_in; [symmetry; exact Hp | exact H].
Qed.

Lemma sorted_keys_length (n : node) : length (sorted_keys n) = length (children n).
Proof.
  unfold sorted_keys.
  rewrite (Permutation_length (sort_by_Permutation _ _)).
  rewrite (Permutation_length (Object_keys_Permutation _)).
  apply length_map.
Qed.

Lemma digest_decodes (h : jsstring) :
  is_digest h ->
  exists bs, fromBase64 h = Ok bs /\ length bs = 32%nat /\ toBase64 bs = h.
Proof.
  intros (bs & Hlen & Hr & ->). exists bs.
  split; [now apply fromBase64_toBase64 | auto].
Qed.

Lemma wf_key_digest (n : node) (k : jsstring) :
  well_formed n -> In k (sorted_keys n) ->
  exists h bs, obj_get (children n) k = Some h /\ fromBase64 h = Ok bs /\
               length bs = 32%nat /\ toBase64 bs = h.
Proof.
  intros Hwf Hk. apply sorted_keys_In in Hk.
  apply in_map_iff in Hk. destruct Hk as ([k' h] & Hfst & Hin). simpl in Hfst. subst k'.
  destruct (digest_decodes h (wf_digests n Hwf k h Hin)) as (bs & Hb & Hlen & Hh).
  exists h, bs. split; [| auto].
  apply In_obj_get; [apply (wf_keys n Hwf) | exact Hin].
Qed.

Lemma set_at_offset (pre zs rest arr : bytes) (offset : nat) :
  offset = length pre -> length zs = length arr ->
  set_at (pre ++ zs ++ rest) arr offset = Ok (pre ++ arr ++ rest).
Proof. intros ->. apply set_at_length. Qed.

Lemma write_children_offset (children : Obj jsstring) (keys : list jsstring)
      (pre zs : bytes) (offset : nat) :
  offset = length pre ->
  length zs = (length keys * 33)%nat ->
  (forall k, In k keys ->
     exists h bs, obj_get children k = Some h /\ fromBase64 h = Ok bs /\ length bs = 32%nat) ->
  write_children children keys (pre ++ zs) offset
  = Ok (pre ++ flat_map (entry children) keys).
Proof. intros ->. apply write_children_layout. Qed.

(** For a well-formed node [serialize] does not throw and writes the
    layout of the format comment. *)
Lemma serialize_layout (n : node) : well_formed n -> serialize n = Ok (layout n).
Proof.
  intros Hwf.
  assert (Hkeys : forall k, In k (sorted_keys n) ->
            exists h bs, obj_get (children n) k = Some h /\ fromBase64 h = Ok bs /\
                         length bs = 32%nat).
  { intros k Hk. destruct (wf_key_digest n k Hwf Hk) as (h & bs & ? & ? & ? & _). eauto. }
  unfold serialize, layout, flags_byte. fold (sorted_keys n).
  set (ks := sorted_keys n) in *.
  set (cnt := Z.of_nat (length ks)).
  set (f := toUint8 (bor _ _)).
  destruct (127 <=? cnt) eqn:Ext; destruct (value n) as [s |] eqn:Ev; cbn [option_map].
  - (* extended count, value *)
    set (vb := TextEncoder_encode s).
    replace (1 + 2 + (2 + length vb) + length ks * 33)%nat
      with (5 + (length vb + length ks * 33))%nat by lia.
    rewrite repeat_app. cbn [repeat Nat.add]. rewrite repeat_app.
    repeat (rewrite insert_app_l by (cbn [length]; lia); cbn [insert list_insert]).
    cbn [fst snd Nat.add].
    erewrite set_at_offset; [| reflexivity | apply repeat_length].
    cbn [res_bind fst snd].
    rewrite app_assoc.
    erewrite write_children_offset;
      [| rewrite length_app; cbn [length]; lia | apply repeat_length | exact Hkeys].
    unfold u16. rewrite <- ?app_assoc. reflexivity.
  - (* extended count, no value *)
    replace (1 + 2 + 0 + length ks * 33)%nat with (3 + length ks * 33)%nat by lia.
    rewrite repeat_app. cbn [repeat Nat.add].
    repeat (rewrite insert_app_l by (cbn [length]; lia); cbn [insert list_insert]).
    cbn [fst snd Nat.add res_bind].
    erewrite write_children_offset; [| reflexivity | apply repeat_length | exact Hkeys].
    reflexivity.
  - (* short count, value *)
    set (vb := TextEncoder_encode s).
    replace (1 + 0 + (2 + length vb) + length ks * 33)%nat
      with (3 + (length vb + length ks * 33))%nat by lia.
    rewrite repeat_app. cbn [repeat Nat.add]. rewrite repeat_app.
    repeat (rewrite insert_app_l by (cbn [length]; lia); cbn [insert list_insert]).
    cbn [fst snd Nat.add].
    erewrite set_at_offset; [| reflexivity | apply repeat_length].
    cbn [res_bind fst snd].
    rewrite app_assoc.
    erewrite write_children_offset;
      [| rewrite length_app; cbn [length]; lia | apply repeat_length | exact Hkeys].
    unfold u16. rewrite <- ?app_assoc. reflexivity.
  - (* short count, no value *)
    replace (1 + 0 + 0 + length ks * 33)%nat with (1 + length ks * 33)%nat by lia.
    rewrite repeat_app. cbn [repeat Nat.add].
    repeat (rewrite insert_app_l by (cbn [length]; lia); cbn [insert list_insert]).
    cbn [fst snd Nat.add res_bind].
    erewrite write_children_offset; [| reflexivity | apply repeat_length | exact Hkeys].
    reflexivity.
Qed.

(** *** [deserialize] reads the layout back *)

Lemma read_children_S (m : nat) (buffer : bytes) (offset : nat) (children : Obj jsstring) :
  read_children (S m) buffer offset children =
  if (length buffer <=? offset)%nat
  then Throw (Error "Invalid binary node: truncated children")
  else
    if (length buffer <? S offset + 32)%nat
    then Throw (Error "Invalid binary node: truncated hash")
    else
      read_children m buffer (S offset + 32)
        (obj_set children [at_ buffer offset] (toBase64 (take 32 (drop (S offset) buffer)))).
Proof. reflexivity. Qed.

Lemma read_children_entries (children : Obj jsstring) (keys : list jsstring) :
  forall (pre : bytes) (acc : Obj jsstring),
    (forall k, In k keys -> length (digest_bytes children k) = 32%nat) ->
    read_children (length keys) (pre ++ flat_map (entry children) keys) (length pre) acc
    = Ok (fold_left
            (fun o k => obj_set o [charCode_byte k] (toBase64 (digest_bytes children k)))
            keys acc).
Proof.
  induction keys as [| k rest IH]; intros pre acc Hk.
  - reflexivity.
  - cbn [length flat_map fold_left]. rewrite read_children_S.
    pose proof (Hk k (or_introl eq_refl)) as Hlen.
    set (db := digest_bytes children k) in *.
    set (tail := flat_map (entry children) rest).
    change (entry children k ++ tail) with (charCode_byte k :: db ++ tail).
    destruct (Nat.leb_spec (length (pre ++ charCode_byte k :: db ++ tail)) (length pre)) as [H | _].
    { rewrite length_app in H. cbn [length] in H. lia. }
    destruct (Nat.ltb_spec (length (pre ++ charCode_byte k :: db ++ tail)) (S (length pre) + 32))
      as [H | _].
    { rewrite !length_app in H. cbn [length] in H. rewrite length_app in H. lia. }
    rewrite at_middle.
    assert (Hd : take 32 (drop (S (length pre)) (pre ++ charCode_byte k :: db ++ tail)) = db).
    { replace (pre ++ charCode_byte k :: db ++ tail)
        with ((pre ++ [charCode_byte k]) ++ db ++ tail) by (now rewrite <- app_assoc).
      replace (S (length pre)) with (length (pre ++ [charCode_byte k]))
        by (rewrite length_app; cbn [length]; lia).
      rewrite drop_app_length. rewrite <- Hlen. apply take_app_length. }
    rewrite Hd.
    replace (pre ++ charCode_byte k :: db ++ tail)
      with ((pre ++ charCode_byte k :: db) ++ tail)
      by (rewrite <- app_assoc; reflexivity).
    replace (S (length pre) + 32)%nat with (length (pre ++ charCode_byte k :: db))
      by (rewrite length_app; cbn [length]; lia).
    apply IH. intros k' Hk'. apply Hk. now right.
Qed.

Lemma deserialize_unfold (buffer : bytes) :
  deserialize buffer =
  if (length buffer <? 1)%nat then Throw (Error "Invalid binary node: too short")
  else
    let flags := at_ buffer 0 in
    let hasValue := negb (band flags 1 =? 0) in
    let numChildren := band (sar flags 1) 127 in
    res_bind
      (if numChildren =? 127 then
         if (length buffer <? 1 + 2)%nat
         then Throw (Error "Invalid binary node: truncated extended count")
         else Ok (bor (shl (at_ buffer 1) 8) (at_ buffer 2), 3%nat)
       else Ok (numChildren, 1%nat)) (fun co =>
    res_bind
      (if hasValue then
         if (length buffer <? snd co + 2)%nat
         then Throw (Error "Invalid binary node: truncated value length")
         else
           let len := Z.to_nat (bor (shl (at_ buffer (snd co)) 8) (at_ buffer (S (snd co)))) in
           if (length buffer <? snd co + 2 + len)%nat
           then Throw (Error "Invalid binary node: truncated value")
           else
             Ok (Some (TextDecoder_decode (take len (drop (snd co + 2) buffer))),
                 (snd co + 2 + len)%nat)
       else Ok (None, snd co)) (fun vo =>
    res_bind (read_children (Z.to_nat (fst co)) buffer (snd vo) []) (fun children =>
    Ok (make (fst vo) children)))).
Proof. reflexivity. Qed.

Lemma wf_digest_length (n : node) (k : jsstring) :
  well_formed n -> In k (sorted_keys n) -> length (digest_bytes (children n) k) = 32%nat.
Proof.
  intros Hwf Hk. destruct (wf_key_digest n k Hwf Hk) as (h & bs & Hg & Hb & Hl & _).
  unfold digest_bytes. now rewrite Hg, Hb.
Qed.

Ltac len_check :=
  match goal with
  | |- context [(length ?b <? ?k)%nat] =>
      let H := fresh in
      destruct (Nat.ltb_spec (length b) k) as [H | _];
      [ exfalso; cbn [length] in H; rewrite ?length_app in H; cbn [length] in H; lia | ]
  end.

Ltac node_step :=
  cbn [app Nat.add at_ lookup list_lookup default from_option id
       Z.eqb Pos.eqb negb res_bind fst snd drop].

(** The value and the children that come back from the layout. *)
Lemma deserialize_layout (n : node) :
  well_formed n ->
  deserialize (layout n) = Ok (make (value n) (low_byte_children n)).
Proof.
  intros Hwf.
  pose proof (wf_digest_length n) as Hlen32.
  pose proof (sorted_keys_length n) as Hlk.
  pose proof (wf_count n Hwf) as Hcount.
  pose proof (wf_value n Hwf) as Hval.
  rewrite deserialize_unfold. unfold layout, low_byte_children.
  set (ks := sorted_keys n) in *.
  set (cnt := Z.of_nat (length ks)).
  assert (Hcnt : 0 <= cnt < 65536) by (unfold cnt; lia).
  set (ents := flat_map (entry (children n)) ks).
  assert (Hread : forall pre, read_children (Z.to_nat cnt) (pre ++ ents) (length pre) [] =
            Ok (fold_left (fun o k => obj_set o [charCode_byte k]
                                        (toBase64 (digest_bytes (children n) k))) ks [])).
  { intros pre. unfold cnt. rewrite Nat2Z.id.
    apply read_children_entries. intros k Hk. now apply Hlen32. }
  destruct (Z.leb_spec 127 cnt) as [Ext | Ext]; destruct (value n) as [s |] eqn:Ev.
  - (* extended count, value *)
    destruct Hval as [Hdec Hvlen].
    set (vb := TextEncoder_encode s) in *.
    pose proof (flags_read true 127 ltac:(lia)) as [F1 F2]. cbv zeta in F1, F2.
    pose proof (u16_read cnt Hcnt) as Hc.
    pose proof (u16_read (Z.of_nat (length vb)) ltac:(lia)) as Hv.
    unfold flags_byte, u16.
    destruct (Z.leb_spec 127 cnt) as [_ | ?]; [| lia].
    set (f := toUint8 (bor 1 (shl 127 1))) in *.
    set (c0 := toUint8 (band (sar cnt 8) 255)) in *.
    set (c1 := toUint8 (band cnt 255)) in *.
    set (v0 := toUint8 (band (sar (Z.of_nat (length vb)) 8) 255)) in *.
    set (v1 := toUint8 (band (Z.of_nat (length vb)) 255)) in *.
    node_step. len_check. cbv zeta. rewrite F1, F2. node_step.
    len_check. node_step. len_check. node_step.
    rewrite Hc, Hv, Nat2Z.id.
    len_check. rewrite ?drop_0, take_app_length, Hdec. node_step.
    change (f :: c0 :: c1 :: v0 :: v1 :: vb ++ ents) with ([f; c0; c1; v0; v1] ++ vb ++ ents).
    rewrite app_assoc.
    replace (5 + length vb)%nat with (length ([f; c0; c1; v0; v1] ++ vb))
      by (rewrite length_app; reflexivity).
    rewrite Hread. reflexivity.
  - (* extended count, no value *)
    pose proof (flags_read false 127 ltac:(lia)) as [F1 F2]. cbv zeta in F1, F2.
    pose proof (u16_read cnt Hcnt) as Hc.
    unfold flags_byte, u16.
    destruct (Z.leb_spec 127 cnt) as [_ | ?]; [| lia].
    set (f := toUint8 (bor 0 (shl 127 1))) in *.
    set (c0 := toUint8 (band (sar cnt 8) 255)) in *.
    set (c1 := toUint8 (band cnt 255)) in *.
    node_step. len_check. cbv zeta. rewrite F1, F2. node_step.
    len_check. node_step.
    rewrite Hc.
    change (f :: c0 :: c1 :: ents) with ([f; c0; c1] ++ ents).
    change 3%nat with (length [f; c0; c1]).
    rewrite Hread. reflexivity.
  - (* short count, value *)
    destruct Hval as [Hdec Hvlen].
    set (vb := TextEncoder_encode s) in *.
    pose proof (flags_read true cnt ltac:(lia)) as [F1 F2]. cbv zeta in F1, F2.
    pose proof (u16_read (Z.of_nat (length vb)) ltac:(lia)) as Hv.
    unfold flags_byte, u16.
    destruct (Z.leb_spec 127 cnt) as [? | _]; [lia |].
    set (f := toUint8 (bor 1 (shl cnt 1))) in *.
    set (v0 := toUint8 (band (sar (Z.of_nat (length vb)) 8) 255)) in *.
    set (v1 := toUint8 (band (Z.of_nat (length vb)) 255)) in *.
    node_step. len_check. cbv zeta. rewrite F1, F2.
    destruct (Z.eqb_spec cnt 127) as [? | _]; [lia |].
    node_step. len_check. node_step.
    rewrite Hv, Nat2Z.id.
    len_check. rewrite ?drop_0, take_app_length, Hdec. node_step.
    change (f :: v0 :: v1 :: vb ++ ents) with ([f; v0; v1] ++ vb ++ ents).
    rewrite app_assoc.
    replace (3 + length vb)%nat with (length ([f; v0; v1] ++ vb))
      by (rewrite length_app; reflexivity).
    rewrite Hread. reflexivity.
  - (* short count, no value *)
    pose proof (flags_read false cnt ltac:(lia)) as [F1 F2]. cbv zeta in F1, F2.
    unfold flags_byte.
    destruct (Z.leb_spec 127 cnt) as [? | _]; [lia |].
    set (f := toUint8 (bor 0 (shl cnt 1))) in *.
    node_step. len_check. cbv zeta. rewrite F1, F2.
    destruct (Z.eqb_spec cnt 127) as [? | _]; [lia |].
    node_step.
    change (f :: ents) with ([f] ++ ents).
    change 1%nat with (length [f]).
    rewrite Hread. reflexivity.
Qed.

(** *** What the rebuilt children answer *)

Lemma find_app_first {A} (p : A -> bool) (l1 l2 : list A) :
  find p (l1 ++ l2) = match find p l1 with Some x => Some x | None => find p l2 end.
Proof.
  induction l1 as [| a l1 IH]; cbn [app find]; [reflexivity |].
  destruct (p a); [reflexivity | exact IH].
Qed.


Section Rebuilt.
Context (f : jsstring -> jsstring) (g : jsstring -> jsstring).

Definition step (o : Obj jsstring) (k : jsstring) : Obj jsstring := obj_set o (f k) (g k).

Lemma rebuilt_get (keys : list jsstring) :
  forall (acc : Obj jsstring) (x : jsstring),
    obj_get (fold_left step keys acc) x =
    match find (fun k => str_eqb (f k) x) (rev keys) with
    | Some k => Some (g k)
    | None => obj_get acc x
    end.
Proof.
  induction keys as [| k rest IH]; intros acc x; cbn [fold_left rev].
  - reflexivity.
  - rewrite IH. rewrite find_app_first.
    destruct (find (fun k0 => str_eqb (f k0) x) (rev rest)) as [k' |]; [reflexivity |].
    cbn [find]. unfold step at 1.
    destruct (str_eqb (f k) x) eqn:E.
    + apply str_eqb_eq in E. rewrite <- E. apply obj_get_set_eq.
    + apply obj_get_set_ne. intros Hx. rewrite Hx, str_eqb_refl in E. discriminate.
Qed.

End Rebuilt.

Lemma low_byte_children_get (n : node) (x : jsstring) :
  obj_get (low_byte_children n) x =
  match find (fun k => str_eqb [charCode_byte k] x) (rev (sorted_keys n)) with
  | Some k => Some (toBase64 (digest_bytes (children n) k))
  | None => None
  end.
Proof.
  unfold low_byte_children.
  apply (rebuilt_get (fun k => [charCode_byte k])
                     (fun k => toBase64 (digest_bytes (children n) k))).
Qed.

Lemma charCode_byte_unit (c : Z) : 0 <= c < 256 -> [charCode_byte [c]] = [c].
Proof. intros Hc. unfold charCode_byte, toUint8. now rewrite Z.mod_small. Qed.

(** With characters below 256 the rebuilt children are the children. *)
Lemma low_byte_children_same (n : node) :
  well_formed n -> byte_keys n ->
  forall x, obj_get (low_byte_children n) x = obj_get (children n) x.
Proof.
  intros Hwf Hb x. rewrite low_byte_children_get.
  destruct (find _ (rev (sorted_keys n))) as [k |] eqn:Ef.
  - apply find_some in Ef. destruct Ef as [Hin Hx].
    rewrite <- in_rev in Hin.
    destruct (wf_key_digest n k Hwf Hin) as (h & bs & Hg & Hfb & Hl & Ht).
    apply sorted_keys_In, in_map_iff in Hin. destruct Hin as ([k' h'] & Hk' & Hin).
    simpl in Hk'. subst k'.
    destruct (Hb k h' Hin) as (c & -> & Hc).
    rewrite charCode_byte_unit in Hx by exact Hc.
    apply str_eqb_eq in Hx. subst x.
    unfold digest_bytes. rewrite Hg, Hfb, Ht. reflexivity.
  - destruct (obj_get (children n) x) as [h |] eqn:Eg; [| reflexivity].
    exfalso. apply obj_get_In in Eg.
    destruct (Hb x h Eg) as (c & -> & Hc).
    pose proof (find_none _ _ Ef [c]) as Hn. cbv beta in Hn.
    rewrite charCode_byte_unit, str_eqb_refl in Hn by exact Hc.
    assert (Hin : In [c] (rev (sorted_keys n))).
    { rewrite <- in_rev. apply sorted_keys_In, in_map_iff. now exists ([c], h). }
    specialize (Hn Hin). discriminate.
Qed.

(** *** [serialize] depends on the properties only *)





(** *** The claims on nodes *)


(** C10.  For every well-formed node (children under single code units),
    [serialize] succeeds and [deserialize] reads the result: a child under
    the code unit [c] comes back under the character of [c mod 256], no
    child comes back under a code unit of 256 or more, and the node comes
    back with the same children exactly when all its child characters are
    below 256. *)
Theorem child_key_low_byte (n : node) :
  well_formed n ->
  exists buffer n',
    serialize n = Ok buffer /\ deserialize buffer = Ok n' /\
    (forall c h, In ([c], h) (children n) ->
       is_Some (obj_get (children n') [c mod 256])) /\
    (forall c, 256 <= c -> obj_get (children n') [c] = None) /\
    (same_node n' n <-> byte_keys n).
Proof.
  intros Hwf.
  exists (layout n), (make (value n) (low_byte_children n)).
  split; [now apply serialize_layout |].
  split; [now apply deserialize_layout |].
  cbn [children make].
  assert (Hhigh : forall c, 256 <= c -> obj_get (low_byte_children n) [c] = None).
  { intros c Hc. rewrite low_byte_children_get.
    destruct (find _ (rev (sorted_keys n))) as [k |] eqn:Ef; [| reflexivity].
    apply find_some in Ef. destruct Ef as [_ Hx].
    apply str_eqb_eq in Hx. injection Hx as Hx.
    assert (0 <= charCode_byte k < 256).
    { unfold charCode_byte, toUint8. destruct k; [lia | apply Z.mod_pos_bound; lia]. }
    lia. }
  split; [| split; [exact Hhigh |]].
  - intros c h Hin. rewrite low_byte_children_get.
    destruct (find _ (rev (sorted_keys n))) as [k |] eqn:Ef; [eauto |].
    exfalso.
    pose proof (find_none _ _ Ef [c]) as Hn. cbv beta in Hn.
    assert (Hk : In [c] (rev (sorted_keys n))).
    { rewrite <- in_rev. apply sorted_keys_In, in_map_iff. now exists ([c], h). }
    specialize (Hn Hk). unfold charCode_byte, toUint8 in Hn.
    rewrite str_eqb_refl in Hn. discriminate.
  - split.
    + intros [_ Hsame] k h Hin.
      destruct (wf_units n Hwf k h Hin) as (c & -> & Hc).
      exists c. split; [reflexivity |].
      destruct (Z.lt_ge_cases c 256) as [Hlt | Hge]; [lia |].
      exfalso. specialize (Hsame [c]). cbn [children make] in Hsame.
      rewrite (Hhigh c Hge) in Hsame.
      rewrite (In_obj_get _ _ _ (wf_keys n Hwf) Hin) in Hsame. discriminate.
    + intros Hb. split; [reflexivity |]. apply (low_byte_children_same n Hwf Hb).
Qed.

Import Toy.

Lemma digest_of_sha (msg : bytes) : is_digest (toBase64 (Sha256.sha256 msg)).
Proof.
  exists (Sha256.sha256 msg).
  split; [apply Sha256Facts.sha256_length |].
  split; [apply Sha256Facts.sha256_range | reflexivity].
Qed.

Ltac closed_range := vm_compute; split; [discriminate | reflexivity].



Lemma node_cjk_well_formed : well_formed node_cjk.
Proof.
  constructor.
  - apply (bool_decide_unpack _). vm_compute. exact I.
  - intros k h [[= <- <-] | []]; eexists; (split; [reflexivity | closed_range]).
  - intros k h [[= <- <-] | []]; apply digest_of_sha.
  - vm_compute. reflexivity.
  - exact I.
Qed.

Lemma child_key_low_byte_witness :
  exists buffer n',
    serialize node_cjk = Ok buffer /\ deserialize buffer = Ok n' /\
    (forall c h, In ([c], h) (children node_cjk) ->
       is_Some (obj_get (children n') [c mod 256])) /\
    (forall c, 256 <= c -> obj_get (children n') [c] = None) /\
    (same_node n' node_cjk <-> byte_keys node_cjk).
Proof.
  apply (child_key_low_byte node_cjk). exact node_cjk_well_formed.
Defined.


End NodeFacts.


(* ===================================================================== *)
(** ** The caches *)
(* ===================================================================== *)

Module CacheFacts.
Import Js Utils Resolved ObjFacts.

Section Cache.
Context {V : Type}.
Implicit Types (c : list (jsstring * V)) (k : jsstring) (v : V).

Lemma Map_get_app c1 c2 k :
  Map_get (c1 ++ c2) k = match Map_get c1 k with Some v => Some v | None => Map_get c2 k end.
Proof.
  unfold Map_get. induction c1 as [| [k' v'] c1 IH]; simpl; [reflexivity |].
  destruct (str_eqb k' k); [reflexivity | exact IH].
Qed.

Lemma Map_get_delete_eq c k : Map_get (Map_delete c k) k = None.
Proof.
  unfold Map_get, Map_delete. induction c as [| [k' v'] c IH]; simpl; [reflexivity |].
  destruct (str_eqb k' k) eqn:E; simpl; [exact IH | now rewrite E].
Qed.

Lemma Map_get_delete_ne c k k' : k' <> k -> Map_get (Map_delete c k) k' = Map_get c k'.
Proof.
  intros Hne. unfold Map_get, Map_delete.
  induction c as [| [k0 v0] c IH]; simpl; [reflexivity |].
  destruct (str_eqb k0 k) eqn:E; simpl.
  - apply str_eqb_eq in E. subst k0. rewrite str_eqb_neq by congruence. exact IH.
  - destruct (str_eqb k0 k'); [reflexivity | exact IH].
Qed.

Lemma Map_delete_absent c k : Map_get c k = None -> Map_delete c k = c.
Proof.
  unfold Map_get, Map_delete. induction c as [| [k' v'] c IH]; simpl; [reflexivity |].
  destruct (str_eqb k' k); [discriminate |]. intros H. simpl. now rewrite IH.
Qed.

Lemma Map_delete_app c1 c2 k : Map_delete (c1 ++ c2) k = Map_delete c1 k ++ Map_delete c2 k.
Proof. unfold Map_delete. apply List.filter_app. Qed.

Lemma Map_delete_length c k : (length (Map_delete c k) <= length c)%nat.
Proof. unfold Map_delete. apply List.filter_length_le. Qed.

Lemma Map_get_delete_None c k k' : Map_get c k' = None -> Map_get (Map_delete c k) k' = None.
Proof.
  intros H. destruct (decide (k' = k)) as [-> | Hne].
  - apply Map_get_delete_eq.
  - now rewrite Map_get_delete_ne.
Qed.

(** A hit moves the entry; what is found under each key stays. *)
Lemma lru_get_lookup c k k' : Map_get (snd (lru_get c k)) k' = Map_get c k'.
Proof.
  unfold lru_get. destruct (Map_get c k) as [v |] eqn:E; simpl; [| reflexivity].
  rewrite Map_get_app. destruct (decide (k' = k)) as [-> | Hne].
  - rewrite Map_get_delete_eq. unfold Map_get at 1. simpl. now rewrite str_eqb_refl.
  - rewrite Map_get_delete_ne by exact Hne.
    destruct (Map_get c k'); [reflexivity |].
    unfold Map_get. simpl. now rewrite str_eqb_neq by congruence.
Qed.

Lemma lru_get_result c k : fst (lru_get c k) = Map_get c k.
Proof. unfold lru_get. now destruct (Map_get c k). Qed.

Lemma recent_lookup m c k v : recent m c k v -> Map_get c k = Some v.
Proof.
  intros (c1 & c2 & -> & _ & H1). rewrite Map_get_app, H1.
  unfold Map_get. simpl. now rewrite str_eqb_refl.
Qed.

Lemma recent_mono m m' c k v : recent m c k v -> (m <= m')%nat -> recent m' c k v.
Proof. intros (c1 & c2 & E & Hl & H1) Hm. exists c1, c2. repeat split; [exact E | lia | exact H1]. Qed.

Lemma recent_moved c k v : recent 1 (Map_delete c k ++ [(k, v)]) k v.
Proof.
  exists (Map_delete c k), []. repeat split; [simpl; lia | apply Map_get_delete_eq].
Qed.

Lemma recent_after_get m c k v k' : recent m c k v -> recent (S m) (snd (lru_get c k')) k v.
Proof.
  intros Hr. unfold lru_get. destruct (Map_get c k') as [v' |] eqn:E; simpl.
  - destruct (decide (k' = k)) as [-> | Hne].
    + rewrite (recent_lookup _ _ _ _ Hr) in E. injection E as <-.
      eapply recent_mono; [apply recent_moved | lia].
    + destruct Hr as (c1 & c2 & -> & Hl & H1).
      exists (Map_delete c1 k'), (Map_delete c2 k' ++ [(k', v')]).
      repeat split.
      * rewrite Map_delete_app. unfold Map_delete at 2. simpl.
        rewrite str_eqb_neq by congruence. simpl. now rewrite <- app_assoc.
      * rewrite length_app. simpl. pose proof (Map_delete_length c2 k'). lia.
      * now apply Map_get_delete_None.
  - eapply recent_mono; [exact Hr | lia].
Qed.

Lemma recent_hit c k v : Map_get c k = Some v -> recent 1 (snd (lru_get c k)) k v.
Proof. intros E. unfold lru_get. rewrite E. simpl. apply recent_moved. Qed.

Lemma put_newest_self maxSize c k v :
  (1 <= maxSize)%nat -> recent 1 (put_newest maxSize c k v) k v.
Proof.
  intros Hm. unfold put_newest.
  destruct (Nat.ltb_spec maxSize (length (Map_delete c k ++ [(k, v)]))) as [Hlt | Hge].
  - destruct (Map_delete c k) as [| x c1] eqn:E.
    + simpl in Hlt. lia.
    + simpl. exists c1, []. repeat split; [simpl; lia |].
      pose proof (Map_get_delete_eq c k) as H. rewrite E in H.
      unfold Map_get in *. simpl in H. destruct x as [k0 v0].
      destruct (str_eqb k0 k); [discriminate | exact H].
  - apply recent_moved.
Qed.

Lemma put_newest_other m maxSize c k v k' v' :
  recent m c k v -> k' <> k -> (S m <= maxSize)%nat ->
  recent (S m) (put_newest maxSize c k' v') k v.
Proof.
  intros (c1 & c2 & -> & Hl & H1) Hne Hm. unfold put_newest.
  assert (E : Map_delete (c1 ++ (k, v) :: c2) k' ++ [(k', v')]
              = Map_delete c1 k' ++ (k, v) :: (Map_delete c2 k' ++ [(k', v')])).
  { rewrite Map_delete_app. unfold Map_delete at 2. simpl.
    rewrite str_eqb_neq by congruence. simpl. now rewrite <- app_assoc. }
  rewrite E.
  assert (Hl2 : (length (Map_delete c2 k' ++ [(k', v')]) < S m)%nat).
  { rewrite length_app. simpl. pose proof (Map_delete_length c2 k'). lia. }
  pose proof (Map_get_delete_None c1 k' k H1) as H1'.
  destruct (Nat.ltb_spec maxSize
              (length (Map_delete c1 k' ++ (k, v) :: (Map_delete c2 k' ++ [(k', v')]))))
    as [Hlt | Hge].
  - destruct (Map_delete c1 k') as [| x c1'] eqn:E1.
    + simpl in Hlt. lia.
    + simpl. exists c1', (Map_delete c2 k' ++ [(k', v')]).
      repeat split; [exact Hl2 |].
      unfold Map_get in *. simpl in H1'. destruct x as [k0 v0].
      destruct (str_eqb k0 k); [discriminate | exact H1'].
  - exists (Map_delete c1 k'), (Map_delete c2 k' ++ [(k', v')]).
    repeat split; [exact Hl2 | exact H1'].
Qed.

(** The entries of [items], set one after the other, are all found
    afterwards when no two of them have the same key and the cache has
    room for them. *)
Lemma sets_recent maxSize (items : list (jsstring * V)) :
  forall c m (touched : list (jsstring * V)),
    NoDup (map fst (touched ++ items)) ->
    Forall (fun e => recent m c (fst e) (snd e)) touched ->
    (m + length items <= maxSize)%nat ->
    Forall (fun e => recent (m + length items)
                            (fold_left (fun c e => lru_set maxSize c (fst e) (snd e)) items c)
                            (fst e) (snd e))
           (touched ++ items).
Proof.
  induction items as [| [k v] items IH]; intros c m touched Hnd Ht Hm.
  - simpl. rewrite app_nil_r, Nat.add_0_r. exact Ht.
  - simpl in Hm. simpl fold_left.
    replace (touched ++ (k, v) :: items) with ((touched ++ [(k, v)]) ++ items) in *
      by now rewrite <- app_assoc.
    replace (m + length ((k, v) :: items))%nat with (S m + length items)%nat by (simpl; lia).
    apply IH; [exact Hnd | | lia].
    apply Forall_app. split.
    + rewrite Forall_forall in Ht |- *. intros [k0 v0] Hin. simpl.
      unfold lru_set. apply put_newest_other; [exact (Ht _ Hin) | | lia].
      intros ->. rewrite map_app, map_app in Hnd. simpl in Hnd.
      apply NoDup_app in Hnd. destruct Hnd as (Hnd & _ & _).
      apply NoDup_app in Hnd. destruct Hnd as (_ & Hdis & _).
      apply (Hdis k0); [| now left].
      apply list_elem_of_fmap. exists (k0, v0). split; [reflexivity | exact Hin].
    + constructor; [| constructor]. simpl. unfold lru_set.
      eapply recent_mono; [apply put_newest_self | ]; lia.
Qed.

Lemma sets_lookup maxSize (items : list (jsstring * V)) c :
  NoDup (map fst items) -> (length items <= maxSize)%nat ->
  Forall (fun e => Map_get (fold_left (fun c e => lru_set maxSize c (fst e) (snd e)) items c)
                           (fst e) = Some (snd e)) items.
Proof.
  intros Hnd Hl.
  pose proof (sets_recent maxSize items c 0%nat [] Hnd (Forall_nil_2 _) Hl) as H.
  simpl in H. eapply Forall_impl; [exact H |].
  intros e He. eapply recent_lookup, He.
Qed.

End Cache.

End CacheFacts.

(* ===================================================================== *)
(** ** The trie: [get] after [get] and after [put] *)
(* ===================================================================== *)

Module TrieFacts.
Import Js Utils Value Platform Crypto BinaryNode Monad BinaryTrie Resolved ObjFacts CacheFacts.
Local Open Scope monad_scope.

Lemma bind_inv {S A B} (m : M S A) (k : A -> M S B) (s s'' : S) (r : B) :
  bind m k s = (Ok r, s'') -> exists a s', m s = (Ok a, s') /\ k a s' = (Ok r, s'').
Proof. unfold bind. destruct (m s) as [[a | e] s']; [eauto | discriminate]. Qed.

Lemma bind_ok {S A B} (m : M S A) (k : A -> M S B) (s s' : S) (a : A) :
  m s = (Ok a, s') -> bind m k s = k a s'.
Proof. unfold bind. now intros ->. Qed.

Ltac monad_inv H :=
  let a := fresh "a" in let s := fresh "s" in let E := fresh "E" in
  apply bind_inv in H as (a & s & E & H).

(** The fields of the trie that [get] leaves alone. *)
Lemma with_nodeCache_twice f g t :
  with_nodeCache f (with_nodeCache g t) = with_nodeCache (fun c => f (g c)) t.
Proof. reflexivity. Qed.

Lemma walk_cons (c : jsstring) (rest : list jsstring) (cur : node) (t : trie) :
  walk (c :: rest) cur t =
  match obj_get (children cur) c with
  | None | Some [] => (Ok None, t)
  | Some (z :: h) =>
      let cache := lru_get (nodeCache t) (z :: h) in
      let t1 := with_nodeCache (fun _ => snd cache) t in
      match fst cache with
      | Some n => walk rest n t1
      | None =>
          match obj_get (storage t) (z :: h) with
          | None | Some (Text []) => (Ok None, t1)
          | Some (Text (_ :: _)) => (Throw Unmodelled, t1)
          | Some (Bytes b) =>
              match deserialize b with
              | Ok n =>
                  walk rest n
                    (with_nodeCache (fun c => lru_set nodeCache_maxSize c (z :: h) n) t1)
              | Throw e => (Throw e, t1)
              end
          end
      end
  end.
Proof.
  cbn [walk]. destruct (obj_get (children cur) c) as [[| z h] |]; try reflexivity.
  unfold bind at 1. unfold nodeCache_get.
  destruct (lru_get (nodeCache t) (z :: h)) as [[n |] c1]; cbn [fst snd]; [reflexivity |].
  unfold bind at 1. unfold storage_get, gets. cbn [storage with_nodeCache].
  destruct (obj_get (storage t) (z :: h)) as [[b | [| ? ?]] |]; reflexivity.
Qed.

(** A walk that reaches a node leaves the nodes it went through in the
    cache, as long as the cache has room for the path: the entries touched
    before ([touched]) and during the walk are still found after it. *)
Lemma walk_found (chars : list jsstring) :
  forall (cur : node) (t : trie) (leaf : node) (t' : trie) (m : nat)
         (touched : list (jsstring * node)),
    walk chars cur t = (Ok (Some leaf), t') ->
    (m + length chars <= nodeCache_maxSize)%nat ->
    Forall (fun e => recent m (nodeCache t) (fst e) (snd e)) touched ->
    chain (nodeCache t') chars cur leaf /\
    Forall (fun e => recent (m + length chars) (nodeCache t') (fst e) (snd e)) touched /\
    t' = with_nodeCache (fun _ => nodeCache t') t.
Proof.
  induction chars as [| c rest IH]; intros cur t leaf t' m touched Hw Hm Ht.
  - cbn in Hw. injection Hw as -> ->. simpl. rewrite Nat.add_0_r.
    repeat split; try assumption. now destruct t'.
  - rewrite walk_cons in Hw.
    destruct (obj_get (children cur) c) as [[| z h] |] eqn:Ec; try discriminate.
    cbn zeta in Hw.
    pose proof (lru_get_result (nodeCache t) (z :: h)) as Er.
    replace (m + length (c :: rest))%nat with (S m + length rest)%nat by (simpl; lia).
    simpl in Hm.
    destruct (fst (lru_get (nodeCache t) (z :: h))) as [n |] eqn:El.
    + destruct (IH n _ leaf t' (S m) ((z :: h, n) :: touched) Hw) as (Hch & Hrec & Hfr);
        [lia | |].
      * constructor.
        -- simpl. eapply recent_mono; [apply recent_hit; congruence | lia].
        -- eapply Forall_impl; [exact Ht |]. intros e He. simpl. apply recent_after_get, He.
      * apply Forall_cons in Hrec. destruct Hrec as [Hn Hrec]. simpl in Hn.
        split; [| split; [exact Hrec |]].
        -- simpl. exists (z :: h), n.
           repeat split; [exact Ec | discriminate | eapply recent_lookup; exact Hn | exact Hch].
        -- rewrite Hfr at 1. reflexivity.
    + assert (Hmiss : snd (lru_get (nodeCache t) (z :: h)) = nodeCache t).
      { unfold lru_get. rewrite <- Er. reflexivity. }
      rewrite Hmiss in Hw.
      destruct (obj_get (storage t) (z :: h)) as [[b | [| ? ?]] |]; try discriminate.
      destruct (deserialize b) as [n | e]; try discriminate.
      destruct (IH n _ leaf t' (S m) ((z :: h, n) :: touched) Hw) as (Hch & Hrec & Hfr);
        [lia | |].
      * constructor.
        -- simpl. unfold lru_set.
           eapply recent_mono; [apply put_newest_self; unfold nodeCache_maxSize; lia | lia].
        -- eapply Forall_impl; [exact Ht |]. intros e He. simpl. unfold lru_set.
           apply put_newest_other; [exact He | | lia].
           intros Heq. apply recent_lookup in He. rewrite <- Heq in He. congruence.
      * apply Forall_cons in Hrec. destruct Hrec as [Hn Hrec]. simpl in Hn.
        split; [| split; [exact Hrec |]].
        -- simpl. exists (z :: h), n.
           repeat split; [exact Ec | discriminate | eapply recent_lookup; exact Hn | exact Hch].
        -- rewrite Hfr at 1. reflexivity.
Qed.

(** Along a chain every step is a hit: the walk reaches the leaf, and
    what the cache holds under each digest stays. *)
Lemma walk_chain (chars : list jsstring) :
  forall (cur : node) (t : trie) (leaf : node),
    chain (nodeCache t) chars cur leaf ->
    exists cache,
      walk chars cur t = (Ok (Some leaf), with_nodeCache (fun _ => cache) t) /\
      forall k, Map_get cache k = Map_get (nodeCache t) k.
Proof.
  induction chars as [| c rest IH]; intros cur t leaf Hch.
  - simpl in Hch. subst leaf. exists (nodeCache t). split; [| reflexivity].
    cbn. now destruct t.
  - simpl in Hch. destruct Hch as (h & n & Ec & Hne & Eh & Hch).
    rewrite walk_cons, Ec. destruct h as [| z h]; [congruence |]. cbn zeta.
    rewrite lru_get_result, Eh.
    destruct (IH n (with_nodeCache (fun _ => snd (lru_get (nodeCache t) (z :: h))) t) leaf)
      as (cache & Hw & Hlook).
    + cbn [nodeCache with_nodeCache]. clear - Hch.
      revert n Hch. induction rest as [| c' rest' IH']; intros n Hch; [exact Hch |].
      simpl in *. destruct Hch as (h' & n' & ? & ? & ? & ?).
      exists h', n'. repeat split; try assumption.
      * now rewrite lru_get_lookup.
      * now apply IH'.
    + exists cache. split; [exact Hw |].
      intros k. rewrite Hlook. cbn [nodeCache with_nodeCache]. apply lru_get_lookup.
Qed.

Lemma chain_ext (cache cache' : list (jsstring * node)) (chars : list jsstring) :
  (forall k, Map_get cache' k = Map_get cache k) ->
  forall cur leaf, chain cache chars cur leaf -> chain cache' chars cur leaf.
Proof.
  intros Hext. induction chars as [| c rest IH]; intros cur leaf Hch; [exact Hch |].
  simpl in *. destruct Hch as (h & n & ? & ? & ? & ?).
  exists h, n. repeat split; try assumption; [now rewrite Hext | now apply IH].
Qed.

(** [getRoot] either holds the root under the root digest afterwards or
    answers the empty node; it touches the root cache only. *)
Lemma getRoot_result (t t' : trie) (root : node) :
  getRoot t = (Ok root, t') ->
  t' = with_rootCache (rootCache t') t /\
  (rootCache t' = Some (rootHash t, root) \/ root = empty).
Proof.
  unfold getRoot.
  assert (L : loadRoot t = (Ok root, t') ->
              t' = with_rootCache (rootCache t') t /\
              (rootCache t' = Some (rootHash t, root) \/ root = empty)).
  { unfold loadRoot. destruct (rootHash t) as [[| z rh] |] eqn:Eh.
    - intros [= <- <-]. split; [reflexivity | now right].
    - unfold bind at 1. unfold storage_get, gets.
      destruct (obj_get (storage t) (z :: rh)) as [[b | [| ? ?]] |].
      + unfold bind at 1. unfold deserialize_stored, lift.
        destruct (deserialize b) as [n | e]; [| discriminate].
        cbn. intros [= <- <-]. split; [reflexivity | now left].
      + cbn. intros [= <- <-]. split; [reflexivity | now right].
      + cbn. discriminate.
      + cbn. intros [= <- <-]. split; [reflexivity | now right].
    - intros [= <- <-]. split; [reflexivity | now right]. }
  destruct (rootCache t) as [[h n] |] eqn:Ec; [| exact L].
  destruct (bool_decide (h = rootHash t)) eqn:Eb; [| exact L].
  apply bool_decide_eq_true in Eb. subst h.
  intros [= <- <-]. split; [| now left]. destruct t. cbn in *. now subst.
Qed.

Lemma getRoot_cached (t : trie) (root : node) :
  rootCache t = Some (rootHash t, root) -> getRoot t = (Ok root, t).
Proof. intros E. unfold getRoot. rewrite E. now rewrite bool_decide_eq_true_2. Qed.

Lemma walk_empty (chars : list jsstring) (t t' : trie) (leaf : node) :
  walk chars empty t = (Ok (Some leaf), t') -> leaf = empty.
Proof.
  destruct chars as [| c rest].
  - cbn. now intros [= <- _].
  - rewrite walk_cons. cbn. discriminate.
Qed.

(** What [ValueStore.get] returned, when it is not [null], is in the value
    cache afterwards. *)
Lemma valueStore_get_found (vko : option jsstring) (t t' : trie) (v : JSValue) :
  valueStore_get vko t = (Ok v, t') -> truthy v = true ->
  exists vk, vko = Some vk /\ vk <> [] /\ Map_get (valueCache t') vk = Some v /\
             t' = with_valueCache (fun _ => valueCache t') t.
Proof.
  intros H Hv. destruct vko as [[| z vk] |]; cbn in H;
    try (injection H as <- _; discriminate).
  exists (z :: vk). split; [reflexivity |]. split; [discriminate |].
  unfold bind, gets in H. cbn in H.
  destruct (Map_get (valueCache t) (z :: vk)) as [cached |] eqn:Ec.
  - cbn in H. injection H as <- <-. split; [exact Ec | now destruct t].
  - unfold storage_get, gets in H. cbn in H.
    destruct (obj_get (storage t) (z :: vk)) as [[b | [| ? ?]] |]; cbn in H;
      try (injection H as <- _; discriminate); try discriminate.
    unfold lift in H. destruct (Msgpack.decode b) as [value | e]; [| discriminate].
    cbn in H. injection H as <- <-. split; [| reflexivity].
    cbn. eapply recent_lookup. apply put_newest_self. unfold valueCache_maxSize. lia.
Qed.

Lemma hash_nonempty (data : bytes) : hash data <> [].
Proof.
  unfold hash. apply Base64Facts.toBase64_nonempty. intros E.
  apply (f_equal (@length Z)) in E. rewrite Sha256Facts.sha256_length in E. discriminate.
Qed.

(** [ValueStore.put] of a value other than [null] and [undefined] leaves
    it in the value cache under its key. *)
Lemma valueStore_put_cached (val : JSValue) (t t' : trie) (vko : option jsstring) :
  valueStore_put val t = (Ok vko, t') -> val <> JNull -> val <> JUndefined ->
  exists vk, vko = Some vk /\ vk <> [] /\ Map_get (valueCache t') vk = Some val /\
             nodeCache t' = nodeCache t.
Proof.
  intros H Hn Hu.
  assert (G : forall (t0 : trie) (key : jsstring) (m : M trie unit),
             (forall s, exists f, m s = (Ok tt, with_storage f s)) ->
             (m ;;; addToCache key val ;;; ret (Some key)) t0 = (Ok vko, t') ->
             vko = Some key /\ Map_get (valueCache t') key = Some val /\
             nodeCache t' = nodeCache t0).
  { intros t0 key m Hm H0. destruct (Hm t0) as (f & Em).
    rewrite (bind_ok _ _ _ _ _ Em) in H0. cbn in H0. injection H0 as <- <-.
    split; [reflexivity |]. split; [| reflexivity].
    cbn. eapply recent_lookup. apply put_newest_self. unfold valueCache_maxSize. lia. }
  assert (K : forall enc : bytes, valuePrefix ++ hash enc <> []) by (intros enc; discriminate).
  assert (S : forall (t0 : trie) (key : jsstring) (enc : bytes),
             (existing <- storage_get key ;;
              match existing with
              | None => storage_put key (Bytes enc)
              | Some _ => ret tt
              end ;;; addToCache key val ;;; ret (Some key)) t0 = (Ok vko, t') ->
             vko = Some key /\ Map_get (valueCache t') key = Some val /\
             nodeCache t' = nodeCache t0).
  { intros t0 key enc H0. unfold bind at 1 in H0. unfold storage_get, gets in H0.
    revert H0. apply G. intros s.
    destruct (match obj_get (storage t0) key with
              | Some (Text []) => None
              | r => r
              end).
    - exists (fun st => st). now destruct s.
    - eexists. reflexivity. }
  destruct val; try congruence; cbn [valueStore_put] in H;
    apply S in H as (-> & Hc & Hnc); eexists; (split; [reflexivity |]);
    (split; [apply K |]); (split; [exact Hc | exact Hnc]).
Qed.

Lemma save_nodes_frame (nodesToSave : list (jsstring * bytes)) :
  forall t, exists f, save_nodes nodesToSave t = (Ok tt, with_storage f t).
Proof.
  induction nodesToSave as [| [h data] rest IH]; intros t.
  - exists (fun st => st). now destruct t.
  - cbn [save_nodes]. unfold bind, storage_put, modify.
    destruct (IH (with_storage (fun st => obj_set st h (Bytes data)) t)) as (f & E).
    rewrite E. eexists (fun st => f (obj_set st h (Bytes data))). reflexivity.
Qed.

Lemma ascend_S (i : nat) (path : jsstring) (stack : list node) (childHash leafHash : jsstring)
               (saved : list (jsstring * bytes)) (t : trie) :
  (S i < length stack)%nat ->
  ascend (S i) path stack childHash leafHash saved t =
  match stack !! i with
  | None => (Throw TypeError, t)
  | Some parent =>
      let parent' := Node (value parent) (obj_set (children parent) [nth i path 0] childHash)
                          (_hasValue parent) in
      match serialize parent' with
      | Throw e => (Throw e, t)
      | Ok ser =>
          ascend i path (<[i := parent']> stack) (hash ser) leafHash
                 (saved ++ [(hash ser, ser)])
                 (with_nodeCache (fun c => lru_set nodeCache_maxSize c (hash ser) parent') t)
      end
  end.
Proof.
  intros Hi. cbn [ascend]. destruct (stack !! i) as [parent |]; [| reflexivity].
  cbv zeta. rewrite length_insert.
  replace (S i =? length stack)%nat with false by (symmetry; apply Nat.eqb_neq; lia).
  unfold bind at 1. unfold ret at 1. unfold bind at 1. unfold lift.
  destruct (serialize _) as [ser | e]; reflexivity.
Qed.

(** The second loop of [put] sets one cache entry per level; under any
    cache that holds them, and the child of level [k] under the digest
    the loop starts from, the new root is linked to that child along the
    first [k] code units of the path. *)
Lemma ascend_chain (path leafHash : jsstring) :
  forall (k : nat) (stack : list node) (childHash : jsstring)
         (saved : list (jsstring * bytes)) (t : trie)
         (stack' : list node) (h0 : jsstring) (saved' : list (jsstring * bytes)) (t' : trie),
    ascend k path stack childHash leafHash saved t = (Ok (stack', h0, saved'), t') ->
    (k < length stack)%nat -> (k <= length path)%nat ->
    exists added : list (jsstring * node),
      map fst saved' = map fst saved ++ map fst added /\
      length added = k /\
      t' = with_nodeCache
             (fun c => fold_left (fun c e => lru_set nodeCache_maxSize c (fst e) (snd e))
                                 added c) t /\
      forall (cacheF : list (jsstring * node)) (node_k : node) (tail : list jsstring)
             (leaf : node),
        Forall (fun e => Map_get cacheF (fst e) = Some (snd e)) added ->
        stack !! k = Some node_k ->
        Map_get cacheF childHash = Some node_k -> childHash <> [] ->
        chain cacheF tail node_k leaf ->
        exists root, stack' !! 0%nat = Some root /\
                     chain cacheF (map (fun c => [c]) (take k path) ++ tail) root leaf.
Proof.
  induction k as [| i IH];
    intros stack childHash saved t stack' h0 saved' t' H Hk Hp.
  - cbn in H. injection H as <- <- <- <-. exists [].
    split; [now rewrite app_nil_r |]. split; [reflexivity |]. split; [now destruct t |].
    intros cacheF node_k tail leaf _ Hs _ _ Hch. exists node_k. split; [exact Hs | exact Hch].
  - rewrite ascend_S in H by exact Hk.
    destruct (stack !! i) as [parent |] eqn:Ep; [| discriminate].
    cbv zeta in H.
    set (parent' := Node (value parent) (obj_set (children parent) [nth i path 0] childHash)
                         (_hasValue parent)) in *.
    destruct (serialize parent') as [ser | e] eqn:Eser; [| discriminate].
    apply IH in H as (added & Esaved & Elen & Et' & Hchain);
      [| rewrite length_insert; lia | lia].
    exists ((hash ser, parent') :: added).
    split; [| split; [| split]].
    + rewrite Esaved, map_app. simpl. now rewrite <- app_assoc.
    + simpl. now rewrite Elen.
    + rewrite Et'. reflexivity.
    + intros cacheF node_k tail leaf Hall Hs Hc Hne Hch.
      apply Forall_cons in Hall. destruct Hall as [Hhead Hall]. simpl in Hhead.
      destruct (Hchain cacheF parent' ([nth i path 0] :: tail) leaf Hall) as (root & Hr & Hroot).
      * apply list_lookup_insert_eq. lia.
      * exact Hhead.
      * apply hash_nonempty.
      * simpl. exists childHash, node_k.
        repeat split; [apply obj_get_set_eq | exact Hne | exact Hc | exact Hch].
      * exists root. split; [exact Hr |].
        assert (Et : take (S i) path = take i path ++ [nth i path 0]).
        { assert (Hl : path !! i = Some (nth i path 0)).
          { destruct (lookup_lt_is_Some_2 path i ltac:(lia)) as [x Hx].
            now rewrite (nth_lookup_Some _ _ 0 _ Hx). }
          rewrite (take_S_r _ _ _ Hl). reflexivity. }
        rewrite Et, map_app, <- app_assoc. exact Hroot.
Qed.

Lemma descend_length (chars : list jsstring) :
  forall (cur : node) (stack : list node) (t : trie) (stack' : list node) (t' : trie),
    descend chars cur stack t = (Ok stack', t') ->
    length stack' = (length stack + length chars)%nat.
Proof.
  induction chars as [| c rest IH]; intros cur stack t stack' t' H.
  - cbn in H. injection H as <- _. simpl. lia.
  - cbn [descend] in H. apply bind_inv in H as (child & s & _ & H).
    apply IH in H. rewrite H, length_app. simpl. lia.
Qed.

Section WithPlatform.
Context {P : Platform}.

(** After a [put] that returned, the path is resolved in the caches with
    the value put, when the path has no surrogate pair, the node cache has
    room for its nodes, and no two nodes written have the same digest. *)
Lemma put_hot (key : jsstring) (val : JSValue) (t t' : trie) (newRoot : jsstring) :
  put key val t = (Ok newRoot, t') ->
  val <> JNull -> val <> JUndefined ->
  units_are_chars (normalizeKey key) ->
  (length (normalizeKey key) < nodeCache_maxSize)%nat ->
  NoDup (map fst (lastBatch t')) ->
  hot (normalizeKey key) val t'.
Proof.
  intros H Hn Hu Hunits Hlen Hnd. unfold put in H.
  set (path := normalizeKey key) in *.
  apply bind_inv in H as (oldRoot & s1 & _ & H).
  apply bind_inv in H as (stack & s2 & Edesc & H).
  apply bind_inv in H as (valueKey & s3 & Eval & H).
  apply descend_length in Edesc. simpl in Edesc.
  assert (Elen : length stack = S (length path)).
  { rewrite Edesc, Hunits, length_map. reflexivity. }
  destruct (valueStore_put_cached _ _ _ _ Eval Hn Hu) as (vk & -> & Hvk & Hvc & _).
  replace (length stack - 1)%nat with (length path) in H by lia.
  destruct (stack !! length path) as [leaf0 |] eqn:El; [| discriminate].
  set (leaf := Node (Some vk) (children leaf0) true) in *.
  apply bind_inv in H as (ser & s4 & Eser & H).
  unfold lift in Eser. destruct (serialize leaf) as [ser' |]; [| discriminate].
  injection Eser as -> <-.
  apply bind_inv in H as ([] & s5 & Eset & H).
  unfold nodeCache_set, modify in Eset. injection Eset as <-.
  apply bind_inv in H as ([[stack' h0] saved'] & s6 & Easc & H).
  apply ascend_chain in Easc as (added & Esaved & Eadded & Es6 & Hchain);
    [| rewrite length_insert; lia | lia].
  apply bind_inv in H as ([] & s7 & E7 & H).
  unfold modify in E7. injection E7 as <-.
  apply bind_inv in H as ([] & s8 & E8 & H).
  destruct (save_nodes_frame saved' (with_lastBatch saved' s6)) as (f & Esave).
  rewrite Esave in E8. injection E8 as <-.
  apply bind_inv in H as ([] & s9 & E9 & H).
  unfold modify in E9. injection E9 as <-.
  apply bind_inv in H as ([] & s10 & E10 & H).
  destruct (stack' !! 0%nat) as [root |] eqn:Eroot; [| discriminate].
  unfold modify in E10. injection E10 as <-.
  cbn in H. injection H as <- <-.
  cbn [lastBatch with_rootCache with_rootHash with_storage with_lastBatch] in Hnd.
  set (items := (hash ser, leaf) :: added).
  set (cacheF := fold_left (fun c e => lru_set nodeCache_maxSize c (fst e) (snd e))
                           items (nodeCache s3)).
  assert (Hcache : nodeCache s6 = cacheF).
  { rewrite Es6. reflexivity. }
  assert (Hall : Forall (fun e => Map_get cacheF (fst e) = Some (snd e)) items).
  { apply sets_lookup.
    - subst items. simpl. rewrite Esaved in Hnd. exact Hnd.
    - subst items. simpl. rewrite Eadded. lia. }
  apply Forall_cons in Hall. destruct Hall as [Hleaf Hall]. simpl in Hleaf.
  destruct (Hchain cacheF leaf [] leaf Hall) as (root' & Er' & Hch).
  - apply list_lookup_insert_eq. lia.
  - exact Hleaf.
  - apply hash_nonempty.
  - reflexivity.
  - assert (root' = root) as -> by congruence.
    exists root, leaf, vk.
    split; [reflexivity |]. split; [| split; [reflexivity | split; [exact Hvk |]]].
    + cbn [nodeCache with_rootCache with_rootHash with_storage with_lastBatch].
      rewrite Hcache. rewrite app_nil_r, firstn_all in Hch.
      rewrite Hunits. exact Hch.
    + cbn [valueCache with_rootCache with_rootHash with_storage with_lastBatch].
      rewrite Es6. exact Hvc.
Qed.

(** What [get] found once stays resolved in the caches, for a path that
    the node cache has room for; the store and the root digest are those
    of before. *)
Lemma get_found (key : jsstring) (t t' : trie) (v : JSValue) :
  get key t = (Ok v, t') -> truthy v = true ->
  (length (chars_of (normalizeKey key)) <= nodeCache_maxSize)%nat ->
  hot (normalizeKey key) v t' /\
  storage t' = storage t /\ rootHash t' = rootHash t /\ lastBatch t' = lastBatch t.
Proof.
  intros H Hv Hlen. unfold get in H.
  apply bind_inv in H as (root & s1 & Eroot & H).
  apply bind_inv in H as (found & s2 & Ewalk & H).
  destruct found as [leaf |]; [| cbn in H; injection H as <- _; discriminate].
  destruct (hasValue leaf) eqn:Ehv; [| cbn in H; injection H as <- _; discriminate].
  apply getRoot_result in Eroot as (Es1 & Hroot).
  destruct Hroot as [Hroot | ->].
  2:{ apply walk_empty in Ewalk. subst leaf. discriminate. }
  destruct (walk_found _ _ _ _ _ 0%nat [] Ewalk Hlen (Forall_nil_2 _)) as (Hch & _ & Es2).
  destruct (valueStore_get_found _ _ _ _ H Hv) as (vk & Evk & Hne & Hcache & Et').
  assert (Ec2 : rootCache s2 = rootCache s1) by (rewrite Es2; reflexivity).
  assert (Eh2 : rootHash s2 = rootHash s1) by (rewrite Es2; reflexivity).
  assert (Eh1 : rootHash s1 = rootHash t) by (rewrite Es1; reflexivity).
  split; [| split; [| split]].
  - exists root, leaf, vk. repeat split; try assumption.
    + rewrite Et'. cbn. rewrite Ec2, Eh2, Eh1. exact Hroot.
    + rewrite Et'. cbn. exact Hch.
  - rewrite Et'. cbn. rewrite Es2. cbn. rewrite Es1. reflexivity.
  - rewrite Et'. cbn. now rewrite Eh2.
  - rewrite Et'. cbn. rewrite Es2. cbn. rewrite Es1. reflexivity.
Qed.

(** A resolved path is answered from the caches, and stays resolved. *)
Lemma get_hot (key : jsstring) (t : trie) (v : JSValue) :
  hot (normalizeKey key) v t ->
  exists t', get key t = (Ok v, t') /\ hot (normalizeKey key) v t' /\
             storage t' = storage t /\ rootHash t' = rootHash t /\
             lastBatch t' = lastBatch t.
Proof.
  intros (root & leaf & vk & Hroot & Hch & Hval & Hne & Hcache).
  destruct (walk_chain _ _ _ _ Hch) as (cache & Hw & Hlook).
  exists (with_nodeCache (fun _ => cache) t). split; [| split; [| now repeat split]].
  - unfold get. rewrite (bind_ok _ _ _ _ _ (getRoot_cached _ _ Hroot)).
    rewrite (bind_ok _ _ _ _ _ Hw).
    unfold hasValue. rewrite Hval. destruct vk as [| z vk]; [congruence |].
    unfold valueStore_get, bind, gets, ret. cbn [valueCache with_nodeCache].
    now rewrite Hcache.
  - exists root, leaf, vk. repeat split; try assumption.
    cbn. eapply chain_ext; [| exact Hch]. exact Hlook.
Qed.

End WithPlatform.

End TrieFacts.


(* ===================================================================== *)
(** ** The coordinator: last write wins *)
(* ===================================================================== *)

Module MergeFacts.
Import Js Utils Value Platform Crypto BinaryNode Monad Railgun Resolved ObjFacts TrieFacts.
Local Open Scope monad_scope.

Lemma hot_with_storage path v f (t : BinaryTrie.trie) :
  hot path v t -> hot path v (BinaryTrie.with_storage f t).
Proof. intros (root & leaf & vk & H). exists root, leaf, vk. exact H. Qed.



Section WithPlatform.
Context {P : Platform}.

(** [_saveHead] writes at most the head pointer to the store. *)
Lemma saveHead_frame (h : jsstring) (d : db) :
  exists d' f, _saveHead h d = (Ok tt, d') /\ trie d' = BinaryTrie.with_storage f (trie d).
Proof.
  unfold _saveHead, bind, modify, gets. cbn [headSaveCount with_head].
  destruct (headSaveBatchSize <=? headSaveCount d + 1).
  - unfold _flushHead, bind, modify, gets. cbn [pendingHead with_head].
    destruct h as [| z h].
    + eexists _, (fun st => st). split; [reflexivity |]. cbn. now destruct (trie d).
    + unfold on_trie, BinaryTrie.storage_put, modify. cbn.
      eexists _, _. split; reflexivity.
  - eexists _, (fun st => st). split; [reflexivity |]. cbn. now destruct (trie d).
Qed.



Lemma bind_assoc {S A B C} (m : M S A) (f : A -> M S B) (g : B -> M S C) (s : S) :
  bind (bind m f) g s = bind m (fun x => bind (f x) g) s.
Proof. unfold bind. destruct (m s) as [[a | e] s']; reflexivity. Qed.


Lemma getEntry_hot (key : jsstring) (v : JSValue) (d : db) :
  hot (normalizeKey key) v (trie d) -> fst (getEntry key d) = Ok v.
Proof.
  intros H. destruct (get_hot key (trie d) v H) as (t' & E & _).
  unfold getEntry, on_trie. now rewrite E.
Qed.







End WithPlatform.

Import Toy.


End MergeFacts.


(* ===================================================================== *)
(** ** The coordinator: local writes *)
(* ===================================================================== *)

Module LocalFacts.
Import Js Utils Value Platform Crypto BinaryNode Monad Railgun Resolved ObjFacts TrieFacts
       MergeFacts.
Local Open Scope monad_scope.

Section WithPlatform.
Context {P : Platform}.

Lemma put_all (key : jsstring) (value : JSValue) (options : PutOptions) (now : Z) (iv : bytes)
              (d : db) (rt : Runtime) (id : Identity) :
  runtime d = Some rt -> privateKey rt <> [] -> identity d = Some id ->
  space_or_all (o_space options) = js "all" ->
  put key value options now iv d
  = sign_and_store rt id (js "all/" ++ key) value false (js "all") options now d.
Proof.
  intros Hrt Hpk Hid Hs. unfold put. unfold bind at 1. unfold gets at 1. rewrite Hrt.
  destruct (privateKey rt) as [| z pk] eqn:Epk; [congruence |].
  unfold bind at 1. unfold gets at 1. rewrite Hid, Hs.
  rewrite <- Epk. reflexivity.
Qed.

Lemma put_frozen (key : jsstring) (value : JSValue) (options : PutOptions) (now : Z)
                 (iv : bytes) (d : db) (rt : Runtime) (id : Identity) :
  runtime d = Some rt -> privateKey rt <> [] -> identity d = Some id ->
  space_or_all (o_space options) = js "frozen" ->
  put key value options now iv d
  = (existing <- on_trie (BinaryTrie.get (js "frozen/" ++ key)) ;;
     if truthy existing then throw (Immutable key)
     else sign_and_store rt id (js "frozen/" ++ key) value false (js "frozen") options now) d.
Proof.
  intros Hrt Hpk Hid Hs. unfold put. unfold bind at 1. unfold gets at 1. rewrite Hrt.
  destruct (privateKey rt) as [| z pk] eqn:Epk; [congruence |].
  unfold bind at 1. unfold gets at 1. rewrite Hid, Hs.
  rewrite <- Epk.
  change (str_eqb (js "frozen") (js "all")) with false.
  change (str_eqb (js "frozen") (js "frozen")) with true.
  cbv iota. rewrite bind_assoc.
  destruct (on_trie (BinaryTrie.get (js "frozen/" ++ key)) d) as [[existing | err] d1] eqn:E.
  - rewrite !(bind_ok _ _ _ _ _ E). destruct (truthy existing); reflexivity.
  - unfold bind at 1. rewrite E. unfold bind at 1. rewrite E. reflexivity.
Qed.

(** A write that returned leaves its envelope at the storage key. *)
Lemma sign_and_store_entry (rt : Runtime) (id : Identity) (storageKey : jsstring)
                           (finalValue : JSValue) (isEncrypted : bool) (space : jsstring)
                           (options : PutOptions) (now : Z) (d d' : db)
                           (root : option jsstring) :
  sign_and_store rt id storageKey finalValue isEncrypted space options now d = (Ok root, d') ->
  o_volatile options = false ->
  units_are_chars (normalizeKey storageKey) ->
  (length (normalizeKey storageKey) < BinaryTrie.nodeCache_maxSize)%nat ->
  NoDup (map fst (BinaryTrie.lastBatch (trie d'))) ->
  exists signature,
    fst (getEntry storageKey d')
    = Ok (envelope_object
            (MkEnvelope (MkPayload storageKey finalValue now (publicKey id) isEncrypted space)
                        signature)).
Proof.
  intros H Hvol Hunits Hlen Hnd. unfold sign_and_store in H. rewrite Hvol in H.
  apply bind_inv in H as (signature & s0 & Esig & H).
  unfold lift in Esig. injection Esig as Esig <-.
  exists signature.
  apply bind_inv in H as (newRoot & d2 & Eput & H).
  apply bind_inv in Eput as (r & d1 & Eput & Esave).
  unfold on_trie in Eput.
  destruct (BinaryTrie.put storageKey _ (trie d)) as [r' t1] eqn:Et. injection Eput as -> <-.
  apply bind_inv in Esave as ([] & d3 & Esave & Eret).
  unfold ret in Eret. injection Eret as <- <-.
  destruct (saveHead_frame r (with_trie t1 d)) as (d3' & f & Es & Etr).
  rewrite Es in Esave. injection Esave as <-.
  apply bind_inv in H as ([] & d4 & Eemit & H).
  unfold ret in H. injection H as _ <-.
  assert (Etrie : trie d4 = trie d3').
  { destruct (o_silent options).
    - unfold ret in Eemit. now injection Eemit as <-.
    - unfold emit, modify in Eemit. now injection Eemit as <-. }
  apply getEntry_hot. rewrite Etrie, Etr in *. apply hot_with_storage.
  cbn [trie with_trie] in *.
  eapply put_hot; [exact Et | discriminate | discriminate | exact Hunits | exact Hlen |].
  exact Hnd.
Qed.

Lemma get_plain (key storageKey space : jsstring) (d : db) :
  space <> js "user" ->
  (if str_eqb space (js "all") then ret (js "all/" ++ key)
   else if str_eqb space (js "frozen") then ret (js "frozen/" ++ key)
   else if str_eqb space (js "user") then
     id <- gets identity ;;
     match id with
     | None => throw (Error "Login required for user space")
     | Some id => ret (js "user/" ++ publicKey id ++ js "/" ++ key)
     end
   else ret key) d = (Ok storageKey, d) ->
  forall o, space_or_all o = space ->
  fst (get key o d) = res_bind (fst (getEntry storageKey d)) plain_value.
Proof.
  intros Hs Hk o Ho. unfold get. rewrite Ho. rewrite (bind_ok _ _ _ _ _ Hk).
  unfold getEntry, bind.
  destruct (on_trie (BinaryTrie.get storageKey) d) as [[envelope | err] d1]; [| reflexivity].
  cbn [fst res_bind]. unfold plain_value.
  destruct (negb (truthy envelope)); [reflexivity |].
  unfold lift. destruct (prop envelope (js "payload")) as [payload | err]; [| reflexivity].
  cbn [res_bind]. destruct (prop payload (js "value")) as [val | err]; [| reflexivity].
  cbn [res_bind]. destruct (prop payload (js "isEncrypted")) as [enc | err]; [| reflexivity].
  cbn [res_bind]. rewrite (str_eqb_neq _ _ Hs), andb_false_r. reflexivity.
Qed.

Lemma get_all (key : jsstring) (d : db) (o : option jsstring) :
  space_or_all o = js "all" ->
  fst (get key o d) = res_bind (fst (getEntry (js "all/" ++ key) d)) plain_value.
Proof.
  intros Ho. apply (get_plain key _ (js "all")); [discriminate | reflexivity | exact Ho].
Qed.

Lemma get_frozen (key : jsstring) (d : db) (o : option jsstring) :
  space_or_all o = js "frozen" ->
  fst (get key o d) = res_bind (fst (getEntry (js "frozen/" ++ key) d)) plain_value.
Proof.
  intros Ho. apply (get_plain key _ (js "frozen")); [discriminate | reflexivity | exact Ho].
Qed.

Lemma plain_value_envelope (e : Envelope) :
  plain_value (envelope_object e) = Ok (p_value (e_payload e)).
Proof. reflexivity. Qed.

(** In the space [all], when the storage key has no surrogate pair and
    fewer code units than the node cache has entries, and the write meets
    no two nodes with the same digest: a [put] that returned is followed
    by a [get] of the value put. *)
Lemma put_then_get_all (key : jsstring) (value : JSValue) (options : PutOptions) (now : Z)
                       (iv : bytes) (d d' : db) (rt : Runtime) (id : Identity)
                       (root : option jsstring) :
  runtime d = Some rt -> privateKey rt <> [] -> identity d = Some id ->
  space_or_all (o_space options) = js "all" -> o_volatile options = false ->
  put key value options now iv d = (Ok root, d') ->
  units_are_chars (normalizeKey (js "all/" ++ key)) ->
  (length (normalizeKey (js "all/" ++ key)) < BinaryTrie.nodeCache_maxSize)%nat ->
  NoDup (map fst (BinaryTrie.lastBatch (trie d'))) ->
  fst (get key (o_space options) d') = Ok value.
Proof.
  intros Hrt Hpk Hid Hs Hvol H Hunits Hlen Hnd.
  rewrite (put_all _ _ _ _ _ _ rt id Hrt Hpk Hid Hs) in H.
  destruct (sign_and_store_entry _ _ _ _ _ _ _ _ _ _ _ H Hvol Hunits Hlen Hnd) as (sig & E).
  rewrite (get_all _ _ _ Hs), E. reflexivity.
Qed.

(** The same in the space [frozen], where [put] returns only when
    nothing is found at the key. *)
Lemma put_then_get_frozen (key : jsstring) (value : JSValue) (options : PutOptions) (now : Z)
                          (iv : bytes) (d d' : db) (rt : Runtime) (id : Identity)
                          (root : option jsstring) :
  runtime d = Some rt -> privateKey rt <> [] -> identity d = Some id ->
  space_or_all (o_space options) = js "frozen" -> o_volatile options = false ->
  put key value options now iv d = (Ok root, d') ->
  units_are_chars (normalizeKey (js "frozen/" ++ key)) ->
  (length (normalizeKey (js "frozen/" ++ key)) < BinaryTrie.nodeCache_maxSize)%nat ->
  NoDup (map fst (BinaryTrie.lastBatch (trie d'))) ->
  fst (get key (o_space options) d') = Ok value.
Proof.
  intros Hrt Hpk Hid Hs Hvol H Hunits Hlen Hnd.
  rewrite (put_frozen _ _ _ _ _ _ rt id Hrt Hpk Hid Hs) in H.
  apply bind_inv in H as (existing & d1 & _ & H).
  destruct (truthy existing); [discriminate |].
  destruct (sign_and_store_entry _ _ _ _ _ _ _ _ _ _ _ H Hvol Hunits Hlen Hnd) as (sig & E).
  rewrite (get_frozen _ _ _ Hs), E. reflexivity.
Qed.

(** In the space [frozen], when [getEntry] finds something at the key:
    [put] throws [Immutable]; the store and the root digest are those of
    before, and [getEntry] and [get] return what they returned before
    (the key within the size of the node cache). *)
Lemma put_frozen_occupied (key : jsstring) (value : JSValue) (options : PutOptions) (now : Z)
                          (iv : bytes) (d : db) (rt : Runtime) (id : Identity)
                          (existing : JSValue) :
  runtime d = Some rt -> privateKey rt <> [] -> identity d = Some id ->
  space_or_all (o_space options) = js "frozen" ->
  fst (getEntry (js "frozen/" ++ key) d) = Ok existing -> truthy existing = true ->
  (length (chars_of (normalizeKey (js "frozen/" ++ key)))
   <= BinaryTrie.nodeCache_maxSize)%nat ->
  exists d',
    put key value options now iv d = (Throw (Immutable key), d') /\
    BinaryTrie.storage (trie d') = BinaryTrie.storage (trie d) /\
    BinaryTrie.rootHash (trie d') = BinaryTrie.rootHash (trie d) /\
    fst (getEntry (js "frozen/" ++ key) d') = Ok existing /\
    fst (get key (o_space options) d') = fst (get key (o_space options) d).
Proof.
  intros Hrt Hpk Hid Hs Hentry Htruthy Hlen.
  rewrite (put_frozen _ _ _ _ _ _ rt id Hrt Hpk Hid Hs).
  unfold getEntry at 1 in Hentry. unfold on_trie in Hentry.
  destruct (BinaryTrie.get (js "frozen/" ++ key) (trie d)) as [r t1] eqn:Eget.
  cbn [fst] in Hentry. subst r.
  assert (G : on_trie (BinaryTrie.get (js "frozen/" ++ key)) d
              = (Ok existing, with_trie t1 d)).
  { unfold on_trie. now rewrite Eget. }
  exists (with_trie t1 d). rewrite (bind_ok _ _ _ _ _ G), Htruthy.
  destruct (get_found _ _ _ _ Eget Htruthy Hlen) as (Hhot & Hst & Hrh & _).
  assert (E' : fst (getEntry (js "frozen/" ++ key) (with_trie t1 d)) = Ok existing)
    by now apply getEntry_hot.
  repeat split; try assumption.
  rewrite !(get_frozen _ _ _ Hs), E'. unfold getEntry. now rewrite G.
Qed.

End WithPlatform.

Import Toy.

(** C9.  The key U+1F600 is one character of two code units.  On Alice's
    instance [put] under it in the space [all] returns a root digest, and
    the [get] that follows returns [null]; with the two-character key
    U+1F600 U+1F600 [put] throws a [TypeError]. *)
Theorem put_get_astral_key :
  (exists root d,
     put grinning_face (JString (js "hello")) (in_space "all") 1000 twelve alice_db
       = (Ok (Some root), d) /\
     fst (get grinning_face (Some (js "all")) d) = Ok JNull) /\
  fst (put (grinning_face ++ grinning_face) (JString (js "hello")) (in_space "all")
           1000 twelve alice_db) = Throw TypeError.
Proof.
  split.
  - eexists _, _. split; [vm_compute; reflexivity | vm_compute; reflexivity].
  - vm_compute; reflexivity.
Qed.

(** C2.  In the space [frozen] the key ["genesis"] behaves as stated: the
    second [put] throws [Immutable] and [get] still returns ["block0"].
    Under the key U+1F600 the first [put] returns a root digest, [get]
    returns [null], and a second [put] with another value returns a root
    digest as well. *)
Theorem frozen_astral_key_not_immutable :
  (fst (get (js "genesis") (Some (js "frozen")) alice_genesis) = Ok (JString (js "block0")) /\
   fst (put (js "genesis") (JString (js "block1")) (in_space "frozen") 1001 twelve
            alice_genesis) = Throw (Immutable (js "genesis"))) /\
  (exists root1 root2 d1 d2,
     put grinning_face (JString (js "block0")) (in_space "frozen") 1000 twelve alice_db
       = (Ok (Some root1), d1) /\
     fst (get grinning_face (Some (js "frozen")) d1) = Ok JNull /\
     put grinning_face (JString (js "block1")) (in_space "frozen") 1001 twelve d1
       = (Ok (Some root2), d2) /\
     root1 <> root2).
Proof.
  split.
  - split; vm_compute; reflexivity.
  - eexists _, _, _, _.
    split; [vm_compute; reflexivity |].
    split; [vm_compute; reflexivity |].
    split; [vm_compute; reflexivity |].
    vm_compute; discriminate.
Qed.

End LocalFacts.


(* ===================================================================== *)
(** ** The coordinator: admission *)
(* ===================================================================== *)

Module AdmissionFacts.
Import Js Utils Value Platform Crypto BinaryNode Monad Railgun Toy.

Section WithPlatform.
Context {P : Platform}.

(** An envelope marked with the space [user] whose key does not start
    with ["user/<author>/"] is rejected, and nothing of the instance
    changes. *)
Lemma merge_rejects_user_space_mismatch (e : Envelope) (now : Z) (d : db) :
  p_space (e_payload e) = js "user" ->
  startsWith (p_key (e_payload e)) (js "user/" ++ p_author (e_payload e) ++ js "/") = false ->
  merge e now d = (Ok false, d).
Proof.
  intros Hs Hk. unfold merge.
  destruct (verify _ _ _) as [[|]|]; try reflexivity.
  rewrite Hs, ObjFacts.str_eqb_refl. unfold bind, ret. cbv beta iota.
  rewrite Hk. reflexivity.
Qed.


End WithPlatform.


(** C4.  Bob signs an envelope for the path of Alice's diary and marks it
    with the space [all]: [merge] accepts it on Alice's instance, the path
    ["user/<Alice>/diary"] then holds the envelope authored by Bob, and
    Alice's [get] in her user space returns Bob's value.  The same envelope
    marked [user] is rejected. *)
Theorem merge_accepts_foreign_user_path :
  p_author (e_payload forged_envelope) = bob_key /\
  p_key (e_payload forged_envelope) = js "user/" ++ alice_key ++ js "/diary" /\
  fst (get (js "diary") (Some (js "user")) alice_diary) = Ok (JString (js "cake")) /\
  fst (merge forged_envelope 2000 alice_diary) = Ok true /\
  fst (getEntry diary_path (snd (merge forged_envelope 2000 alice_diary)))
    = Ok (envelope_object forged_envelope) /\
  fst (get (js "diary") (Some (js "user")) (snd (merge forged_envelope 2000 alice_diary)))
    = Ok (JString (js "pwned")) /\
  merge mismatched_envelope 2000 alice_diary = (Ok false, alice_diary).
Proof.
  split; [reflexivity |]. split; [reflexivity |].
  split; [vm_compute; reflexivity |].
  split; [vm_compute; reflexivity |].
  split; [vm_compute; reflexivity |].
  split; [vm_compute; reflexivity |].
  vm_compute; reflexivity.
Qed.

End AdmissionFacts.


(* ===================================================================== *)
(** ** Hexadecimal strings and the cache of [utils.js] *)
(* ===================================================================== *)

Module HexFacts.
Import Js Utils.

Lemma toHex_length (bs : bytes) : length (toHex bs) = (2 * length bs)%nat.
Proof.
  unfold toHex. induction bs as [| b bs IH]; [reflexivity |].
  cbn [flat_map]. rewrite length_app, IH. cbn [hexTable length]. lia.
Qed.

Lemma hex_pairs_length (n : nat) :
  forall s, (length s <= n)%nat -> length (hex_pairs s) = (length s / 2)%nat.
Proof.
  induction n as [| n IH]; intros s Hn.
  - destruct s; [reflexivity | simpl in Hn; lia].
  - destruct s as [| a [| b s]]; [reflexivity | reflexivity |].
    cbn [hex_pairs length]. rewrite IH by (simpl in Hn; lia).
    change (S (S (length s))) with (2 + length s)%nat.
    replace (2 + length s)%nat with (length s + 1 * 2)%nat by lia.
    rewrite Nat.div_add by lia. lia.
Qed.

Lemma hex_pairs_range (n : nat) :
  forall s, (length s <= n)%nat -> Forall (fun b => 0 <= b < 256) (hex_pairs s).
Proof.
  induction n as [| n IH]; intros s Hn.
  - destruct s; [constructor | simpl in Hn; lia].
  - destruct s as [| a [| b s]]; [constructor | constructor |].
    cbn [hex_pairs]. constructor; [| apply IH; simpl in Hn; lia].
    destruct (parseInt16 [a; b]); [unfold toUint8; apply Z.mod_pos_bound |]; lia.
Qed.

(** Every byte is read back from its two digits. *)
Lemma hexTable_decodes :
  forallb (fun b => match parseInt16 (hexTable b) with
                    | Some v => toUint8 v =? b
                    | None => false
                    end) (NodeFacts.zrange 256 0) = true.
Proof. vm_compute. reflexivity. Qed.

Lemma hex_pair_byte (b : Z) (s : jsstring) :
  0 <= b < 256 -> hex_pairs (hexTable b ++ s) = b :: hex_pairs s.
Proof.
  intros Hb. pose proof hexTable_decodes as H. rewrite forallb_forall in H.
  specialize (H b (NodeFacts.in_zrange 256 0 b ltac:(lia))).
  change (hexTable b ++ s) with (hex_digit (b / 16) :: hex_digit (b mod 16) :: s).
  cbn [hex_pairs]. change [hex_digit (b / 16); hex_digit (b mod 16)] with (hexTable b).
  destruct (parseInt16 (hexTable b)) as [v |]; [| discriminate].
  apply Z.eqb_eq in H. now rewrite H.
Qed.

Lemma fromHex_toHex_bytes (bs : bytes) :
  Forall (fun b => 0 <= b < 256) bs -> fromHex (toHex bs) = Some bs.
Proof.
  intros Hbs. unfold fromHex. rewrite toHex_length.
  replace (Z.of_nat (2 * length bs) mod 2 =? 0) with true.
  2:{ symmetry. apply Z.eqb_eq. rewrite Nat2Z.inj_mul, Z.mul_comm. apply Z_mod_mult. }
  cbn [negb]. f_equal.
  induction Hbs as [| b bs Hb _ IH]; [reflexivity |].
  unfold toHex. cbn [flat_map]. rewrite hex_pair_byte by exact Hb. f_equal. exact IH.
Qed.

(** [fromHex(toHex(bytes))] gives the bytes back. *)
Theorem fromHex_toHex (bs : bytes) :
  Forall (fun b => 0 <= b < 256) bs -> fromHex (toHex bs) = Some bs.
Proof. exact (fromHex_toHex_bytes bs). Qed.

Lemma fromHex_toHex_witness : fromHex (toHex [0; 9; 10; 171; 255]) = Some [0; 9; 10; 171; 255].
Proof.
  apply (fromHex_toHex [0; 9; 10; 171; 255]).
  repeat constructor; lia.
Defined.

(** [fromHex] throws exactly on the strings of odd length; on the others
    it returns one byte for every two characters, whatever the characters
    are. *)
Theorem fromHex_even (s : jsstring) :
  (fromHex s = None <-> Nat.odd (length s) = true) /\
  forall bs, fromHex s = Some bs ->
    length bs = (length s / 2)%nat /\ Forall (fun b => 0 <= b < 256) bs.
Proof.
  unfold fromHex.
  assert (E : (Z.of_nat (length s) mod 2 =? 0) = negb (Nat.odd (length s))).
  { rewrite <- Nat.negb_even, negb_involutive.
    destruct (Nat.even (length s)) eqn:Ev.
    - apply Nat.even_spec in Ev. destruct Ev as [k ->].
      apply Z.eqb_eq. rewrite Nat2Z.inj_mul, Z.mul_comm. apply Z_mod_mult.
    - apply Z.eqb_neq. intros H.
      assert (Hodd : Nat.odd (length s) = true) by (rewrite <- Nat.negb_even, Ev; reflexivity).
      apply Nat.odd_spec in Hodd. destruct Hodd as [k Hk]. rewrite Hk in H.
      rewrite Nat2Z.inj_add, Nat2Z.inj_mul in H.
      rewrite Z.add_comm, Z.mul_comm, Z_mod_plus_full in H. discriminate. }
  rewrite E, negb_involutive. split.
  - destruct (Nat.odd (length s)); split; intros H; congruence.
  - intros bs. destruct (Nat.odd (length s)); [discriminate |]. intros [= <-].
    split; [eapply hex_pairs_length | eapply hex_pairs_range]; reflexivity.
Qed.

End HexFacts.

Module LruFacts.
Import Js Utils Resolved ObjFacts CacheFacts.

Section Lru.
Context {V : Type}.
Implicit Types (c : list (jsstring * V)) (k : jsstring) (v : V).

Lemma Map_delete_keys c k : ~ In k (map fst (Map_delete c k)).
Proof.
  rewrite <- obj_get_None. apply Map_get_delete_eq.
Qed.

Lemma Map_delete_In c k e : In e (Map_delete c k) -> In e c /\ fst e <> k.
Proof.
  unfold Map_delete. rewrite filter_In. intros [Hin Hne]. split; [exact Hin |].
  intros <-. now rewrite str_eqb_refl in Hne.
Qed.

Lemma Map_delete_NoDup c k : NoDup (map fst c) -> NoDup (map fst (Map_delete c k)).
Proof.
  induction c as [| [k' v'] c IH]; intros Hnd; [constructor |].
  simpl in Hnd. apply NoDup_cons in Hnd. destruct Hnd as [Hk Hnd].
  unfold Map_delete. cbn [List.filter fst].
  destruct (str_eqb k' k); cbn [negb]; [now apply IH |].
  cbn [map fst]. apply NoDup_cons. split; [| now apply IH].
  intros Hin. apply Hk. apply list_elem_of_In in Hin. apply list_elem_of_In.
  apply in_map_iff in Hin. destruct Hin as (e & <- & He).
  apply in_map. now apply (Map_delete_In c k e).
Qed.

Lemma Map_delete_present c k v :
  Map_get c k = Some v -> (length (Map_delete c k) < length c)%nat.
Proof.
  unfold Map_get, Map_delete. induction c as [| [k' v'] c IH]; [discriminate |].
  cbn [obj_get List.filter fst]. destruct (str_eqb k' k); cbn [negb].
  - intros _. pose proof (List.filter_length_le (fun e => negb (str_eqb (fst e) k)) c).
    simpl. lia.
  - intros H. specialize (IH H). simpl. lia.
Qed.

Lemma moved_NoDup c k v :
  NoDup (map fst c) -> NoDup (map fst (Map_delete c k ++ [(k, v)])).
Proof.
  intros Hnd. rewrite map_app. apply NoDup_app. split; [now apply Map_delete_NoDup |].
  split; [| apply NoDup_singleton].
  intros x Hx Hk. apply list_elem_of_In in Hx. cbn in Hk. apply list_elem_of_In in Hk.
  destruct Hk as [<- | []]. now apply (Map_delete_keys c k).
Qed.

(** The cache never holds more than [maxSize] entries nor two entries
    under one key: [set] and [get] keep both. *)
Theorem lru_capacity (maxSize : nat) c k v :
  (length c <= maxSize)%nat -> NoDup (map fst c) ->
  ((length (lru_set maxSize c k v) <= maxSize)%nat /\
   NoDup (map fst (lru_set maxSize c k v))) /\
  ((length (snd (lru_get c k)) <= maxSize)%nat /\
   NoDup (map fst (snd (lru_get c k)))).
Proof.
  intros Hlen Hnd. split.
  - unfold lru_set, put_newest.
    pose proof (Map_delete_length c k) as Hd.
    pose proof (moved_NoDup c k v Hnd) as Hm.
    destruct (Nat.ltb_spec maxSize (length (Map_delete c k ++ [(k, v)]))) as [Hlt | Hge].
    + rewrite length_app in Hlt. simpl in Hlt. split.
      * destruct (Map_delete c k ++ [(k, v)]) as [| x l] eqn:E; [simpl; lia |].
        apply (f_equal (@length _)) in E. rewrite length_app in E. simpl in E |- *. lia.
      * destruct (Map_delete c k ++ [(k, v)]) as [| x l]; [constructor |].
        simpl in Hm |- *. apply NoDup_cons in Hm. tauto.
    + split; [exact Hge | exact Hm].
  - unfold lru_get. destruct (Map_get c k) as [v' |] eqn:E; cbn [snd].
    + split; [| now apply moved_NoDup].
      rewrite length_app. simpl. pose proof (Map_delete_present c k v' E). lia.
    + split; assumption.
Qed.

(** A full cache that gets a new key loses its oldest entry and nothing
    else; a miss of [get] returns [undefined] and leaves the cache as it
    is. *)
Theorem lru_evicts_oldest (maxSize : nat) c k v (oldest : jsstring * V) :
  length (oldest :: c) = maxSize -> Map_get (oldest :: c) k = None ->
  lru_set maxSize (oldest :: c) k v = c ++ [(k, v)] /\
  lru_get (oldest :: c) k = (None, oldest :: c).
Proof.
  intros Hlen Hk. split.
  - unfold lru_set, put_newest. rewrite (Map_delete_absent _ _ Hk).
    replace (maxSize <? length ((oldest :: c) ++ [(k, v)]))%nat with true; [reflexivity |].
    symmetry. apply Nat.ltb_lt. rewrite length_app. simpl in *. lia.
  - unfold lru_get. now rewrite Hk.
Qed.

(** What [set] stored, or a hit of [get] returned, is found again after
    any [maxSize - 1] further [set]s under other keys. *)
Theorem lru_recent_survives (maxSize : nat) c k v (later : list (jsstring * V)) :
  (length later < maxSize)%nat -> ~ In k (map fst later) ->
  let sets := fold_left (fun c e => lru_set maxSize c (fst e) (snd e)) later in
  Map_get (sets (lru_set maxSize c k v)) k = Some v /\
  (Map_get c k = Some v -> Map_get (sets (snd (lru_get c k))) k = Some v).
Proof.
  intros Hlen Hk sets.
  assert (G : forall (l : list (jsstring * V)) (m : nat) c0,
             recent m c0 k v -> ~ In k (map fst l) -> (m + length l <= maxSize)%nat ->
             recent (m + length l)
                    (fold_left (fun c e => lru_set maxSize c (fst e) (snd e)) l c0) k v).
  { induction l as [| [k' v'] l IH]; intros m c0 Hr Hnin Hm.
    - simpl. now rewrite Nat.add_0_r.
    - simpl in Hnin, Hm. cbn [fold_left fst snd length].
      replace (m + S (length l))%nat with (S m + length l)%nat by lia.
      apply IH; [| tauto | lia].
      unfold lru_set. apply put_newest_other; [exact Hr | tauto | lia]. }
  split.
  - eapply recent_lookup. apply (G later 1%nat); [| exact Hk | lia].
    unfold lru_set. apply put_newest_self. lia.
  - intros Hhit. eapply recent_lookup. apply (G later 1%nat); [| exact Hk | lia].
    now apply recent_hit.
Qed.

End Lru.

Lemma lru_capacity_witness :
  (length (lru_set 2 [(js "a", 1); (js "b", 2)] (js "c") 3) <= 2)%nat.
Proof.
  apply (lru_capacity 2 [(js "a", 1); (js "b", 2)] (js "c") 3).
  - simpl. lia.
  - refine (bool_decide_unpack (NoDup _) _). vm_compute. exact I.
Defined.

Lemma lru_evicts_oldest_witness :
  lru_set 2 [(js "a", 1); (js "b", 2)] (js "c") 3 = [(js "b", 2); (js "c", 3)].
Proof.
  apply (lru_evicts_oldest 2 [(js "b", 2)] (js "c") 3 (js "a", 1)); reflexivity.
Defined.

Lemma lru_recent_survives_witness :
  Map_get (fold_left (fun c e => lru_set 2 c (fst e) (snd e)) [(js "c", 3)]
                     (lru_set 2 [(js "a", 1)] (js "b") 2)) (js "b") = Some 2.
Proof.
  apply (lru_recent_survives 2 [(js "a", 1)] (js "b") 2 [(js "c", 3)]).
  - simpl. lia.
  - intros [H | []]. vm_compute in H. discriminate.
Defined.

End LruFacts.

(* ===================================================================== *)
(** ** Base64 *)
(* ===================================================================== *)

Module Base64MoreFacts.
Import Js Utils.

(** [fromBase64(toBase64(bytes))] gives the bytes back, whatever their
    number: with no padding, with one [=] and with two. *)
Theorem fromBase64_toBase64_bytes (bs : bytes) :
  Forall (fun b => 0 <= b < 256) bs -> fromBase64 (toBase64 bs) = Ok bs.
Proof. exact (Base64Facts.fromBase64_toBase64 bs). Qed.

Lemma fromBase64_toBase64_bytes_witness :
  fromBase64 (toBase64 [0; 255; 16; 131]) = Ok [0; 255; 16; 131].
Proof.
  apply (fromBase64_toBase64_bytes [0; 255; 16; 131]).
  repeat constructor; lia.
Defined.

End Base64MoreFacts.


(* ===================================================================== *)
(** ** What the operations of the trie and of the value store leave alone *)
(* ===================================================================== *)

Module FrameFacts.
Import Js Utils Value Platform Crypto BinaryNode Monad BinaryTrie Frame ObjFacts TrieFacts.
Local Open Scope monad_scope.

Section Keeps.
Context {S : Type} (R : S -> S -> Prop) {HR : PreOrder R}.

Lemma keeps_ret {A} (a : A) : keeps R (ret a).
Proof. intros s. reflexivity. Qed.

Lemma keeps_throw {A} (e : error) : keeps R (@throw S A e).
Proof. intros s. reflexivity. Qed.

Lemma keeps_lift {A} (r : res A) : keeps R (lift r).
Proof. intros s. reflexivity. Qed.

Lemma keeps_gets {A} (f : S -> A) : keeps R (gets f).
Proof. intros s. reflexivity. Qed.

Lemma keeps_modify (f : S -> S) : (forall s, R s (f s)) -> keeps R (modify f).
Proof. intros H s. apply H. Qed.

Lemma keeps_bind {A B} (m : M S A) (k : A -> M S B) :
  keeps R m -> (forall a, keeps R (k a)) -> keeps R (bind m k).
Proof.
  intros Hm Hk s. unfold bind. specialize (Hm s).
  destruct (m s) as [[a | e] s1]; cbn [snd] in *; [| exact Hm].
  etransitivity; [exact Hm | apply Hk].
Qed.

End Keeps.

Lemma keeps_weaken {S A} (R R' : S -> S -> Prop) (m : M S A) :
  (forall s s', R s s' -> R' s s') -> keeps R m -> keeps R' m.
Proof. intros H Hm s. apply H, Hm. Qed.

#[export] Instance same_store_preorder : PreOrder same_store.
Proof.
  split.
  - intros t. now repeat split.
  - intros t1 t2 t3 (H1 & H2 & H3) (H4 & H5 & H6). unfold same_store. repeat split; congruence.
Qed.

#[export] Instance store_grows_preorder : PreOrder store_grows.
Proof.
  split.
  - intros t k H. exact H.
  - intros t1 t2 t3 H1 H2 k H. auto.
Qed.

Lemma same_store_grows (t t' : trie) : same_store t t' -> store_grows t t'.
Proof. intros (H & _) k Hk. now rewrite H. Qed.

Lemma keeps_storage_get (R : trie -> trie -> Prop) `{!PreOrder R} (h : jsstring) :
  keeps R (storage_get h).
Proof. apply keeps_gets. typeclasses eauto. Qed.

Lemma keeps_nodeCache_get (h : jsstring) : keeps same_store (nodeCache_get h).
Proof.
  intros t. unfold nodeCache_get. destruct (lru_get (nodeCache t) h). now repeat split.
Qed.

Lemma keeps_nodeCache_set (h : jsstring) (n : node) : keeps same_store (nodeCache_set h n).
Proof. intros t. now repeat split. Qed.

Lemma keeps_deserialize_stored (R : trie -> trie -> Prop) `{!PreOrder R} (b : stored) :
  keeps R (deserialize_stored b).
Proof. destruct b; [apply keeps_lift | apply keeps_throw]; typeclasses eauto. Qed.

Lemma keeps_with_rootCache c : keeps same_store (modify (with_rootCache c)).
Proof. intros t. now repeat split. Qed.

Lemma keeps_getRoot : keeps same_store getRoot.
Proof.
  assert (L : keeps same_store loadRoot).
  { intros t. unfold loadRoot. destruct (rootHash t) as [[| z rh] |]; try now repeat split.
    revert t. change (keeps same_store
      (buffer <- storage_get (z :: rh) ;;
       match buffer with
       | None => modify (with_rootCache (Some (None, empty))) ;;; ret empty
       | Some buffer =>
           n <- deserialize_stored buffer ;;
           modify (with_rootCache (Some (Some (z :: rh), n))) ;;; ret n
       end)).
    apply keeps_bind; [typeclasses eauto | apply keeps_storage_get; typeclasses eauto |].
    intros [buffer |].
    - apply keeps_bind; [typeclasses eauto | apply keeps_deserialize_stored; typeclasses eauto |].
      intros n. apply keeps_bind; [typeclasses eauto | apply keeps_with_rootCache |].
      intros _. apply keeps_ret. typeclasses eauto.
    - apply keeps_bind; [typeclasses eauto | apply keeps_with_rootCache |].
      intros _. apply keeps_ret. typeclasses eauto. }
  intros t. unfold getRoot. destruct (rootCache t) as [[h n] |]; [| apply L].
  destruct (bool_decide (h = rootHash t)); [now repeat split | apply L].
Qed.

Lemma keeps_walk (chars : list jsstring) : forall cur, keeps same_store (walk chars cur).
Proof.
  induction chars as [| c rest IH]; intros cur.
  - apply keeps_ret. typeclasses eauto.
  - cbn [walk]. destruct (obj_get (children cur) c) as [[| z h] |];
      try (apply keeps_ret; typeclasses eauto).
    apply keeps_bind; [typeclasses eauto | apply keeps_nodeCache_get |].
    intros [n |]; [apply IH |].
    apply keeps_bind; [typeclasses eauto | apply keeps_storage_get; typeclasses eauto |].
    intros [buffer |]; [| apply keeps_ret; typeclasses eauto].
    apply keeps_bind; [typeclasses eauto | apply keeps_deserialize_stored; typeclasses eauto |].
    intros n. apply keeps_bind; [typeclasses eauto | apply keeps_nodeCache_set |].
    intros _. apply IH.
Qed.

Lemma keeps_addToCache (k : jsstring) (v : JSValue) : keeps same_store (addToCache k v).
Proof. intros t. now repeat split. Qed.

Lemma keeps_valueStore_get (key : option jsstring) : keeps same_store (valueStore_get key).
Proof.
  destruct key as [[| z k] |]; cbn [valueStore_get]; try (apply keeps_ret; typeclasses eauto).
  apply keeps_bind; [typeclasses eauto | apply keeps_gets; typeclasses eauto |].
  intros [v |]; [apply keeps_ret; typeclasses eauto |].
  apply keeps_bind; [typeclasses eauto | apply keeps_storage_get; typeclasses eauto |].
  intros [[b | s] |]; [| apply keeps_throw; typeclasses eauto | apply keeps_ret; typeclasses eauto].
  apply keeps_bind; [typeclasses eauto | apply keeps_lift; typeclasses eauto |].
  intros v. apply keeps_bind; [typeclasses eauto | apply keeps_addToCache |].
  intros _. apply keeps_ret. typeclasses eauto.
Qed.

Section WithPlatform.
Context {P : Platform}.

Lemma keeps_get (key : jsstring) : keeps same_store (get key).
Proof.
  unfold get.
  apply keeps_bind; [typeclasses eauto | apply keeps_getRoot |].
  intros root. apply keeps_bind; [typeclasses eauto | apply keeps_walk |].
  intros [n |]; [| apply keeps_ret; typeclasses eauto].
  destruct (hasValue n); [apply keeps_valueStore_get | apply keeps_ret; typeclasses eauto].
Qed.

End WithPlatform.

End FrameFacts.

(* ===================================================================== *)
(** ** The value store *)
(* ===================================================================== *)

Module ValueStoreFacts.
Import Js Utils Value Platform Crypto BinaryNode Monad BinaryTrie Frame More Resolved
       ObjFacts CacheFacts TrieFacts FrameFacts.
Local Open Scope monad_scope.

Lemma valueKey_cons (v : JSValue) : exists z k, valueKey v = z :: k.
Proof. now exists 118, (58 :: hash (Msgpack.encode v)). Qed.

Lemma valueStore_put_result (v : JSValue) (t : trie) :
  v <> JNull -> v <> JUndefined ->
  valueStore_put v t = (Ok (Some (valueKey v)), stored_value v t).
Proof.
  intros Hn Hu. unfold stored_value, storage_get, gets, valueKey.
  destruct v; try congruence; cbn [valueStore_put];
    unfold bind, storage_get, gets;
    match goal with
    | |- context [obj_get (storage t) ?k] => destruct (obj_get (storage t) k) as [[? | [| ? ?]] |]
    end; reflexivity.
Qed.

(** [put] returns the prefix ["v:"] with the digest of the encoded value;
    the [get] of that key that follows returns the value itself; the
    store keeps what it held under the key, and gets the encoding only
    when it held nothing there. *)
Theorem valueStore_put_get (v : JSValue) (t : trie) :
  v <> JNull -> v <> JUndefined ->
  let key := valuePrefix ++ hash (Msgpack.encode v) in
  let t' := snd (valueStore_put v t) in
  fst (valueStore_put v t) = Ok (Some key) /\
  valueStore_get (Some key) t' = (Ok v, t') /\
  (forall x, fst (storage_get key t) = Ok (Some x) -> storage t' = storage t) /\
  (fst (storage_get key t) = Ok None ->
   storage t' = obj_set (storage t) key (Bytes (Msgpack.encode v))).
Proof.
  intros Hn Hu key t'. subst t'. rewrite (valueStore_put_result v t Hn Hu).
  fold (valueKey v) in key. subst key. cbn [fst snd].
  split; [reflexivity |]. split; [| split].
  - destruct (valueKey_cons v) as (z & k & E).
    assert (Hc : Map_get (valueCache (stored_value v t)) (valueKey v) = Some v).
    { unfold stored_value. cbn [valueCache with_valueCache].
      eapply recent_lookup. apply put_newest_self. unfold valueCache_maxSize. lia. }
    rewrite E in Hc |- *. cbn [valueStore_get]. unfold bind, gets, ret. cbn [fst snd].
    now rewrite Hc.
  - intros x Hx. unfold stored_value. rewrite (surjective_pairing (storage_get (valueKey v) t)).
    rewrite Hx. reflexivity.
  - intros Hx. unfold stored_value. rewrite (surjective_pairing (storage_get (valueKey v) t)).
    rewrite Hx. reflexivity.
Qed.

Lemma valueStore_put_get_witness :
  valueStore_get (Some (valuePrefix ++ hash (Msgpack.encode (JBool true))))
                 (snd (valueStore_put (JBool true) new_trie))
  = (Ok (JBool true), snd (valueStore_put (JBool true) new_trie)).
Proof.
  apply (valueStore_put_get (JBool true) new_trie); discriminate.
Defined.

Lemma put_newest_twice {V} (maxSize : nat) (c : list (jsstring * V)) (k : jsstring) (v : V) :
  (1 <= maxSize)%nat -> (length c <= maxSize)%nat ->
  put_newest maxSize (put_newest maxSize c k v) k v = put_newest maxSize c k v.
Proof.
  intros Hm Hc.
  assert (D : forall l, Map_delete (Map_delete l k) k = Map_delete (V := V) l k).
  { intros l. apply Map_delete_absent, Map_get_delete_eq. }
  assert (E : forall l, Map_get l k = None ->
              Map_delete (l ++ [(k, v)]) k ++ [(k, v)] = l ++ [(k, v)]).
  { intros l Hl. rewrite Map_delete_app, (Map_delete_absent _ _ Hl).
    unfold Map_delete at 1. cbn [List.filter fst]. rewrite str_eqb_refl. cbn [negb].
    now rewrite app_nil_r. }
  assert (F : exists l, put_newest maxSize c k v = l ++ [(k, v)] /\ Map_get l k = None /\
                        (length (l ++ [(k, v)]) <= maxSize)%nat).
  { pose proof (Map_delete_length c k) as Hd. unfold put_newest.
    destruct (Nat.ltb_spec maxSize (length (Map_delete c k ++ [(k, v)]))) as [Hlt | Hge].
    - rewrite length_app in Hlt. simpl in Hlt.
      pose proof (Map_get_delete_eq c k) as H.
      destruct (Map_delete c k) as [| x r]; [simpl in Hlt; lia |].
      exists r. cbn [app tl]. split; [reflexivity |]. split.
      + unfold Map_get in *. cbn [obj_get] in H. destruct x as [k0 v0].
        destruct (str_eqb k0 k); [discriminate | exact H].
      + rewrite length_app. simpl in *. lia.
    - exists (Map_delete c k). split; [reflexivity |]. split; [apply Map_get_delete_eq | exact Hge]. }
  destruct F as (l & -> & Hl & Hlen).
  unfold put_newest. rewrite (E l Hl).
  replace (maxSize <? length (l ++ [(k, v)]))%nat with false; [reflexivity |].
  symmetry. now apply Nat.ltb_ge.
Qed.

(** Storing the same value again changes nothing: the same key comes
    back and the trie, its store and its caches are as after the first
    [put] (the value cache within its bound). *)
Theorem valueStore_put_idempotent (v : JSValue) (t : trie) :
  (length (valueCache t) <= valueCache_maxSize)%nat ->
  valueStore_put v (snd (valueStore_put v t)) = valueStore_put v t.
Proof.
  intros Hc.
  assert (Hv : v = JNull \/ v = JUndefined \/ (v <> JNull /\ v <> JUndefined)).
  { destruct v; auto; right; right; split; discriminate. }
  destruct Hv as [-> | [-> | [Hn Hu]]]; [reflexivity | reflexivity |].
  rewrite !(valueStore_put_result v _ Hn Hu). cbn [snd]. f_equal.
  unfold stored_value at 1.
  assert (Hs : exists x, obj_get (storage (stored_value v t)) (valueKey v) = Some (Bytes x)
                         \/ exists z s, obj_get (storage (stored_value v t)) (valueKey v)
                                        = Some (Text (z :: s))).
  { unfold stored_value, storage_get, gets. cbn [storage with_valueCache].
    destruct (obj_get (storage t) (valueKey v)) as [[b | [| z s]] |] eqn:Eo.
    - exists b. left. exact Eo.
    - exists (Msgpack.encode v). left. cbn [storage with_storage]. apply obj_get_set_eq.
    - exists []. right. exists z, s. exact Eo.
    - exists (Msgpack.encode v). left. cbn [storage with_storage]. apply obj_get_set_eq. }
  assert (Hg : exists x, storage_get (valueKey v) (stored_value v t)
                         = (Ok (Some x), stored_value v t)).
  { unfold storage_get at 1, gets. destruct Hs as (x & [-> | (z & s & ->)]); eauto. }
  destruct Hg as (x & ->).
  unfold stored_value. destruct (storage_get (valueKey v) t) as [[[x0 |] | e] t0];
    unfold with_valueCache; cbn [storage rootHash nodeCache rootCache valueCache lastBatch
                                 with_storage];
    rewrite put_newest_twice by (unfold valueCache_maxSize in *; lia); reflexivity.
Qed.

Lemma valueStore_put_idempotent_witness :
  valueStore_put (JBool true) (snd (valueStore_put (JBool true) new_trie))
  = valueStore_put (JBool true) new_trie.
Proof.
  apply (valueStore_put_idempotent (JBool true) new_trie). simpl. lia.
Defined.

(** A [get] that finds the key neither in the cache nor in the store
    returns [null] and changes nothing; one that finds bytes in the store
    returns what [decode] makes of them.  So a value read after the cache
    was cleared is [decode(encode(value))], when the store held nothing
    under the key of the value before the [put]. *)
Theorem valueStore_get_cold (v : JSValue) (t : trie) (key : jsstring) :
  v <> JNull -> v <> JUndefined ->
  key <> [] -> Map_get (valueCache t) key = None ->
  (obj_get (storage t) key = None -> valueStore_get (Some key) t = (Ok JNull, t)) /\
  (forall b, obj_get (storage t) key = Some (Bytes b) ->
             fst (valueStore_get (Some key) t) = Msgpack.decode b) /\
  (obj_get (storage t) (valuePrefix ++ hash (Msgpack.encode v)) = None ->
   fst ((valueStore_put v ;;; clearCache ;;;
         valueStore_get (Some (valuePrefix ++ hash (Msgpack.encode v)))) t)
   = Msgpack.decode (Msgpack.encode v)).
Proof.
  intros Hn Hu Hk Hc.
  assert (Cold : forall (s : trie) (k : jsstring) (b : bytes),
             k <> [] -> Map_get (valueCache s) k = None ->
             obj_get (storage s) k = Some (Bytes b) ->
             fst (valueStore_get (Some k) s) = Msgpack.decode b).
  { intros s k b Hk0 Hc0 Hs. destruct k as [| z k]; [congruence |].
    cbn [valueStore_get]. unfold bind, gets, storage_get, lift. cbv beta iota.
    rewrite Hc0. cbv beta iota. unfold gets. cbv beta iota. rewrite Hs.
    destruct (Msgpack.decode b); reflexivity. }
  split; [| split].
  - intros Hs. destruct key as [| z k]; [congruence |].
    cbn [valueStore_get]. unfold bind, gets, storage_get, ret. cbv beta iota.
    rewrite Hc. cbv beta iota. unfold gets. cbv beta iota. now rewrite Hs.
  - intros b Hs. now apply Cold.
  - intros Hs. fold (valueKey v) in Hs |- *.
    rewrite (bind_ok _ _ _ _ _ (valueStore_put_result v t Hn Hu)).
    unfold clearCache. unfold bind at 1. unfold modify at 1.
    apply Cold.
    + destruct (valueKey_cons v) as (z & k & ->). discriminate.
    + reflexivity.
    + unfold stored_value, storage_get, gets. rewrite Hs.
      cbn [storage with_valueCache with_storage]. apply obj_get_set_eq.
Qed.

Lemma valueStore_get_cold_witness :
  fst ((valueStore_put (JNum (-200)) ;;; clearCache ;;;
        valueStore_get (Some (valuePrefix ++ hash (Msgpack.encode (JNum (-200)))))) new_trie)
  = Msgpack.decode (Msgpack.encode (JNum (-200))).
Proof.
  apply (valueStore_get_cold (JNum (-200)) new_trie (js "v:x")); try discriminate; reflexivity.
Defined.

End ValueStoreFacts.

(* ===================================================================== *)
(** ** More about [BinaryTrie.get] and [BinaryTrie.put] *)
(* ===================================================================== *)

Module TrieMoreFacts.
Import Js Utils Value Platform Crypto BinaryNode Monad BinaryTrie Frame More Resolved
       ObjFacts CacheFacts TrieFacts FrameFacts.
Local Open Scope monad_scope.

Lemma store_grows_same (R := store_grows) {A} (m : M trie A) :
  keeps same_store m -> keeps store_grows m.
Proof. apply keeps_weaken. exact same_store_grows. Qed.

Lemma keeps_storage_put (h : jsstring) (data : stored) : keeps store_grows (storage_put h data).
Proof.
  intros t k Hk. cbn. apply obj_set_keys. now right.
Qed.

Lemma keeps_alias_update (h : jsstring) (n : node) : keeps same_store (alias_update h n).
Proof. intros t. now repeat split. Qed.

Lemma keeps_save_nodes (l : list (jsstring * bytes)) : keeps store_grows (save_nodes l).
Proof.
  induction l as [| [h data] l IH]; [apply keeps_ret; typeclasses eauto |].
  cbn [save_nodes]. apply keeps_bind; [typeclasses eauto | apply keeps_storage_put |].
  intros _. exact IH.
Qed.

Lemma keeps_valueStore_put (v : JSValue) : keeps store_grows (valueStore_put v).
Proof.
  assert (G : forall key enc,
             keeps store_grows
               (existing <- storage_get key ;;
                match existing with
                | None => storage_put key (Bytes enc)
                | Some _ => ret tt
                end ;;; addToCache key v ;;; ret (Some key))).
  { intros key enc.
    apply keeps_bind; [typeclasses eauto | apply keeps_storage_get; typeclasses eauto |].
    intros existing. apply keeps_bind; [typeclasses eauto | |].
    - destruct existing; [apply keeps_ret; typeclasses eauto | apply keeps_storage_put].
    - intros _. apply keeps_bind; [typeclasses eauto | |].
      + apply store_grows_same, keeps_addToCache.
      + intros _. apply keeps_ret. typeclasses eauto. }
  destruct v; cbn [valueStore_put]; try apply G; apply keeps_ret; typeclasses eauto.
Qed.

Section WithPlatform.
Context {P : Platform}.

Lemma keeps_descend (chars : list jsstring) :
  forall cur stack, keeps same_store (descend chars cur stack).
Proof.
  induction chars as [| c rest IH]; intros cur stack.
  - apply keeps_ret. typeclasses eauto.
  - cbn [descend]. apply keeps_bind; [typeclasses eauto | | intros child; apply IH].
    destruct (obj_get (children cur) c) as [[| z h] |]; try (apply keeps_ret; typeclasses eauto).
    apply keeps_bind; [typeclasses eauto | apply keeps_nodeCache_get |].
    intros cached. apply keeps_bind; [typeclasses eauto | | intros n; apply keeps_ret;
                                                            typeclasses eauto].
    destruct cached as [n |]; [apply keeps_ret; typeclasses eauto |].
    apply keeps_bind; [typeclasses eauto | apply keeps_storage_get; typeclasses eauto |].
    intros [buffer |]; [| apply keeps_ret; typeclasses eauto].
    apply keeps_bind; [typeclasses eauto | apply keeps_deserialize_stored; typeclasses eauto |].
    intros n. apply keeps_bind; [typeclasses eauto | apply keeps_nodeCache_set |].
    intros _. apply keeps_ret. typeclasses eauto.
Qed.

Lemma keeps_ascend (path leafHash : jsstring) (count : nat) :
  forall stack childHash saved, keeps same_store (ascend count path stack childHash leafHash saved).
Proof.
  induction count as [| i IH]; intros stack childHash saved.
  - apply keeps_ret. typeclasses eauto.
  - cbn [ascend]. destruct (stack !! i) as [parent |]; [| apply keeps_throw; typeclasses eauto].
    cbv zeta. apply keeps_bind; [typeclasses eauto | |].
    + destruct (_ =? _)%nat; [apply keeps_alias_update | apply keeps_ret; typeclasses eauto].
    + intros _. apply keeps_bind; [typeclasses eauto | apply keeps_lift; typeclasses eauto |].
      intros ser. apply keeps_bind; [typeclasses eauto | apply keeps_nodeCache_set |].
      intros _. apply IH.
Qed.

Lemma keeps_put (key : jsstring) (val : JSValue) :
  keeps store_grows (put key val).
Proof.
  unfold put.
  apply keeps_bind; [typeclasses eauto | apply store_grows_same, keeps_getRoot |].
  intros oldRoot. apply keeps_bind; [typeclasses eauto | apply store_grows_same, keeps_descend |].
  intros stack. apply keeps_bind; [typeclasses eauto | apply keeps_valueStore_put |].
  intros valueKey. destruct (stack !! _) as [leaf |]; [| apply keeps_throw; typeclasses eauto].
  cbv zeta. apply keeps_bind; [typeclasses eauto | apply keeps_lift; typeclasses eauto |].
  intros ser. apply keeps_bind; [typeclasses eauto | apply store_grows_same, keeps_nodeCache_set |].
  intros _. apply keeps_bind; [typeclasses eauto | apply store_grows_same, keeps_ascend |].
  intros [[stack' h0] saved]. apply keeps_bind; [typeclasses eauto | |].
  { intros t k Hk. exact Hk. }
  intros _. apply keeps_bind; [typeclasses eauto | apply keeps_save_nodes |].
  intros _. apply keeps_bind; [typeclasses eauto | |].
  { intros t k Hk. exact Hk. }
  intros _. apply keeps_bind; [typeclasses eauto | |].
  { destruct (stack' !! 0%nat); [| apply keeps_throw; typeclasses eauto].
    intros t k Hk. exact Hk. }
  intros _. apply keeps_ret. typeclasses eauto.
Qed.

(** [put] deletes nothing: every key of the store is still a key of the
    store afterwards, whether [put] returns or throws. *)
Theorem put_deletes_nothing (key : jsstring) (val : JSValue) :
  keeps store_grows (put key val).
Proof. exact (keeps_put key val). Qed.

(** A trie whose root node is neither cached nor in the store (no root
    digest, or a digest the store does not hold) reads as empty: [get]
    returns [null] for every key and throws nothing. *)
Theorem get_missing_root (key : jsstring) (t : trie) :
  rootCache t = None ->
  (forall rh, rootHash t = Some rh -> rh <> [] -> obj_get (storage t) rh = None) ->
  fst (get key t) = Ok JNull.
Proof.
  intros Hc Hr. unfold get.
  assert (E : getRoot t = (Ok empty, with_rootCache (Some (None, empty)) t)).
  { unfold getRoot. rewrite Hc. unfold loadRoot.
    destruct (rootHash t) as [[| z rh] |] eqn:Eh; try reflexivity.
    unfold bind, storage_get, gets. rewrite (Hr (z :: rh) eq_refl) by discriminate.
    reflexivity. }
  rewrite (bind_ok _ _ _ _ _ E).
  destruct (chars_of (normalizeKey key)) as [| c rest]; [reflexivity |].
  unfold bind. rewrite walk_cons. reflexivity.
Qed.

(** A [put] that returned is followed by a [get] of the value put, for a
    key whose normal form has no surrogate pair and fewer code units than
    the node cache has entries, when no two nodes written have the same
    digest. *)
Theorem put_then_get (key : jsstring) (val : JSValue) (t : trie) :
  returns (fst (put key val t)) = true ->
  val <> JNull -> val <> JUndefined ->
  units_are_chars (normalizeKey key) ->
  (length (normalizeKey key) < nodeCache_maxSize)%nat ->
  NoDup (map fst (lastBatch (snd (put key val t)))) ->
  fst (get key (snd (put key val t))) = Ok val.
Proof.
  intros Hret Hn Hu Hunits Hlen Hnd.
  destruct (put key val t) as [[root | e] t'] eqn:E; [| discriminate].
  cbn [snd] in *.
  pose proof (put_hot key val t t' root E Hn Hu Hunits Hlen Hnd) as Hhot.
  destruct (get_hot key t' val Hhot) as (t'' & -> & _). reflexivity.
Qed.

End WithPlatform.

Import Toy.

Lemma get_missing_root_witness : fst (get (js "k") new_trie) = Ok JNull.
Proof.
  apply (get_missing_root (js "k") new_trie); [reflexivity | discriminate].
Defined.

Lemma put_then_get_witness :
  fst (get (js "k") (snd (put (js "k") (JBool true) new_trie))) = Ok (JBool true).
Proof.
  apply (put_then_get (js "k") (JBool true) new_trie).
  - vm_compute. reflexivity.
  - discriminate.
  - discriminate.
  - vm_compute. reflexivity.
  - vm_compute. lia.
  - refine (bool_decide_unpack (NoDup _) _). vm_compute. exact I.
Defined.

End TrieMoreFacts.


(* ===================================================================== *)
(** ** The head pointer *)
(* ===================================================================== *)

Module HeadFacts.
Import Js Utils Value Platform Crypto BinaryNode Monad Railgun Frame More Resolved
       ObjFacts TrieFacts FrameFacts.
Local Open Scope monad_scope.

Lemma flushHead_pending (h : jsstring) (d : db) :
  pendingHead d = Some h -> h <> [] ->
  stored_head (snd (_flushHead d)) = Some (BinaryTrie.Text h) /\
  pendingHead (snd (_flushHead d)) = None /\
  headSaveCount (snd (_flushHead d)) = 0 /\
  headSaveTimer (snd (_flushHead d)) = false.
Proof.
  intros Hp Hh. unfold _flushHead, bind, modify, gets. cbn [pendingHead with_head fst snd].
  rewrite Hp. destruct h as [| z h]; [congruence |].
  unfold on_trie, BinaryTrie.storage_put, modify. cbn.
  repeat split. unfold stored_head. cbn. apply obj_get_set_eq.
Qed.

Lemma flushHead_idle (d : db) :
  pendingHead d = None ->
  _flushHead d = (Ok tt, with_head None (headSaveCount d) false d).
Proof.
  intros Hp. unfold _flushHead, bind, modify, gets. cbn [pendingHead with_head fst snd].
  rewrite Hp. reflexivity.
Qed.

Lemma saveHead_effect (hash : jsstring) (d : db) :
  hash <> [] ->
  let d1 := snd (_saveHead hash d) in
  (headSaveBatchSize <= headSaveCount d + 1 ->
   stored_head d1 = Some (BinaryTrie.Text hash) /\ pendingHead d1 = None /\
   headSaveCount d1 = 0 /\ headSaveTimer d1 = false) /\
  (headSaveCount d + 1 < headSaveBatchSize ->
   stored_head d1 = stored_head d /\ pendingHead d1 = Some hash /\
   headSaveCount d1 = headSaveCount d + 1 /\ headSaveTimer d1 = true) /\
  stored_head (snd (timer_fires d1)) = Some (BinaryTrie.Text hash).
Proof.
  intros Hh d1. subst d1.
  set (d0 := with_head (Some hash) (headSaveCount d + 1) (headSaveTimer d) d).
  assert (E : _saveHead hash d
              = if headSaveBatchSize <=? headSaveCount d + 1 then _flushHead d0
                else (Ok tt, with_head (Some hash) (headSaveCount d + 1) true d)).
  { unfold _saveHead, bind, modify, gets. cbn [headSaveCount with_head fst snd].
    destruct (headSaveBatchSize <=? headSaveCount d + 1); reflexivity. }
  rewrite E.
  destruct (flushHead_pending hash d0 eq_refl Hh) as (F1 & F2 & F3 & F4).
  destruct (Z.leb_spec headSaveBatchSize (headSaveCount d + 1)) as [Hge | Hlt].
  - split; [intros _; now repeat split |]. split; [lia |].
    unfold timer_fires. rewrite (flushHead_idle _ F2). exact F1.
  - split; [lia |]. split; [intros _; now repeat split |].
    unfold timer_fires. cbn [snd].
    now destruct (flushHead_pending hash (with_head (Some hash) (headSaveCount d + 1) true d)
                    eq_refl Hh).
Qed.

(** After [_saveHead(hash)] the digest is either in the store under
    ["head"], with the counter back at 0 and no timer, or it is pending
    with the timer armed and the counter one higher and below the batch
    size; the first happens exactly with every fifth call.  When the timer
    fires the digest is in the store in both cases. *)
Theorem saveHead_reaches_store (hash : jsstring) (d : db) :
  hash <> [] ->
  let d1 := snd (_saveHead hash d) in
  (headSaveBatchSize <= headSaveCount d + 1 ->
   stored_head d1 = Some (BinaryTrie.Text hash) /\ pendingHead d1 = None /\
   headSaveCount d1 = 0 /\ headSaveTimer d1 = false) /\
  (headSaveCount d + 1 < headSaveBatchSize ->
   stored_head d1 = stored_head d /\ pendingHead d1 = Some hash /\
   headSaveCount d1 = headSaveCount d + 1 /\ headSaveTimer d1 = true) /\
  stored_head (snd (timer_fires d1)) = Some (BinaryTrie.Text hash).
Proof. exact (saveHead_effect hash d). Qed.

Lemma saveHead_reaches_store_witness :
  stored_head (snd (timer_fires (snd (_saveHead (js "root") new_db))))
  = Some (BinaryTrie.Text (js "root")).
Proof.
  apply (saveHead_reaches_store (js "root") new_db). discriminate.
Defined.

Lemma loadHead_found (h : jsstring) (d : db) :
  obj_get (BinaryTrie.storage (trie d)) (js "head") = Some (BinaryTrie.Text h) -> h <> [] ->
  _loadHead d = (Ok tt, with_trie (BinaryTrie.with_rootHash (Some h) (trie d)) d).
Proof.
  intros Hs Hh. unfold _loadHead, bind, on_trie, BinaryTrie.storage_get, gets, modify.
  rewrite Hs. destruct h as [| z h]; [congruence |]. destruct d as [t ? ? ? ? ? ?].
  destruct t. reflexivity.
Qed.

(** A new instance over the same store finds the digest once the timer
    has fired: after [new Railgun(storage)] and [_loadHead()], as in
    [Railgun.create], it is the root digest of the new instance. *)
Theorem head_survives_restart (hash : jsstring) (d : db) :
  hash <> [] ->
  let d2 := snd (timer_fires (snd (_saveHead hash d))) in
  fst (reopened d2) = Ok tt /\
  BinaryTrie.rootHash (trie (snd (reopened d2))) = Some hash /\
  BinaryTrie.storage (trie (snd (reopened d2))) = BinaryTrie.storage (trie d2).
Proof.
  intros Hh d2.
  pose proof (proj2 (proj2 (saveHead_effect hash d Hh))) as Hs. fold d2 in Hs.
  unfold stored_head in Hs. unfold reopened.
  rewrite (loadHead_found hash); [now repeat split | exact Hs | exact Hh].
Qed.

Lemma head_survives_restart_witness :
  BinaryTrie.rootHash
    (trie (snd (reopened (snd (timer_fires (snd (_saveHead (js "root") new_db)))))))
  = Some (js "root").
Proof.
  apply (head_survives_restart (js "root") new_db). discriminate.
Defined.

Lemma saveHead_fields (h : jsstring) (d : db) :
  exists f p c tm,
    _saveHead h d = (Ok tt, with_head p c tm (with_trie (BinaryTrie.with_storage f (trie d)) d)).
Proof.
  unfold _saveHead, bind, modify, gets. cbn [headSaveCount with_head].
  destruct (headSaveBatchSize <=? headSaveCount d + 1).
  - unfold _flushHead, bind, modify, gets. cbn [pendingHead with_head].
    destruct h as [| z h].
    + exists (fun st => st). eexists _, _, _. f_equal. destruct d as [[] ? ? ? ? ? ?]. reflexivity.
    + unfold on_trie, BinaryTrie.storage_put, modify. cbn. eexists _, _, _, _. reflexivity.
  - exists (fun st => st). eexists _, _, _. f_equal. destruct d as [[] ? ? ? ? ? ?]. reflexivity.
Qed.

Lemma flushHead_emitted (e : list Event) (d : db) :
  stored_head (snd (_flushHead (with_emitted e d))) = stored_head (snd (_flushHead d)).
Proof.
  unfold _flushHead, bind, modify, gets. cbn [pendingHead with_head with_emitted].
  destruct (pendingHead d) as [[| z h] |]; reflexivity.
Qed.

End HeadFacts.

(* ===================================================================== *)
(** ** What [put], [get] and [merge] of an instance leave alone *)
(* ===================================================================== *)

Module InstanceFacts.
Import Js Utils Value Platform Crypto BinaryNode Monad Railgun Frame More Resolved
       ObjFacts TrieFacts FrameFacts HeadFacts.
Local Open Scope monad_scope.

#[export] Instance same_instance_preorder : PreOrder same_instance.
Proof.
  split.
  - intros d. unfold same_instance. repeat split; reflexivity.
  - intros d1 d2 d3 (A1 & A2 & A3 & A4 & A5 & A6 & A7) (B1 & B2 & B3 & B4 & B5 & B6 & B7).
    unfold same_instance. split; [etransitivity; eassumption |]. repeat split; congruence.
Qed.

Lemma same_instance_but_events (d d' : db) : same_instance d d' -> same_but_events d d'.
Proof. intros (A1 & A2 & A3 & A4 & A5 & A6 & A7). split; [exact A1 | now repeat split]. Qed.

Lemma on_trie_state {A} (m : M BinaryTrie.trie A) (d : db) :
  snd (on_trie m d) = with_trie (snd (m (trie d))) d /\ fst (on_trie m d) = fst (m (trie d)).
Proof. unfold on_trie. now destruct (m (trie d)). Qed.

Lemma keeps_on_trie {A} (m : M BinaryTrie.trie A) :
  keeps same_store m -> keeps same_instance (on_trie m).
Proof.
  intros H d. rewrite (proj1 (on_trie_state m d)). specialize (H (trie d)).
  unfold same_instance. split; [exact H | now repeat split].
Qed.

(** Sequencing under a frame [R]: what [m] returns satisfies [phi], and
    the rest ensures [Q] from there. *)
Lemma ensures_bind {S A B} (R : S -> S -> Prop) (phi : A -> Prop)
                   (Q : res B -> S -> S -> Prop) (m : M S A) (k : A -> M S B) :
  (forall r s s1 s2, R s s1 -> Q r s1 s2 -> Q r s s2) ->
  (forall e s, Q (Throw e) s s) ->
  keeps R m -> (forall s a, fst (m s) = Ok a -> phi a) ->
  (forall a, phi a -> ensures Q (k a)) -> ensures Q (bind m k).
Proof.
  intros Hc Ht Hm Hphi Hk s. unfold bind. specialize (Hm s). specialize (Hphi s).
  destruct (m s) as [[a | e] s1]; cbn [fst snd] in *.
  - eapply Hc; [exact Hm | apply Hk, Hphi; reflexivity].
  - eapply Hc; [exact Hm | apply Ht].
Qed.

Lemma ensures_ret {S A} (Q : res A -> S -> S -> Prop) (a : A) :
  (forall s, Q (Ok a) s s) -> ensures Q (ret a).
Proof. intros H s. apply H. Qed.

Section WithPlatform.
Context {P : Platform}.

Ltac keeps_step :=
  first [ apply keeps_ret; typeclasses eauto
        | apply keeps_lift; typeclasses eauto
        | apply keeps_throw; typeclasses eauto
        | apply keeps_gets; typeclasses eauto
        | apply keeps_on_trie, keeps_get ].

Lemma keeps_getEntry (key : jsstring) : keeps same_instance (getEntry key).
Proof. apply keeps_on_trie, keeps_get. Qed.

Lemma keeps_instance_get (key : jsstring) (space : option jsstring) :
  keeps same_instance (Railgun.get key space).
Proof.
  unfold Railgun.get. cbv zeta.
  apply keeps_bind; [typeclasses eauto | |].
  { destruct (str_eqb _ (js "all")); [keeps_step |].
    destruct (str_eqb _ (js "frozen")); [keeps_step |].
    destruct (str_eqb _ (js "user")); [| keeps_step].
    apply keeps_bind; [typeclasses eauto | keeps_step |].
    intros [id |]; keeps_step. }
  intros storageKey. apply keeps_bind; [typeclasses eauto | keeps_step |].
  intros envelope. destruct (negb (truthy envelope)); [keeps_step |].
  apply keeps_bind; [typeclasses eauto | keeps_step |]. intros payload.
  apply keeps_bind; [typeclasses eauto | keeps_step |]. intros val.
  apply keeps_bind; [typeclasses eauto | keeps_step |]. intros isEncrypted.
  destruct (truthy isEncrypted && _); [| keeps_step].
  apply keeps_bind; [typeclasses eauto | keeps_step |].
  intros [rt |]; [| keeps_step].
  destruct (dataKey rt); [keeps_step |].
  destruct val; try keeps_step.
  apply keeps_bind; [typeclasses eauto | keeps_step |]. intros decStr. keeps_step.
Qed.

Lemma ascend_digest (count : nat) (path : jsstring) :
  forall stack ch lh saved t stack' ch' saved' t',
    BinaryTrie.ascend count path stack ch lh saved t = (Ok (stack', ch', saved'), t') ->
    ch <> [] -> ch' <> [].
Proof.
  induction count as [| i IH]; intros stack ch lh saved t stack' ch' saved' t' H Hne.
  - cbn in H. unfold ret in H. now injection H as <- <- <- <-.
  - cbn [BinaryTrie.ascend] in H. destruct (stack !! i) as [parent |]; [| discriminate].
    cbv zeta in H.
    apply bind_inv in H as (x1 & s1 & _ & H).
    apply bind_inv in H as (ser & s2 & _ & H).
    apply bind_inv in H as (x3 & s3 & _ & H).
    apply IH in H; [exact H | apply hash_nonempty].
Qed.

(** A [put] of the trie that returned has made its result the root
    digest, and the digest is not the empty string. *)
Lemma put_root (key : jsstring) (val : JSValue) (t t' : BinaryTrie.trie) (root : jsstring) :
  BinaryTrie.put key val t = (Ok root, t') ->
  BinaryTrie.rootHash t' = Some root /\ root <> [].
Proof.
  unfold BinaryTrie.put. intros H.
  apply bind_inv in H as (oldRoot & s1 & _ & H).
  apply bind_inv in H as (stack & s2 & _ & H).
  apply bind_inv in H as (valueKey & s3 & _ & H).
  destruct (stack !! _) as [leaf |]; [| discriminate]. cbv zeta in H.
  apply bind_inv in H as (ser & s4 & _ & H).
  apply bind_inv in H as (x5 & s5 & _ & H).
  apply bind_inv in H as ([[stack' ch] saved] & s6 & Easc & H).
  apply ascend_digest in Easc; [| apply hash_nonempty].
  apply bind_inv in H as (x7 & s7 & _ & H).
  apply bind_inv in H as (x8 & s8 & _ & H).
  apply bind_inv in H as (x9 & s9 & E9 & H).
  apply bind_inv in H as (x10 & s10 & E10 & H).
  unfold ret in H. injection H as <- <-.
  unfold modify in E9. injection E9 as _ <-.
  destruct (stack' !! 0%nat); [| discriminate].
  unfold modify in E10. injection E10 as _ <-. split; [reflexivity | exact Easc].
Qed.

Lemma max_number_ge (b z : Z) (a : JSValue) : max_number b a = Ok z -> b <= z.
Proof. destruct a; cbn; intros [= <-]; lia. Qed.

(** The shape of [merge]: until the envelope is written nothing but the
    caches changes, and what is written has the key, the space and the
    author of the envelope and a timestamp that is not older. *)
Lemma merge_ensures (Q : res bool -> db -> db -> Prop) (envelope : Envelope) (now : Z) :
  (forall r s s1 s2, same_instance s s1 -> Q r s1 s2 -> Q r s s2) ->
  (forall s, Q (Ok false) s s) ->
  (forall e s, Q (Throw e) s s) ->
  (forall payload',
     p_key payload' = p_key (e_payload envelope) ->
     p_space payload' = p_space (e_payload envelope) ->
     p_author payload' = p_author (e_payload envelope) ->
     p_timestamp (e_payload envelope) <= p_timestamp payload' ->
     ensures Q (write_envelope payload' (e_signature envelope))) ->
  ensures Q (merge envelope now).
Proof.
  intros Hc Hf Ht Hs. unfold merge. cbv zeta.
  destruct (verify _ _ _) as [[|] | e]; try (apply ensures_ret, Hf).
  apply (ensures_bind same_instance (fun _ => True)); [exact Hc | exact Ht | | trivial |].
  { destruct (str_eqb _ (js "user")); [keeps_step |].
    destruct (str_eqb _ (js "frozen")); [| keeps_step].
    apply keeps_bind; [typeclasses eauto | keeps_step |]. intros existing.
    destruct (truthy existing); [keeps_step |]. destruct (_ <? _); [keeps_step |].
    destruct (p_author _); [keeps_step |]. destruct (startsWith _ _); keeps_step. }
  intros allowed _. destruct (negb allowed); [apply ensures_ret, Hf |].
  apply (ensures_bind same_instance (fun _ => True)); [exact Hc | exact Ht | keeps_step | trivial |].
  intros existingEnvelope _.
  apply (ensures_bind same_instance (fun _ => True));
    [exact Hc | exact Ht | destruct (truthy _); keeps_step | trivial |].
  intros existingPayload _.
  apply (ensures_bind same_instance
           (fun o => forall p', o = Some p' ->
              p_key p' = p_key (e_payload envelope) /\
              p_space p' = p_space (e_payload envelope) /\
              p_author p' = p_author (e_payload envelope) /\
              p_timestamp (e_payload envelope) <= p_timestamp p'));
    [exact Hc | exact Ht | | |].
  - destruct (truthy _ && truthy _); [| keeps_step]. destruct (startsWith _ _).
    + repeat (apply keeps_bind; [typeclasses eauto | keeps_step | intros ?]). keeps_step.
    + repeat (apply keeps_bind; [typeclasses eauto | keeps_step | intros ?]).
      match goal with |- keeps _ (if ?b then _ else _) => destruct b end; keeps_step.
  - intros s o. destruct (truthy _ && truthy _).
    2:{ cbn. intros [= <-] p' [= <-]. repeat split; lia. }
    destruct (startsWith _ _); unfold bind, lift, ret.
    + destruct (prop existingPayload (js "value")) as [oldValue |]; [| discriminate].
      destruct (spread oldValue) as [oldClaims |]; [| discriminate].
      destruct (spread _) as [newClaims |]; [| discriminate].
      destruct (unique_claims _ _ _) as [unique |]; [| discriminate].
      destruct (prop existingPayload (js "timestamp")) as [oldTimestamp |]; [| discriminate].
      destruct (max_number _ _) as [timestamp |] eqn:Emax; [| discriminate].
      cbn. intros [= <-] p' [= <-]. cbn. repeat split. now apply max_number_ge in Emax.
    + destruct (prop existingPayload (js "timestamp")) as [oldTimestamp |]; [| discriminate].
      destruct (ge_number _ _) as [[|] |]; intros E p' ->; cbn in E; try discriminate E.
      injection E as <-. repeat split; lia.
  - intros [payload' |] Hphi; [| apply ensures_ret, Hf].
    destruct (Hphi _ eq_refl) as (H1 & H2 & H3 & H4).
    exact (Hs payload' H1 H2 H3 H4).
Qed.

Lemma write_envelope_run (payload : Payload) (sig : jsstring) (d : db) :
  write_envelope payload sig d =
  match BinaryTrie.put (p_key payload) (envelope_object (MkEnvelope payload sig)) (trie d) with
  | (Ok root, t') =>
      match _saveHead root (with_trie t' d) with
      | (Ok _, d2) =>
          (Ok true,
           with_emitted (emitted d2 ++ [MkEvent (p_key payload) (p_space payload)
                                                (p_author payload) (p_timestamp payload)
                                                true None]) d2)
      | (Throw e, d2) => (Throw e, d2)
      end
  | (Throw e, t') => (Throw e, with_trie t' d)
  end.
Proof.
  unfold write_envelope, on_trie. cbv zeta. unfold bind at 1.
  destruct (BinaryTrie.put _ _ (trie d)) as [[root | e] t']; [| reflexivity].
  unfold bind at 1. destruct (_saveHead root _) as [[[] | e] d2]; reflexivity.
Qed.

Lemma write_envelope_true (payload : Payload) (sig : jsstring) (d : db) :
  fst (write_envelope payload sig d) <> Ok false.
Proof.
  rewrite write_envelope_run.
  destruct (BinaryTrie.put _ _ (trie d)) as [[root | e] t']; [| discriminate].
  destruct (_saveHead root _) as [[[] | e] d2]; discriminate.
Qed.

Lemma merge_false_same (envelope : Envelope) (now : Z) (d : db) :
  fst (merge envelope now d) = Ok false -> same_instance d (snd (merge envelope now d)).
Proof.
  apply (merge_ensures (fun r d d' => r = Ok false -> same_instance d d')).
  - intros r s s1 s2 H1 H2 Hr. etransitivity; [exact H1 | exact (H2 Hr)].
  - intros s _. reflexivity.
  - discriminate.
  - intros payload' _ _ _ _ s Hr. now apply write_envelope_true in Hr.
Qed.

(** A [merge] that returns [false] leaves no trace: the store, the root
    digest, the identity, the pending head with its counter and timer,
    and the events emitted are those of before. *)
Theorem merge_rejection_leaves_no_trace (envelope : Envelope) (now : Z) (d : db) :
  fst (merge envelope now d) = Ok false -> same_instance d (snd (merge envelope now d)).
Proof. exact (merge_false_same envelope now d). Qed.

(** A [merge] that returns [true] has made a digest other than the empty
    string the root digest, which is in the store under ["head"] once the
    timer has fired, and has emitted one event: a remote one for the key,
    the space and the author of the envelope, with a timestamp that is
    not older.  A [merge] that returns [false] or throws emits nothing.
    The identity and the keys of the session are never touched. *)
Theorem merge_announces (envelope : Envelope) (now : Z) (d : db) :
  let payload := e_payload envelope in
  let d' := snd (merge envelope now d) in
  identity d' = identity d /\ runtime d' = runtime d /\
  match fst (merge envelope now d) with
  | Ok true =>
      exists (timestamp : Z) (root : jsstring),
        p_timestamp payload <= timestamp /\
        emitted d' = emitted d ++ [MkEvent (p_key payload) (p_space payload) (p_author payload)
                                           timestamp true None] /\
        root <> [] /\
        BinaryTrie.rootHash (trie d') = Some root /\
        stored_head (snd (timer_fires d')) = Some (BinaryTrie.Text root)
  | _ => emitted d' = emitted d
  end.
Proof.
  cbv zeta.
  apply (merge_ensures (fun r d d' =>
    identity d' = identity d /\ runtime d' = runtime d /\
    match r with
    | Ok true =>
        exists (timestamp : Z) (root : jsstring),
          p_timestamp (e_payload envelope) <= timestamp /\
          emitted d' = emitted d ++ [MkEvent (p_key (e_payload envelope))
                                             (p_space (e_payload envelope))
                                             (p_author (e_payload envelope))
                                             timestamp true None] /\
          root <> [] /\
          BinaryTrie.rootHash (trie d') = Some root /\
          stored_head (snd (timer_fires d')) = Some (BinaryTrie.Text root)
    | _ => emitted d' = emitted d
    end)).
  - intros r s s1 s2 (_ & A2 & A3 & _ & _ & _ & A7) (B1 & B2 & B3).
    rewrite <- A2, <- A3, <- A7. now repeat split.
  - intros s. now repeat split.
  - intros e s. now repeat split.
  - intros payload' H1 H2 H3 H4 s. rewrite write_envelope_run.
    destruct (BinaryTrie.put _ _ (trie s)) as [[root | e] t'] eqn:E.
    2:{ cbn. now repeat split. }
    apply put_root in E as (Eroot & Hne).
    pose proof (proj2 (proj2 (saveHead_effect root (with_trie t' s) Hne))) as Hhead.
    destruct (saveHead_fields root (with_trie t' s)) as (f & p & c & tm & Esave).
    rewrite Esave in Hhead |- *. cbn [fst snd] in *.
    split; [reflexivity |]. split; [reflexivity |].
    exists (p_timestamp payload'), root. rewrite H1, H2, H3.
    split; [exact H4 |]. split; [reflexivity |]. split; [exact Hne |].
    split; [cbn; exact Eroot |].
    unfold timer_fires in *. rewrite flushHead_emitted. exact Hhead.
Qed.

(** In the space [frozen] the first writer keeps the key: when the trie
    holds something at the key of the envelope, [merge] returns [false].
    It does so too when the envelope is more than an hour older than now,
    and when it names no author.  In all three cases nothing but the
    caches has changed. *)
Theorem merge_frozen_first_writer (envelope : Envelope) (now : Z) (d : db)
                                  (existing : JSValue) :
  p_space (e_payload envelope) = js "frozen" ->
  fst (getEntry (p_key (e_payload envelope)) d) = Ok existing ->
  truthy existing = true \/
  MAX_CLAIM_AGE < now - p_timestamp (e_payload envelope) \/
  p_author (e_payload envelope) = [] ->
  fst (merge envelope now d) = Ok false /\
  same_instance d (snd (merge envelope now d)).
Proof.
  intros Hs He Hcase.
  assert (F : fst (merge envelope now d) = Ok false); [| split; [exact F | now apply merge_false_same]].
  unfold merge. cbv zeta.
  destruct (verify _ _ _) as [[|] | e]; try reflexivity.
  rewrite Hs. replace (str_eqb (js "frozen") (js "user")) with false by reflexivity.
  replace (str_eqb (js "frozen") (js "frozen")) with true by reflexivity.
  rewrite MergeFacts.bind_assoc. unfold bind at 1. unfold getEntry in He.
  destruct (on_trie _ d) as [[x | e] d1]; [| discriminate]. cbn [fst] in He.
  injection He as ->.
  assert (R : forall k : bool -> M db bool, fst (bind (ret false) k d1) = fst (k false d1))
    by reflexivity.
  destruct (truthy existing); [reflexivity |].
  destruct (Z.ltb_spec MAX_CLAIM_AGE (now - p_timestamp (e_payload envelope)));
    [reflexivity |].
  destruct Hcase as [Hc | [Hc | Hc]]; [discriminate | lia |].
  rewrite Hc. reflexivity.
Qed.

Lemma ensures_throw {S A} (Q : res A -> S -> S -> Prop) (e : error) :
  (forall s, Q (Throw e) s s) -> ensures Q (@throw S A e).
Proof. intros H s. apply H. Qed.

(** A volatile [put] touches neither the store nor the head: whatever it
    returns or throws, everything but the caches and the events is as
    before.  When it returns, it returns [null] and has emitted one local
    event with the time of the call, or none when [silent] is set; when
    it throws it has emitted nothing. *)
Theorem put_volatile_stores_nothing (key : jsstring) (value : JSValue)
                                    (space : option jsstring) (silent : bool)
                                    (now : Z) (iv : bytes) (d : db) :
  let r := Railgun.put key value (MkPutOptions space true silent) now iv d in
  same_but_events d (snd r) /\
  match fst r with
  | Ok root =>
      root = None /\
      if silent then emitted (snd r) = emitted d
      else exists ev, ev_remote ev = false /\ ev_timestamp ev = now /\
                      emitted (snd r) = emitted d ++ [ev]
  | Throw _ => emitted (snd r) = emitted d
  end.
Proof.
  cbv zeta. revert d.
  change (ensures (fun r d d' =>
    same_but_events d d' /\
    match r with
    | Ok root =>
        root = None /\
        if silent then emitted d' = emitted d
        else exists ev, ev_remote ev = false /\ ev_timestamp ev = now /\
                        emitted d' = emitted d ++ [ev]
    | Throw _ => emitted d' = emitted d
    end) (Railgun.put key value (MkPutOptions space true silent) now iv)).
  set (Q := fun (r : res (option jsstring)) (d d' : db) => _).
  assert (Hc : forall r s s1 s2, same_instance s s1 -> Q r s1 s2 -> Q r s s2).
  { intros r s s1 s2 H1 (H2 & H3). pose proof (same_instance_but_events _ _ H1) as H1'.
    destruct H1 as (_ & _ & _ & _ & _ & _ & A7).
    destruct H1' as (A1 & A2 & A3 & A4 & A5 & A6), H2 as (B1 & B2 & B3 & B4 & B5 & B6).
    split.
    - split; [etransitivity; eassumption |]. repeat split; congruence.
    - rewrite <- A7. exact H3. }
  assert (Hrefl : forall s, same_but_events s s).
  { intros s. split; [reflexivity | now repeat split]. }
  assert (Ht : forall e s, Q (Throw e) s s) by (intros e s; split; [apply Hrefl | reflexivity]).
  unfold Railgun.put.
  apply (ensures_bind same_instance (fun _ => True)); [exact Hc | exact Ht | keeps_step | trivial |].
  intros [rt |] _; [| apply ensures_throw, Ht].
  destruct (privateKey rt); [apply ensures_throw, Ht |]. cbv zeta.
  apply (ensures_bind same_instance (fun _ => True)); [exact Hc | exact Ht | keeps_step | trivial |].
  intros id _.
  apply (ensures_bind same_instance (fun _ => True)); [exact Hc | exact Ht | | trivial |].
  { destruct (str_eqb _ (js "all")); [keeps_step |].
    destruct (str_eqb _ (js "frozen")).
    { apply keeps_bind; [typeclasses eauto | keeps_step |].
      intros existing. destruct (truthy existing); keeps_step. }
    destruct (str_eqb _ (js "user")); [| keeps_step].
    destruct id; [| keeps_step].
    apply keeps_bind; [typeclasses eauto | keeps_step |]. intros finalValue. keeps_step. }
  intros [[storageKey finalValue] isEncrypted] _.
  destruct id as [id |]; [| apply ensures_throw, Ht].
  apply (ensures_bind same_instance (fun _ => True)); [exact Hc | exact Ht | keeps_step | trivial |].
  intros signature _ s. cbn [o_volatile o_silent].
  destruct silent; cbn.
  - split; [apply Hrefl | now split].
  - split; [split; [reflexivity | now repeat split] |].
    split; [reflexivity |].
    exists (MkEvent storageKey (space_or_all space) (publicKey id) now false (Some finalValue)).
    now repeat split.
Qed.

(** Reading changes nothing: whatever [get] of the trie returns or
    throws, the store, the root digest and the last batch are those of
    before; and after [get] and [getEntry] of an instance so are the
    identity, the session keys, the pending head with its counter and
    timer, and the events emitted.  Only the caches may differ. *)
Theorem instance_get_reads_only (key : jsstring) (space : option jsstring) :
  keeps same_store (BinaryTrie.get key) /\
  keeps same_instance (getEntry key) /\
  keeps same_instance (Railgun.get key space).
Proof.
  split; [apply keeps_get |]. split; [apply keeps_getEntry | apply keeps_instance_get].
Qed.

End WithPlatform.

Import Toy.

Lemma merge_rejection_leaves_no_trace_witness :
  fst (merge older_envelope 3000 alice_k) = Ok false /\
  same_instance alice_k (snd (merge older_envelope 3000 alice_k)).
Proof.
  assert (H : fst (merge older_envelope 3000 alice_k) = Ok false) by (vm_compute; reflexivity).
  split; [exact H |].
  exact (merge_rejection_leaves_no_trace older_envelope 3000 alice_k H).
Defined.

Lemma merge_frozen_first_writer_witness :
  fst (merge late_genesis 2000 alice_genesis) = Ok false /\
  same_instance alice_genesis (snd (merge late_genesis 2000 alice_genesis)).
Proof.
  apply (merge_frozen_first_writer late_genesis 2000 alice_genesis
           (envelope_object genesis_envelope)).
  - reflexivity.
  - vm_compute. reflexivity.
  - left. reflexivity.
Defined.

End InstanceFacts.


(* ===================================================================== *)
(** ** Ciphertexts and signatures in hexadecimal *)
(* ===================================================================== *)

Module CryptoFacts.
Import Js Utils Value Platform Crypto HexFacts.

Section WithPlatform.
Context {P : Platform}.

Lemma fromHex_or_throw_toHex (bs : bytes) :
  Forall (fun b => 0 <= b < 256) bs -> fromHex_or_throw (toHex bs) = Ok bs.
Proof. intros H. unfold fromHex_or_throw. now rewrite fromHex_toHex_bytes. Qed.

(** [decryptData] undoes [encryptData]: the result of [encryptData] is
    the hexadecimal of the twelve bytes of the vector followed by the
    ciphertext, and [decryptData] with the same key takes it apart again
    and returns the text, when the cipher of the platform decrypts what it
    encrypted and the text is one that UTF-8 decoding gives back. *)
Theorem decryptData_encryptData (data keyRawHex : jsstring) (iv key encrypted : bytes) :
  fromHex keyRawHex = Some key ->
  length iv = IV_LEN -> Forall (fun b => 0 <= b < 256) iv ->
  aes_gcm_encrypt key iv (TextEncoder_encode data) = Ok encrypted ->
  Forall (fun b => 0 <= b < 256) encrypted ->
  aes_gcm_decrypt key iv encrypted = Ok (TextEncoder_encode data) ->
  TextDecoder_decode (TextEncoder_encode data) = data ->
  encryptData (Some data) keyRawHex iv = Ok (toHex (iv ++ encrypted)) /\
  decryptData (toHex (iv ++ encrypted)) keyRawHex = Ok data.
Proof.
  intros Hk Hlen Hiv Henc Hc Hdec Hutf.
  assert (Ek : fromHex_or_throw keyRawHex = Ok key) by (unfold fromHex_or_throw; now rewrite Hk).
  unfold encryptData, decryptData. rewrite Ek. cbn [res_bind].
  rewrite Henc. cbn [res_bind]. split; [reflexivity |].
  rewrite fromHex_or_throw_toHex by (apply Forall_app; now split). cbn [res_bind].
  rewrite <- Hlen, take_app_length, drop_app_length, Hdec. cbn [res_bind].
  now rewrite Hutf.
Qed.

End WithPlatform.

Import Toy.

Lemma decryptData_encryptData_witness :
  decryptData (toHex (twelve ++ key_stream (hex_pairs pk_data) twelve
                                            (TextEncoder_encode (js "cake")))) pk_data
  = Ok (js "cake").
Proof.
  refine (proj2 (decryptData_encryptData (js "cake") pk_data twelve (hex_pairs pk_data)
                   (key_stream (hex_pairs pk_data) twelve (TextEncoder_encode (js "cake")))
                   _ _ _ _ _ _ _)).
  - reflexivity.
  - reflexivity.
  - repeat constructor; lia.
  - reflexivity.
  - vm_compute. repeat constructor; discriminate.
  - vm_compute. reflexivity.
  - reflexivity.
Defined.

End CryptoFacts.

(* ===================================================================== *)
(** ** Handles *)
(* ===================================================================== *)

Module HandleFacts.
Import Js Utils Value Platform Crypto Monad Railgun More ObjFacts.
Local Open Scope monad_scope.

Definition is_decimal (c : Z) : Prop := 48 <= c <= 57.

Lemma digits_fuel_decimal (fuel : nat) :
  forall (z : Z) (acc : jsstring),
    0 <= z -> Forall is_decimal acc -> Forall is_decimal (digits_fuel fuel z acc).
Proof.
  induction fuel as [| f IH]; intros z acc Hz Hacc; cbn [digits_fuel]; [exact Hacc |].
  assert (Hd : Forall is_decimal ((48 + z mod 10) :: acc)).
  { constructor; [| exact Hacc]. unfold is_decimal.
    pose proof (Z.mod_pos_bound z 10 ltac:(lia)). lia. }
  destruct (z <? 10); [exact Hd |].
  apply IH; [apply Z.div_pos; lia | exact Hd].
Qed.

Lemma padded_decimal (z : Z) (n : nat) :
  0 <= z -> Forall is_decimal (padStart0 (Number_toString z) n).
Proof.
  intros Hz. unfold padStart0, Number_toString.
  destruct (Z.ltb_spec z 0); [lia |].
  apply Forall_app. split.
  - apply List.Forall_forall. intros c Hc. apply repeat_spec in Hc. subst c.
    unfold is_decimal. lia.
  - apply digits_fuel_decimal; [exact Hz | constructor].
Qed.

Lemma computeSuffix_shape (pubKeyHex suffix : jsstring) (n : nat) :
  (1 <= n)%nat -> computeSuffix pubKeyHex n = Some suffix ->
  length suffix = n /\ Forall is_decimal suffix.
Proof.
  intros Hn. unfold computeSuffix. destruct (fromHex pubKeyHex) as [input |]; [| discriminate].
  cbv zeta. intros [= <-]. unfold rem. split.
  - apply SuffixFacts.padded_length; [exact Hn | apply SuffixFacts.rem_abs_bound].
  - apply padded_decimal. lia.
Qed.

Lemma after_last_hash_tail (t : jsstring) :
  Forall is_decimal t -> forall acc, after_last_hash t (Some acc) = Some (acc ++ t).
Proof.
  induction 1 as [| c t Hc _ IH]; intros acc; cbn [after_last_hash].
  - now rewrite app_nil_r.
  - unfold is_decimal in Hc. destruct (Z.eqb_spec c 35); [lia |].
    cbn [option_map]. rewrite IH, <- app_assoc. reflexivity.
Qed.

Lemma after_last_hash_none (t : jsstring) :
  Forall is_decimal t -> after_last_hash t None = None.
Proof.
  induction 1 as [| c t Hc _ IH]; cbn [after_last_hash]; [reflexivity |].
  unfold is_decimal in Hc. destruct (Z.eqb_spec c 35); [lia | exact IH].
Qed.

Lemma after_last_hash_app (s t : jsstring) :
  Forall is_decimal t ->
  forall seen, after_last_hash (s ++ 35 :: t) seen = Some t.
Proof.
  intros Ht. induction s as [| c s IH]; intros seen; cbn [app after_last_hash].
  - cbn. now rewrite after_last_hash_tail.
  - destruct (c =? 35); apply IH.
Qed.

(** The handle an identity gets from [getHandle] passes
    [verifyHandleOwnership] for its public key when the identity has a
    display name, whatever the name is.  Without a display name the handle
    is the bare suffix, and [verifyHandleOwnership] answers [false] for
    it. *)
Theorem own_handle_verifies (d : db) (id : Identity) (suffix : jsstring) :
  identity d = Some id ->
  computeSuffix (publicKey id) 4 = Some suffix ->
  match displayName id with
  | Some (c :: name) =>
      fst (getHandle d) = Ok (Some ((c :: name) ++ js "#" ++ suffix)) /\
      verifyHandleOwnership ((c :: name) ++ js "#" ++ suffix) (publicKey id) = Ok true
  | _ =>
      fst (getHandle d) = Ok (Some suffix) /\
      verifyHandleOwnership suffix (publicKey id) = Ok false
  end.
Proof.
  intros Hid Hs.
  destruct (computeSuffix_shape _ _ 4 ltac:(lia) Hs) as (Hlen & Hdec).
  assert (Hg : forall r, match displayName id with
                         | Some (c :: name) => r = (c :: name) ++ js "#" ++ suffix
                         | _ => r = suffix
                         end -> fst (getHandle d) = Ok (Some r)).
  { intros r Hr. unfold getHandle, bind, gets. rewrite Hid, Hs.
    destruct (displayName id) as [[| c name] |]; now subst r. }
  destruct (displayName id) as [[| c name] |].
  - split; [now apply Hg |]. unfold verifyHandleOwnership.
    now rewrite after_last_hash_none.
  - split; [now apply Hg |]. unfold verifyHandleOwnership.
    change (js "#" ++ suffix) with (35 :: suffix).
    rewrite after_last_hash_app by exact Hdec. rewrite Hlen, Hs.
    now rewrite str_eqb_refl.
  - split; [now apply Hg |]. unfold verifyHandleOwnership.
    now rewrite after_last_hash_none.
Qed.

Import Toy.

Lemma own_handle_verifies_witness :
  fst (getHandle alice_named) = Ok (Some (js "alice#7333")) /\
  verifyHandleOwnership (js "alice#7333") alice_key = Ok true.
Proof.
  refine (own_handle_verifies alice_named
            (MkIdentity alice_key [] [] (Some (js "alice"))) (js "7333") _ _).
  - reflexivity.
  - vm_compute. reflexivity.
Defined.

End HandleFacts.

(* ===================================================================== *)
(** ** The union of claims in [merge] *)
(* ===================================================================== *)

Module ClaimListFacts.
Import Js Utils Value Railgun More ObjFacts.

Definition readable (c : JSValue) : Prop := c <> JNull /\ c <> JUndefined.

(** [later] has another signature than [earlier]. *)
Definition fresh_after (earlier later : JSValue) : Prop :=
  same_value_zero (signature_of later) (signature_of earlier) = false.

Lemma prop_signature (c : JSValue) :
  readable c -> prop c (js "signature") = Ok (signature_of c).
Proof.
  intros [H1 H2]. unfold signature_of. destruct c; try reflexivity; congruence.
Qed.

Lemma same_value_zero_refl (v : JSValue) : primitive v = true -> same_value_zero v v = true.
Proof.
  destruct v; cbn; try discriminate; intros _; try reflexivity.
  - apply Bool.eqb_reflx.
  - apply Z.eqb_refl.
  - now apply bool_decide_eq_true.
  - apply str_eqb_refl.
Qed.

Lemma ordered_snoc {A} (R : A -> A -> Prop) (l : list A) (x : A) :
  ForallOrdPairs R l -> List.Forall (fun y => R y x) l -> ForallOrdPairs R (l ++ [x]).
Proof.
  induction 1 as [| y l Hy _ IH]; intros HF; cbn.
  - constructor; constructor.
  - inversion_clear HF as [| ? ? Hyx HF']. constructor; [| exact (IH HF')].
    apply List.Forall_app. split; [exact Hy | constructor; [exact Hyx | constructor]].
Qed.

Lemma seen_false (sig : JSValue) (unique : list JSValue) (c : JSValue) :
  signature_of c = sig ->
  existsb (same_value_zero sig) (map signature_of unique) = false ->
  List.Forall (fun y => fresh_after y c) unique.
Proof.
  intros <- H. apply List.Forall_forall. intros y Hy. unfold fresh_after.
  destruct (same_value_zero _ _) eqn:E; [| reflexivity].
  rewrite <- H. symmetry. apply existsb_exists. exists (signature_of y).
  split; [now apply in_map | exact E].
Qed.

Lemma unique_claims_gen (claims : list JSValue) :
  List.Forall readable claims ->
  forall unique,
    ForallOrdPairs fresh_after unique ->
    exists added,
      unique_claims claims (map signature_of unique) unique = Ok (unique ++ added) /\
      sublist added claims /\
      ForallOrdPairs fresh_after (unique ++ added) /\
      (forall c, In c claims -> primitive (signature_of c) = true ->
         exists c', In c' (unique ++ added) /\
                    same_value_zero (signature_of c) (signature_of c') = true).
Proof.
  induction 1 as [| c rest Hc _ IH]; intros unique Hord.
  - exists []. rewrite app_nil_r. cbn. repeat split; [constructor | exact Hord |].
    intros c [].
  - cbn [unique_claims]. rewrite (prop_signature c Hc). cbn [res_bind].
    destruct (existsb _ _) eqn:E.
    + destruct (IH unique Hord) as (added & E1 & E2 & E3 & E4).
      exists added. split; [exact E1 |]. split; [now constructor |]. split; [exact E3 |].
      intros c0 [<- | Hin] Hp; [| now apply E4].
      apply existsb_exists in E as (x & Hx & Hxs).
      apply in_map_iff in Hx as (c' & <- & Hc').
      exists c'. split; [apply in_or_app; now left | exact Hxs].
    + pose proof (seen_false _ _ c eq_refl E) as Hfresh.
      replace (map signature_of unique ++ [signature_of c])
        with (map signature_of (unique ++ [c])) by now rewrite map_app.
      destruct (IH (unique ++ [c]) (ordered_snoc _ _ _ Hord Hfresh))
        as (added & E1 & E2 & E3 & E4).
      rewrite <- app_assoc in E1, E3, E4. cbn [app] in E1, E3, E4.
      exists (c :: added). split; [exact E1 |]. split; [now constructor |].
      split; [exact E3 |].
      intros c0 [<- | Hin] Hp; [| now apply E4].
      exists c. split; [apply in_or_app; right; now left |].
      now apply same_value_zero_refl.
Qed.

(** The loop of [merge] over the claims keeps the first claim of every
    signature: the result is a sublist of the claims, no claim of it has
    the signature of an earlier one, and every claim whose signature is a
    primitive value has its signature in the result. *)
Theorem unique_claims_first_of_each (claims : list JSValue) :
  List.Forall (fun c => c <> JNull /\ c <> JUndefined) claims ->
  exists unique,
    unique_claims claims [] [] = Ok unique /\
    sublist unique claims /\
    ForallOrdPairs
      (fun earlier later =>
         same_value_zero (signature_of later) (signature_of earlier) = false) unique /\
    (forall c, In c claims -> primitive (signature_of c) = true ->
       exists c', In c' unique /\
                  same_value_zero (signature_of c) (signature_of c') = true).
Proof.
  intros H. destruct (unique_claims_gen claims H [] ltac:(constructor))
    as (added & E1 & E2 & E3 & E4).
  exists added. now repeat split.
Qed.

Lemma unique_claims_prefix (u : list JSValue) (l : list JSValue) :
  List.Forall readable u ->
  forall pre,
    ForallOrdPairs fresh_after (pre ++ u) ->
    unique_claims (u ++ l) (map signature_of pre) pre
    = unique_claims l (map signature_of (pre ++ u)) (pre ++ u).
Proof.
  induction 1 as [| c u Hc _ IH]; intros pre Hord.
  - now rewrite app_nil_r.
  - cbn [app unique_claims]. rewrite (prop_signature c Hc). cbn [res_bind].
    assert (E : existsb (same_value_zero (signature_of c)) (map signature_of pre) = false).
    { destruct (existsb _ _) eqn:E; [| reflexivity].
      apply existsb_exists in E as (x & Hx & Hxs).
      apply in_map_iff in Hx as (y & <- & Hy).
      clear IH. induction pre as [| p pre IHp]; [destruct Hy |].
      cbn [app] in Hord. inversion_clear Hord as [| ? ? Hp Hrest].
      destruct Hy as [-> | Hy]; [| now apply IHp].
      rewrite List.Forall_forall in Hp.
      specialize (Hp c ltac:(apply in_or_app; right; now left)).
      unfold fresh_after in Hp. congruence. }
    rewrite E.
    replace (map signature_of pre ++ [signature_of c])
      with (map signature_of (pre ++ [c])) by now rewrite map_app.
    rewrite IH by (now rewrite <- app_assoc). now rewrite <- app_assoc.
Qed.

Lemma unique_claims_seen (l unique : list JSValue) :
  List.Forall readable l ->
  (forall c, In c l ->
     exists c', In c' unique /\ same_value_zero (signature_of c) (signature_of c') = true) ->
  unique_claims l (map signature_of unique) unique = Ok unique.
Proof.
  induction 1 as [| c l Hc _ IH]; intros Hrep; [reflexivity |].
  cbn [unique_claims]. rewrite (prop_signature c Hc). cbn [res_bind].
  destruct (Hrep c ltac:(now left)) as (c' & Hc' & E).
  replace (existsb _ _) with true.
  - apply IH. intros c0 H0. apply Hrep. now right.
  - symmetry. apply existsb_exists. exists (signature_of c').
    split; [now apply in_map | exact E].
Qed.

Lemma sublist_readable (u l : list JSValue) :
  sublist u l -> List.Forall readable l -> List.Forall readable u.
Proof.
  induction 1 as [| x u l _ IH | x u l _ IH]; intros HF.
  - constructor.
  - inversion_clear HF. constructor; auto.
  - inversion_clear HF. auto.
Qed.

(** Merging claims that are known changes nothing: when [unique] is what
    the loop made of [claims], the loop over [unique] followed by
    [claims] gives [unique] again. *)
Theorem unique_claims_known (claims unique : list JSValue) :
  List.Forall (fun c => c <> JNull /\ c <> JUndefined) claims ->
  List.Forall (fun c => primitive (signature_of c) = true) claims ->
  unique_claims claims [] [] = Ok unique ->
  unique_claims (unique ++ claims) [] [] = Ok unique.
Proof.
  intros Hr Hp E.
  destruct (unique_claims_gen claims Hr [] ltac:(constructor))
    as (added & E1 & E2 & E3 & E4).
  cbn [app map] in E1, E3, E4. rewrite E1 in E. injection E as <-.
  change (unique_claims (added ++ claims) (map signature_of []) [] = Ok added).
  rewrite unique_claims_prefix; [| now apply (sublist_readable added claims) | exact E3].
  cbn [app]. apply unique_claims_seen; [exact Hr |].
  intros c Hc. apply E4; [exact Hc |].
  rewrite List.Forall_forall in Hp. now apply Hp.
Qed.

Import Toy.

Lemma three_claims_readable : List.Forall (fun c => c <> JNull /\ c <> JUndefined) three_claims.
Proof. repeat constructor; discriminate. Qed.

Lemma unique_claims_first_of_each_witness :
  exists unique,
    unique_claims three_claims [] [] = Ok unique /\
    sublist unique three_claims /\
    ForallOrdPairs
      (fun earlier later =>
         same_value_zero (signature_of later) (signature_of earlier) = false) unique /\
    (forall c, In c three_claims -> primitive (signature_of c) = true ->
       exists c', In c' unique /\
                  same_value_zero (signature_of c) (signature_of c') = true).
Proof.
  apply (unique_claims_first_of_each three_claims). exact three_claims_readable.
Defined.

Lemma unique_claims_known_witness :
  unique_claims ([claim_value "carol" "aa"; claim_value "carol" "bb"] ++ three_claims) [] []
  = Ok [claim_value "carol" "aa"; claim_value "carol" "bb"].
Proof.
  apply (unique_claims_known three_claims).
  - exact three_claims_readable.
  - repeat constructor.
  - reflexivity.
Defined.

End ClaimListFacts.

(* ===================================================================== *)
(** ** [put] followed by [get] on one instance *)
(* ===================================================================== *)

Module RoundTripFacts.
Import Js Utils Value Platform Crypto BinaryNode Monad Railgun Resolved More ObjFacts TrieFacts
       MergeFacts LocalFacts HeadFacts.
Local Open Scope monad_scope.

(** The identity and the keys of the session are those of before. *)
Definition same_login (d d' : db) : Prop :=
  identity d' = identity d /\ runtime d' = runtime d.

#[export] Instance same_login_preorder : PreOrder same_login.
Proof.
  split.
  - intros d. now split.
  - intros d1 d2 d3 [A1 A2] [B1 B2]. split; congruence.
Qed.

Section WithPlatform.
Context {P : Platform}.

Lemma returns_inv {A} (r : res A) : returns r = true -> exists a, r = Ok a.
Proof. destruct r; [eauto | discriminate]. Qed.

(** In the spaces [all] and [frozen] a [put] that returned is followed by
    a [get] of the value put, when the storage key has no surrogate pair
    and fewer code units than the node cache has entries, and the write
    met no two nodes with the same digest. *)
Theorem put_then_get_local (key : jsstring) (value : JSValue) (options : PutOptions)
                           (now : Z) (iv : bytes) (d : db) (rt : Runtime) (id : Identity)
                           (space : jsstring) :
  runtime d = Some rt -> privateKey rt <> [] -> identity d = Some id ->
  space_or_all (o_space options) = space -> space = js "all" \/ space = js "frozen" ->
  o_volatile options = false ->
  returns (fst (put key value options now iv d)) = true ->
  units_are_chars (normalizeKey (space ++ js "/" ++ key)) ->
  (length (normalizeKey (space ++ js "/" ++ key)) < BinaryTrie.nodeCache_maxSize)%nat ->
  NoDup (map fst (BinaryTrie.lastBatch (trie (snd (put key value options now iv d))))) ->
  fst (get key (o_space options) (snd (put key value options now iv d))) = Ok value.
Proof.
  intros Hrt Hpk Hid Hs Hspace Hvol Hret Hunits Hlen Hnd.
  apply returns_inv in Hret as (root & Hret).
  destruct (put key value options now iv d) as [r d'] eqn:E. cbn [fst snd] in *. subst r.
  destruct Hspace as [-> | ->].
  - exact (put_then_get_all key value options now iv d d' rt id root
             Hrt Hpk Hid Hs Hvol E Hunits Hlen Hnd).
  - exact (put_then_get_frozen key value options now iv d d' rt id root
             Hrt Hpk Hid Hs Hvol E Hunits Hlen Hnd).
Qed.

(** In the space [frozen] a key that holds something stays as it is:
    [put] throws, the store and the root digest are those of before, and
    [getEntry] and [get] return what they returned before (the storage
    key within the size of the node cache). *)
Theorem put_frozen_keeps_first (key : jsstring) (value : JSValue) (options : PutOptions)
                               (now : Z) (iv : bytes) (d : db) (rt : Runtime)
                               (id : Identity) (existing : JSValue) :
  runtime d = Some rt -> privateKey rt <> [] -> identity d = Some id ->
  space_or_all (o_space options) = js "frozen" ->
  fst (getEntry (js "frozen/" ++ key) d) = Ok existing -> truthy existing = true ->
  (length (chars_of (normalizeKey (js "frozen/" ++ key)))
   <= BinaryTrie.nodeCache_maxSize)%nat ->
  let d' := snd (put key value options now iv d) in
  fst (put key value options now iv d) = Throw (Immutable key) /\
  BinaryTrie.storage (trie d') = BinaryTrie.storage (trie d) /\
  BinaryTrie.rootHash (trie d') = BinaryTrie.rootHash (trie d) /\
  fst (getEntry (js "frozen/" ++ key) d') = Ok existing /\
  fst (get key (o_space options) d') = fst (get key (o_space options) d).
Proof.
  intros Hrt Hpk Hid Hs Hentry Htruthy Hlen.
  destruct (put_frozen_occupied key value options now iv d rt id existing
              Hrt Hpk Hid Hs Hentry Htruthy Hlen) as (d1 & E & H).
  cbv zeta. rewrite E. cbn [fst snd]. split; [reflexivity | exact H].
Qed.

Lemma put_user (key : jsstring) (value : JSValue) (options : PutOptions) (now : Z)
               (iv : bytes) (d : db) (rt : Runtime) (id : Identity) :
  runtime d = Some rt -> privateKey rt <> [] -> identity d = Some id ->
  space_or_all (o_space options) = js "user" ->
  put key value options now iv d
  = match encryptData (JSON_stringify value) (dataKey rt) iv with
    | Ok finalValue =>
        sign_and_store rt id (js "user/" ++ publicKey id ++ js "/" ++ key)
                       (JString finalValue) true (js "user") options now d
    | Throw e => (Throw e, d)
    end.
Proof.
  intros Hrt Hpk Hid Hs. unfold put. unfold bind at 1. unfold gets at 1. rewrite Hrt.
  destruct (privateKey rt) as [| z pk] eqn:Epk; [congruence |].
  unfold bind at 1. unfold gets at 1. rewrite Hid, Hs.
  rewrite <- Epk.
  change (str_eqb (js "user") (js "all")) with false.
  change (str_eqb (js "user") (js "frozen")) with false.
  change (str_eqb (js "user") (js "user")) with true.
  cbv iota. rewrite bind_assoc. unfold bind at 1. unfold lift at 1.
  destruct (encryptData _ _ _) as [finalValue | e]; [| reflexivity].
  unfold bind at 1. unfold ret at 1. reflexivity.
Qed.

Lemma sign_and_store_login (rt : Runtime) (id : Identity) (storageKey : jsstring)
                           (finalValue : JSValue) (isEncrypted : bool) (space : jsstring)
                           (options : PutOptions) (now : Z) :
  Frame.keeps same_login
    (sign_and_store rt id storageKey finalValue isEncrypted space options now).
Proof.
  assert (Htrie : forall {A} (m : M BinaryTrie.trie A), Frame.keeps same_login (on_trie m)).
  { intros A m d. rewrite (proj1 (InstanceFacts.on_trie_state m d)). now split. }
  assert (Hsave : forall h, Frame.keeps same_login (_saveHead h)).
  { intros h d. destruct (saveHead_fields h d) as (f & p & c & tm & ->). now split. }
  unfold sign_and_store.
  apply FrameFacts.keeps_bind; [typeclasses eauto | apply FrameFacts.keeps_lift; typeclasses eauto |].
  intros signature. apply FrameFacts.keeps_bind; [typeclasses eauto | |].
  { destruct (o_volatile options); [apply FrameFacts.keeps_ret; typeclasses eauto |].
    apply FrameFacts.keeps_bind; [typeclasses eauto | apply Htrie |].
    intros root. apply FrameFacts.keeps_bind; [typeclasses eauto | apply Hsave |].
    intros _. apply FrameFacts.keeps_ret; typeclasses eauto. }
  intros r. apply FrameFacts.keeps_bind; [typeclasses eauto | |].
  { destruct (o_silent options); [apply FrameFacts.keeps_ret; typeclasses eauto |].
    intros d. now split. }
  intros _. apply FrameFacts.keeps_ret; typeclasses eauto.
Qed.

Lemma get_user (key : jsstring) (o : option jsstring) (d : db) (rt : Runtime) (id : Identity)
               (cipher sig author space : jsstring) (now : Z) :
  identity d = Some id -> runtime d = Some rt -> dataKey rt <> [] ->
  space_or_all o = js "user" ->
  fst (getEntry (js "user/" ++ publicKey id ++ js "/" ++ key) d)
  = Ok (envelope_object
          (MkEnvelope (MkPayload (js "user/" ++ publicKey id ++ js "/" ++ key)
                                 (JString cipher) now author true space) sig)) ->
  fst (get key o d) = res_bind (decryptData cipher (dataKey rt)) JSON_parse.
Proof.
  intros Hid Hrt Hdk Ho Hentry. unfold get. rewrite Ho.
  change (str_eqb (js "user") (js "all")) with false.
  change (str_eqb (js "user") (js "frozen")) with false.
  change (str_eqb (js "user") (js "user")) with true.
  cbv iota. rewrite bind_assoc. unfold bind at 1. unfold gets at 1. rewrite Hid.
  unfold bind at 1. unfold ret at 1.
  unfold getEntry in Hentry. unfold bind at 1.
  destruct (InstanceFacts.on_trie_state
              (BinaryTrie.get (js "user/" ++ publicKey id ++ js "/" ++ key)) d) as (Es & Er).
  destruct (on_trie _ d) as [r d1]. cbn [fst snd] in Es, Er, Hentry. subst r.
  assert (Hrt1 : runtime d1 = Some rt) by (subst d1; exact Hrt).
  cbn [truthy envelope_object negb].
  change (prop (envelope_object ?e) (js "payload")) with (Ok (payload_object (e_payload e))).
  unfold lift at 1. unfold bind at 1.
  change (prop (payload_object ?p) (js "value")) with (Ok (p_value p)).
  unfold lift at 1. unfold bind at 1.
  change (prop (payload_object ?p) (js "isEncrypted")) with (Ok (JBool (p_isEncrypted p))).
  unfold lift at 1. unfold bind at 1.
  cbn [p_isEncrypted p_value e_payload truthy andb].
  unfold bind at 1. unfold gets at 1. rewrite Hrt1.
  destruct (dataKey rt) as [| z dk] eqn:Edk; [congruence |]. rewrite <- Edk.
  unfold bind, lift. destruct (decryptData cipher (dataKey rt)); reflexivity.
Qed.

(** In the space [user] the value is stored encrypted and [get] reads it
    back in clear: a [put] that returned is followed by a [get] of
    [JSON.parse] of the text that [JSON.stringify] made of the value, when
    the cipher of the platform decrypts what it encrypted under the data
    key and the random vector, UTF-8 decoding gives the text back, the
    storage key has no surrogate pair and fewer code units than the node
    cache has entries, and the write met no two nodes with the same
    digest. *)
Theorem put_then_get_user (key : jsstring) (value : JSValue) (options : PutOptions)
                          (now : Z) (iv : bytes) (d : db) (rt : Runtime) (id : Identity)
                          (text : jsstring) (dk encrypted : bytes) :
  runtime d = Some rt -> privateKey rt <> [] -> identity d = Some id ->
  space_or_all (o_space options) = js "user" -> o_volatile options = false ->
  JSON_stringify value = Some text ->
  dataKey rt <> [] -> fromHex (dataKey rt) = Some dk ->
  length iv = IV_LEN -> Forall (fun b => 0 <= b < 256) iv ->
  aes_gcm_encrypt dk iv (TextEncoder_encode text) = Ok encrypted ->
  Forall (fun b => 0 <= b < 256) encrypted ->
  aes_gcm_decrypt dk iv encrypted = Ok (TextEncoder_encode text) ->
  TextDecoder_decode (TextEncoder_encode text) = text ->
  returns (fst (put key value options now iv d)) = true ->
  units_are_chars (normalizeKey (js "user/" ++ publicKey id ++ js "/" ++ key)) ->
  (length (normalizeKey (js "user/" ++ publicKey id ++ js "/" ++ key))
   < BinaryTrie.nodeCache_maxSize)%nat ->
  NoDup (map fst (BinaryTrie.lastBatch (trie (snd (put key value options now iv d))))) ->
  fst (get key (o_space options) (snd (put key value options now iv d))) = JSON_parse text.
Proof.
  intros Hrt Hpk Hid Hs Hvol Htext Hdk Hk Hlen Hiv Henc Hc Hdec Hutf Hret Hunits Hsize Hnd.
  assert (Ek : fromHex_or_throw (dataKey rt) = Ok dk)
    by (unfold fromHex_or_throw; now rewrite Hk).
  assert (Eenc : encryptData (Some text) (dataKey rt) iv = Ok (toHex (iv ++ encrypted))).
  { unfold encryptData. rewrite Ek. cbn [res_bind]. now rewrite Henc. }
  assert (Edec : decryptData (toHex (iv ++ encrypted)) (dataKey rt) = Ok text).
  { unfold decryptData. rewrite Ek. cbn [res_bind].
    rewrite CryptoFacts.fromHex_or_throw_toHex by (apply Forall_app; now split).
    cbn [res_bind]. rewrite <- Hlen, take_app_length, drop_app_length, Hdec. cbn [res_bind].
    now rewrite Hutf. }
  rewrite (put_user _ _ _ _ _ _ rt id Hrt Hpk Hid Hs), Htext, Eenc in Hret, Hnd |- *.
  apply returns_inv in Hret as (root & Hret).
  pose proof (sign_and_store_login rt id (js "user/" ++ publicKey id ++ js "/" ++ key)
                (JString (toHex (iv ++ encrypted))) true (js "user") options now d) as Hlogin.
  unfold Frame.keeps in Hlogin.
  destruct (sign_and_store _ _ _ _ _ _ _ _ d) as [r d'] eqn:E.
  cbn [fst snd] in *. subst r. destruct Hlogin as (Hid' & Hrt').
  destruct (sign_and_store_entry _ _ _ _ _ _ _ _ _ _ _ E Hvol Hunits Hsize Hnd)
    as (sig & Hentry).
  rewrite (get_user key (o_space options) d' rt id _ _ _ _ _
             ltac:(congruence) ltac:(congruence) Hdk Hs Hentry).
  now rewrite Edec.
Qed.

End WithPlatform.

Import Toy.

Lemma put_then_get_local_witness :
  fst (get (js "k") (Some (js "all"))
           (snd (put (js "k") (JString (js "hello")) (in_space "all") 1000 twelve tiny_db)))
  = Ok (JString (js "hello")).
Proof.
  apply (put_then_get_local (js "k") (JString (js "hello")) (in_space "all") 1000 twelve
           tiny_db (MkRuntime (js "a1") (js "d0d1")) (MkIdentity (js "a1") [] [] None)
           (js "all")).
  - reflexivity.
  - discriminate.
  - reflexivity.
  - reflexivity.
  - now left.
  - reflexivity.
  - vm_compute. reflexivity.
  - vm_compute. reflexivity.
  - vm_compute. lia.
  - refine (bool_decide_unpack (NoDup _) _). vm_compute. exact I.
Defined.

Lemma put_frozen_keeps_first_witness :
  fst (put (js "genesis") (JString (js "block1")) (in_space "frozen") 1001 twelve
           alice_genesis) = Throw (Immutable (js "genesis")).
Proof.
  refine (proj1 (put_frozen_keeps_first (js "genesis") (JString (js "block1"))
                   (in_space "frozen") 1001 twelve alice_genesis
                   (MkRuntime alice_key pk_data) (MkIdentity alice_key [] [] None)
                   (envelope_object genesis_envelope) _ _ _ _ _ _ _)).
  - reflexivity.
  - discriminate.
  - reflexivity.
  - reflexivity.
  - vm_compute. reflexivity.
  - reflexivity.
  - vm_compute. lia.
Defined.

Lemma put_then_get_user_witness :
  fst (get (js "d") (Some (js "user"))
           (snd (put (js "d") (JString (js "cake")) (in_space "user") 1000 twelve tiny_db)))
  = JSON_parse (hex_codec (JString (js "cake"))).
Proof.
  apply (put_then_get_user (js "d") (JString (js "cake")) (in_space "user") 1000 twelve
           tiny_db (MkRuntime (js "a1") (js "d0d1")) (MkIdentity (js "a1") [] [] None)
           (hex_codec (JString (js "cake"))) (hex_pairs (js "d0d1"))
           (key_stream (hex_pairs (js "d0d1")) twelve
                       (TextEncoder_encode (hex_codec (JString (js "cake")))))).
  - reflexivity.
  - discriminate.
  - reflexivity.
  - reflexivity.
  - reflexivity.
  - reflexivity.
  - discriminate.
  - reflexivity.
  - reflexivity.
  - repeat constructor; lia.
  - reflexivity.
  - vm_compute. repeat constructor; discriminate.
  - vm_compute. reflexivity.
  - vm_compute. reflexivity.
  - vm_compute. reflexivity.
  - vm_compute. reflexivity.
  - vm_compute. lia.
  - refine (bool_decide_unpack (NoDup _) _). vm_compute. exact I.
Defined.

End RoundTripFacts.


(* ===================================================================== *)
(** ** Subscriptions and the delivery of events *)
(* ===================================================================== *)

Module EventFacts.
Import Js Utils Value Monad EventManager ObjFacts.

(** *** Paths and their parts *)

Lemma split_slash_plain (part : jsstring) :
  Forall (fun c => c <> 47) part ->
  forall acc rest,
    split_slash (part ++ 47 :: rest) acc = (acc ++ part) :: split_slash rest [].
Proof.
  induction 1 as [| c part Hc _ IH]; intros acc rest; cbn [app split_slash].
  - now rewrite app_nil_r.
  - destruct (Z.eqb_spec c 47); [contradiction |].
    rewrite IH, <- app_assoc. reflexivity.
Qed.

(** On a path [user/<owner>/<key>], where the owner's key is not empty
    and has no slash, the check for the space [user] passes for the
    owner's key and for no other. *)
Lemma checkAccess_owner (owner key : jsstring) (subscriber : option jsstring) :
  owner <> [] -> Forall (fun c => c <> 47) owner ->
  _checkAccess (js "user/" ++ owner ++ js "/" ++ key) (js "user") subscriber = true
  <-> subscriber = Some owner.
Proof.
  intros Hne Hplain. unfold _checkAccess.
  change (str_eqb (js "user") (js "all") || str_eqb (js "user") (js "frozen")) with false.
  change (str_eqb (js "user") (js "user")) with true. cbv iota.
  assert (E : exists rest,
            split_slash (js "user/" ++ owner ++ js "/" ++ key) [] = js "user" :: owner :: rest).
  { change (js "user/" ++ owner ++ js "/" ++ key)
      with (js "user" ++ 47 :: (owner ++ 47 :: key)).
    rewrite (split_slash_plain (js "user")) by (repeat constructor; discriminate).
    rewrite (split_slash_plain owner Hplain). cbn [app]. eauto. }
  destruct E as (rest & ->).
  destruct owner as [| c owner]; [congruence |].
  change (str_eqb (js "user") (js "user")) with true. cbv iota.
  destruct subscriber as [[| z s] |].
  - split; [discriminate | intros [=]].
  - rewrite str_eqb_eq. split; [now intros -> | now intros [= -> ->]].
  - split; [discriminate | discriminate].
Qed.

(** An event of the space [user] for the path [user/<owner>/<key>] is
    delivered to the subscriptions made with the owner's public key whose
    pattern matches the path, and to no other subscription. *)
Theorem user_events_reach_owner_only (owner key : jsstring) (m : manager) (id : Z) :
  owner <> [] -> Forall (fun c => c <> 47) owner ->
  let path := js "user/" ++ owner ++ js "/" ++ key in
  In id (emit path (Some (js "user")) m)
  <-> exists sub,
        In (id, sub) (subscriptions m) /\
        publicKey sub = Some owner /\
        _matchPattern path (pattern sub) = true.
Proof.
  intros Hne Hplain path. unfold emit. rewrite in_map_iff. split.
  - intros ([id' sub] & <- & H). apply List.filter_In in H as (Hin & H).
    apply andb_prop in H as (Hm & Ha). cbn [fst snd] in *.
    exists sub. split; [exact Hin |]. split; [| exact Hm].
    now apply (checkAccess_owner owner key).
  - intros (sub & Hin & Hk & Hm). exists (id, sub). split; [reflexivity |].
    apply List.filter_In. split; [exact Hin |]. cbn [fst snd].
    rewrite Hm. cbn [andb]. now apply (checkAccess_owner owner key).
Qed.

(** *** [unsubscribe] *)

Lemma subs_get_In (subs : list (Z * Subscription)) (id : Z) :
  (exists s, subs_get subs id = Some s) <-> In id (map fst subs).
Proof.
  induction subs as [| [k s] subs IH]; cbn [subs_get map fst In].
  - split; [intros (s & H); discriminate | intros []].
  - destruct (Z.eqb_spec k id) as [-> | Hne].
    + split; [now left | eauto].
    + rewrite IH. split; [now right | intros [H | H]; [contradiction | exact H]].
Qed.

(** After [unsubscribe(id)] no event is delivered to [id], and every
    event is delivered to the other subscriptions as before, in the same
    order.  [unsubscribe] returns [true] exactly when [id] was
    subscribed. *)
Theorem unsubscribe_stops_delivery (id : Z) (m : manager) (path : jsstring)
                                   (space : option jsstring) :
  let m' := snd (unsubscribe id m) in
  emit path space m' = List.filter (fun i => negb (i =? id)) (emit path space m) /\
  ~ In id (emit path space m') /\
  (fst (unsubscribe id m) = Ok true <-> In id (map fst (subscriptions m))).
Proof.
  cbv zeta.
  assert (E : emit path space (snd (unsubscribe id m))
              = List.filter (fun i => negb (i =? id)) (emit path space m)).
  { unfold emit, unsubscribe, subs_delete. cbn [snd subscriptions].
    induction (subscriptions m) as [| [k s] subs IH]; [reflexivity |].
    cbn [List.filter fst snd].
    destruct (Z.eqb_spec k id) as [-> | Hne]; cbn [negb].
    - destruct (_ && _); cbn [map List.filter fst]; [| exact IH].
      rewrite Z.eqb_refl. exact IH.
    - cbn [List.filter fst snd]. destruct (_ && _); cbn [map List.filter fst]; [| exact IH].
      destruct (Z.eqb_spec k id); [contradiction |]. cbn [negb]. now rewrite IH. }
  split; [exact E |]. split.
  - rewrite E. intros H. apply List.filter_In in H as (_ & H).
    now rewrite Z.eqb_refl in H.
  - unfold unsubscribe. cbn [fst]. rewrite <- subs_get_In.
    destruct (subs_get (subscriptions m) id); split; eauto; try discriminate.
    intros (s & H). discriminate.
Qed.

(** *** [subscribe] *)

Lemma subs_delete_In (subs : list (Z * Subscription)) (id : Z) (e : Z * Subscription) :
  In e (subs_delete subs id) -> In e subs.
Proof. unfold subs_delete. intros H. now apply List.filter_In in H. Qed.

Lemma subs_set_fresh (subs : list (Z * Subscription)) (id : Z) (s : Subscription) :
  (forall e, In e subs -> fst e < id) -> subs_set subs id s = subs ++ [(id, s)].
Proof.
  induction subs as [| [k s'] subs IH]; intros H; cbn [subs_set app]; [reflexivity |].
  pose proof (H (k, s') ltac:(now left)) as Hk. cbn [fst] in Hk.
  destruct (Z.eqb_spec k id); [lia |].
  rewrite IH; [reflexivity |]. intros e He. apply H. now right.
Qed.

(** The ids in use never exceed the counter. *)
Lemma reachable_bound (m : manager) :
  reachable m -> forall e, In e (subscriptions m) -> fst e <= subscriptionIdCounter m.
Proof.
  induction 1 as [| m pat pk _ IH | m id _ IH | m _ IH]; cbn [snd subscriptions].
  - intros e [].
  - unfold subscribe. cbn [snd subscriptions subscriptionIdCounter].
    rewrite subs_set_fresh by (intros e He; specialize (IH e He); lia).
    intros e He. apply in_app_or in He as [He | [<- | []]]; [| cbn [fst]; lia].
    specialize (IH e He). lia.
  - unfold unsubscribe. cbn [snd subscriptions subscriptionIdCounter].
    intros e He. apply IH. now apply (subs_delete_In _ id).
  - intros e [].
Qed.

(** [subscribe] never hands out an id twice, not even after
    [unsubscribe] or [clear]: the id it returns is above every id in use,
    the subscription is added after the others, and from then on an event
    is delivered as before, and after the others to the new subscription
    when its pattern matches and its key has access. *)
Theorem subscribe_fresh_id (m : manager) (pat : Pattern) (key : option jsstring)
                           (path : jsstring) (space : option jsstring) :
  reachable m ->
  let id := subscriptionIdCounter m + 1 in
  let sub := MkSubscription pat (publicKey_or_null key) in
  let m' := snd (subscribe pat key m) in
  fst (subscribe pat key m) = Ok id /\
  (forall e, In e (subscriptions m) -> fst e < id) /\
  subscriptions m' = subscriptions m ++ [(id, sub)] /\
  emit path space m'
  = emit path space m ++
    (if _matchPattern path pat &&
        _checkAccess path (match space with None => js "all" | Some s => s end)
                     (publicKey_or_null key)
     then [id] else []).
Proof.
  intros Hr. cbv zeta.
  assert (Hfresh : forall e, In e (subscriptions m) -> fst e < subscriptionIdCounter m + 1).
  { intros e He. pose proof (reachable_bound m Hr e He). lia. }
  assert (Es : subscriptions (snd (subscribe pat key m))
               = subscriptions m ++ [(subscriptionIdCounter m + 1,
                                      MkSubscription pat (publicKey_or_null key))]).
  { unfold subscribe. cbn [snd subscriptions]. now apply subs_set_fresh. }
  split; [reflexivity |]. split; [exact Hfresh |]. split; [exact Es |].
  unfold emit. rewrite Es, List.filter_app, map_app. f_equal.
  cbn [List.filter fst snd pattern publicKey]. now destruct (_ && _).
Qed.

(** *** Patterns *)

Lemma star_rest (path : jsstring) :
  wildcard_test [42] path = forallb (fun c => negb (is_line_terminator c)) path.
Proof.
  cbn [wildcard_test]. change (42 =? 42) with true. cbv iota.
  induction path as [| d path IH]; [reflexivity |].
  cbn [forallb orb]. now rewrite IH.
Qed.

(** A pattern without ['*'] matches its own path and no other.  The
    pattern [prefix*], for a prefix without ['*'], matches the paths that
    begin with the prefix and go on without a line terminator, and no
    other: a path with a line feed after the prefix is not matched. *)
Theorem matchPattern_prefix (prefix path : jsstring) :
  has_star prefix = false ->
  (_matchPattern path (Str prefix) = true <-> path = prefix) /\
  (_matchPattern path (Str (prefix ++ js "*")) = true
   <-> exists rest,
         path = prefix ++ rest /\
         forallb (fun c => negb (is_line_terminator c)) rest = true).
Proof.
  intros Hstar. split.
  - unfold _matchPattern. rewrite Hstar. cbn [negb]. apply str_eqb_eq.
  - unfold _matchPattern.
    replace (has_star (prefix ++ js "*")) with true.
    2:{ symmetry. unfold has_star. rewrite existsb_app. apply orb_true_r. }
    cbn [negb]. change (js "*") with [42].
    revert path. induction prefix as [| c prefix IH]; intros path.
    + cbn [app]. rewrite star_rest. split; [intros H; now exists path | now intros (r & -> & H)].
    + unfold has_star in Hstar. cbn [existsb] in Hstar.
      apply orb_false_elim in Hstar as (Hc & Hrest).
      cbn [app wildcard_test].
      replace (c =? 42) with false by (now rewrite Z.eqb_sym).
      destruct path as [| d path].
      * split; [discriminate | intros (r & H & _); discriminate].
      * rewrite andb_true_iff, (IH Hrest path), Z.eqb_eq. split.
        -- intros (-> & r & -> & Hr). now exists r.
        -- intros (r & [= -> ->] & Hr). split; [reflexivity | now exists r].
Qed.

Lemma user_events_reach_owner_only_witness :
  In 1 (emit (js "user/a1/d") (Some (js "user"))
             (snd (subscribe (Str (js "user/*")) (Some (js "a1")) new_manager)))
  <-> exists sub,
        In (1, sub) (subscriptions
                       (snd (subscribe (Str (js "user/*")) (Some (js "a1")) new_manager))) /\
        publicKey sub = Some (js "a1") /\
        _matchPattern (js "user/a1/d") (pattern sub) = true.
Proof.
  apply (user_events_reach_owner_only (js "a1") (js "d")
           (snd (subscribe (Str (js "user/*")) (Some (js "a1")) new_manager)) 1).
  - discriminate.
  - repeat constructor; discriminate.
Defined.

Lemma subscribe_fresh_id_witness :
  fst (subscribe (Str (js "all/*")) None
                 (snd (unsubscribe 1 (snd (subscribe (Str (js "x")) None new_manager)))))
  = Ok 2.
Proof.
  refine (proj1 (subscribe_fresh_id
                   (snd (unsubscribe 1 (snd (subscribe (Str (js "x")) None new_manager))))
                   (Str (js "all/*")) None (js "all/k") None _)).
  apply reach_unsubscribe, reach_subscribe, reach_new.
Defined.

Lemma matchPattern_prefix_witness :
  _matchPattern (js "all/k") (Str (js "all/" ++ js "*")) = true
  <-> exists rest,
        js "all/k" = js "all/" ++ rest /\
        forallb (fun c => negb (is_line_terminator c)) rest = true.
Proof.
  apply (proj2 (matchPattern_prefix (js "all/") (js "all/k") eq_refl)).
Defined.

End EventFacts.


(* ===================================================================== *)
(** ** MessagePack: the values without members *)
(* ===================================================================== *)

Module MsgpackMoreFacts.
Import Js Value Msgpack More SuffixFacts MsgpackFacts.

(** *** What [decode] makes of each tag *)

Lemma decode_cc (b : Z) (rest : bytes) : decode (204 :: b :: rest) = Ok (JNum b).
Proof. reflexivity. Qed.

Lemma decode_cd (b0 b1 : Z) (rest : bytes) :
  decode (205 :: b0 :: b1 :: rest) = Ok (JNum (bor (shl b0 8) b1)).
Proof. reflexivity. Qed.

Lemma decode_ce (b0 b1 b2 b3 : Z) (rest : bytes) :
  decode (206 :: b0 :: b1 :: b2 :: b3 :: rest)
  = Ok (JNum (toUint32 (bor (bor (bor (shl b0 24) (shl b1 16)) (shl b2 8)) b3))).
Proof. reflexivity. Qed.

Lemma decode_d2 (b0 b1 b2 b3 : Z) (rest : bytes) :
  decode (210 :: b0 :: b1 :: b2 :: b3 :: rest)
  = Ok (JNum (bor (bor (bor (shl b0 24) (shl b1 16)) (shl b2 8)) b3)).
Proof. reflexivity. Qed.

Lemma decode_d9 (l : Z) (rest : bytes) :
  decode (217 :: l :: rest) = Ok (JString (TextDecoder_decode (take (Z.to_nat l) rest))).
Proof. reflexivity. Qed.

Lemma decode_da (b0 b1 : Z) (rest : bytes) :
  decode (218 :: b0 :: b1 :: rest)
  = Ok (JString (TextDecoder_decode (take (Z.to_nat (bor (shl b0 8) b1)) rest))).
Proof. reflexivity. Qed.

Lemma decode_db (b0 b1 b2 b3 : Z) (rest : bytes) :
  decode (219 :: b0 :: b1 :: b2 :: b3 :: rest)
  = Ok (JString (TextDecoder_decode
          (take (Z.to_nat (toUint32 (bor (bor (bor (shl b0 24) (shl b1 16)) (shl b2 8)) b3)))
                rest))).
Proof. reflexivity. Qed.

Lemma decode_c4 (l : Z) (rest : bytes) :
  decode (196 :: l :: rest) = Ok (JBytes (take (Z.to_nat l) rest)).
Proof. reflexivity. Qed.

Lemma decode_c5 (b0 b1 : Z) (rest : bytes) :
  decode (197 :: b0 :: b1 :: rest)
  = Ok (JBytes (take (Z.to_nat (bor (shl b0 8) b1)) rest)).
Proof. reflexivity. Qed.

Lemma decode_c6 (b0 b1 b2 b3 : Z) (rest : bytes) :
  decode (198 :: b0 :: b1 :: b2 :: b3 :: rest)
  = Ok (JBytes
          (take (Z.to_nat (toUint32 (bor (bor (bor (shl b0 24) (shl b1 16)) (shl b2 8)) b3)))
                rest)).
Proof. reflexivity. Qed.

(** The tests on a first byte, checked on every byte of a range. *)
Lemma forall_zrange (p : Z -> bool) (n : nat) (start : Z) :
  forallb p (NodeFacts.zrange n start) = true ->
  forall z, start <= z < start + Z.of_nat n -> p z = true.
Proof.
  intros H z Hz. rewrite forallb_forall in H. apply H. now apply NodeFacts.in_zrange.
Qed.

Definition is_fixint (b : Z) : bool := b <? 128.

Definition is_negative_fixint (b : Z) : bool :=
  negb (b <? 128) && negb (band b 240 =? 128) && negb (band b 240 =? 144) &&
  negb (band b 224 =? 160) && (224 <=? b).

Definition is_fixstr (b : Z) : bool :=
  negb (b <? 128) && negb (band b 240 =? 128) && negb (band b 240 =? 144) &&
  (band b 224 =? 160) && (band b 31 =? b - 160) && (bor 160 (b - 160) =? b).

Lemma fuel_S (buffer : bytes) : exists fuel, (2 * length buffer + 2)%nat = S fuel.
Proof. exists (2 * length buffer + 1)%nat. lia. Qed.

(** One step of [decodeValue] on a first byte that is an integer, a
    negative integer or the head of a short string. *)
Lemma decode_fixint (b : Z) (rest : bytes) : 0 <= b < 128 -> decode (b :: rest) = Ok (JNum b).
Proof.
  intros Hb. unfold decode. destruct (fuel_S (b :: rest)) as (fuel & ->).
  cbn [decodeValue lookup list_lookup].
  destruct (Z.ltb_spec b 128); [reflexivity | lia].
Qed.

Lemma decode_negative_fixint (b : Z) (rest : bytes) :
  is_negative_fixint b = true -> decode (b :: rest) = Ok (JNum (b - 256)).
Proof.
  intros H. unfold is_negative_fixint in H.
  repeat (apply andb_prop in H as [H ?]).
  unfold decode. destruct (fuel_S (b :: rest)) as (fuel & ->).
  cbn [decodeValue lookup list_lookup].
  repeat match goal with
         | E : negb ?c = true |- _ => apply negb_true_iff in E; rewrite E
         | E : ?c = true |- _ => rewrite E
         end.
  reflexivity.
Qed.

Lemma decode_fixstr (b : Z) (rest : bytes) :
  is_fixstr b = true ->
  decode (b :: rest) = Ok (JString (TextDecoder_decode (take (Z.to_nat (b - 160)) rest))).
Proof.
  intros H. unfold is_fixstr in H.
  repeat (apply andb_prop in H as [H ?]).
  unfold decode. destruct (fuel_S (b :: rest)) as (fuel & ->).
  cbn [decodeValue lookup list_lookup].
  repeat match goal with
         | E : negb ?c = true |- _ => apply negb_true_iff in E; rewrite E
         end.
  match goal with E : (band b 224 =? 160) = true |- _ => rewrite E end.
  match goal with E : (band b 31 =? b - 160) = true |- _ => apply Z.eqb_eq in E; rewrite E end.
  reflexivity.
Qed.

Lemma negative_fixint_range (b : Z) : 224 <= b < 256 -> is_negative_fixint b = true.
Proof.
  intros Hb. apply (forall_zrange is_negative_fixint 32 224); [vm_compute; reflexivity | lia].
Qed.

Lemma fixstr_range (b : Z) : 160 <= b < 192 -> is_fixstr b = true.
Proof.
  intros Hb. apply (forall_zrange is_fixstr 32 160); [vm_compute; reflexivity | lia].
Qed.

(** *** Integers *)

Lemma toInt32_range (z : Z) : - 2 ^ 31 <= toInt32 z < 2 ^ 31.
Proof. unfold toInt32. pow2. pose proof (Z.mod_pos_bound (z + 2147483648) 4294967296). lia. Qed.

Lemma toInt32_twice (z : Z) : toInt32 (toInt32 z) = toInt32 z.
Proof. apply toInt32_id, toInt32_range. Qed.

Lemma band_low (z : Z) : band z 255 = toInt32 z mod 256.
Proof.
  transitivity (band (toInt32 z) 255).
  - unfold band. now rewrite toInt32_twice.
  - apply band_255, toInt32_range.
Qed.

Lemma sar_div (z k : Z) : 0 <= k < 32 -> sar z k = toInt32 z / 2 ^ k.
Proof.
  intros Hk. unfold sar. rewrite (Z.mod_small k 32) by lia. apply Z.shiftr_div_pow2. lia.
Qed.

Lemma sar_range (z k : Z) : 0 <= k < 32 -> - 2 ^ 31 <= sar z k < 2 ^ 31.
Proof.
  intros Hk. rewrite sar_div by exact Hk. pose proof (toInt32_range z) as Hz.
  assert (Hp : 0 < 2 ^ k) by (apply Z.pow_pos_nonneg; lia).
  split.
  - apply Z.div_le_lower_bound; [exact Hp |]. nia.
  - apply Z.div_lt_upper_bound; [exact Hp |]. nia.
Qed.

(** The bytes that [be32_parts] leaves in the buffer. *)
Lemma be32_bytes (z : Z) :
  map toUint8 (be32_parts z)
  = [(toInt32 z / 2 ^ 24) mod 256; (toInt32 z / 2 ^ 16) mod 256;
     (toInt32 z / 2 ^ 8) mod 256; toInt32 z mod 256].
Proof.
  unfold be32_parts. cbn [map]. unfold toUint8.
  rewrite !band_low, !Z.mod_mod by lia.
  rewrite !(toInt32_id (sar z _)) by (apply sar_range; lia).
  rewrite !sar_div by lia. reflexivity.
Qed.

(** Read back, the four bytes are the number as a signed 32-bit
    integer. *)
Lemma be32_read (t : Z) :
  - 2 ^ 31 <= t < 2 ^ 31 ->
  bor (bor (bor (shl ((t / 2 ^ 24) mod 256) 24) (shl ((t / 2 ^ 16) mod 256) 16))
           (shl ((t / 2 ^ 8) mod 256) 8))
      (t mod 256) = t.
Proof.
  intros Ht.
  rewrite num_signed by (apply Z.mod_pos_bound; lia). cbv zeta.
  replace (t / 2 ^ 16) with (t / 2 ^ 8 / 2 ^ 8) by (rewrite Z.div_div by lia; reflexivity).
  replace (t / 2 ^ 24) with (t / 2 ^ 8 / 2 ^ 8 / 2 ^ 8)
    by (rewrite !Z.div_div by lia; reflexivity).
  pow2. change (2 ^ 16) with 65536. change (2 ^ 24) with 16777216.
  match goal with |- context [?a <? ?b] => destruct (Z.ltb_spec a b) end;
    Z.div_mod_to_equations; lia.
Qed.

Lemma decode_encode_int (z : Z) :
  - 2 ^ 31 <= z < 2 ^ 32 -> ~ (-32768 <= z < -128) ->
  decode (encode (JNum z)) = Ok (JNum z).
Proof.
  intros Hz Hgap. destruct (Z.le_gt_cases (-128) z) as [Hhi | Hlo].
  2:{ (* below the gap: the tag 0xd2 *)
    assert (Hl : z < -32768) by lia.
    unfold encode. cbn [encodeValue]. unfold encodeNumber.
    destruct (Z.leb_spec 0 z); [lia |]. destruct (Z.leb_spec (-32) z); [lia |].
    destruct (Z.leb_spec (-128) z); [lia |]. destruct (Z.leb_spec (-32768) z); [lia |].
    cbn [map]. change (toUint8 210) with 210.
    rewrite be32_bytes, decode_d2, be32_read by apply toInt32_range.
    now rewrite toInt32_id by (pow2; lia). }
  destruct (Z.lt_ge_cases z (-32)) as [H8 | H8]; [now apply decode_encode_int8 |].
  unfold encode. cbn [encodeValue]. unfold encodeNumber.
  destruct (Z.leb_spec 0 z) as [Hpos | Hneg].
  - destruct (Z.ltb_spec z 128).
    { cbn [map]. unfold toUint8. rewrite Z.mod_small by lia. apply decode_fixint. lia. }
    destruct (Z.ltb_spec z 256).
    { cbn [map]. unfold toUint8. rewrite (Z.mod_small z 256) by lia.
      change (204 mod 256) with 204. apply decode_cc. }
    destruct (Z.ltb_spec z 65536).
    { cbn [map]. change (toUint8 205) with 205. unfold toUint8.
      rewrite band_low, sar_8, toInt32_id by (pow2; lia).
      rewrite Z.mod_mod by lia.
      rewrite (Z.mod_small (z / 256) 256)
        by (split; [apply Z.div_pos; lia | apply Z.div_lt_upper_bound; lia]).
      rewrite decode_cd. do 2 f_equal.
      assert (Hq : 0 <= z / 256 < 256)
        by (split; [apply Z.div_pos; lia | apply Z.div_lt_upper_bound; lia]).
      assert (Hr : 0 <= z mod 256 < 256) by (apply Z.mod_pos_bound; lia).
      rewrite shl_small by lia. rewrite bor_shifted by (pow2; lia).
      pow2. Z.div_mod_to_equations. lia. }
    destruct (Z.ltb_spec z 4294967296); [| pow2; lia].
    cbn [map]. change (toUint8 206) with 206.
    rewrite be32_bytes, decode_ce, be32_read by apply toInt32_range.
    do 2 f_equal. unfold toUint32, toInt32. pow2.
    rewrite Zminus_mod_idemp_l.
    replace (z + 2147483648 - 2147483648) with z by lia. apply Z.mod_small. lia.
  - destruct (Z.leb_spec (-32) z); [| lia].
    cbn [map]. unfold toUint8. rewrite band_low, toInt32_id by (pow2; lia).
    rewrite Z.mod_mod by lia.
    assert (Hm : z mod 256 = z + 256) by (Z.div_mod_to_equations; lia).
    rewrite Hm, decode_negative_fixint by (apply negative_fixint_range; lia).
    do 2 f_equal. lia.
Qed.

(** *** Lengths, strings and byte arrays *)

Lemma map_toUint8_bytes (bs : bytes) :
  Forall (fun b => 0 <= b < 256) bs -> map toUint8 bs = bs.
Proof.
  induction 1 as [| b bs Hb _ IH]; [reflexivity |].
  cbn [map]. unfold toUint8 at 1. now rewrite Z.mod_small, IH by lia.
Qed.

Lemma take_length_Z (bs : bytes) : take (Z.to_nat (Z.of_nat (length bs))) bs = bs.
Proof. rewrite Nat2Z.id. apply firstn_all. Qed.

(** A length below [2^16] written as two bytes and read back. *)
Lemma len16_read (n : Z) :
  0 <= n < 65536 ->
  bor (shl (toUint8 (sar n 8)) 8) (toUint8 (band n 255)) = n.
Proof.
  intros Hn. unfold toUint8.
  rewrite band_low, sar_8, toInt32_id by (pow2; lia).
  rewrite Z.mod_mod by lia.
  assert (Hq : 0 <= n / 256 < 256)
    by (split; [apply Z.div_pos; lia | apply Z.div_lt_upper_bound; lia]).
  assert (Hr : 0 <= n mod 256 < 256) by (apply Z.mod_pos_bound; lia).
  rewrite (Z.mod_small (n / 256) 256) by exact Hq.
  rewrite shl_small by lia. rewrite bor_shifted by (pow2; lia).
  pow2. Z.div_mod_to_equations. lia.
Qed.

(** A length below [2^32] written as four bytes and read back. *)
Lemma len32_read (n : Z) :
  0 <= n < 2 ^ 32 ->
  exists b0 b1 b2 b3,
    map toUint8 (be32_parts n) = [b0; b1; b2; b3] /\
    toUint32 (bor (bor (bor (shl b0 24) (shl b1 16)) (shl b2 8)) b3) = n.
Proof.
  intros Hn. eexists _, _, _, _. split; [apply be32_bytes |].
  rewrite be32_read by apply toInt32_range.
  unfold toUint32, toInt32. pow2. rewrite Zminus_mod_idemp_l.
  replace (n + 2147483648 - 2147483648) with n by lia. apply Z.mod_small. lia.
Qed.

Lemma decode_encode_string (s : jsstring) :
  TextDecoder_decode (TextEncoder_encode s) = s ->
  Forall (fun b => 0 <= b < 256) (TextEncoder_encode s) ->
  Z.of_nat (length (TextEncoder_encode s)) < 2 ^ 32 ->
  decode (encode (JString s)) = Ok (JString s).
Proof.
  intros Hutf Hbytes Hlen. unfold encode. cbn [encodeValue]. unfold encodeString.
  set (utf8 := TextEncoder_encode s) in *. cbv zeta.
  set (n := Z.of_nat (length utf8)) in *.
  assert (Hn : 0 <= n) by apply Nat2Z.is_nonneg.
  rewrite map_app, (map_toUint8_bytes utf8 Hbytes).
  destruct (Z.ltb_spec n 32).
  { pose proof (fixstr_range (160 + n) ltac:(lia)) as Hfix.
    assert (Eb : bor 160 n = 160 + n).
    { unfold is_fixstr in Hfix. apply andb_prop in Hfix as [_ Hfix].
      apply Z.eqb_eq in Hfix. now replace (160 + n - 160) with n in Hfix by lia. }
    cbn [map app]. rewrite Eb. unfold toUint8. rewrite Z.mod_small by lia.
    rewrite (decode_fixstr _ _ Hfix). replace (160 + n - 160) with n by lia.
    unfold n. now rewrite take_length_Z, Hutf. }
  destruct (Z.ltb_spec n 256).
  { cbn [map app]. change (toUint8 217) with 217. unfold toUint8.
    rewrite Z.mod_small by lia. rewrite decode_d9.
    unfold n. now rewrite take_length_Z, Hutf. }
  destruct (Z.ltb_spec n 65536).
  { cbn [map app]. change (toUint8 218) with 218.
    rewrite decode_da, len16_read by lia.
    unfold n. now rewrite take_length_Z, Hutf. }
  destruct (len32_read n ltac:(lia)) as (b0 & b1 & b2 & b3 & E & R).
  cbn [map]. change (toUint8 219) with 219. rewrite E. cbn [app].
  rewrite decode_db, R. unfold n. now rewrite take_length_Z, Hutf.
Qed.

Lemma decode_encode_bytes (b : bytes) :
  Forall (fun x => 0 <= x < 256) b -> Z.of_nat (length b) < 2 ^ 32 ->
  decode (encode (JBytes b)) = Ok (JBytes b).
Proof.
  intros Hbytes Hlen. unfold encode. cbn [encodeValue]. unfold binaryHeader.
  set (n := Z.of_nat (length b)) in *.
  assert (Hn : 0 <= n) by apply Nat2Z.is_nonneg.
  rewrite map_app, (map_toUint8_bytes b Hbytes).
  destruct (Z.ltb_spec n 256).
  { cbn [map app]. change (toUint8 196) with 196. unfold toUint8.
    rewrite Z.mod_small by lia. rewrite decode_c4.
    unfold n. now rewrite take_length_Z. }
  destruct (Z.ltb_spec n 65536).
  { cbn [map app]. change (toUint8 197) with 197.
    rewrite decode_c5, len16_read by lia.
    unfold n. now rewrite take_length_Z. }
  destruct (len32_read n ltac:(lia)) as (b0 & b1 & b2 & b3 & E & R).
  cbn [map]. change (toUint8 198) with 198. rewrite E. cbn [app].
  rewrite decode_c6, R. unfold n. now rewrite take_length_Z.
Qed.

(** [decode(encode(v))] is [v] for [null], the booleans, every integer
    from [-2^31] to [2^32 - 1] outside the range [-32768 .. -129], every
    string that UTF-8 decoding gives back, and every array of bytes. *)
Theorem decode_encode_scalar (v : JSValue) :
  scalar_round_trips v -> decode (encode v) = Ok v.
Proof.
  destruct v as [| | [|] | z | ieee | s | b | l | o]; cbn [scalar_round_trips];
    try contradiction; try reflexivity.
  - intros [Hz Hgap]. now apply decode_encode_int.
  - intros (H1 & H2 & H3). now apply decode_encode_string.
  - intros [H1 H2]. now apply decode_encode_bytes.
Qed.

Lemma decode_encode_scalar_witness :
  decode (encode (JNum (-40000))) = Ok (JNum (-40000)) /\
  decode (encode (JString (js "railgun"))) = Ok (JString (js "railgun")).
Proof.
  split.
  - apply (decode_encode_scalar (JNum (-40000))). cbn. lia.
  - apply (decode_encode_scalar (JString (js "railgun"))). cbn [scalar_round_trips].
    split; [reflexivity |].
    split; [vm_compute; repeat constructor; discriminate | vm_compute; reflexivity].
Defined.

End MsgpackMoreFacts.


(* ===================================================================== *)
(** ** What is written is read again from the store *)
(* ===================================================================== *)

Module StoredFacts.
Import Js Utils Value Platform Crypto BinaryNode Monad BinaryTrie Resolved More Frame
       ObjFacts CacheFacts TrieFacts NodeFacts.
Local Open Scope monad_scope.

(** *** Text of ASCII characters *)

Definition ascii (c : Z) : Prop := 0 <= c < 128.

Lemma ascii_not_surrogate (c : Z) : ascii c -> is_high c = false /\ is_low c = false.
Proof.
  unfold ascii, is_high, is_low. intros Hc.
  split; apply andb_false_iff; left; apply Z.leb_gt; lia.
Qed.

Lemma code_points_ascii (s : jsstring) : Forall ascii s -> code_points s = s.
Proof.
  induction 1 as [| c s Hc Hs IH]; [reflexivity |].
  destruct (ascii_not_surrogate c Hc) as [Hh Hl].
  cbn [code_points]. rewrite Hh, Hl. cbn [andb orb].
  destruct s as [| d s']; [reflexivity |]. now rewrite IH.
Qed.

Lemma chars_of_plain (s : jsstring) :
  Forall (fun c => 0 <= c < 256) s -> chars_of s = map (fun c => [c]) s.
Proof.
  induction 1 as [| c s Hc Hs IH]; [reflexivity |].
  assert (Hh : is_high c = false)
    by (unfold is_high; apply andb_false_iff; left; apply Z.leb_gt; lia).
  cbn [chars_of]. rewrite Hh. cbn [andb map].
  destruct s as [| d s']; [reflexivity |]. now rewrite IH.
Qed.

Lemma TextEncoder_ascii (s : jsstring) : Forall ascii s -> TextEncoder_encode s = s.
Proof.
  intros H. unfold TextEncoder_encode. rewrite (code_points_ascii s H).
  induction H as [| c s Hc _ IH]; [reflexivity |].
  cbn [flat_map]. unfold utf8_of_code_point at 1. unfold ascii in Hc.
  destruct (Z.ltb_spec c 128); [| lia]. cbn [app]. now rewrite IH.
Qed.

Lemma utf8_decode_ascii (bs : bytes) : Forall ascii bs -> utf8_decode None bs = bs.
Proof.
  induction 1 as [| b bs Hb _ IH]; [reflexivity |].
  cbn [utf8_decode]. unfold utf8_lead. unfold ascii in Hb.
  destruct (Z.leb_spec b 127); [| lia]. cbn [app]. now rewrite IH.
Qed.

Lemma TextDecoder_ascii (bs : bytes) : Forall ascii bs -> TextDecoder_decode bs = bs.
Proof.
  intros H. unfold TextDecoder_decode. rewrite (utf8_decode_ascii bs H). cbv zeta.
  replace (match bs with 65279 :: r => r | _ => bs end) with bs.
  2:{ destruct H as [| b bs' Hb _]; [reflexivity |]. unfold ascii in Hb.
      destruct b as [| p | p]; try reflexivity.
      repeat (destruct p as [p | p |]; try reflexivity). lia. }
  induction H as [| b bs' Hb _ IH]; [reflexivity |].
  cbn [flat_map]. unfold utf16_of_code_point at 1. unfold ascii in Hb.
  destruct (Z.ltb_spec b 65536); [| lia]. cbn [app]. now rewrite IH.
Qed.

(** *** The alphabet of the digests and the keys of the value store *)

Definition in_alphabet (c : Z) : bool := (0 <=? c) && (c <? 128) && negb (c =? 58).

Lemma b64_char_alphabet (v : Z) : 0 <= v < 64 -> in_alphabet (b64_char v) = true.
Proof.
  intros Hv.
  apply (MsgpackMoreFacts.forall_zrange (fun v => in_alphabet (b64_char v)) 64 0);
    [vm_compute; reflexivity | lia].
Qed.

Lemma toBase64_alphabet (bs : bytes) :
  Forall (fun b => 0 <= b < 256) bs ->
  Forall (fun c => in_alphabet c = true) (toBase64 bs).
Proof.
  unfold toBase64.
  induction bs as [| a | a b | a b c r IH] using Base64Facts.list_ind3; intros HF.
  - constructor.
  - inversion_clear HF as [| ? ? Ha _]. cbn [b64_chunks].
    repeat constructor; apply b64_char_alphabet; Z.div_mod_to_equations; lia.
  - inversion_clear HF as [| ? ? Ha HF']. inversion_clear HF' as [| ? ? Hb _].
    cbn [b64_chunks].
    repeat constructor; apply b64_char_alphabet; Z.div_mod_to_equations; lia.
  - inversion_clear HF as [| ? ? Ha HF']. inversion_clear HF' as [| ? ? Hb HF''].
    inversion_clear HF'' as [| ? ? Hc HF]. cbn [b64_chunks].
    repeat (constructor; [apply b64_char_alphabet; Z.div_mod_to_equations; lia |]).
    exact (IH HF).
Qed.

Lemma alphabet_ascii (s : jsstring) :
  Forall (fun c => in_alphabet c = true) s -> Forall ascii s.
Proof.
  intros HF. eapply Forall_impl; [exact HF |]. intros c H. unfold in_alphabet in H.
  apply andb_prop in H as [H _]. apply andb_prop in H as [H1 H2].
  unfold ascii. lia.
Qed.

Lemma digest_alphabet (h : jsstring) :
  is_digest h -> Forall (fun c => in_alphabet c = true) h.
Proof. intros (bs & _ & Hbs & ->). now apply toBase64_alphabet. Qed.

Lemma hash_digest (data : bytes) : is_digest (hash data).
Proof. apply digest_of_sha. Qed.

(** A digest is no key of the value store: it has no colon. *)
Lemma digest_not_value_key (h rest : jsstring) : is_digest h -> h <> valuePrefix ++ rest.
Proof.
  intros Hd E. apply digest_alphabet in Hd. rewrite E in Hd.
  change (valuePrefix ++ rest) with (118 :: 58 :: rest) in Hd.
  inversion_clear Hd as [| ? ? _ Hd']. inversion_clear Hd' as [| ? ? H _].
  vm_compute in H. discriminate.
Qed.

Lemma toBase64_length_32 (bs : bytes) : length bs = 32%nat -> length (toBase64 bs) = 43%nat.
Proof.
  intros H. do 32 (destruct bs as [| ? bs]; [discriminate |]).
  destruct bs; [reflexivity | discriminate].
Qed.

(** The key that [ValueStore.put] returns is a value reference that a
    node keeps through [serialize] and [deserialize]. *)
Lemma valueKey_ok (data : bytes) : value_ok (Some (valuePrefix ++ hash data)).
Proof.
  assert (Ha : Forall ascii (valuePrefix ++ hash data)).
  { apply Forall_app. split; [repeat constructor; unfold ascii; lia |].
    apply alphabet_ascii, digest_alphabet, hash_digest. }
  cbn [value_ok]. rewrite (TextEncoder_ascii _ Ha). split; [now apply TextDecoder_ascii |].
  rewrite length_app. unfold hash.
  rewrite toBase64_length_32 by apply Sha256Facts.sha256_length. cbn. lia.
Qed.

(** *** Nodes of byte characters *)

Lemma obj_set_In {V} (o : Obj V) (k : jsstring) (v : V) (k' : jsstring) (v' : V) :
  In (k', v') (obj_set o k v) -> (k' = k /\ v' = v) \/ In (k', v') o.
Proof.
  induction o as [| [k0 v0] o IH]; cbn [obj_set].
  - intros [[= <- <-] | []]. now left.
  - destruct (str_eqb k0 k) eqn:E.
    + intros [[= <- <-] | H]; [now left | right; now right].
    + intros [H | H]; [right; now left |].
      destruct (IH H) as [H' | H']; [now left | right; now right].
Qed.

Lemma obj_set_NoDup {V} (o : Obj V) (k : jsstring) (v : V) :
  NoDup (map fst o) -> NoDup (map fst (obj_set o k v)).
Proof.
  induction o as [| [k0 v0] o IH]; cbn [obj_set map fst]; intros H.
  - apply NoDup_singleton.
  - inversion_clear H as [| ? ? Hk0 Ho].
    destruct (str_eqb k0 k) eqn:E; cbn [map fst].
    + apply str_eqb_eq in E. subst k0. now constructor.
    + constructor; [| now apply IH].
      rewrite list_elem_of_In, obj_set_keys. intros [-> | Hin].
      * now rewrite str_eqb_refl in E.
      * apply Hk0. now apply list_elem_of_In.
Qed.

Lemma obj_set_length {V} (o : Obj V) (k : jsstring) (v : V) :
  (length (obj_set o k v) <= S (length o))%nat.
Proof.
  induction o as [| [k0 v0] o IH]; cbn [obj_set length]; [lia |].
  destruct (str_eqb k0 k); cbn [length]; lia.
Qed.

(** Distinct keys of one byte each are at most 256. *)
Lemma byte_keys_count (o : Obj jsstring) :
  NoDup (map fst o) ->
  (forall k h, In (k, h) o -> exists c, k = [c] /\ 0 <= c < 256) ->
  (length o <= 256)%nat.
Proof.
  intros Hnd Hb.
  rewrite <- (length_map fst o).
  change 256%nat with (length (map (fun c => [c]) (zrange 256 0))).
  apply submseteq_length, NoDup_submseteq; [exact Hnd |].
  intros k Hk. apply list_elem_of_In, in_map_iff in Hk as ([k' h] & <- & Hin).
  destruct (Hb k' h Hin) as (c & -> & Hc). cbn [fst].
  apply list_elem_of_In. apply (in_map (fun c0 : Z => [c0])). apply in_zrange. lia.
Qed.

Lemma sound_empty : sound_node empty.
Proof.
  split; [split |]; cbn.
  - constructor.
  - intros k h [].
  - intros k h [].
  - lia.
  - exact I.
  - intros k h [].
Qed.

Lemma sound_same (n m : node) :
  value m = value n -> children m = children n -> sound_node n -> sound_node m.
Proof.
  intros Hv Hc [[H1 H2 H3 H4 H5] Hb].
  split; [split |]; unfold byte_keys; rewrite ?Hv, ?Hc; assumption.
Qed.

Lemma sound_leaf (n : node) (v : option jsstring) (hv : bool) :
  sound_node n -> value_ok v -> sound_node (Node v (children n) hv).
Proof.
  intros [[H1 H2 H3 H4 H5] Hb] Hv. split; [split |]; cbn; assumption.
Qed.

Lemma sound_set (n : node) (c : Z) (h : jsstring) (hv : bool) :
  sound_node n -> 0 <= c < 256 -> is_digest h ->
  sound_node (Node (value n) (obj_set (children n) [c] h) hv).
Proof.
  intros [[H1 H2 H3 H4 H5] Hb] Hc Hd.
  assert (Hb' : forall k h', In (k, h') (obj_set (children n) [c] h) ->
                             exists c', k = [c'] /\ 0 <= c' < 256).
  { intros k h' Hin. apply obj_set_In in Hin as [[-> _] | Hin]; [eauto | eauto]. }
  split; [split |]; cbn.
  - now apply obj_set_NoDup.
  - intros k h' Hin. destruct (Hb' k h' Hin) as (c' & -> & Hc'). exists c'. split; [easy | lia].
  - intros k h' Hin. apply obj_set_In in Hin as [[_ ->] | Hin]; [exact Hd | eauto].
  - pose proof (byte_keys_count _ (obj_set_NoDup _ [c] h H1) Hb'). lia.
  - exact H5.
  - exact Hb'.
Qed.

(** The node that [deserialize] makes of the serialized form of such a
    node is of the same kind, with the same value and the same
    children. *)
Lemma rebuilt_In (n : node) (keys : list jsstring) :
  forall (acc : Obj jsstring) (k h : jsstring),
    In (k, h)
       (fold_left (fun o k0 => obj_set o [charCode_byte k0]
                                       (toBase64 (digest_bytes (children n) k0))) keys acc) ->
    In (k, h) acc \/
    exists k0, In k0 keys /\ k = [charCode_byte k0] /\
               h = toBase64 (digest_bytes (children n) k0).
Proof.
  induction keys as [| k0 keys IH]; intros acc k h H; cbn [fold_left] in H; [now left |].
  apply IH in H as [H | (k1 & H1 & H2)].
  - apply obj_set_In in H as [[-> ->] | H]; [right; exists k0; now repeat split; left | now left].
  - right. exists k1. split; [now right | exact H2].
Qed.

Lemma rebuilt_NoDup (n : node) (keys : list jsstring) :
  forall acc : Obj jsstring,
    NoDup (map fst acc) ->
    NoDup (map fst
      (fold_left (fun o k0 => obj_set o [charCode_byte k0]
                                      (toBase64 (digest_bytes (children n) k0))) keys acc)).
Proof.
  induction keys as [| k0 keys IH]; intros acc H; cbn [fold_left]; [exact H |].
  apply IH. now apply obj_set_NoDup.
Qed.

Lemma rebuilt_length (n : node) (keys : list jsstring) :
  forall acc : Obj jsstring,
    (length
      (fold_left (fun o k0 => obj_set o [charCode_byte k0]
                                      (toBase64 (digest_bytes (children n) k0))) keys acc)
     <= length acc + length keys)%nat.
Proof.
  induction keys as [| k0 keys IH]; intros acc; cbn [fold_left length]; [lia |].
  specialize (IH (obj_set acc [charCode_byte k0] (toBase64 (digest_bytes (children n) k0)))).
  pose proof (obj_set_length acc [charCode_byte k0]
                (toBase64 (digest_bytes (children n) k0))). lia.
Qed.

Lemma charCode_byte_range (k : jsstring) : 0 <= charCode_byte k < 256.
Proof.
  unfold charCode_byte, toUint8. destruct k as [| c k]; [lia |].
  apply Z.mod_pos_bound. lia.
Qed.

Lemma sound_rebuilt (n : node) :
  sound_node n -> sound_node (make (value n) (low_byte_children n)).
Proof.
  intros [Hwf Hb].
  assert (Hin : forall k h, In (k, h) (low_byte_children n) ->
                  exists k0, In k0 (sorted_keys n) /\ k = [charCode_byte k0] /\
                             h = toBase64 (digest_bytes (children n) k0)).
  { intros k h H. apply rebuilt_In in H as [[] | H]. exact H. }
  assert (Hbytes : forall k h, In (k, h) (low_byte_children n) ->
                     exists c, k = [c] /\ 0 <= c < 256).
  { intros k h H. destruct (Hin k h H) as (k0 & _ & -> & _).
    exists (charCode_byte k0). split; [reflexivity | apply charCode_byte_range]. }
  split; [split |]; cbn.
  - apply rebuilt_NoDup. constructor.
  - intros k h H. destruct (Hbytes k h H) as (c & -> & Hc). exists c. split; [easy | lia].
  - intros k h H. destruct (Hin k h H) as (k0 & Hk0 & _ & ->).
    destruct (wf_key_digest n k0 Hwf Hk0) as (h0 & bs & Hg & Hfb & Hl & Ht).
    unfold digest_bytes. rewrite Hg, Hfb, Ht.
    apply obj_get_In in Hg. exact (wf_digests n Hwf k0 h0 Hg).
  - pose proof (rebuilt_length n (sorted_keys n) []) as Hlen. cbn [length] in Hlen.
    rewrite sorted_keys_length in Hlen. pose proof (wf_count n Hwf).
    unfold low_byte_children. lia.
  - exact (wf_value n Hwf).
  - exact Hbytes.
Qed.

(** What comes back from the serialized form. *)
Lemma sound_round_trip (n : node) :
  sound_node n ->
  serialize n = Ok (layout n) /\
  deserialize (layout n) = Ok (make (value n) (low_byte_children n)) /\
  forall x, obj_get (low_byte_children n) x = obj_get (children n) x.
Proof.
  intros [Hwf Hb]. split; [now apply serialize_layout |].
  split; [now apply deserialize_layout | now apply low_byte_children_same].
Qed.

(** *** The entries of a cache *)

Section Entries.
Context {V : Type} (Q : jsstring * V -> Prop).

Lemma lru_set_entries (maxSize : nat) (c : list (jsstring * V)) (k : jsstring) (v : V) :
  (forall e, In e c -> Q e) -> Q (k, v) ->
  forall e, In e (lru_set maxSize c k v) -> Q e.
Proof.
  intros Hc Hkv e He. unfold lru_set, put_newest in He.
  assert (Hall : forall e, In e (Map_delete c k ++ [(k, v)]) -> Q e).
  { intros e' H. apply in_app_or in H as [H | [<- | []]]; [| exact Hkv].
    apply Hc. unfold Map_delete in H. now apply List.filter_In in H. }
  destruct (_ <? _)%nat; [| now apply Hall].
  apply Hall. destruct (Map_delete c k ++ [(k, v)]); [destruct He | now right].
Qed.

Lemma lru_get_entries (c : list (jsstring * V)) (k : jsstring) :
  (forall e, In e c -> Q e) ->
  (forall e, In e (snd (lru_get c k)) -> Q e) /\
  (forall v, fst (lru_get c k) = Some v -> Q (k, v)).
Proof.
  intros Hc. unfold lru_get. destruct (Map_get c k) as [v |] eqn:E; cbn [fst snd].
  - assert (Hkv : Q (k, v)) by (apply Hc; now apply obj_get_In).
    split; [| now intros v' [= <-]].
    intros e H. apply in_app_or in H as [H | [<- | []]]; [| exact Hkv].
    apply Hc. unfold Map_delete in H. now apply List.filter_In in H.
  - split; [exact Hc | discriminate].
Qed.

End Entries.

(** *** The first half of [put] on a sound trie *)

Lemma sound_cache (t : trie) (c : list (jsstring * node)) :
  sound t -> (forall h n, In (h, n) c -> sound_node n) ->
  sound (with_nodeCache (fun _ => c) t).
Proof.
  intros (H1 & H2 & H3 & H4) Hc.
  split; [exact Hc | split; [exact H2 | split; [exact H3 | exact H4]]].
Qed.

Lemma sound_rootCache (t : trie) (h : option jsstring) (n : node) :
  sound t -> sound_node n -> sound (with_rootCache (Some (h, n)) t).
Proof.
  intros (H1 & H2 & H3 & H4) Hn.
  split; [exact H1 | split; [| split; [exact H3 | exact H4]]].
  cbn. now intros h' n' [= _ <-].
Qed.

Lemma nodeCache_get_sound (h : jsstring) (t : trie) :
  sound t ->
  sound (snd (nodeCache_get h t)) /\
  storage (snd (nodeCache_get h t)) = storage t /\
  forall n, fst (nodeCache_get h t) = Ok (Some n) -> sound_node n.
Proof.
  intros Hs. pose proof Hs as (H1 & _).
  destruct (lru_get_entries (fun e => sound_node (snd e)) (nodeCache t) h
              ltac:(intros [h' n'] He; exact (H1 h' n' He))) as (Ha & Hb).
  unfold nodeCache_get. destruct (lru_get (nodeCache t) h) as [r c]. cbn [fst snd] in *.
  split; [| split; [reflexivity |]].
  - apply sound_cache; [exact Hs |]. intros h' n' He. exact (Ha (h', n') He).
  - intros n [= ->]. exact (Hb n eq_refl).
Qed.

Lemma nodeCache_set_sound (h : jsstring) (n : node) (t : trie) :
  sound t -> sound_node n ->
  sound (snd (nodeCache_set h n t)) /\ storage (snd (nodeCache_set h n t)) = storage t.
Proof.
  intros Hs Hn. pose proof Hs as (H1 & _). split; [| reflexivity].
  unfold nodeCache_set, modify. cbn [snd].
  change (with_nodeCache (fun c => lru_set nodeCache_maxSize c h n) t)
    with (with_nodeCache (fun _ => lru_set nodeCache_maxSize (nodeCache t) h n) t).
  apply sound_cache; [exact Hs |]. intros h' n' He.
  apply (lru_set_entries (fun e => sound_node (snd e)) _ _ _ _
           ltac:(intros [h0 n0] H0; exact (H1 h0 n0 H0)) Hn (h', n') He).
Qed.

(** What the store holds under a digest, read and deserialized. *)
Lemma stored_node (t : trie) (h : jsstring) (buffer : stored) :
  sound t -> is_digest h -> obj_get (storage t) h = Some buffer ->
  exists n0, sound_node n0 /\ buffer = Bytes (layout n0) /\
             deserialize_stored buffer t = (Ok (make (value n0) (low_byte_children n0)), t).
Proof.
  intros (_ & _ & _ & H4) Hd Hg. destruct (H4 h buffer Hd Hg) as (n0 & Hn0 & ->).
  exists n0. split; [exact Hn0 |]. split; [reflexivity |].
  unfold deserialize_stored, lift.
  now rewrite (proj1 (proj2 (sound_round_trip n0 Hn0))).
Qed.

Lemma storage_get_obj (h : jsstring) (t : trie) (buffer : stored) :
  storage_get h t = (Ok (Some buffer), t) -> obj_get (storage t) h = Some buffer.
Proof.
  unfold storage_get, gets. destruct (obj_get (storage t) h) as [[b | [| c s]] |];
    intros [= <-]; reflexivity.
Qed.

Lemma storage_get_state (h : jsstring) (t : trie) : snd (storage_get h t) = t.
Proof. reflexivity. Qed.

Lemma getRoot_sound (t t' : trie) (root : node) :
  sound t -> getRoot t = (Ok root, t') ->
  sound_node root /\ sound t' /\ storage t' = storage t.
Proof.
  intros Hs H. pose proof Hs as (H1 & H2 & H3 & H4).
  assert (L : loadRoot t = (Ok root, t') ->
              sound_node root /\ sound t' /\ storage t' = storage t).
  { clear H. unfold loadRoot. destruct (rootHash t) as [[| z rh] |] eqn:Erh.
    - intros [= <- <-]. split; [apply sound_empty |].
      split; [apply sound_rootCache; [exact Hs | apply sound_empty] | reflexivity].
    - destruct (H3 _ eq_refl) as [? | Hd]; [discriminate |].
      unfold bind. destruct (storage_get (z :: rh) t) as [[[buffer |] | e] t1] eqn:Eg.
      + assert (t1 = t) by (now rewrite <- (storage_get_state (z :: rh) t), Eg). subst t1.
        apply storage_get_obj in Eg.
        destruct (stored_node t _ _ Hs Hd Eg) as (n0 & Hn0 & -> & Ed).
        rewrite Ed. unfold modify, ret. intros [= <- <-].
        pose proof (sound_rebuilt n0 Hn0) as Hr.
        split; [exact Hr |]. split; [now apply sound_rootCache | reflexivity].
      + assert (t1 = t) by (now rewrite <- (storage_get_state (z :: rh) t), Eg). subst t1.
        unfold modify, ret. intros [= <- <-]. split; [apply sound_empty |].
        split; [apply sound_rootCache; [exact Hs | apply sound_empty] | reflexivity].
      + discriminate.
    - intros [= <- <-]. split; [apply sound_empty |].
      split; [apply sound_rootCache; [exact Hs | apply sound_empty] | reflexivity]. }
  unfold getRoot in H. destruct (rootCache t) as [[h n] |] eqn:Erc; [| now apply L].
  destruct (bool_decide (h = rootHash t)); [| now apply L].
  injection H as <- <-. split; [exact (H2 h n eq_refl) |]. split; [exact Hs | reflexivity].
Qed.

Lemma descend_sound (chars : list jsstring) :
  forall (cur : node) (stack : list node) (t : trie) (stack' : list node) (t' : trie),
    sound t -> sound_node cur -> Forall sound_node stack ->
    descend chars cur stack t = (Ok stack', t') ->
    sound t' /\ Forall sound_node stack' /\ storage t' = storage t.
Proof.
  induction chars as [| c rest IH]; intros cur stack t stack' t' Hs Hcur Hst H.
  - cbn in H. unfold ret in H. injection H as <- <-.
    split; [exact Hs | split; [exact Hst | reflexivity]].
  - cbn [descend] in H. apply bind_inv in H as (child & t1 & Echild & H).
    assert (G : sound t1 /\ sound_node child /\ storage t1 = storage t).
    { destruct (obj_get (children cur) c) as [[| z h] |] eqn:Ec;
        try (unfold ret in Echild; injection Echild as <- <-;
             split; [exact Hs | split; [apply sound_empty | reflexivity]]).
      assert (Hd : is_digest (z :: h)).
      { destruct Hcur as [Hwf _]. apply obj_get_In in Ec. exact (wf_digests cur Hwf _ _ Ec). }
      apply bind_inv in Echild as (cached & t2 & Ecache & Echild).
      destruct (nodeCache_get_sound (z :: h) t Hs) as (Hs2 & Est2 & Hhit).
      rewrite Ecache in Hs2, Est2, Hhit. cbn [fst snd] in Hs2, Est2, Hhit.
      apply bind_inv in Echild as (childNode & t3 & Enode & Echild).
      unfold ret in Echild. injection Echild as <- <-.
      assert (G : sound t3 /\ sound_node childNode /\ storage t3 = storage t).
      { destruct cached as [n |].
        - unfold ret in Enode. injection Enode as <- <-.
          split; [exact Hs2 | split; [now apply Hhit | exact Est2]].
        - apply bind_inv in Enode as (buffer & t4 & Eg & Enode).
          assert (t4 = t2) by (now rewrite <- (storage_get_state (z :: h) t2), Eg). subst t4.
          destruct buffer as [buffer |].
          + apply storage_get_obj in Eg.
            destruct (stored_node t2 _ _ Hs2 Hd Eg) as (n0 & Hn0 & -> & Ed).
            apply bind_inv in Enode as (n & t5 & En & Enode). rewrite Ed in En.
            injection En as <- <-.
            apply bind_inv in Enode as ([] & t6 & Eset & Enode).
            unfold ret in Enode. injection Enode as <- <-.
            pose proof (sound_rebuilt n0 Hn0) as Hr.
            destruct (nodeCache_set_sound (z :: h) _ t2 Hs2 Hr) as (Hs6 & Est6).
            rewrite Eset in Hs6, Est6. cbn [snd] in Hs6, Est6.
            split; [exact Hs6 | split; [exact Hr | congruence]].
          + unfold ret in Enode. injection Enode as <- <-.
            split; [exact Hs2 | split; [apply sound_empty | exact Est2]]. }
      destruct G as (G1 & G2 & G3).
      split; [exact G1 | split; [| exact G3]].
      now apply (sound_same childNode). }
    destruct G as (G1 & G2 & G3).
    apply IH in H as (I1 & I2 & I3); [| exact G1 | exact G2 |].
    + split; [exact I1 | split; [exact I2 | congruence]].
    + apply Forall_app. split; [exact Hst | now constructor].
Qed.

(** *** The second half of [put] on a sound trie *)

Lemma digest_nonempty (h : jsstring) : is_digest h -> h <> [].
Proof.
  intros (bs & Hl & _ & ->). apply Base64Facts.toBase64_nonempty. intros ->. discriminate.
Qed.

(** The nodes that [ascend] serializes: each is sound, is saved as its
    layout under the digest of that layout, and the last of them is the
    new root; in any table that holds them the path leads from the root
    to the node the loop started from. *)
Lemma ascend_written (path leafHash : jsstring) :
  forall (k : nat) (stack : list node) (childHash : jsstring)
         (saved : list (jsstring * bytes)) (t : trie)
         (stack' : list node) (h0 : jsstring) (saved' : list (jsstring * bytes)) (t' : trie),
    ascend k path stack childHash leafHash saved t = (Ok (stack', h0, saved'), t') ->
    (k < length stack)%nat -> (k <= length path)%nat ->
    sound t -> Forall sound_node stack -> Forall (fun c => 0 <= c < 256) path ->
    is_digest childHash ->
    exists written : list (jsstring * node),
      saved' = saved ++ map (fun e => (fst e, layout (snd e))) written /\
      Forall (fun e => sound_node (snd e) /\ fst e = hash (layout (snd e))) written /\
      is_digest h0 /\ sound t' /\ storage t' = storage t /\ Forall sound_node stack' /\
      length stack' = length stack /\
      forall (V : list (jsstring * node)) (node_k : node) (tail : list jsstring) (leaf : node),
        Forall (fun e => Map_get V (fst e) = Some (snd e)) written ->
        stack !! k = Some node_k ->
        Map_get V childHash = Some node_k ->
        chain V tail node_k leaf ->
        exists root, stack' !! 0%nat = Some root /\ Map_get V h0 = Some root /\
                     chain V (map (fun c => [c]) (take k path) ++ tail) root leaf.
Proof.
  induction k as [| i IH];
    intros stack childHash saved t stack' h0 saved' t' H Hk Hp Hs Hst Hpath Hd.
  - cbn in H. injection H as <- <- <- <-. exists [].
    split; [now rewrite app_nil_r |]. split; [constructor |].
    split; [exact Hd |]. split; [exact Hs |]. split; [reflexivity |]. split; [exact Hst |].
    split; [reflexivity |].
    intros V node_k tail leaf _ Hk' Hc Hch. exists node_k.
    split; [exact Hk' | split; [exact Hc | exact Hch]].
  - rewrite ascend_S in H by exact Hk.
    destruct (stack !! i) as [parent |] eqn:Ep; [| discriminate].
    cbv zeta in H.
    assert (Hc : 0 <= nth i path 0 < 256).
    { rewrite Forall_forall in Hpath. apply Hpath, list_elem_of_In, nth_In. lia. }
    assert (Hparent : sound_node parent).
    { rewrite Forall_forall in Hst. apply Hst, list_elem_of_In.
      apply list_elem_of_In. eapply list_elem_of_lookup_2, Ep. }
    pose proof (sound_set parent (nth i path 0) childHash (_hasValue parent) Hparent Hc Hd)
      as Hparent'.
    set (parent' := Node (value parent) (obj_set (children parent) [nth i path 0] childHash)
                         (_hasValue parent)) in *.
    rewrite (proj1 (sound_round_trip parent' Hparent')) in H.
    destruct (nodeCache_set_sound (hash (layout parent')) parent' t Hs Hparent') as (Hs1 & Est1).
    apply IH in H as (written & Esaved & Hw & Hh0 & Hs' & Est' & Hst' & Hlen & Hchain);
      [| rewrite length_insert; lia | lia | exact Hs1 | | exact Hpath | apply hash_digest].
    + exists ((hash (layout parent'), parent') :: written).
      split; [rewrite Esaved; cbn [map fst snd]; now rewrite <- app_assoc |].
      split; [constructor; [split; [exact Hparent' | reflexivity] | exact Hw] |].
      split; [exact Hh0 |]. split; [exact Hs' |].
      split; [rewrite Est'; exact Est1 |]. split; [exact Hst' |].
      split; [now rewrite Hlen, length_insert |].
      intros V node_k tail leaf Hall Hk' Hcn Hch.
      apply Forall_cons in Hall. destruct Hall as [Hhead Hall]. cbn [fst snd] in Hhead.
      destruct (Hchain V parent' ([nth i path 0] :: tail) leaf Hall) as (root & Hr & Hm & Hroot).
      * apply list_lookup_insert_eq. lia.
      * exact Hhead.
      * simpl. exists childHash, node_k.
        split; [apply obj_get_set_eq |]. split; [now apply digest_nonempty |].
        split; [exact Hcn | exact Hch].
      * exists root. split; [exact Hr |]. split; [exact Hm |].
        assert (Et : take (S i) path = take i path ++ [nth i path 0]).
        { assert (Hl : path !! i = Some (nth i path 0)).
          { destruct (lookup_lt_is_Some_2 path i ltac:(lia)) as [x Hx].
            now rewrite (nth_lookup_Some _ _ 0 _ Hx). }
          rewrite (take_S_r _ _ _ Hl). reflexivity. }
        rewrite Et, map_app, <- app_assoc. exact Hroot.
    + apply Forall_insert; [exact Hst | exact Hparent'].
Qed.

(** [ascend] returns on a stack of sound nodes that is long enough. *)
Lemma ascend_returns (path leafHash : jsstring) :
  forall (k : nat) (stack : list node) (childHash : jsstring)
         (saved : list (jsstring * bytes)) (t : trie),
    (k < length stack)%nat -> (k <= length path)%nat ->
    Forall sound_node stack -> Forall (fun c => 0 <= c < 256) path -> is_digest childHash ->
    exists r t', ascend k path stack childHash leafHash saved t = (Ok r, t').
Proof.
  induction k as [| i IH]; intros stack childHash saved t Hk Hp Hst Hpath Hd.
  - eexists _, _. reflexivity.
  - rewrite ascend_S by exact Hk.
    destruct (lookup_lt_is_Some_2 stack i ltac:(lia)) as [parent Ep]. rewrite Ep. cbv zeta.
    assert (Hc : 0 <= nth i path 0 < 256).
    { rewrite Forall_forall in Hpath. apply Hpath, list_elem_of_In, nth_In. lia. }
    assert (Hparent : sound_node parent).
    { rewrite Forall_forall in Hst. eapply Hst, list_elem_of_lookup_2, Ep. }
    pose proof (sound_set parent (nth i path 0) childHash (_hasValue parent) Hparent Hc Hd)
      as Hparent'.
    rewrite (proj1 (sound_round_trip _ Hparent')).
    apply IH; [rewrite length_insert; lia | lia | | exact Hpath | apply hash_digest].
    apply Forall_insert; [exact Hst | exact Hparent'].
Qed.

(** The store after the writes of a batch: a key of the batch holds one
    of the entries the batch has for it, the other keys what they held. *)
Lemma save_nodes_run (batch : list (jsstring * bytes)) :
  forall (t : trie),
    exists t', save_nodes batch t = (Ok tt, t') /\
      rootHash t' = rootHash t /\ nodeCache t' = nodeCache t /\ rootCache t' = rootCache t /\
      valueCache t' = valueCache t /\ lastBatch t' = lastBatch t /\
      (forall h, In h (map fst batch) ->
         exists ser, In (h, ser) batch /\ obj_get (storage t') h = Some (Bytes ser)) /\
      (forall h, ~ In h (map fst batch) -> obj_get (storage t') h = obj_get (storage t) h).
Proof.
  induction batch as [| [h data] rest IH]; intros t.
  - exists t. split; [reflexivity |]. repeat (split; [reflexivity |]).
    split; [intros h [] | reflexivity].
  - destruct (IH (with_storage (fun st => obj_set st h (Bytes data)) t))
      as (t' & E & E1 & E2 & E3 & E4 & E5 & Hin & Hout).
    exists t'. cbn [save_nodes]. unfold bind, storage_put, modify. rewrite E.
    split; [reflexivity |]. split; [exact E1 |]. split; [exact E2 |]. split; [exact E3 |].
    split; [exact E4 |]. split; [exact E5 |]. split.
    + intros h' Hh'.
      destruct (List.in_dec (List.list_eq_dec Z.eq_dec) h' (map fst rest)) as [Hr | Hr].
      * destruct (Hin h' Hr) as (ser & Hser & Hg). exists ser. split; [now right | exact Hg].
      * destruct Hh' as [<- | Hh']; [| contradiction]. exists data. split; [now left |].
        rewrite (Hout _ Hr). cbn [storage with_storage]. apply obj_get_set_eq.
    + intros h' Hn. cbn [map fst] in Hn.
      rewrite Hout by (intros H; apply Hn; now right).
      cbn [storage with_storage]. apply obj_get_set_ne. intros ->. apply Hn. now left.
Qed.

(** [ValueStore.put] on a sound trie. *)
Lemma valueStore_put_sound (val : JSValue) (t : trie) :
  sound t ->
  exists vko t', valueStore_put val t = (Ok vko, t') /\ value_ok vko /\ sound t' /\
    (forall h, h <> valueKey val -> obj_get (storage t') h = obj_get (storage t) h) /\
    (val <> JNull -> val <> JUndefined ->
     vko = Some (valueKey val) /\
     ((forall b, obj_get (storage t) (valueKey val) = Some b -> b = Bytes (Msgpack.encode val)) ->
      obj_get (storage t') (valueKey val) = Some (Bytes (Msgpack.encode val)))).
Proof.
  intros Hs.
  assert (G : val <> JNull -> val <> JUndefined ->
              exists vko t', valueStore_put val t = (Ok vko, t') /\ value_ok vko /\ sound t' /\
                (forall h, h <> valueKey val -> obj_get (storage t') h = obj_get (storage t) h) /\
                (val <> JNull -> val <> JUndefined ->
                 vko = Some (valueKey val) /\
                 ((forall b, obj_get (storage t) (valueKey val) = Some b ->
                             b = Bytes (Msgpack.encode val)) ->
                  obj_get (storage t') (valueKey val) = Some (Bytes (Msgpack.encode val))))).
  { intros Hn Hu. exists (Some (valueKey val)), (stored_value val t).
    split; [now apply ValueStoreFacts.valueStore_put_result |].
    split; [apply valueKey_ok |].
    assert (Hst : forall h, h <> valueKey val ->
                    obj_get (storage (stored_value val t)) h = obj_get (storage t) h).
    { intros h Hh. unfold stored_value.
      destruct (storage_get (valueKey val) t) as [[[b |] | e] t0]; cbn [storage with_valueCache];
        try reflexivity.
      cbn [storage with_storage]. now apply obj_get_set_ne. }
    split; [| split; [exact Hst |]].
    - destruct Hs as (H1 & H2 & H3 & H4).
      assert (Hc : nodeCache (stored_value val t) = nodeCache t /\
                   rootCache (stored_value val t) = rootCache t /\
                   rootHash (stored_value val t) = rootHash t).
      { unfold stored_value.
        destruct (storage_get (valueKey val) t) as [[[b |] | e] t0]; now repeat split. }
      destruct Hc as (Hc1 & Hc2 & Hc3).
      split; [rewrite Hc1; exact H1 |]. split; [rewrite Hc2; exact H2 |].
      split; [rewrite Hc3; exact H3 |].
      intros h b Hd Hg. rewrite Hst in Hg; [exact (H4 h b Hd Hg) |].
      exact (digest_not_value_key h _ Hd).
    - intros _ _. split; [reflexivity |]. intros Hb. unfold stored_value, storage_get, gets.
      destruct (obj_get (storage t) (valueKey val)) as [b |] eqn:Eg.
      + rewrite (Hb b eq_refl) in *. cbn [storage with_valueCache]. exact Eg.
      + cbn [storage with_valueCache with_storage]. apply obj_get_set_eq. }
  destruct val; try (apply G; discriminate).
  - exists None, t. split; [reflexivity |]. split; [exact I |]. split; [exact Hs |].
    split; [reflexivity |]. congruence.
  - exists None, t. split; [reflexivity |]. split; [exact I |]. split; [exact Hs |].
    split; [reflexivity |]. congruence.
Qed.

(** *** [put] on a sound trie returns *)

Lemma storage_get_run (h : jsstring) (t : trie) :
  exists r, storage_get h t = (Ok r, t) /\
            (forall b, obj_get (storage t) h = Some (Bytes b) -> r = Some (Bytes b)) /\
            (forall buffer, r = Some buffer -> obj_get (storage t) h = Some buffer).
Proof.
  unfold storage_get, gets. destruct (obj_get (storage t) h) as [[b | [| c s]] |];
    eexists; (split; [reflexivity |]); split; congruence.
Qed.

Lemma getRoot_returns (t : trie) : sound t -> exists root t', getRoot t = (Ok root, t').
Proof.
  intros Hs. pose proof Hs as (_ & _ & H3 & _).
  assert (L : exists root t', loadRoot t = (Ok root, t')).
  { unfold loadRoot. destruct (rootHash t) as [[| z rh] |] eqn:Erh; [now eexists _, _ | |
      now eexists _, _].
    destruct (H3 _ eq_refl) as [? | Hd]; [discriminate |].
    destruct (storage_get_run (z :: rh) t) as (r & Eg & _ & Hr).
    rewrite (bind_ok _ _ _ _ _ Eg). destruct r as [buffer |]; [| now eexists _, _].
    destruct (stored_node t _ _ Hs Hd (Hr _ eq_refl)) as (n0 & _ & _ & Ed).
    rewrite (bind_ok _ _ _ _ _ Ed). now eexists _, _. }
  unfold getRoot. destruct (rootCache t) as [[h n] |]; [| exact L].
  destruct (bool_decide (h = rootHash t)); [now eexists _, _ | exact L].
Qed.

Lemma nodeCache_get_run (h : jsstring) (t : trie) :
  nodeCache_get h t = (Ok (fst (lru_get (nodeCache t) h)),
                       with_nodeCache (fun _ => snd (lru_get (nodeCache t) h)) t).
Proof. unfold nodeCache_get. now destruct (lru_get (nodeCache t) h). Qed.

Lemma descend_returns (chars : list jsstring) :
  forall (cur : node) (stack : list node) (t : trie),
    sound t -> sound_node cur -> Forall sound_node stack ->
    exists stack' t', descend chars cur stack t = (Ok stack', t').
Proof.
  induction chars as [| c rest IH]; intros cur stack t Hs Hcur Hst.
  - now eexists _, _.
  - assert (G : exists stack1 t1, descend [c] cur stack t = (Ok stack1, t1)).
    { cbn [descend]. destruct (obj_get (children cur) c) as [[| z h] |] eqn:Ec;
        try (now eexists _, _).
      assert (Hd : is_digest (z :: h)).
      { destruct Hcur as [Hwf _]. apply obj_get_In in Ec. exact (wf_digests cur Hwf _ _ Ec). }
      destruct (nodeCache_get_sound (z :: h) t Hs) as (Hs2 & _ & _).
      pose proof (nodeCache_get_run (z :: h) t) as Ecache. rewrite Ecache in Hs2.
      cbn [snd] in Hs2.
      unfold bind at 1. unfold bind at 1. rewrite Ecache.
      destruct (fst (lru_get (nodeCache t) (z :: h))) as [n |]; [now eexists _, _ |].
      set (t2 := with_nodeCache _ t) in *.
      destruct (storage_get_run (z :: h) t2) as (r & Eg & _ & Hr).
      unfold bind at 1. unfold bind at 1. rewrite Eg.
      destruct r as [buffer |]; [| now eexists _, _].
      destruct (stored_node t2 _ _ Hs2 Hd (Hr _ eq_refl)) as (n0 & _ & _ & Ed).
      unfold bind at 1. rewrite Ed. now eexists _, _. }
    destruct G as (stack1 & t1 & E1).
    destruct (descend_sound [c] cur stack t stack1 t1 Hs Hcur Hst E1) as (Hs1 & Hst1 & _).
    cbn [descend] in E1 |- *. apply bind_inv in E1 as (child & t1' & Echild & E1).
    unfold ret in E1. injection E1 as <- <-.
    rewrite (bind_ok _ _ _ _ _ Echild). apply IH; [exact Hs1 | | exact Hst1].
    apply Forall_app in Hst1 as [_ Hc]. now inversion Hc.
Qed.

Lemma bind_modify {S B} (f : S -> S) (k : unit -> M S B) (s : S) :
  bind (modify f) k s = k tt (f s).
Proof. reflexivity. Qed.

Lemma bind_lifted {S A B} (a : A) (k : A -> M S B) (s : S) :
  bind (lift (Ok a)) k s = k a s.
Proof. reflexivity. Qed.

Lemma keys_unique {V} (o : list (jsstring * V)) (k : jsstring) (a b : V) :
  NoDup (map fst o) -> In (k, a) o -> In (k, b) o -> a = b.
Proof.
  intros Hnd Ha Hb. apply (In_obj_get _ _ _ Hnd) in Ha. apply (In_obj_get _ _ _ Hnd) in Hb.
  congruence.
Qed.

Ltac fields :=
  cbn [storage rootHash rootCache nodeCache lastBatch with_rootCache with_rootHash with_lastBatch].
Ltac fields_in H :=
  cbn [storage rootHash rootCache nodeCache lastBatch with_rootCache with_rootHash with_lastBatch]
    in H.

(** [put] on a sound trie, for a key of characters below 256: it
    returns; the trie it leaves is sound; the batch is the layouts of
    sound nodes, each under its digest; the store holds the encoded value
    under its key when it held nothing else there; and the path leads
    from the new root to a leaf with the value reference through any
    table that holds the nodes of the batch. *)
Lemma put_run `{P : Platform} (key : jsstring) (val : JSValue) (t : trie) :
  sound t -> Forall (fun c => 0 <= c < 256) (normalizeKey key) ->
  exists (root : jsstring) (t' : trie) (W : list (jsstring * node)) (vko : option jsstring),
    put key val t = (Ok root, t') /\
    lastBatch t' = map (fun e => (fst e, layout (snd e))) W /\
    Forall (fun e => sound_node (snd e) /\ fst e = hash (layout (snd e))) W /\
    is_digest root /\ rootHash t' = Some root /\ sound t' /\
    (val <> JNull -> val <> JUndefined ->
     vko = Some (valueKey val) /\
     ((forall b, obj_get (storage t) (valueKey val) = Some b -> b = Bytes (Msgpack.encode val)) ->
      obj_get (storage t') (valueKey val) = Some (Bytes (Msgpack.encode val)))) /\
    (forall h, In h (map fst W) ->
       exists n, In (h, n) W /\ obj_get (storage t') h = Some (Bytes (layout n))) /\
    (forall V, Forall (fun e => Map_get V (fst e) = Some (snd e)) W ->
       exists rootnode leaf,
         Map_get V root = Some rootnode /\
         chain V (map (fun c => [c]) (normalizeKey key)) rootnode leaf /\
         value leaf = vko).
Proof.
  intros Hs Hpath. unfold put. set (path := normalizeKey key) in *.
  destruct (getRoot_returns t Hs) as (oldRoot & s1 & E1).
  destruct (getRoot_sound _ _ _ Hs E1) as (Hroot & Hs1 & Est1).
  rewrite (bind_ok _ _ _ _ _ E1).
  set (cur := make (value oldRoot) (children oldRoot)).
  assert (Hcur : sound_node cur) by (now apply (sound_same oldRoot)).
  destruct (descend_returns (chars_of path) cur [cur] s1 Hs1 Hcur ltac:(now constructor))
    as (stack & s2 & E2).
  destruct (descend_sound _ cur [cur] _ _ _ Hs1 Hcur ltac:(now constructor) E2)
    as (Hs2 & Hst2 & Est2).
  pose proof (descend_length _ _ _ _ _ _ E2) as Elen.
  rewrite (chars_of_plain _ Hpath), length_map in Elen. cbn [length] in Elen.
  rewrite (bind_ok _ _ _ _ _ E2).
  destruct (valueStore_put_sound val s2 Hs2) as (vko & s3 & E3 & Hvok & Hs3 & Hst3 & Hval).
  rewrite (bind_ok _ _ _ _ _ E3).
  replace (length stack - 1)%nat with (length path) by lia.
  destruct (lookup_lt_is_Some_2 stack (length path) ltac:(lia)) as [leaf0 El]. rewrite El.
  assert (Hleaf0 : sound_node leaf0).
  { rewrite Forall_forall in Hst2. eapply Hst2, list_elem_of_lookup_2, El. }
  pose proof (sound_leaf leaf0 vko true Hleaf0 Hvok) as Hleaf.
  set (leaf := Node vko (children leaf0) true) in *.
  rewrite (proj1 (sound_round_trip leaf Hleaf)), bind_lifted.
  unfold nodeCache_set at 1. rewrite bind_modify.
  destruct (nodeCache_set_sound (hash (layout leaf)) leaf s3 Hs3 Hleaf) as (Hs4 & Est4).
  unfold nodeCache_set, modify in Hs4, Est4. cbn [snd] in Hs4, Est4.
  set (s4 := with_nodeCache _ s3) in *.
  set (stack1 := <[length path := leaf]> stack).
  assert (Hst1 : Forall sound_node stack1) by (apply Forall_insert; assumption).
  assert (Hl1 : (length path < length stack1)%nat)
    by (unfold stack1; rewrite length_insert; lia).
  destruct (ascend_returns path (hash (layout leaf)) (length path) stack1 (hash (layout leaf))
              [(hash (layout leaf), layout leaf)] s4 Hl1 (le_n _) Hst1 Hpath (hash_digest _))
    as ([[stack' h0] saved'] & s6 & E6).
  destruct (ascend_written _ _ _ _ _ _ _ _ _ _ _ E6 Hl1 (le_n _) Hs4 Hst1 Hpath (hash_digest _))
    as (written & Esaved & Hw & Hh0 & Hs6 & Est6 & Hst' & Hlen' & Hchain).
  rewrite (bind_ok _ _ _ _ _ E6). rewrite bind_modify.
  destruct (save_nodes_run saved' (with_lastBatch saved' s6))
    as (s8 & E8 & F1 & F2 & F3 & F4 & F5 & Hin & Hout).
  rewrite (bind_ok _ _ _ _ _ E8). rewrite bind_modify.
  destruct (lookup_lt_is_Some_2 stack' 0%nat ltac:(lia)) as [root Eroot]. rewrite Eroot.
  rewrite bind_modify. unfold ret.
  assert (Hrootn : sound_node root).
  { rewrite Forall_forall in Hst'. eapply Hst', list_elem_of_lookup_2, Eroot. }
  set (W := (hash (layout leaf), leaf) :: written).
  assert (EW : saved' = map (fun e => (fst e, layout (snd e))) W) by exact Esaved.
  assert (HW : Forall (fun e => sound_node (snd e) /\ fst e = hash (layout (snd e))) W)
    by (constructor; [split; [exact Hleaf | reflexivity] | exact Hw]).
  assert (Hkeys : map fst saved' = map fst W).
  { rewrite EW, map_map. reflexivity. }
  assert (Hvk : ~ In (valueKey val) (map fst saved')).
  { rewrite Hkeys. intros Hin'. apply in_map_iff in Hin' as (e & Ee & He).
    rewrite List.Forall_forall in HW. destruct (HW e He) as (_ & Eh).
    apply (digest_not_value_key (fst e) (hash (Msgpack.encode val))); [| exact Ee].
    rewrite Eh. apply hash_digest. }
  assert (Hstored : forall h, In h (map fst W) ->
            exists n, In (h, n) W /\ sound_node n /\
                      obj_get (storage s8) h = Some (Bytes (layout n))).
  { intros h Hh. rewrite <- Hkeys in Hh. destruct (Hin h Hh) as (ser & Hser & Hg).
    rewrite EW in Hser. apply in_map_iff in Hser as ([h' n] & [= <- <-] & He).
    exists n. split; [exact He |]. split; [| exact Hg].
    rewrite List.Forall_forall in HW. exact (proj1 (HW _ He)). }
  exists h0, (with_rootCache (Some (Some h0, root)) (with_rootHash (Some h0) s8)), W, vko.
  split; [reflexivity |]. split; [fields; rewrite F5; exact EW |]. split; [exact HW |].
  split; [exact Hh0 |]. split; [reflexivity |]. split; [| split; [| split]].
  - destruct Hs6 as (G1 & _). destruct Hs3 as (_ & _ & _ & G4).
    split; [fields; rewrite F2; exact G1 |].
    split; [fields; intros h n [= _ <-]; exact Hrootn |].
    split; [fields; intros rh [= <-]; now right |].
    fields. intros h b Hd Hg.
    destruct (List.in_dec (List.list_eq_dec Z.eq_dec) h (map fst W)) as [Hi | Hi].
    + destruct (Hstored h Hi) as (n & _ & Hn & Hg'). exists n. split; [exact Hn | congruence].
    + rewrite <- Hkeys in Hi. rewrite (Hout h Hi) in Hg. fields_in Hg.
      rewrite Est6, Est4 in Hg. exact (G4 h b Hd Hg).
  - intros Hn Hu. destruct (Hval Hn Hu) as (-> & Hb). split; [reflexivity |].
    intros Hb'. fields. rewrite (Hout _ Hvk). fields. rewrite Est6, Est4. apply Hb.
    intros b Hg. apply Hb'. now rewrite <- Est1, <- Est2.
  - intros h Hh. destruct (Hstored h Hh) as (n & Hn & _ & Hg). now exists n.
  - intros V HV. apply Forall_cons in HV. destruct HV as [Hhead HV]. cbn [fst snd] in Hhead.
    destruct (Hchain V leaf [] leaf HV) as (root' & Er' & Hm & Hch).
    + apply list_lookup_insert_eq. lia.
    + exact Hhead.
    + reflexivity.
    + exists root', leaf. split; [exact Hm |]. split; [| reflexivity].
      now rewrite app_nil_r, firstn_all in Hch.
Qed.

(** *** Reading what was written from the store alone *)

(** The node that [deserialize] makes of the layout of a node. *)
Definition reread (n : node) : node := make (value n) (low_byte_children n).

(** The walk of [get] from the reread root along a chain of a table [V]
    whose nodes the store holds, with a cache of reread nodes of [V]. *)
Lemma walk_cold (V : list (jsstring * node)) :
  forall (chars : list jsstring) (cur leaf : node) (t : trie),
    (forall h n, Map_get V h = Some n ->
       sound_node n /\ obj_get (storage t) h = Some (Bytes (layout n))) ->
    (forall h n, In (h, n) (nodeCache t) -> exists m, Map_get V h = Some m /\ n = reread m) ->
    sound_node cur ->
    chain V chars cur leaf ->
    exists t', walk chars (reread cur) t = (Ok (Some (reread leaf)), t') /\
               storage t' = storage t /\ valueCache t' = valueCache t.
Proof.
  induction chars as [| c rest IH]; intros cur leaf t HV Hcache Hcur Hch.
  - cbn in Hch. subst leaf. exists t. now repeat split.
  - destruct Hch as (h & n & Hget & Hne & Hn & Hch).
    destruct (HV h n Hn) as (Hsn & Hst).
    cbn [walk reread make children].
    rewrite (proj2 (proj2 (sound_round_trip cur Hcur))), Hget.
    destruct h as [| z h]; [congruence |].
    pose proof (lru_get_entries (fun e => exists m, Map_get V (fst e) = Some m /\ snd e = reread m)
                  (nodeCache t) (z :: h)
                  ltac:(intros [h' n'] He; exact (Hcache h' n' He))) as (Ha & Hb).
    rewrite (bind_ok _ _ _ _ _ (nodeCache_get_run (z :: h) t)).
    set (t2 := with_nodeCache _ t).
    assert (Hc2 : forall h' n', In (h', n') (nodeCache t2) ->
                    exists m, Map_get V h' = Some m /\ n' = reread m).
    { intros h' n' He. exact (Ha (h', n') He). }
    destruct (fst (lru_get (nodeCache t) (z :: h))) as [n' |] eqn:Ehit.
    + destruct (Hb n' eq_refl) as (m & Hm & Em). cbn [fst snd] in Hm, Em. subst n'.
      assert (m = n) as -> by congruence.
      destruct (IH n leaf t2 HV Hc2 Hsn Hch) as (t' & E & E1 & E2).
      exists t'. split; [exact E | split; [exact E1 | exact E2]].
    + destruct (storage_get_run (z :: h) t2) as (r & Eg & Hr & _).
      rewrite (Hr _ Hst) in Eg. rewrite (bind_ok _ _ _ _ _ Eg).
      cbn [deserialize_stored]. rewrite (proj1 (proj2 (sound_round_trip n Hsn))), bind_lifted.
      unfold nodeCache_set at 1. rewrite bind_modify. fold (reread n).
      set (t3 := with_nodeCache _ t2).
      destruct (IH n leaf t3 HV) as (t' & E & E1 & E2); [| exact Hsn | exact Hch |].
      * intros h' n' He. unfold t3 in He. cbn [nodeCache with_nodeCache] in He.
        refine (lru_set_entries
                  (fun e => exists m, Map_get V (fst e) = Some m /\ snd e = reread m)
                  _ _ _ _ _ _ (h', n') He).
        -- intros [h0 n0] H0. exact (Hc2 h0 n0 H0).
        -- exists n. split; [exact Hn | reflexivity].
      * exists t'. split; [exact E | split; [exact E1 | exact E2]].
Qed.

(** [get] on a trie opened on a store that holds the nodes of a chain
    from the root to a leaf with a value reference, and the encoded value
    under that reference. *)
Lemma get_cold `{P : Platform} (key : jsstring) (val : JSValue) (st : list (jsstring * stored))
               (root : jsstring) (V : list (jsstring * node)) (rootnode leaf : node) :
  is_digest root ->
  (forall h n, Map_get V h = Some n ->
     sound_node n /\ obj_get st h = Some (Bytes (layout n))) ->
  Map_get V root = Some rootnode ->
  chain V (chars_of (normalizeKey key)) rootnode leaf ->
  value leaf = Some (valueKey val) ->
  obj_get st (valueKey val) = Some (Bytes (Msgpack.encode val)) ->
  fst (get key (open_trie st (Some root))) = Msgpack.decode (Msgpack.encode val).
Proof.
  intros Hd HV Hroot Hch Hleaf Hval.
  destruct (HV root rootnode Hroot) as (Hsr & Hst).
  pose proof (digest_nonempty root Hd) as Hne.
  set (t0 := open_trie st (Some root)).
  assert (Eroot : getRoot t0 = (Ok (reread rootnode),
                                with_rootCache (Some (Some root, reread rootnode)) t0)).
  { unfold getRoot. change (rootCache t0) with (@None (option jsstring * node)).
    unfold loadRoot. change (rootHash t0) with (Some root).
    destruct root as [| z rh]; [congruence |].
    destruct (storage_get_run (z :: rh) t0) as (r & Eg & Hr & _).
    rewrite (Hr _ Hst) in Eg. rewrite (bind_ok _ _ _ _ _ Eg).
    cbn [deserialize_stored]. rewrite (proj1 (proj2 (sound_round_trip rootnode Hsr))).
    reflexivity. }
  unfold get. rewrite (bind_ok _ _ _ _ _ Eroot).
  set (t1 := with_rootCache _ _).
  destruct (walk_cold V (chars_of (normalizeKey key)) rootnode leaf t1) as (t2 & E & E1 & E2);
    [exact HV | intros h n [] | exact Hsr | exact Hch |].
  rewrite (bind_ok _ _ _ _ _ E).
  unfold hasValue, reread, make. cbn [value]. rewrite Hleaf.
  destruct (ValueStoreFacts.valueKey_cons val) as (c & k & Ek). rewrite Ek in *.
  cbn [valueStore_get]. unfold bind at 1. unfold gets at 1. rewrite E2.
  change (valueCache t1) with (@nil (jsstring * JSValue)). unfold Map_get at 1. cbn [obj_get].
  destruct (storage_get_run (c :: k) t2) as (r' & Eg' & Hr' & _).
  rewrite E1 in Hr'. rewrite (Hr' _ Hval) in Eg'.
  rewrite (bind_ok _ _ _ _ _ Eg').
  unfold bind, lift. destruct (Msgpack.decode (Msgpack.encode val)); reflexivity.
Qed.

(** *** Reading keeps the trie sound *)

(** [m] keeps a sound trie sound, whether it returns or throws, and what
    it returns is [phi]. *)
Definition keeps_sound {A} (phi : A -> Prop) (m : M trie A) : Prop :=
  forall t, sound t -> sound (snd (m t)) /\ forall a, fst (m t) = Ok a -> phi a.

Lemma ks_ret {A} (phi : A -> Prop) (a : A) : phi a -> keeps_sound phi (ret a).
Proof. intros Ha t Hs. split; [exact Hs |]. now intros a' [= <-]. Qed.

Lemma ks_throw {A} (phi : A -> Prop) (e : error) : keeps_sound phi (@throw trie A e).
Proof. intros t Hs. split; [exact Hs | discriminate]. Qed.

Lemma ks_bind {A B} (phi : A -> Prop) (psi : B -> Prop) (m : M trie A) (k : A -> M trie B) :
  keeps_sound phi m -> (forall a, phi a -> keeps_sound psi (k a)) ->
  keeps_sound psi (bind m k).
Proof.
  intros Hm Hk t Hs. destruct (Hm t Hs) as (Hs1 & Hphi). unfold bind.
  destruct (m t) as [[a | e] t1]; cbn [fst snd] in *; [| split; [exact Hs1 | discriminate]].
  exact (Hk a (Hphi a eq_refl) t1 Hs1).
Qed.

Lemma ks_weaken {A} (phi psi : A -> Prop) (m : M trie A) :
  (forall a, phi a -> psi a) -> keeps_sound phi m -> keeps_sound psi m.
Proof.
  intros Hi Hm t Hs. destruct (Hm t Hs) as (Hs1 & Hphi).
  split; [exact Hs1 |]. intros a Ha. exact (Hi a (Hphi a Ha)).
Qed.

Lemma ks_getRoot : keeps_sound sound_node getRoot.
Proof.
  intros t Hs. destruct (getRoot_returns t Hs) as (root & t' & E).
  destruct (getRoot_sound t t' root Hs E) as (Hr & Hs' & _). rewrite E.
  split; [exact Hs' |]. now intros a [= <-].
Qed.

(** What the store returns for a digest. *)
Lemma ks_storage_get (h : jsstring) :
  is_digest h ->
  keeps_sound (fun r => forall buffer, r = Some buffer ->
                 exists n0, sound_node n0 /\ buffer = Bytes (layout n0))
              (storage_get h).
Proof.
  intros Hd t Hs. destruct (storage_get_run h t) as (r & E & _ & Hr). rewrite E.
  split; [exact Hs |]. intros a [= <-] buffer ->.
  destruct (stored_node t h buffer Hs Hd (Hr _ eq_refl)) as (n0 & Hn0 & -> & _). now exists n0.
Qed.

Lemma ks_nodeCache_get (h : jsstring) :
  keeps_sound (fun r => forall n, r = Some n -> sound_node n) (nodeCache_get h).
Proof.
  intros t Hs. destruct (nodeCache_get_sound h t Hs) as (Hs' & _ & Hhit).
  split; [exact Hs' |]. intros a Ha n ->. now apply Hhit.
Qed.

Lemma ks_nodeCache_set (h : jsstring) (n : node) :
  sound_node n -> keeps_sound (fun _ => True) (nodeCache_set h n).
Proof.
  intros Hn t Hs. destruct (nodeCache_set_sound h n t Hs Hn) as (Hs' & _). now split.
Qed.

Lemma ks_walk (chars : list jsstring) :
  forall cur, sound_node cur ->
    keeps_sound (fun r => forall n, r = Some n -> sound_node n) (walk chars cur).
Proof.
  induction chars as [| c rest IH]; intros cur Hcur.
  - apply ks_ret. now intros n [= <-].
  - cbn [walk]. destruct (obj_get (children cur) c) as [[| z h] |] eqn:Ec;
      try (apply ks_ret; discriminate).
    assert (Hd : is_digest (z :: h)).
    { destruct Hcur as [Hwf _]. apply obj_get_In in Ec. exact (wf_digests cur Hwf _ _ Ec). }
    eapply ks_bind; [apply ks_nodeCache_get |]. intros [n |] Hhit; [now apply IH, Hhit |].
    eapply ks_bind; [now apply ks_storage_get |]. intros [buffer |] Hb;
      [| apply ks_ret; discriminate].
    destruct (Hb buffer eq_refl) as (n0 & Hn0 & ->). cbn [deserialize_stored].
    rewrite (proj1 (proj2 (sound_round_trip n0 Hn0))).
    pose proof (sound_rebuilt n0 Hn0) as Hr.
    apply (ks_bind (fun n => n = make (value n0) (low_byte_children n0))).
    + intros t Hs. split; [exact Hs |]. now intros a [= <-].
    + intros n ->. eapply ks_bind; [now apply ks_nodeCache_set |]. intros _ _. now apply IH.
Qed.

Lemma sound_valueCache (f : list (jsstring * JSValue) -> list (jsstring * JSValue)) (t : trie) :
  sound t -> sound (with_valueCache f t).
Proof. intros (H1 & H2 & H3 & H4). split; [exact H1 | split; [exact H2 | now split]]. Qed.

Lemma ks_valueStore_get (key : option jsstring) : keeps_sound (fun _ => True) (valueStore_get key).
Proof.
  destruct key as [[| c k] |]; try (now apply ks_ret).
  cbn [valueStore_get].
  apply (ks_bind (fun _ => True)); [intros t Hs; now split |].
  intros [v |] _; [now apply ks_ret |].
  apply (ks_bind (fun _ => True)).
  { intros t Hs. destruct (storage_get_run (c :: k) t) as (r & E & _). rewrite E. now split. }
  intros [[b | s0] |] _; [| apply ks_throw | now apply ks_ret].
  apply (ks_bind (fun _ => True)).
  { intros t Hs. unfold lift. now destruct (Msgpack.decode b). }
  intros v _. apply (ks_bind (fun _ => True)); [| intros; now apply ks_ret].
  intros t Hs. split; [| easy]. now apply sound_valueCache.
Qed.

Lemma ks_get `{P : Platform} (key : jsstring) : keeps_sound (fun _ => True) (get key).
Proof.
  unfold get. eapply ks_bind; [apply ks_getRoot |]. intros root Hroot.
  eapply ks_bind; [now apply ks_walk |]. intros [n |] _; [| now apply ks_ret].
  destruct (hasValue n); [apply ks_valueStore_get | now apply ks_ret].
Qed.

(** *** The two properties *)

Lemma sound_new_trie : sound new_trie.
Proof.
  split; [intros h n [] |]. split; [discriminate |]. split; [discriminate |].
  intros h b _ Hg. discriminate Hg.
Qed.

Section WithPlatform.
Context {P : Platform}.

(** The trie stays sound: [put] on a sound trie, under a key whose
    normal form has only characters below 256, returns and leaves a
    sound trie; [get] leaves a sound trie, whether it returns or throws.
    In a sound trie the nodes of the caches and those the store holds
    under digests are of the kind that [serialize] and [deserialize]
    keep, and the root is a digest. *)
Theorem trie_stays_sound (key : jsstring) (val : JSValue) (t : trie) :
  sound t -> Forall (fun c => 0 <= c < 256) (normalizeKey key) ->
  returns (fst (put key val t)) = true /\
  sound (snd (put key val t)) /\
  sound (snd (get key t)).
Proof.
  intros Hs Hpath.
  destruct (put_run key val t Hs Hpath) as (root & t' & W & vko & E & _ & _ & _ & _ & Hs' & _).
  rewrite E. split; [reflexivity |]. split; [exact Hs' |]. exact (proj1 (ks_get key t Hs)).
Qed.

(** What [put] wrote is read from the store alone: a trie opened on the
    store that [put] left, at the root digest [put] returned, with empty
    caches, answers [get] of the key with the decoding of the encoding
    of the value.  The trie is sound, the normal form of the key has only
    characters below 256, the value is neither [null] nor [undefined],
    the store held nothing else under the key of the value, and no two
    nodes written have the same digest. *)
Theorem put_survives_reopen (key : jsstring) (val : JSValue) (t : trie) :
  sound t -> Forall (fun c => 0 <= c < 256) (normalizeKey key) ->
  val <> JNull -> val <> JUndefined ->
  (forall b, obj_get (storage t) (valueKey val) = Some b -> b = Bytes (Msgpack.encode val)) ->
  NoDup (map fst (lastBatch (snd (put key val t)))) ->
  exists root,
    fst (put key val t) = Ok root /\
    fst (get key (open_trie (storage (snd (put key val t))) (Some root))) =
    Msgpack.decode (Msgpack.encode val).
Proof.
  intros Hs Hpath Hn Hu Hb Hnd.
  destruct (put_run key val t Hs Hpath)
    as (root & t' & W & vko & E & EW & HW & Hd & _ & _ & Hval & Hstored & Hchain).
  rewrite E in *. cbn [fst snd] in *. exists root. split; [reflexivity |].
  destruct (Hval Hn Hu) as (-> & Hvk). specialize (Hvk Hb).
  assert (Hkeys : NoDup (map fst W)).
  { rewrite EW, map_map in Hnd. exact Hnd. }
  assert (HV : Forall (fun e => Map_get W (fst e) = Some (snd e)) W).
  { apply List.Forall_forall. intros [h n] He. now apply In_obj_get. }
  destruct (Hchain W HV) as (rootnode & leaf & Hroot & Hch & Hleaf).
  apply (get_cold key val (storage t') root W rootnode leaf); try assumption.
  - intros h n Hg. apply obj_get_In in Hg.
    destruct (Hstored h (in_map fst _ _ Hg)) as (n' & Hn' & Hg').
    assert (n' = n) as -> by exact (keys_unique W h n' n Hkeys Hn' Hg).
    split; [| exact Hg'].
    rewrite List.Forall_forall in HW. exact (proj1 (HW _ Hg)).
  - now rewrite (chars_of_plain _ Hpath).
Qed.

End WithPlatform.

Import Toy.

Lemma trie_stays_sound_witness :
  returns (fst (put (js "k") (JBool true) new_trie)) = true /\
  sound (snd (put (js "k") (JBool true) new_trie)) /\
  sound (snd (get (js "k") new_trie)).
Proof.
  apply (trie_stays_sound (js "k") (JBool true) new_trie).
  - exact sound_new_trie.
  - vm_compute. repeat constructor; discriminate.
Defined.

Lemma put_survives_reopen_witness :
  exists root,
    fst (put (js "k") (JBool true) new_trie) = Ok root /\
    fst (get (js "k")
           (open_trie (storage (snd (put (js "k") (JBool true) new_trie))) (Some root))) =
    Msgpack.decode (Msgpack.encode (JBool true)).
Proof.
  apply (put_survives_reopen (js "k") (JBool true) new_trie).
  - exact sound_new_trie.
  - vm_compute. repeat constructor; discriminate.
  - discriminate.
  - discriminate.
  - intros b Hg. discriminate Hg.
  - refine (bool_decide_unpack (NoDup _) _). vm_compute. exact I.
Defined.

End StoredFacts.

